(** * pyloid-js: the readiness gate and its consumers

    A shallow embedding of the SDK core:
    - [PyloidReadyManager] (src/core/pyloidReadyManager.ts),
    - [BaseAPI] and its [ensureReady] (src/core/event.ts), [IPC.callIPC]
      (src/core/ipc.ts),
    - [RpcClient] (src/core/rpc.ts),
    - the enhanced [fetch] module with [buildUrl] and its two lazy caches.

    Asynchronous code is modelled by explicit state passing over an event
    alphabet: one event is one run-to-completion job of the JavaScript event
    loop (a timer callback, a call made by application code, the continuation
    of an [await]).  Every interleaving the real scheduler can produce is a
    list of events, so a property proved for all event lists holds for it.

    What belongs to the platform and not to this repository is a parameter
    or comes with the event: the members a value inherits from the
    prototypes of its realm, the texts the engine gives to numbers and to its
    own TypeErrors, the answers of the host and of the network.

    Console output is not part of the model.  JavaScript numbers that are only
    passed through are integers here. *)

From Stdlib Require Import ZArith Ascii String List Bool Lia.
From stdpp Require Import base option list strings gmap pretty.

#[local] Set Warnings "-register-all".
#[local] Open Scope string_scope.
#[local] Open Scope list_scope.

(* ===================================================================== *)
(** * Part I: definitions                                                 *)
(* ===================================================================== *)

(** ** JavaScript values, as far as the bridge code inspects them *)

Module JS.

(** A callable: a function the host put on the bridge, or a member every
    value inherits from the standard prototypes. *)
Inductive Fn :=
| HostFn (id : nat)
| Builtin (name : string).

(** Functions are objects with properties of their own. *)
Inductive Val :=
| VUndefined
| VNull
| VBool (b : bool)
| VNum (n : Z)
| VStr (s : string)
| VObj (props : gmap string Val)
| VFun (f : Fn) (props : gmap string Val).

(** [typeof v] *)
Definition typeof (v : Val) : string :=
  match v with
  | VUndefined => "undefined"
  | VNull => "object"
  | VBool _ => "boolean"
  | VNum _ => "number"
  | VStr _ => "string"
  | VObj _ => "object"
  | VFun _ _ => "function"
  end.

(** ToBoolean: the value of [v] in a condition. *)
Definition truthy (v : Val) : bool :=
  match v with
  | VUndefined | VNull => false
  | VBool b => b
  | VNum n => negb (n =? 0)%Z
  | VStr s => negb (String.eqb s "")
  | VObj _ | VFun _ _ => true
  end.

(** [!s] for a [string | null] variable: null and the empty string. *)
Definition falsy_str (s : option string) : bool :=
  match s with
  | None => true
  | Some x => String.eqb x ""
  end.

(** What a property read finds beyond the own properties the model gives a
    value: the members inherited through its prototype chain and, for a
    string, its length and characters.  The prototypes belong to the
    platform and to the host, not to this repository, so they are a
    parameter: a realm answers, for a value and a key, with what is found
    (undefined when nothing is). *)
Definition Realm : Type := Val -> string -> Val.

(** [v[k]] in a realm.  The bridge code reads properties of truthy values
    only; on undefined and null (a TypeError in JavaScript) the model
    answers undefined. *)
Definition get (inherited : Realm) (v : Val) (k : string) : Val :=
  match v with
  | VUndefined | VNull => VUndefined
  | VObj ps | VFun _ ps =>
      match ps !! k with
      | Some x => x
      | None => inherited v k
      end
  | VBool _ | VNum _ | VStr _ => inherited v k
  end.

(** A realm for the examples, with two of the members every engine has:
    each value other than undefined and null answers to [toString] and
    [valueOf] with the function of its own prototype. *)
Definition two_members : Realm := fun v k =>
  let proto :=
    match v with
    | VStr _ => "String.prototype."
    | VNum _ => "Number.prototype."
    | VBool _ => "Boolean.prototype."
    | VFun _ _ => "Function.prototype."
    | _ => "Object.prototype."
    end in
  match v with
  | VUndefined | VNull => VUndefined
  | _ =>
      if String.eqb k "toString" || String.eqb k "valueOf"
      then VFun (Builtin (proto +:+ k)) ∅
      else VUndefined
  end.

(** [s.split(sep)] for a one-character separator: never the empty list. *)
Fixpoint split (sep : ascii) (s : string) : list string :=
  match s with
  | EmptyString => [EmptyString]
  | String c rest =>
      if Ascii.eqb c sep then EmptyString :: split sep rest
      else match split sep rest with
           | x :: xs => String c x :: xs
           | [] => [String c EmptyString]
           end
  end.

(** [parts.join(sep)] *)
Fixpoint join (sep : string) (parts : list string) : string :=
  match parts with
  | [] => ""
  | [x] => x
  | x :: rest => x +:+ sep +:+ join sep rest
  end.

(** [s.startsWith(p)] *)
Definition startsWith (s p : string) : bool := String.prefix p s.

End JS.

(** ** buildUrl (fetch module) *)

Module Url.

(** [s.replace(/\/$/, '')]: the leftmost place where a slash is followed by
    the end of the input is cut out. *)
Fixpoint replace_trailing_slash (s : string) : string :=
  match s with
  | EmptyString => EmptyString
  | String c rest =>
      if Ascii.eqb c "/" && String.eqb rest ""
      then EmptyString
      else String c (replace_trailing_slash rest)
  end.

(** [s.replace(/^\//, '')]: the pattern can only match at the start. *)
Definition replace_leading_slash (s : string) : string :=
  match s with
  | String c rest => if Ascii.eqb c "/" then rest else s
  | EmptyString => s
  end.

Definition buildUrl (serverUrl path : string) : string :=
  if JS.startsWith path "http://" || JS.startsWith path "https://"
  then path
  else
    let baseUrl := replace_trailing_slash serverUrl in
    let cleanPath := replace_leading_slash path in
    baseUrl +:+ "/" +:+ cleanPath.

End Url.

(** ** IPC.callIPC: the function handed to ensureReady *)

Module IPC.
Import JS.

(** How the body ends: an exception, or the tail call
    [return current[methodName](...args)], whose result is the result of
    the whole call. *)
Inductive Outcome :=
| Threw (message : string)
| Invoked (f : Fn) (this : Val) (args : list Val).

Definition not_accessible (path prefix_ : string) : string :=
  "IPC path '" +:+ path +:+ "' is not accessible. '" +:+ prefix_ +:+
  "' is not an object.".

Definition not_available (path : string) : string :=
  "IPC method '" +:+ path +:+ "' is not available or not a function.".

(** The [for] loop: [n] iterations remain, [i] is the loop index. *)
Fixpoint navigate (realm : Realm) (path : string) (parts : list string)
    (n i : nat) (current : Val) : string + Val :=
  match n with
  | O => inr current
  | S n' =>
      if truthy current && String.eqb (typeof current) "object"
      then navigate realm path parts n' (S i)
             (get realm current (nth i parts ""))
      else inl (not_accessible path (join "." (take (S i) parts)))
  end.

(** The function [callIPC] hands to [ensureReady], run in a realm with
    [window.ipc] as it is when the function runs. *)
Definition callIPC_body (realm : Realm) (ipc : Val) (path : string)
    (args : list Val) : Outcome :=
  let parts := split "." path in
  match navigate realm path parts (length parts - 1) 0 ipc with
  | inl message => Threw message
  | inr current =>
      let methodName := nth (length parts - 1) parts "" in
      if negb (truthy current)
         || negb (String.eqb (typeof (get realm current methodName))
                    "function")
      then Threw (not_available path)
      else
        match get realm current methodName with
        | VFun f _ => Invoked f current args
        | _ => Threw (not_available path)
        end
  end.

(** *** Vocabulary for stating what the walk does *)


(** The test of the loop: [current && typeof current === 'object']. *)
Definition is_object (v : Val) : bool :=
  truthy v && String.eqb (typeof v) "object".

End IPC.

(** ** PyloidReadyManager *)

Module PyloidReadyManager.

(** The promise created in the constructor; it carries no value. *)
Inductive PromiseState :=
| Pending
| Resolved
| Rejected (reason : string).

(** Settling a promise that is already settled does nothing. *)
Definition resolve (p : PromiseState) : PromiseState :=
  match p with
  | Pending => Resolved
  | _ => p
  end.

Definition reject (reason : string) (p : PromiseState) : PromiseState :=
  match p with
  | Pending => Rejected reason
  | _ => p
  end.

(** The global scope, as far as the SDK touches it.  [realm] is what the
    prototypes reachable from it ([String.prototype], [Object.prototype],
    ...) give to a property read.  [intervals] and [timeouts] hold the ids
    of the timers the manager registered and the browser still has; a
    timeout leaves [timeouts] when it fires. *)
Record Window := {
  __PYLOID__ : bool;
  ipc : JS.Val;
  realm : JS.Realm;
  intervals : list nat;
  timeouts : list nat;
  nextTimer : nat
}.

Record Manager := {
  ready : bool;
  readyPromise : PromiseState;
  pollingInterval : option nat;
  pollingTimeout : option nat;
  checkInterval : Z;
  timeoutDuration : Z
}.

(** [window] is [None] where [typeof window === 'undefined']. *)
Record State := {
  window : option Window;
  this : Manager
}.

Definition timed_out : string := "Pyloid initialization timed out.".
Definition no_window : string := "Window object not found.".

Definition set_ready (b : bool) (m : Manager) : Manager :=
  {| ready := b; readyPromise := readyPromise m;
     pollingInterval := pollingInterval m;
     pollingTimeout := pollingTimeout m;
     checkInterval := checkInterval m;
     timeoutDuration := timeoutDuration m |}.

Definition set_readyPromise (p : PromiseState) (m : Manager) : Manager :=
  {| ready := ready m; readyPromise := p;
     pollingInterval := pollingInterval m;
     pollingTimeout := pollingTimeout m;
     checkInterval := checkInterval m;
     timeoutDuration := timeoutDuration m |}.

Definition set_pollingInterval (i : option nat) (m : Manager) : Manager :=
  {| ready := ready m; readyPromise := readyPromise m;
     pollingInterval := i;
     pollingTimeout := pollingTimeout m;
     checkInterval := checkInterval m;
     timeoutDuration := timeoutDuration m |}.

Definition set_pollingTimeout (i : option nat) (m : Manager) : Manager :=
  {| ready := ready m; readyPromise := readyPromise m;
     pollingInterval := pollingInterval m;
     pollingTimeout := i;
     checkInterval := checkInterval m;
     timeoutDuration := timeoutDuration m |}.

(** [window.setInterval(cb, ms)] and [window.setTimeout(cb, ms)]: a fresh
    id, remembered by the browser. *)
Definition setInterval (w : Window) : nat * Window :=
  (nextTimer w,
   {| __PYLOID__ := __PYLOID__ w; ipc := ipc w; realm := realm w;
      intervals := nextTimer w :: intervals w;
      timeouts := timeouts w;
      nextTimer := S (nextTimer w) |}).

Definition setTimeout (w : Window) : nat * Window :=
  (nextTimer w,
   {| __PYLOID__ := __PYLOID__ w; ipc := ipc w; realm := realm w;
      intervals := intervals w;
      timeouts := nextTimer w :: timeouts w;
      nextTimer := S (nextTimer w) |}).

Definition drop (id : nat) (ids : list nat) : list nat :=
  filter (fun j => negb (Nat.eqb j id)) ids.

Definition clearInterval (id : nat) (w : Window) : Window :=
  {| __PYLOID__ := __PYLOID__ w; ipc := ipc w; realm := realm w;
     intervals := drop id (intervals w);
     timeouts := timeouts w;
     nextTimer := nextTimer w |}.

Definition clearTimeout (id : nat) (w : Window) : Window :=
  {| __PYLOID__ := __PYLOID__ w; ipc := ipc w; realm := realm w;
     intervals := intervals w;
     timeouts := drop id (timeouts w);
     nextTimer := nextTimer w |}.

(** Timer ids are only ever stored by the branch of the constructor that
    has a window, so [stopPolling] never reaches [window.clearInterval]
    without one (see [timers_need_window]); there the model only forgets
    the id. *)
Definition stopPolling (s : State) : State :=
  let s1 :=
    match pollingInterval (this s) with
    | Some id =>
        {| window := clearInterval id <$> window s;
           this := set_pollingInterval None (this s) |}
    | None => s
    end in
  match pollingTimeout (this s1) with
  | Some id =>
      {| window := clearTimeout id <$> window s1;
         this := set_pollingTimeout None (this s1) |}
  | None => s1
  end.

Definition setReady (s : State) : State :=
  if negb (ready (this s)) then
    let s1 := {| window := window s; this := set_ready true (this s) |} in
    let s2 := stopPolling s1 in
    {| window := window s2;
       this := set_readyPromise (resolve (readyPromise (this s2))) (this s2) |}
  else s.

Definition isReady (s : State) : bool := ready (this s).

Definition whenReady (s : State) : PromiseState := readyPromise (this s).

(** The fields as initialised before the constructor body runs. *)
Definition fresh (checkInterval timeoutDuration : Z) : Manager :=
  {| ready := false; readyPromise := Pending;
     pollingInterval := None; pollingTimeout := None;
     checkInterval := checkInterval; timeoutDuration := timeoutDuration |}.

(** [new PyloidReadyManager(checkInterval, timeoutDuration)] in the global
    scope [w]. *)
Definition constructor (checkInterval timeoutDuration : Z)
    (w : option Window) : State :=
  let m := fresh checkInterval timeoutDuration in
  match w with
  | Some win =>
      if __PYLOID__ win then setReady {| window := w; this := m |}
      else
        let '(i, win1) := setInterval win in
        let m1 := set_pollingInterval (Some i) m in
        let '(t, win2) := setTimeout win1 in
        let m2 := set_pollingTimeout (Some t) m1 in
        {| window := Some win2; this := m2 |}
  | None =>
      {| window := None;
         this := set_readyPromise (reject no_window (readyPromise m)) m |}
  end.

(** The callback given to [setInterval]. *)
Definition on_interval (s : State) : State :=
  match window s with
  | Some win => if __PYLOID__ win then setReady (stopPolling s) else s
  | None => s
  end.

(** The callback given to [setTimeout]. *)
Definition on_timeout (s : State) : State :=
  if negb (ready (this s)) then
    let s1 := stopPolling s in
    {| window := window s1;
       this := set_readyPromise (reject timed_out (readyPromise (this s1)))
                 (this s1) |}
  else s.

(** The browser runs the interval callback of a live timer. *)
Definition fire_interval (id : nat) (s : State) : State :=
  match window s with
  | Some win =>
      if bool_decide (id ∈ intervals win) then on_interval s else s
  | None => s
  end.

(** The browser runs the callback of an armed timeout, once. *)
Definition fire_timeout (id : nat) (s : State) : State :=
  match window s with
  | Some win =>
      if bool_decide (id ∈ timeouts win) then
        on_timeout {| window := Some (clearTimeout id win); this := this s |}
      else s
  | None => s
  end.

(** The host injects [window.__PYLOID__]. *)
Definition inject (s : State) : State :=
  match window s with
  | Some win =>
      {| window := Some {| __PYLOID__ := true; ipc := ipc win;
                           realm := realm win;
                           intervals := intervals win;
                           timeouts := timeouts win;
                           nextTimer := nextTimer win |};
         this := this s |}
  | None => s
  end.

(** The host (re)defines [window.ipc]. *)
Definition set_ipc (v : JS.Val) (s : State) : State :=
  match window s with
  | Some win =>
      {| window := Some {| __PYLOID__ := __PYLOID__ win; ipc := v;
                           realm := realm win;
                           intervals := intervals win;
                           timeouts := timeouts win;
                           nextTimer := nextTimer win |};
         this := this s |}
  | None => s
  end.

(** *** Invariants of the manager *)

(** Every live interval timer is the one the manager remembers. *)
Definition owned (s : State) : Prop :=
  forall win j, window s = Some win -> j ∈ intervals win ->
    pollingInterval (this s) = Some j.

(** No interval timer is left. *)
Definition quiet (s : State) : Prop :=
  forall win, window s = Some win -> intervals win = [].

Definition gate_inv (s : State) : Prop :=
  owned s
  /\ (whenReady s <> Pending -> quiet s)
  /\ (window s = None ->
      pollingInterval (this s) = None /\ pollingTimeout (this s) = None).

(** The promise is resolved only with the flag set. *)
Definition resolved_ready (s : State) : Prop :=
  whenReady s = Resolved -> isReady s = true.

End PyloidReadyManager.

(** ** BaseAPI and IPC over the readiness gate *)

Module Bridge.
Import PyloidReadyManager.

(** The methods of [BaseAPI]; method [m] forwards its arguments to
    [window.__PYLOID__.m].  [getRpcUrl] belongs to the earlier [BaseAPI]
    kept in event.ts, [getServerUrl] to the current one. *)
Inductive Method :=
| getData
| getWindowId
| getWindowProperties
| close
| hide
| show
| focus
| showAndFocus
| fullscreen
| toggleFullscreen
| minimize
| maximize
| unmaximize
| toggleMaximize
| isFullscreen
| isMaximized
| setTitle (title : string)
| setSize (width height : Z)
| setPosition (x y : Z)
| setFrame (frame : bool)
| getFrame
| getTitle
| getSize
| getPosition
| setClipboardText (text : string)
| getClipboardText
| setClipboardImage (imagePath format : string)
| getClipboardImage
| quit
| getPlatform
| isProduction
| getProductionPath (path : string)
| getRpcUrl
| getServerUrl.

(** A call made by application code.  [Typed] is a method of the current
    [BaseAPI], whose [ensureReady] first looks for [window]; [TypedV1] is
    a method of the earlier [BaseAPI], whose [ensureReady] does not;
    [Dynamic] is [IPC.callIPC]. *)
Inductive Request :=
| Typed (m : Method)
| TypedV1 (m : Method)
| Dynamic (path : string) (args : list JS.Val).

(** How the promise returned to the caller is decided.  [Forwarded m]: the
    bridge function [window.__PYLOID__.m] was invoked.  [Dispatched]: the
    function found by [callIPC] was invoked.  [NoBridge]: the TypeError of
    reading a member of an absent [window.__PYLOID__] (or of an absent
    [window]). *)
Inductive Completion :=
| Failed (message : string)
| NoBridge
| Forwarded (m : Method)
| Dispatched (f : JS.Fn) (this : JS.Val) (args : list JS.Val).

Definition invokes (c : Completion) : bool :=
  match c with
  | Forwarded _ | Dispatched _ _ _ => true
  | Failed _ | NoBridge => false
  end.

(** One line of the history: which call, how it ended, whether it went
    through [await whenReady()], and what [isReady()] and the promise were
    at the moment the call ended. *)
Record Entry := {
  request : Request;
  completion : Completion;
  awaited : bool;
  ready_at : bool;
  signal_at : PromiseState
}.

(** The manager singleton with its global scope, the calls suspended in
    [await pyloidReadyManager.whenReady()], and the history. *)
Record World := {
  gate : State;
  suspended : list Request;
  history : list Entry
}.

Definition ssr_message (r : Request) : string :=
  match r with
  | Dynamic _ _ =>
      "IPC is not available in server-side rendering environment."
  | _ =>
      "Pyloid API is not available in server-side rendering environment."
  end.

Definition checks_window (r : Request) : bool :=
  match r with
  | TypedV1 _ => false
  | _ => true
  end.

(** [fn()], the function each operation hands to [ensureReady]. *)
Definition fn (r : Request) (s : State) : Completion :=
  match window s with
  | None => NoBridge
  | Some win =>
      match r with
      | Typed m | TypedV1 m =>
          if __PYLOID__ win then Forwarded m else NoBridge
      | Dynamic path args =>
          match IPC.callIPC_body (realm win) (ipc win) path args with
          | IPC.Threw message => Failed message
          | IPC.Invoked f this args' => Dispatched f this args'
          end
      end
  end.

Definition record (r : Request) (c : Completion) (a : bool) (w : World)
    : list Entry :=
  history w ++
    [{| request := r; completion := c; awaited := a;
        ready_at := isReady (gate w); signal_at := whenReady (gate w) |}].

(** [ensureReady(fn)] up to its first suspension point. *)
Definition ensureReady (r : Request) (w : World) : World :=
  if checks_window r && negb (bool_decide (is_Some (window (gate w)))) then
    {| gate := gate w; suspended := suspended w;
       history := record r (Failed (ssr_message r)) false w |}
  else if negb (isReady (gate w)) then
    {| gate := gate w; suspended := suspended w ++ [r];
       history := history w |}
  else
    {| gate := gate w; suspended := suspended w;
       history := record r (fn r (gate w)) false w |}.

(** The continuation of [await pyloidReadyManager.whenReady()] of the
    [i]-th suspended call; it runs only once the promise is settled. *)
Definition resume (i : nat) (w : World) : World :=
  match suspended w !! i with
  | None => w
  | Some r =>
      match whenReady (gate w) with
      | Pending => w
      | Resolved =>
          {| gate := gate w; suspended := delete i (suspended w);
             history := record r (fn r (gate w)) true w |}
      | Rejected reason =>
          {| gate := gate w; suspended := delete i (suspended w);
             history := record r (Failed reason) true w |}
      end
  end.

Inductive Event :=
| Inject
| SetIpc (v : JS.Val)
| PollTick (id : nat)
| TimeoutFires (id : nat)
| SetReady
| Issue (r : Request)
| Resume (i : nat).

Definition on_gate (f : State -> State) (w : World) : World :=
  {| gate := f (gate w); suspended := suspended w; history := history w |}.

Definition step (w : World) (e : Event) : World :=
  match e with
  | Inject => on_gate inject w
  | SetIpc v => on_gate (set_ipc v) w
  | PollTick id => on_gate (fire_interval id) w
  | TimeoutFires id => on_gate (fire_timeout id) w
  | SetReady => on_gate setReady w
  | Issue r => ensureReady r w
  | Resume i => resume i w
  end.

Definition run (w : World) (es : list Event) : World := fold_left step es w.

(** The global scope of a page before the SDK is loaded: the manager has
    registered no timer yet. *)
Definition page (realm : JS.Realm) (bridge : bool) (ipc : JS.Val)
    (nextTimer : nat) : Window :=
  {| __PYLOID__ := bridge; ipc := ipc; realm := realm; intervals := [];
     timeouts := []; nextTimer := nextTimer |}.

(** Module load: [export const pyloidReadyManager = new PyloidReadyManager()]
    with the default interval and timeout. *)
Definition boot (global : option Window) : World :=
  {| gate := constructor 20 10000 global; suspended := []; history := [] |}.

(** *** Invariants of the world *)

(** A call that reached a bridge function did so with the flag set, and,
    if it had been suspended, after the promise was resolved. *)
Definition entry_ok (e : Entry) : Prop :=
  invokes (completion e) = true ->
  ready_at e = true /\ (awaited e = true -> signal_at e = Resolved).

Definition world_inv (w : World) : Prop :=
  (whenReady (gate w) = Resolved -> isReady (gate w) = true)
  /\ (forall e, e ∈ history w -> entry_ok e).


End Bridge.

(** ** Promises that carry a string, and the host's answers *)

Module Async.

Inductive Promise :=
| Pending
| Fulfilled (value : string)
| Rejected (reason : string).

(** What a call to the host bridge comes back with: a value, or a thrown
    error (already converted to text, as a template literal does). *)
Inductive Answer :=
| Ok (value : string)
| Err (error : string).

(** Promises live in a store and are named by their position, so that the
    variable holding a promise and the callers awaiting it share it. *)
Definition alloc (p : Promise) (store : list Promise) : nat * list Promise :=
  (length store, store ++ [p]).

Definition settle (r : nat) (p : Promise) (store : list Promise)
    : list Promise :=
  match store !! r with
  | Some Pending => <[r := p]> store
  | _ => store
  end.

(** Where an async function stands at an [await] on a stored promise. *)
Inductive Progress :=
| Awaiting (r : nat)
| Returned
| Thrown (message : string).

End Async.

(** ** The enhanced fetch and its two caches *)

Module PyloidFetch.
Import Async.

Inductive Cache := ServerUrl | WindowId.

#[global] Instance Cache_eq_dec : EqDecision Cache.
Proof. solve_decision. Defined.

(** [HeadersInit]: a plain record, a [Headers] instance, or an array of
    name/value pairs. *)
Inductive HeadersInit :=
| HeadersRecord (r : gmap string string)
| HeadersInstance (entries : list (string * string))
| HeadersPairs (pairs : list (list string)).

(** A property value of the merged headers object. *)
Inductive HeaderValue :=
| Text (s : string)
| Pair (p : list string)
| Null.

(** [RequestInit]: the headers, and every other option by name. *)
Record RequestInit := {
  headers : option HeadersInit;
  others : gmap string JS.Val
}.

(** The second argument given to [globalThis.fetch]. *)
Record EnhancedOptions := {
  enhanced_headers : gmap string HeaderValue;
  enhanced_others : gmap string JS.Val
}.

Record Sent := {
  completeUrl : string;
  enhancedOptions : EnhancedOptions
}.

(** One call of [fetch]: its arguments, its two [ensure...Initialized]
    calls, the first rejection seen by [Promise.all], and the request
    handed to the platform once it got that far. *)
Record FetchCall := {
  url : string;
  options : RequestInit;
  ensureServerUrl : Progress;
  ensureWindowId : Progress;
  rejection : option string;
  outcome : option (string + Sent)
}.

(** The module-level variables, the promise store, the number of calls made
    to [baseAPI.getServerUrl] and [baseAPI.getWindowId], the calls of those
    two still unanswered (with the promise their initializer will settle),
    and the [fetch] calls made so far. *)
Record State := {
  serverUrl : option string;
  serverUrlPromise : option nat;
  windowId : option string;
  windowIdPromise : option nat;
  promises : list Promise;
  getServerUrl_calls : nat;
  getWindowId_calls : nat;
  inflight : list (Cache * nat);
  calls : list FetchCall
}.

Definition init : State :=
  {| serverUrl := None; serverUrlPromise := None;
     windowId := None; windowIdPromise := None;
     promises := []; getServerUrl_calls := 0; getWindowId_calls := 0;
     inflight := []; calls := [] |}.

Definition cached (c : Cache) (s : State) : option string :=
  match c with
  | ServerUrl => serverUrl s
  | WindowId => windowId s
  end.

Definition stored (c : Cache) (s : State) : option nat :=
  match c with
  | ServerUrl => serverUrlPromise s
  | WindowId => windowIdPromise s
  end.

Definition host_calls (c : Cache) (s : State) : nat :=
  match c with
  | ServerUrl => getServerUrl_calls s
  | WindowId => getWindowId_calls s
  end.

Definition failed_to_get (c : Cache) (error : string) : string :=
  match c with
  | ServerUrl => "Failed to get server URL: " +:+ error
  | WindowId => "Failed to get window ID: " +:+ error
  end.

Definition not_initialized (c : Cache) : string :=
  match c with
  | ServerUrl => "Server URL could not be initialized."
  | WindowId => "Window ID could not be initialized."
  end.

(** [initializeServerUrl()] / [initializeWindowId()] up to the [await]:
    the host is asked, and the promise of the async function is returned. *)
Definition initialize (c : Cache) (s : State) : nat * State :=
  let '(r, store) := alloc Pending (promises s) in
  (r,
   match c with
   | ServerUrl =>
       {| serverUrl := serverUrl s; serverUrlPromise := serverUrlPromise s;
          windowId := windowId s; windowIdPromise := windowIdPromise s;
          promises := store;
          getServerUrl_calls := S (getServerUrl_calls s);
          getWindowId_calls := getWindowId_calls s;
          inflight := inflight s ++ [(ServerUrl, r)]; calls := calls s |}
   | WindowId =>
       {| serverUrl := serverUrl s; serverUrlPromise := serverUrlPromise s;
          windowId := windowId s; windowIdPromise := windowIdPromise s;
          promises := store;
          getServerUrl_calls := getServerUrl_calls s;
          getWindowId_calls := S (getWindowId_calls s);
          inflight := inflight s ++ [(WindowId, r)]; calls := calls s |}
   end).

Definition store_promise (c : Cache) (r : nat) (s : State) : State :=
  match c with
  | ServerUrl =>
      {| serverUrl := serverUrl s; serverUrlPromise := Some r;
         windowId := windowId s; windowIdPromise := windowIdPromise s;
         promises := promises s;
         getServerUrl_calls := getServerUrl_calls s;
         getWindowId_calls := getWindowId_calls s;
         inflight := inflight s; calls := calls s |}
  | WindowId =>
      {| serverUrl := serverUrl s; serverUrlPromise := serverUrlPromise s;
         windowId := windowId s; windowIdPromise := Some r;
         promises := promises s;
         getServerUrl_calls := getServerUrl_calls s;
         getWindowId_calls := getWindowId_calls s;
         inflight := inflight s; calls := calls s |}
  end.

(** [ensureServerUrlInitialized()] / [ensureWindowIdInitialized()] up to
    the [await], or to the end when the cache is already filled. *)
Definition ensureInitialized (c : Cache) (s : State) : Progress * State :=
  if JS.falsy_str (cached c s) then
    match stored c s with
    | None =>
        let '(r, s1) := initialize c s in
        (Awaiting r, store_promise c r s1)
    | Some r => (Awaiting r, s)
    end
  else (Returned, s).

(** The rest of [ensure...Initialized] once the awaited promise is
    settled. *)
Definition after_await (c : Cache) (p : Promise) (s : State)
    : option Progress :=
  match p with
  | Pending => None
  | Fulfilled _ =>
      Some (if JS.falsy_str (cached c s) then Thrown (not_initialized c)
            else Returned)
  | Rejected reason => Some (Thrown reason)
  end.

Definition with_calls (cs : list FetchCall) (s : State) : State :=
  {| serverUrl := serverUrl s; serverUrlPromise := serverUrlPromise s;
     windowId := windowId s; windowIdPromise := windowIdPromise s;
     promises := promises s;
     getServerUrl_calls := getServerUrl_calls s;
     getWindowId_calls := getWindowId_calls s;
     inflight := inflight s; calls := cs |}.

Definition with_inflight (fl : list (Cache * nat)) (s : State) : State :=
  {| serverUrl := serverUrl s; serverUrlPromise := serverUrlPromise s;
     windowId := windowId s; windowIdPromise := windowIdPromise s;
     promises := promises s;
     getServerUrl_calls := getServerUrl_calls s;
     getWindowId_calls := getWindowId_calls s;
     inflight := fl; calls := calls s |}.

Definition with_promises (store : list Promise) (s : State) : State :=
  {| serverUrl := serverUrl s; serverUrlPromise := serverUrlPromise s;
     windowId := windowId s; windowIdPromise := windowIdPromise s;
     promises := store;
     getServerUrl_calls := getServerUrl_calls s;
     getWindowId_calls := getWindowId_calls s;
     inflight := inflight s; calls := calls s |}.

(** [serverUrl = url] / [windowId = id] *)
Definition assign (c : Cache) (v : string) (s : State) : State :=
  match c with
  | ServerUrl =>
      {| serverUrl := Some v; serverUrlPromise := serverUrlPromise s;
         windowId := windowId s; windowIdPromise := windowIdPromise s;
         promises := promises s;
         getServerUrl_calls := getServerUrl_calls s;
         getWindowId_calls := getWindowId_calls s;
         inflight := inflight s; calls := calls s |}
  | WindowId =>
      {| serverUrl := serverUrl s; serverUrlPromise := serverUrlPromise s;
         windowId := Some v; windowIdPromise := windowIdPromise s;
         promises := promises s;
         getServerUrl_calls := getServerUrl_calls s;
         getWindowId_calls := getWindowId_calls s;
         inflight := inflight s; calls := calls s |}
  end.

(** The host answers the [k]-th unanswered call: the rest of
    [initializeServerUrl] / [initializeWindowId] runs. *)
Definition answer (k : nat) (a : Answer) (s : State) : State :=
  match inflight s !! k with
  | None => s
  | Some (c, r) =>
      let s1 := with_inflight (delete k (inflight s)) s in
      match a with
      | Ok v =>
          let s2 := assign c v s1 in
          with_promises (settle r (Fulfilled v) (promises s2)) s2
      | Err e =>
          with_promises
            (settle r (Rejected (failed_to_get c e)) (promises s1)) s1
      end
  end.

Definition progress (c : Cache) (fc : FetchCall) : Progress :=
  match c with
  | ServerUrl => ensureServerUrl fc
  | WindowId => ensureWindowId fc
  end.

(** One of the two [ensure...Initialized] calls of a [fetch] call ends;
    [Promise.all] keeps the first rejection. *)
Definition finish_ensure (c : Cache) (p : Progress) (fc : FetchCall)
    : FetchCall :=
  let rej :=
    match rejection fc, p with
    | None, Thrown m => Some m
    | old, _ => old
    end in
  match c with
  | ServerUrl =>
      {| url := url fc; options := options fc;
         ensureServerUrl := p; ensureWindowId := ensureWindowId fc;
         rejection := rej; outcome := outcome fc |}
  | WindowId =>
      {| url := url fc; options := options fc;
         ensureServerUrl := ensureServerUrl fc; ensureWindowId := p;
         rejection := rej; outcome := outcome fc |}
  end.

(** The continuation of [await serverUrlPromise] / [await windowIdPromise]
    inside the [i]-th [fetch] call. *)
Definition wake (i : nat) (c : Cache) (s : State) : State :=
  match calls s !! i with
  | None => s
  | Some fc =>
      match progress c fc with
      | Awaiting r =>
          match promises s !! r with
          | None => s
          | Some p =>
              match after_await c p s with
              | None => s
              | Some pr =>
                  with_calls (<[i := finish_ensure c pr fc]> (calls s)) s
              end
          end
      | _ => s
      end
  end.

(** [{...init}] for the three shapes of [HeadersInit]: the own enumerable
    properties.  A [Headers] instance has none; an array has its indices. *)
Definition spread (h : option HeadersInit) : gmap string HeaderValue :=
  match h with
  | None => ∅
  | Some (HeadersRecord r) => Text <$> r
  | Some (HeadersInstance _) => ∅
  | Some (HeadersPairs ps) =>
      list_to_map (imap (fun i p => (pretty i, Pair p)) ps)
  end.

Definition session_header : string := "X-Pyloid-Window-Id".

(** [{...options, headers: {...options.headers, 'X-Pyloid-Window-Id':
    windowId!}}] *)
Definition enhance (o : RequestInit) (s : State) : EnhancedOptions :=
  {| enhanced_headers :=
       <[session_header :=
           match windowId s with
           | Some w => Text w
           | None => Null
           end]> (spread (headers o));
     enhanced_others := others o |}.

Definition is_absolute (path : string) : bool :=
  JS.startsWith path "http://" || JS.startsWith path "https://".

(** [fetch] after [await Promise.all([...])]: the request handed to
    [globalThis.fetch].  With [serverUrl] still null, [buildUrl] fails on
    [serverUrl.replace] unless the path is absolute. *)
Definition request (u : string) (o : RequestInit) (s : State)
    : string + Sent :=
  match serverUrl s with
  | Some base =>
      inr {| completeUrl := Url.buildUrl base u;
             enhancedOptions := enhance o s |}
  | None =>
      if is_absolute u
      then inr {| completeUrl := u; enhancedOptions := enhance o s |}
      else inl "TypeError"
  end.

Definition with_outcome (x : string + Sent) (fc : FetchCall) : FetchCall :=
  {| url := url fc; options := options fc;
     ensureServerUrl := ensureServerUrl fc;
     ensureWindowId := ensureWindowId fc;
     rejection := rejection fc; outcome := Some x |}.

(** The continuation of [await Promise.all([...])] of the [i]-th call. *)
Definition continue (i : nat) (s : State) : State :=
  match calls s !! i with
  | None => s
  | Some fc =>
      match outcome fc with
      | Some _ => s
      | None =>
          match rejection fc with
          | Some m => with_calls (<[i := with_outcome (inl m) fc]> (calls s)) s
          | None =>
              match ensureServerUrl fc, ensureWindowId fc with
              | Returned, Returned =>
                  with_calls
                    (<[i := with_outcome (request (url fc) (options fc) s) fc]>
                       (calls s)) s
              | _, _ => s
              end
          end
      end
  end.

(** [fetch(url, options)] up to [await Promise.all([...])]: both
    [ensure...Initialized] calls are started, in order. *)
Definition fetch (u : string) (o : RequestInit) (s : State) : State :=
  let '(p1, s1) := ensureInitialized ServerUrl s in
  let '(p2, s2) := ensureInitialized WindowId s1 in
  with_calls
    (calls s2 ++
       [{| url := u; options := o;
           ensureServerUrl := p1; ensureWindowId := p2;
           rejection := None; outcome := None |}]) s2.

Inductive Event :=
| Fetch (u : string) (o : RequestInit)
| Answer (k : nat) (a : Answer)
| Wake (i : nat) (c : Cache)
| Continue (i : nat).

Definition step (s : State) (e : Event) : State :=
  match e with
  | Fetch u o => fetch u o s
  | Answer k a => answer k a s
  | Wake i c => wake i c s
  | Continue i => continue i s
  end.

Definition run (s : State) (es : list Event) : State := fold_left step es s.

(** *** Invariants of the two caches *)

(** The variable that holds the promise, the promise, the cached value, the
    number of host calls and the unanswered host calls agree. *)
Definition cache_ok (c : Cache) (s : State) : Prop :=
  match stored c s with
  | None =>
      cached c s = None /\ host_calls c s = 0
      /\ (forall r, (c, r) ∉ inflight s)
  | Some r =>
      host_calls c s = 1
      /\ match promises s !! r with
         | None => False
         | Some Pending =>
             cached c s = None
             /\ (forall r', (c, r') ∈ inflight s -> r' = r)
         | Some (Fulfilled v) =>
             cached c s = Some v /\ (forall r', (c, r') ∉ inflight s)
         | Some (Rejected _) =>
             cached c s = None /\ (forall r', (c, r') ∉ inflight s)
         end
  end.

Definition state_ok (s : State) : Prop :=
  (forall c, cache_ok c s)
  /\ NoDup (inflight s).*1
  /\ (forall r r', serverUrlPromise s = Some r -> windowIdPromise s = Some r' ->
        r <> r').

(** Where an [ensure...Initialized] call stands, against the state. *)
Definition progress_ok (c : Cache) (s : State) (p : Progress) : Prop :=
  match p with
  | Awaiting r => stored c s = Some r
  | Returned =>
      exists v, cached c s = Some v /\ JS.falsy_str (Some v) = false
  | Thrown m =>
      exists r, stored c s = Some r
        /\ (promises s !! r = Some (Rejected m)
            \/ (m = not_initialized c
                /\ exists v, promises s !! r = Some (Fulfilled v)
                     /\ JS.falsy_str (Some v) = true))
  end.

(** A request that was handed to the platform was built from the two cached
    values. *)
Definition outcome_ok (s : State) (fc : FetchCall) : Prop :=
  match outcome fc with
  | Some (inr q) =>
      exists base w,
        serverUrl s = Some base /\ windowId s = Some w
        /\ JS.falsy_str (Some w) = false
        /\ q = {| completeUrl := Url.buildUrl base (url fc);
                  enhancedOptions :=
                    {| enhanced_headers :=
                         <[session_header := Text w]>
                           (spread (headers (options fc)));
                       enhanced_others := others (options fc) |} |}
  | _ => True
  end.

Definition call_ok (s : State) (fc : FetchCall) : Prop :=
  (forall c, progress_ok c s (progress c fc)) /\ outcome_ok s fc.

Definition inv (s : State) : Prop :=
  state_ok s /\ (forall fc, fc ∈ calls s -> call_ok s fc).

(** What later states keep of an earlier one. *)
Definition stable (s s' : State) : Prop :=
  (forall c r, stored c s = Some r -> stored c s' = Some r)
  /\ (forall c v, cached c s = Some v -> cached c s' = Some v)
  /\ (forall r p, promises s !! r = Some p -> p <> Pending ->
        promises s' !! r = Some p).

End PyloidFetch.

(** ** Header names on the wire *)

Module Http.

(** HTTP header names are case-insensitive.  A property of the headers
    object handed to the platform [fetch] names the same header as another
    when the two names are equal up to the case of the letters A to Z. *)
Definition lower (c : ascii) : ascii :=
  let n := nat_of_ascii c in
  if Nat.leb 65 n && Nat.leb n 90 then ascii_of_nat (n + 32) else c.

Fixpoint lowercase (s : string) : string :=
  match s with
  | EmptyString => EmptyString
  | String c rest => String (lower c) (lowercase rest)
  end.

Definition same_header (a b : string) : bool :=
  String.eqb (lowercase a) (lowercase b).

(** The properties of a headers object that name the header [name]: what
    the request carries under that name. *)
Definition carried (name : string)
    (hs : gmap string PyloidFetch.HeaderValue)
    : gmap string PyloidFetch.HeaderValue :=
  filter (fun kv => same_header kv.1 name = true) hs.

End Http.

(** ** Parsed JSON, as [response.json()] delivers it *)

Module Json.

(** A parsed JSON text.  A number is kept as the two things the client
    does with it: whether it is a zero (0 and -0, the numbers a JSON text
    can give that are falsy), and the text its conversion to a string
    gives ("-32601", "0.5", "1e+21").  An object holds its members as the
    parse leaves them, one value per name. *)
Inductive Value :=
| Null
| Bool (b : bool)
| Number (zero : bool) (text : string)
| Str (s : string)
| Array (items : list Value)
| Object (members : gmap string Value).

(** ToBoolean of a parsed value, or of undefined ([None]). *)
Definition truthy (v : option Value) : bool :=
  match v with
  | None | Some Null => false
  | Some (Bool b) => b
  | Some (Number zero _) => negb zero
  | Some (Str s) => negb (String.eqb s "")
  | Some (Array _) | Some (Object _) => true
  end.

(** [v.k] for a parsed value other than null and a name that no standard
    prototype has ([error], [message], [code] and [result] are such names):
    the own member of an object, undefined for everything else. *)
Definition member (v : Value) (k : string) : option Value :=
  match v with
  | Object ms => ms !! k
  | _ => None
  end.

(** The conversion to a string a template literal applies; [None] where it
    throws a TypeError.  An array is joined with commas, null elements
    giving the empty text; an object is "[object Object]" unless a member
    of its own named [toString] hides [Object.prototype.toString]: that
    member is no function, and neither it nor [valueOf] yields a
    primitive. *)
Fixpoint to_string (v : Value) : option string :=
  match v with
  | Null => Some "null"
  | Bool b => Some (if b then "true" else "false")
  | Number _ t => Some t
  | Str s => Some s
  | Array items =>
      JS.join "," <$>
        (fix elements (l : list Value) : option (list string) :=
           match l with
           | [] => Some []
           | x :: rest =>
               match match x with
                     | Null => Some ""
                     | _ => to_string x
                     end, elements rest with
               | Some a, Some b => Some (a :: b)
               | _, _ => None
               end
           end) items
  | Object ms =>
      match ms !! "toString" with
      | Some _ => None
      | None => Some "[object Object]"
      end
  end.

(** [`${v}`] where [v] may be undefined. *)
Definition interpolate (v : option Value) : option string :=
  match v with
  | None => Some "undefined"
  | Some x => to_string x
  end.

End Json.

(** ** RpcClient *)

Module RpcClient.
Import Async.

Record JsonRpcRequest := {
  jsonrpc : string;
  method : string;
  params : JS.Val;
  id : option string
}.

(** The words of the TypeErrors the engine itself throws inside [call],
    which the caller gets as they are: for reading a property of null, and
    for converting to a string an object that cannot be converted. *)
Record Engine := {
  cannot_read_null : string;
  cannot_convert : string
}.

(** The arguments of the platform [fetch]; [body] stands for
    [JSON.stringify(request)]. *)
Record Post := {
  target : string;
  http_method : string;
  http_headers : gmap string string;
  body : JsonRpcRequest
}.

(** What comes back from the platform [fetch] and [response.json()]:
    [fetch] rejects, [response.json()] rejects, or the body is parsed.  The
    declared type [JsonRpcResponse] of the parsed value is erased at run
    time: [data] is whatever the body holds. *)
Inductive Transport :=
| NetworkError (reason : string)
| NotJson (reason : string)
| Parsed (engine : Engine) (data : Json.Value).

(** Where a [call] stands: inside [await this.ensureEndpointInitialized()],
    waiting for the response, or settled. *)
Inductive Stage :=
| Ensuring (p : Progress)
| Posting
| Settled (r : string + option Json.Value).

(** One [call]: its arguments, whether it went through [await
    this.endpointPromise], where it stands, and the request it handed to
    the platform [fetch], if it got that far. *)
Record RpcCall := {
  call_method : string;
  call_params : option JS.Val;
  waited : bool;
  stage : Stage;
  posted : option Post
}.

(** A call to the host not yet answered, made by [initializeEndpoint]:
    the first one ([baseAPI.getServerUrl]) or the second one
    ([baseAPI.getWindowId], with [url] already in hand); [r] is the promise
    [initializeEndpoint] returned. *)
Inductive HostCall :=
| AskServerUrl (r : nat)
| AskWindowId (r : nat) (url : string).

Record State := {
  endpoint : option string;
  endpointPromise : option nat;
  windowId : option string;
  promises : list Promise;
  getServerUrl_calls : nat;
  getWindowId_calls : nat;
  inflight : list HostCall;
  calls : list RpcCall
}.

Definition with_calls (cs : list RpcCall) (s : State) : State :=
  {| endpoint := endpoint s; endpointPromise := endpointPromise s;
     windowId := windowId s; promises := promises s;
     getServerUrl_calls := getServerUrl_calls s;
     getWindowId_calls := getWindowId_calls s;
     inflight := inflight s; calls := cs |}.

Definition with_promises (store : list Promise) (s : State) : State :=
  {| endpoint := endpoint s; endpointPromise := endpointPromise s;
     windowId := windowId s; promises := store;
     getServerUrl_calls := getServerUrl_calls s;
     getWindowId_calls := getWindowId_calls s;
     inflight := inflight s; calls := calls s |}.

Definition with_inflight (fl : list HostCall) (s : State) : State :=
  {| endpoint := endpoint s; endpointPromise := endpointPromise s;
     windowId := windowId s; promises := promises s;
     getServerUrl_calls := getServerUrl_calls s;
     getWindowId_calls := getWindowId_calls s;
     inflight := fl; calls := calls s |}.

(** [new RpcClient(initialEndpoint)]; [None] is the omitted argument. *)
Definition constructor (initialEndpoint : option string) : State :=
  if JS.falsy_str initialEndpoint then
    {| endpoint := None; endpointPromise := None; windowId := None;
       promises := []; getServerUrl_calls := 0; getWindowId_calls := 0;
       inflight := []; calls := [] |}
  else
    {| endpoint := initialEndpoint; endpointPromise := Some 0;
       windowId := None;
       promises := [Fulfilled (default "" initialEndpoint)];
       getServerUrl_calls := 0; getWindowId_calls := 0;
       inflight := []; calls := [] |}.

Definition failed_to_get (error : string) : string :=
  "Failed to get RPC endpoint: " +:+ error.

Definition not_initialized : string :=
  "RPC endpoint could not be initialized.".

(** [initializeEndpoint()] up to its first [await]. *)
Definition initializeEndpoint (s : State) : nat * State :=
  let '(r, store) := alloc Pending (promises s) in
  (r,
   {| endpoint := endpoint s; endpointPromise := endpointPromise s;
      windowId := windowId s; promises := store;
      getServerUrl_calls := S (getServerUrl_calls s);
      getWindowId_calls := getWindowId_calls s;
      inflight := inflight s ++ [AskServerUrl r]; calls := calls s |}).

(** [ensureEndpointInitialized()] up to the [await], or to the end when
    the endpoint is already there. *)
Definition ensureEndpointInitialized (s : State) : Progress * State :=
  if JS.falsy_str (endpoint s) then
    match endpointPromise s with
    | None =>
        let '(r, s1) := initializeEndpoint s in
        (Awaiting r,
         {| endpoint := endpoint s1; endpointPromise := Some r;
            windowId := windowId s1; promises := promises s1;
            getServerUrl_calls := getServerUrl_calls s1;
            getWindowId_calls := getWindowId_calls s1;
            inflight := inflight s1; calls := calls s1 |})
    | Some r => (Awaiting r, s)
    end
  else (Returned, s).

Definition after_await (p : Promise) (s : State) : option Progress :=
  match p with
  | Pending => None
  | Fulfilled _ =>
      Some (if JS.falsy_str (endpoint s) then Thrown not_initialized
            else Returned)
  | Rejected reason => Some (Thrown reason)
  end.

(** The host answers the [k]-th unanswered call: [initializeEndpoint] runs
    on to its next [await], or to its end. *)
Definition answer (k : nat) (a : Answer) (s : State) : State :=
  match inflight s !! k with
  | None => s
  | Some h =>
      let s1 := with_inflight (delete k (inflight s)) s in
      match h, a with
      | AskServerUrl r, Ok url =>
          {| endpoint := Some url; endpointPromise := endpointPromise s1;
             windowId := windowId s1; promises := promises s1;
             getServerUrl_calls := getServerUrl_calls s1;
             getWindowId_calls := S (getWindowId_calls s1);
             inflight := inflight s1 ++ [AskWindowId r url];
             calls := calls s1 |}
      | AskWindowId r url, Ok wid =>
          {| endpoint := endpoint s1; endpointPromise := endpointPromise s1;
             windowId := Some wid;
             promises := settle r (Fulfilled url) (promises s1);
             getServerUrl_calls := getServerUrl_calls s1;
             getWindowId_calls := getWindowId_calls s1;
             inflight := inflight s1; calls := calls s1 |}
      | AskServerUrl r, Err e | AskWindowId r _, Err e =>
          with_promises (settle r (Rejected (failed_to_get e)) (promises s1))
            s1
      end
  end.

(** The envelope [call] builds; [params === undefined] becomes [{}]. *)
Definition envelope (m : string) (p : option JS.Val) (s : State)
    : JsonRpcRequest :=
  {| jsonrpc := "2.0";
     method := m;
     params := match p with
               | None | Some JS.VUndefined => JS.VObj ∅
               | Some v => v
               end;
     id := windowId s |}.

(** [fetch(this.endpoint!, {...})]; a null endpoint would be sent as the
    text "null". *)
Definition post (m : string) (p : option JS.Val) (s : State) : Post :=
  {| target := default "null" (endpoint s);
     http_method := "POST";
     http_headers := {[ "Content-Type" := "application/json" ]};
     body := envelope m p s |}.

(** [call] from the parsed response on: the message of the error thrown,
    or the value returned ([None] is undefined). *)
Definition on_response (engine : Engine) (data : Json.Value)
    : string + option Json.Value :=
  match data with
  | Json.Null => inl (cannot_read_null engine)
  | _ =>
      match Json.member data "error" with
      | Some error =>
          if Json.truthy (Some error) then
            match Json.interpolate (Json.member error "message"),
                  Json.interpolate (Json.member error "code") with
            | Some message, Some code =>
                inl ("RPC Error: " +:+ message +:+ " (Code: " +:+ code
                     +:+ ")")
            | _, _ => inl (cannot_convert engine)
            end
          else inr (Json.member data "result")
      | None => inr (Json.member data "result")
      end
  end.

Definition with_stage (st : Stage) (c : RpcCall) : RpcCall :=
  {| call_method := call_method c; call_params := call_params c;
     waited := waited c; stage := st; posted := posted c |}.

Definition with_post (q : Post) (c : RpcCall) : RpcCall :=
  {| call_method := call_method c; call_params := call_params c;
     waited := waited c; stage := Posting; posted := Some q |}.

(** [call(method, params)] up to [await this.ensureEndpointInitialized()]. *)
Definition call (m : string) (p : option JS.Val) (s : State) : State :=
  let '(pr, s1) := ensureEndpointInitialized s in
  with_calls
    (calls s1 ++
       [{| call_method := m; call_params := p;
           waited := match pr with Awaiting _ => true | _ => false end;
           stage := Ensuring pr; posted := None |}]) s1.

(** The next continuation of the [i]-th call: of [await
    this.endpointPromise] inside [ensureEndpointInitialized], or of
    [await this.ensureEndpointInitialized()] inside [call]. *)
Definition wake (i : nat) (s : State) : State :=
  match calls s !! i with
  | None => s
  | Some c =>
      match stage c with
      | Ensuring (Awaiting r) =>
          match promises s !! r with
          | None => s
          | Some p =>
              match after_await p s with
              | None => s
              | Some pr =>
                  with_calls (<[i := with_stage (Ensuring pr) c]> (calls s)) s
              end
          end
      | Ensuring Returned =>
          with_calls
            (<[i := with_post (post (call_method c) (call_params c) s) c]>
               (calls s)) s
      | Ensuring (Thrown m) =>
          with_calls (<[i := with_stage (Settled (inl m)) c]> (calls s)) s
      | _ => s
      end
  end.

(** The response to the [i]-th call arrives. *)
Definition respond (i : nat) (t : Transport) (s : State) : State :=
  match calls s !! i with
  | None => s
  | Some c =>
      match stage c with
      | Posting =>
          let r :=
            match t with
            | NetworkError reason | NotJson reason => inl reason
            | Parsed engine d => on_response engine d
            end in
          with_calls (<[i := with_stage (Settled r) c]> (calls s)) s
      | _ => s
      end
  end.

Inductive Event :=
| Call (m : string) (p : option JS.Val)
| Answer (k : nat) (a : Answer)
| Wake (i : nat)
| Respond (i : nat) (t : Transport).

Definition step (s : State) (e : Event) : State :=
  match e with
  | Call m p => call m p s
  | Answer k a => answer k a s
  | Wake i => wake i s
  | Respond i t => respond i t s
  end.

Definition run (s : State) (es : list Event) : State := fold_left step es s.

(** The envelopes sent so far. *)
Definition sent (s : State) : list JsonRpcRequest :=
  body <$> omap posted (calls s).

(** *** Invariants of a client *)

(** A client built without an endpoint: the stored promise, the endpoint,
    the window id, the host calls made and those unanswered agree. *)
Definition lazy_ok (s : State) : Prop :=
  match endpointPromise s with
  | None =>
      endpoint s = None /\ windowId s = None
      /\ getServerUrl_calls s = 0 /\ getWindowId_calls s = 0
      /\ inflight s = []
  | Some r =>
      getServerUrl_calls s = 1
      /\ match promises s !! r with
         | None => False
         | Some Pending =>
             windowId s = None
             /\ ((inflight s = [AskServerUrl r] /\ endpoint s = None
                  /\ getWindowId_calls s = 0)
                 \/ (exists url, inflight s = [AskWindowId r url]
                       /\ endpoint s = Some url
                       /\ getWindowId_calls s = 1))
         | Some (Fulfilled v) =>
             inflight s = [] /\ endpoint s = Some v
             /\ getWindowId_calls s = 1 /\ is_Some (windowId s)
         | Some (Rejected _) =>
             inflight s = [] /\ windowId s = None
             /\ getWindowId_calls s <= 1
             /\ (getWindowId_calls s = 0 -> endpoint s = None)
         end
  end.

(** The envelope of a call that got as far as the platform [fetch]. *)
Definition posted_ok (s : State) (c : RpcCall) : Prop :=
  forall q, posted c = Some q ->
    jsonrpc (body q) = "2.0"
    /\ method (body q) = call_method c
    /\ params (body q)
       = match call_params c with
         | None | Some JS.VUndefined => JS.VObj ∅
         | Some v => v
         end
    /\ http_method q = "POST"
    /\ Some (target q) = endpoint s
    /\ (id (body q) = None \/ id (body q) = windowId s)
    /\ (waited c = true ->
        id (body q) = windowId s /\ is_Some (windowId s)).

Definition explicit_call_ok (s : State) (c : RpcCall) : Prop :=
  waited c = false
  /\ (forall r, stage c <> Ensuring (Awaiting r))
  /\ (forall m, stage c <> Ensuring (Thrown m))
  /\ posted_ok s c.

(** A client built with a non-empty endpoint [e]. *)
Definition explicit_ok (e : string) (s : State) : Prop :=
  endpoint s = Some e /\ JS.falsy_str (Some e) = false
  /\ windowId s = None
  /\ getServerUrl_calls s = 0 /\ getWindowId_calls s = 0
  /\ inflight s = []
  /\ (forall c, c ∈ calls s -> explicit_call_ok s c).

(** The resolution the client holds has failed with message [m]: its
    promise is rejected with [m], or fulfilled with an empty endpoint. *)
Definition failed_with (s : State) (m : string) : Prop :=
  exists r, endpointPromise s = Some r
    /\ (promises s !! r = Some (Rejected m)
        \/ (m = not_initialized
            /\ exists v, promises s !! r = Some (Fulfilled v)
                 /\ JS.falsy_str (Some v) = true)).

Definition stage_ok (s : State) (c : RpcCall) : Prop :=
  match stage c with
  | Ensuring (Awaiting r) =>
      endpointPromise s = Some r /\ waited c = true /\ posted c = None
  | Ensuring Returned =>
      posted c = None /\ JS.falsy_str (endpoint s) = false
      /\ (waited c = true -> is_Some (windowId s))
  | Ensuring (Thrown m) =>
      posted c = None /\ waited c = true /\ failed_with s m
  | Posting => is_Some (posted c)
  | Settled r =>
      posted c = None ->
      waited c = true /\ exists m, r = inl m /\ failed_with s m
  end.

Definition inv (s : State) : Prop :=
  lazy_ok s
  /\ (calls s <> [] -> is_Some (endpointPromise s))
  /\ (forall c, c ∈ calls s -> stage_ok s c /\ posted_ok s c).

(** What later states keep of an earlier one. *)
Definition stable (s s' : State) : Prop :=
  (forall r, endpointPromise s = Some r -> endpointPromise s' = Some r)
  /\ (forall v, endpoint s = Some v -> endpoint s' = Some v)
  /\ (forall w, windowId s = Some w -> windowId s' = Some w)
  /\ (forall r p, promises s !! r = Some p -> p <> Pending ->
        promises s' !! r = Some p).

End RpcClient.

(** ** The life of the manager's timers, and the bookkeeping of calls *)

Module Lifecycle.
Import PyloidReadyManager Bridge.

(** While the promise is pending the manager holds exactly its two timers,
    both live; once it is settled it holds none and none is live. *)
Definition timers_inv (s : State) : Prop :=
  match whenReady s with
  | Pending =>
      isReady s = false
      /\ exists win i t,
           window s = Some win
           /\ pollingInterval (this s) = Some i
           /\ pollingTimeout (this s) = Some t
           /\ intervals win = [i] /\ timeouts win = [t]
  | _ =>
      pollingInterval (this s) = None /\ pollingTimeout (this s) = None
      /\ forall win, window s = Some win ->
           intervals win = [] /\ timeouts win = []
  end.

(** The flag is set only with the promise settled. *)
Definition ready_settled (s : State) : Prop :=
  isReady s = true -> whenReady s <> Pending.

Definition is_issue (e : Event) : bool :=
  match e with
  | Issue _ => true
  | _ => false
  end.

(** The number of calls application code made in a run. *)
Definition issued (es : list Event) : nat := length (filter is_issue es).

(** Where there is no [window]: how each kind of call may end. *)
Definition ssr_entry (e : Entry) : Prop :=
  invokes (completion e) = false
  /\ match request e with
     | TypedV1 _ =>
         (awaited e = false /\ completion e = NoBridge)
         \/ (awaited e = true /\ completion e = Failed no_window)
     | r => awaited e = false /\ completion e = Failed (ssr_message r)
     end.

Definition is_v1 (r : Request) : bool :=
  match r with
  | TypedV1 _ => true
  | _ => false
  end.

(** The world of a server-side render: no [window], the promise rejected,
    only calls of the earlier [BaseAPI] suspended. *)
Definition ssr_world (w : World) : Prop :=
  window (gate w) = None
  /\ whenReady (gate w) = Rejected no_window
  /\ (forall r, r ∈ suspended w -> is_v1 r = true)
  /\ (forall e, e ∈ history w -> ssr_entry e).

(** The bridge object is on the page. *)
Definition has_bridge (s : PyloidReadyManager.State) : Prop :=
  exists win, PyloidReadyManager.window s = Some win
              /\ PyloidReadyManager.__PYLOID__ win = true.

(** Readiness came from detection. *)
Definition detected (s : PyloidReadyManager.State) : Prop :=
  PyloidReadyManager.isReady s = true
  \/ PyloidReadyManager.whenReady s = PyloidReadyManager.Resolved ->
  has_bridge s.

(** The bridge method a typed request names. *)
Definition request_method (r : Bridge.Request) : option Bridge.Method :=
  match r with
  | Bridge.Typed m | Bridge.TypedV1 m => Some m
  | Bridge.Dynamic _ _ => None
  end.

End Lifecycle.

(** ** The proxy around IPC *)

Module IPCProxy.

(** What property access on the exported [ipc] yields: [ipc.prop] is a
    callable namespace, [ipc.prop.nested] a plain function; [callIPC] and
    [ensureReady] are the members of the wrapped object itself. *)
Inductive Handle :=
| Namespace (prop : string)
| Method (path : string)
| Member (name : string).

(** [ipcProxyHandler.get] for a string property. *)
Definition get (prop : string) : Handle :=
  if negb (String.eqb prop "callIPC") && negb (String.eqb prop "ensureReady")
  then Namespace prop
  else Member prop.

(** Property access on a handle: the inner proxy's [get]; a plain function
    or a method has no such members ([None] is undefined). *)
Definition access (h : Handle) (nestedProp : string) : option Handle :=
  match h with
  | Namespace prop => Some (Method (prop +:+ "." +:+ nestedProp))
  | Method _ | Member _ => None
  end.

(** Calling a handle with arguments: the call of [callIPC] it makes.
    [ipc.callIPC(path, ...args)] itself takes the path as first argument;
    that and [ipc.ensureReady] are not calls through the proxy. *)
Definition apply (h : Handle) (args : list JS.Val) : option Bridge.Request :=
  match h with
  | Namespace prop => Some (Bridge.Dynamic prop args)
  | Method path => Some (Bridge.Dynamic path args)
  | Member _ => None
  end.

(** No dot in a name. *)
Fixpoint dotless (s : string) : bool :=
  match s with
  | EmptyString => true
  | String c rest => negb (Ascii.eqb c ".") && dotless rest
  end.

End IPCProxy.

(** ** The read-only accessors of the fetch module *)

Module PyloidFetchStatus.
Import PyloidFetch.

Definition getServerUrl (s : State) : option string := serverUrl s.

(** [serverUrl !== null] *)
Definition isServerUrlReady (s : State) : bool :=
  match serverUrl s with
  | Some _ => true
  | None => false
  end.

Definition getWindowId (s : State) : option string := windowId s.

(** [windowId !== null] *)
Definition isWindowIdReady (s : State) : bool :=
  match windowId s with
  | Some _ => true
  | None => false
  end.

End PyloidFetchStatus.

(** ** EventAPI *)

Module EventAPI.

Section Platform.

(** [JSON.parse]; [None] where it throws. *)
Variable JSON_parse : string -> option JS.Val.

(** The names [Object.prototype] answers to ([toString], [constructor],
    ...): reading one of them on the plain object [_listeners] yields an
    inherited, truthy value that is not an array. *)
Variable on_prototype : string -> bool.

(** Callbacks and event handlers are function objects, named by numbers.
    [_listeners] holds the own properties of [this._listeners];
    [_eventHandler] the property of that name of each callback; [captured]
    the callback each handler closure calls; [document] the listeners
    registered on the document, oldest first; [next] the identity of the
    next closure. *)
Record State := {
  _listeners : gmap string (list nat);
  _eventHandler : gmap nat nat;
  captured : gmap nat nat;
  document : list (string * nat);
  next : nat
}.

Definition empty : State :=
  {| _listeners := ∅; _eventHandler := ∅; captured := ∅; document := [];
     next := 0 |}.

(** [document.addEventListener(type, h)]: a listener already registered for
    the type is not registered again. *)
Definition addEventListener (type : string) (h : nat)
    (doc : list (string * nat)) : list (string * nat) :=
  if bool_decide ((type, h) ∈ doc) then doc else doc ++ [(type, h)].

(** [document.removeEventListener(type, h)] *)
Definition removeEventListener (type : string) (h : nat)
    (doc : list (string * nat)) : list (string * nat) :=
  filter (fun x => x <> (type, h)) doc.

(** [listen(eventName, callback)]; [None] is the TypeError of calling
    [push] on an inherited member. *)
Definition listen (eventName : string) (callback : nat) (s : State)
    : option State :=
  match _listeners s !! eventName with
  | None =>
      if on_prototype eventName then None
      else
        Some {| _listeners := <[eventName := [callback]]> (_listeners s);
                _eventHandler := <[callback := next s]> (_eventHandler s);
                captured := <[next s := callback]> (captured s);
                document := addEventListener eventName (next s) (document s);
                next := S (next s) |}
  | Some callbacks =>
      Some {| _listeners :=
                <[eventName := callbacks ++ [callback]]> (_listeners s);
              _eventHandler := <[callback := next s]> (_eventHandler s);
              captured := <[next s := callback]> (captured s);
              document := addEventListener eventName (next s) (document s);
              next := S (next s) |}
  end.

(** The body of the [forEach] in [unlisten], for one callback. *)
Definition detach (eventName : string) (handlers : gmap nat nat)
    (doc : list (string * nat)) (callback : nat) : list (string * nat) :=
  match handlers !! callback with
  | Some h => removeEventListener eventName h doc
  | None => doc
  end.

(** [unlisten] for an event name [_listeners] has as own property. *)
Definition unlisten_own (eventName : string) (callbacks : list nat)
    (s : State) : State :=
  {| _listeners := delete eventName (_listeners s);
     _eventHandler := _eventHandler s;
     captured := captured s;
     document :=
       fold_left (detach eventName (_eventHandler s)) callbacks (document s);
     next := next s |}.

(** [unlisten(eventName)]; [None] is the TypeError of calling [forEach] on
    an inherited member. *)
Definition unlisten (eventName : string) (s : State) : option State :=
  match _listeners s !! eventName with
  | Some callbacks => Some (unlisten_own eventName callbacks s)
  | None => if on_prototype eventName then None else Some s
  end.

(** [clearAllListeners()], with [keys] the list [Object.keys(this._listeners)]
    in the order the engine enumerates it: [unlisten] for each key in turn;
    a key that is gone by the time it is reached is skipped by [unlisten]
    itself. *)
Definition clearAllListeners (keys : list string) (s : State) : State :=
  fold_left
    (fun acc eventName =>
       match _listeners acc !! eventName with
       | Some callbacks => unlisten_own eventName callbacks acc
       | None => acc
       end) keys s.

(** What [eventHandler] computes from [event.detail]. *)
Definition eventData (detail : JS.Val) : JS.Val :=
  match detail with
  | JS.VStr text =>
      match JSON_parse text with
      | Some v => v
      | None => detail
      end
  | _ => detail
  end.

(** The host dispatches an event on the document: the calls of callbacks it
    causes, with their arguments, in order. *)
Definition dispatch (type : string) (detail : JS.Val) (s : State)
    : list (nat * JS.Val) :=
  omap (fun '(t, h) =>
          if String.eqb t type
          then (fun cb => (cb, eventData detail)) <$> captured s !! h
          else None) (document s).

(** Handler identities are those below [next]; every registered listener
    is a closure the API made, registered once; no own key of [_listeners]
    is a name of the prototype; the handler stored on a callback is a
    closure over that callback. *)
Definition wf (s : State) : Prop :=
  (forall t h, (t, h) ∈ document s -> h < next s)
  /\ (forall cb h, _eventHandler s !! cb = Some h -> h < next s)
  /\ (forall h, h < next s <-> is_Some (captured s !! h))
  /\ NoDup (document s)
  /\ (forall e callbacks,
        _listeners s !! e = Some callbacks -> on_prototype e = false)
  /\ (forall cb h, _eventHandler s !! cb = Some h -> captured s !! h = Some cb).

(** Every listener on the document is the current handler of a callback
    that is listed under the listener's event name. *)
Definition tracked (s : State) : Prop :=
  forall t h, (t, h) ∈ document s ->
    exists cb callbacks,
      captured s !! h = Some cb
      /\ _eventHandler s !! cb = Some h
      /\ _listeners s !! t = Some callbacks /\ cb ∈ callbacks.

(** No function was passed to [listen] more than once: [captured] keeps
    the callback of every handler ever made. *)
Definition once (s : State) : Prop :=
  forall h1 h2 cb,
    captured s !! h1 = Some cb -> captured s !! h2 = Some cb -> h1 = h2.

(** The listener [(eventName, h)] is on the document and [h] is the stored
    handler of no callback: [unlisten] cannot find it. *)
Definition orphan (eventName : string) (h : nat) (s : State) : Prop :=
  (eventName, h) ∈ document s
  /\ forall callback, _eventHandler s !! callback <> Some h.

(** One call of the API that returns.  A call that throws changes nothing.
    [clearAllListeners] visits the own keys in the order the engine
    enumerates them. *)
Inductive step (s : State) : State -> Prop :=
| step_listen eventName callback s' :
    listen eventName callback s = Some s' -> step s s'
| step_unlisten eventName s' :
    unlisten eventName s = Some s' -> step s s'
| step_clear keys :
    keys ≡ₚ elements (dom (_listeners s)) ->
    step s (clearAllListeners keys s).

(** The states of the exported singleton. *)
Definition reachable (s : State) : Prop := rtc step empty s.

End Platform.

End EventAPI.

(** ** What reaches the platform [fetch] *)

Module Delivery.

(** A request of an [RpcClient] call went to a non-empty endpoint. *)
Definition addressed (c : RpcClient.RpcCall) : Prop :=
  forall q, RpcClient.posted c = Some q ->
    JS.falsy_str (Some (RpcClient.target q)) = false.

(** A [fetch] call hands a request to the platform only after both of its
    resolutions returned, and fails before that only with the first
    rejection [Promise.all] saw. *)
Definition decided (fc : PyloidFetch.FetchCall) : Prop :=
  match PyloidFetch.outcome fc with
  | Some (inr _) =>
      PyloidFetch.ensureServerUrl fc = Async.Returned
      /\ PyloidFetch.ensureWindowId fc = Async.Returned
      /\ PyloidFetch.rejection fc = None
  | Some (inl m) => PyloidFetch.rejection fc = Some m
  | None => True
  end.

(** The rejection [Promise.all] keeps is the error of one of the two
    resolutions of the call. *)
Definition rejected_by (fc : PyloidFetch.FetchCall) : Prop :=
  match PyloidFetch.rejection fc with
  | Some m =>
      exists c, PyloidFetch.progress c fc = Async.Thrown m
  | None =>
      forall c m, PyloidFetch.progress c fc <> Async.Thrown m
  end.

End Delivery.

(* ===================================================================== *)
(** * Part II: properties                                                 *)
(* ===================================================================== *)

(** ** The readiness gate *)

Section ReadyGate.
Import PyloidReadyManager.

Lemma stopPolling_this_ready s : ready (this (stopPolling s)) = ready (this s).
Proof.
  unfold stopPolling.
  destruct (pollingInterval (this s)); simpl;
    destruct (pollingTimeout (this s)); reflexivity.
Qed.

Lemma stopPolling_readyPromise s :
  readyPromise (this (stopPolling s)) = readyPromise (this s).
Proof.
  unfold stopPolling.
  destruct (pollingInterval (this s)); simpl;
    destruct (pollingTimeout (this s)); reflexivity.
Qed.

Lemma stopPolling_timers s :
  pollingInterval (this (stopPolling s)) = None
  /\ pollingTimeout (this (stopPolling s)) = None.
Proof.
  unfold stopPolling.
  destruct (pollingInterval (this s)) eqn:Hi; simpl;
    destruct (pollingTimeout (this s)) eqn:Ht; simpl; auto.
Qed.

Lemma setReady_ready s : isReady (setReady s) = true.
Proof.
  unfold isReady, setReady.
  destruct (ready (this s)) eqn:Hr; simpl; [exact Hr |].
  apply stopPolling_this_ready.
Qed.

Lemma setReady_when_ready s : isReady s = true -> setReady s = s.
Proof. unfold isReady, setReady. intros ->. reflexivity. Qed.

Lemma setReady_twice s : setReady (setReady s) = setReady s.
Proof. apply setReady_when_ready, setReady_ready. Qed.

Lemma setReady_iter n s : Nat.iter (S n) setReady s = setReady s.
Proof.
  induction n as [| n IH]; [reflexivity |].
  change (Nat.iter (S (S n)) setReady s)
    with (setReady (Nat.iter (S n) setReady s)).
  rewrite IH. apply setReady_twice.
Qed.

(** What the first call does. *)
Lemma setReady_first s :
  isReady s = false ->
  isReady (setReady s) = true
  /\ pollingInterval (this (setReady s)) = None
  /\ pollingTimeout (this (setReady s)) = None
  /\ whenReady (setReady s) = resolve (whenReady s).
Proof.
  unfold isReady, whenReady, setReady. intros ->. simpl.
  set (s1 := {| window := window s; this := set_ready true (this s) |}).
  pose proof (stopPolling_timers s1) as [Hi Ht].
  pose proof (stopPolling_this_ready s1) as Hr.
  pose proof (stopPolling_readyPromise s1) as Hp.
  repeat split; auto.
  rewrite Hp. reflexivity.
Qed.

Lemma setReady_readyPromise s :
  whenReady (setReady s) = Resolved \/ whenReady (setReady s) = whenReady s.
Proof.
  unfold whenReady, setReady.
  destruct (ready (this s)); simpl; [right; reflexivity |].
  rewrite stopPolling_readyPromise. simpl.
  destruct (readyPromise (this s)); simpl; auto.
Qed.

End ReadyGate.

Section GateInvariants.
Import PyloidReadyManager.

Lemma drop_all id ids : (forall j, j ∈ ids -> j = id) -> drop id ids = [].
Proof.
  intros H. unfold drop. induction ids as [| a ids IH]; [reflexivity |].
  rewrite filter_cons.
  assert (a = id) as -> by (apply H; left).
  rewrite Nat.eqb_refl. simpl.
  apply IH. intros j Hj. apply H. right. exact Hj.
Qed.

Lemma stopPolling_window_None s :
  window s = None -> window (stopPolling s) = None.
Proof.
  unfold stopPolling. intros H.
  destruct (pollingInterval (this s)); simpl;
    destruct (pollingTimeout (this s)); simpl; rewrite H; reflexivity.
Qed.

Lemma stopPolling_intervals s win' :
  window (stopPolling s) = Some win' ->
  exists win, window s = Some win
    /\ intervals win' =
       match pollingInterval (this s) with
       | Some id => drop id (intervals win)
       | None => intervals win
       end.
Proof.
  unfold stopPolling.
  destruct (window s) as [win |] eqn:Hw.
  - intros H. exists win. split; [reflexivity |].
    destruct (pollingInterval (this s)); simpl in *;
      destruct (pollingTimeout (this s)); simpl in *;
      rewrite ?Hw in H; simpl in H; inversion H; reflexivity.
  - destruct (pollingInterval (this s)); simpl;
      destruct (pollingTimeout (this s)); simpl; rewrite ?Hw; discriminate.
Qed.

Lemma stopPolling_quiet s : owned s -> quiet (stopPolling s).
Proof.
  intros Ho win' Hw'.
  destruct (stopPolling_intervals s win' Hw') as (win & Hw & ->).
  destruct (pollingInterval (this s)) as [id |] eqn:Hi.
  - apply drop_all. intros j Hj.
    specialize (Ho win j Hw Hj). congruence.
  - destruct (intervals win) as [| j l] eqn:Hl; [reflexivity |].
    assert (j ∈ intervals win) as Hj by (rewrite Hl; left).
    specialize (Ho win j Hw Hj). congruence.
Qed.

Lemma quiet_owned s : quiet s -> owned s.
Proof.
  intros Hq win j Hw Hj. rewrite (Hq win Hw) in Hj.
  apply elem_of_nil in Hj. contradiction.
Qed.

Lemma stopPolling_inv s :
  owned s ->
  owned (stopPolling s) /\ quiet (stopPolling s)
  /\ pollingInterval (this (stopPolling s)) = None
  /\ pollingTimeout (this (stopPolling s)) = None.
Proof.
  intros Ho. pose proof (stopPolling_quiet s Ho) as Hq.
  pose proof (stopPolling_timers s) as [Hi Ht].
  exact (conj (quiet_owned _ Hq) (conj Hq (conj Hi Ht))).
Qed.

Lemma setReady_window_quiet s : quiet s -> quiet (setReady s).
Proof.
  intros Hq. unfold setReady.
  destruct (ready (this s)); simpl; [exact Hq |].
  intros win Hw. simpl in Hw.
  set (s1 := {| window := window s; this := set_ready true (this s) |}) in *.
  assert (quiet s1) as Hq1 by exact Hq.
  exact (stopPolling_quiet s1 (quiet_owned s1 Hq1) win Hw).
Qed.

Lemma setReady_inv s : gate_inv s -> gate_inv (setReady s).
Proof.
  intros (Ho & Hq & Hn). unfold setReady.
  destruct (ready (this s)) eqn:Hr; simpl; [exact (conj Ho (conj Hq Hn)) |].
  set (s1 := {| window := window s; this := set_ready true (this s) |}).
  assert (owned s1) as Ho1 by exact Ho.
  destruct (stopPolling_inv s1 Ho1) as (Ho2 & Hq2 & Hi2 & Ht2).
  refine (conj _ (conj _ _)).
  - intros win j Hw Hj. simpl in *. rewrite (Hq2 win Hw) in Hj.
    apply elem_of_nil in Hj. contradiction.
  - intros _ win Hw. simpl in Hw. exact (Hq2 win Hw).
  - intros _. simpl. split; assumption.
Qed.

Lemma on_timeout_inv s : gate_inv s -> gate_inv (on_timeout s).
Proof.
  intros (Ho & Hq & Hn). unfold on_timeout.
  destruct (ready (this s)) eqn:Hr; simpl; [exact (conj Ho (conj Hq Hn)) |].
  destruct (stopPolling_inv s Ho) as (Ho2 & Hq2 & Hi2 & Ht2).
  refine (conj _ (conj _ _)).
  - intros win j Hw Hj. simpl in *. rewrite (Hq2 win Hw) in Hj.
    apply elem_of_nil in Hj. contradiction.
  - intros _ win Hw. simpl in Hw. exact (Hq2 win Hw).
  - intros _. simpl. split; assumption.
Qed.

Lemma on_interval_inv s : gate_inv s -> gate_inv (on_interval s).
Proof.
  intros Hs. unfold on_interval.
  destruct (window s) as [win |] eqn:Hw; [| exact Hs].
  destruct (__PYLOID__ win); [| exact Hs].
  apply setReady_inv.
  destruct Hs as (Ho & Hq & Hn).
  destruct (stopPolling_inv s Ho) as (Ho2 & Hq2 & Hi2 & Ht2).
  refine (conj Ho2 (conj (fun _ => Hq2) (fun _ => conj Hi2 Ht2))).
Qed.

Lemma fire_interval_inv id s : gate_inv s -> gate_inv (fire_interval id s).
Proof.
  intros Hs. unfold fire_interval.
  destruct (window s) as [win |]; [| exact Hs].
  destruct (bool_decide (id ∈ intervals win)); [| exact Hs].
  apply on_interval_inv, Hs.
Qed.

Lemma fire_timeout_inv id s : gate_inv s -> gate_inv (fire_timeout id s).
Proof.
  intros Hs. unfold fire_timeout.
  destruct (window s) as [win |] eqn:Hw; [| exact Hs].
  destruct (bool_decide (id ∈ timeouts win)); [| exact Hs].
  apply on_timeout_inv.
  destruct Hs as (Ho & Hq & Hn).
  refine (conj _ (conj _ _)).
  - intros win' j Hw' Hj. simpl in *. inversion Hw'; subst win'.
    simpl in Hj. exact (Ho win j Hw Hj).
  - intros Hp win' Hw'. simpl in *. inversion Hw'; subst win'. simpl.
    exact (Hq Hp win Hw).
  - simpl. discriminate.
Qed.

Lemma inject_inv s : gate_inv s -> gate_inv (inject s).
Proof.
  intros Hs. unfold inject.
  destruct (window s) as [win |] eqn:Hw; [| exact Hs].
  destruct Hs as (Ho & Hq & Hn).
  refine (conj _ (conj _ _)).
  - intros win' j Hw' Hj. simpl in *. inversion Hw'; subst win'.
    simpl in Hj. exact (Ho win j Hw Hj).
  - intros Hp win' Hw'. simpl in *. inversion Hw'; subst win'. simpl.
    exact (Hq Hp win Hw).
  - simpl. discriminate.
Qed.

Lemma set_ipc_inv v s : gate_inv s -> gate_inv (set_ipc v s).
Proof.
  intros Hs. unfold set_ipc.
  destruct (window s) as [win |] eqn:Hw; [| exact Hs].
  destruct Hs as (Ho & Hq & Hn).
  refine (conj _ (conj _ _)).
  - intros win' j Hw' Hj. simpl in *. inversion Hw'; subst win'.
    simpl in Hj. exact (Ho win j Hw Hj).
  - intros Hp win' Hw'. simpl in *. inversion Hw'; subst win'. simpl.
    exact (Hq Hp win Hw).
  - simpl. discriminate.
Qed.

Lemma constructor_inv ci td r b v n :
  gate_inv (constructor ci td (Some (Bridge.page r b v n))).
Proof.
  unfold constructor. simpl. destruct b; simpl.
  - apply setReady_inv. refine (conj _ (conj _ _)).
    + intros win j Hw Hj. simpl in *. inversion Hw; subst win.
      simpl in Hj. apply elem_of_nil in Hj. contradiction.
    + intros _ win Hw. simpl in *. inversion Hw; subst win. reflexivity.
    + simpl. discriminate.
  - refine (conj _ (conj _ _)).
    + intros win j Hw Hj. simpl in *. inversion Hw; subst win.
      simpl in Hj. apply list_elem_of_singleton in Hj. subst j. reflexivity.
    + intros Hp. simpl in Hp. contradiction.
    + simpl. discriminate.
Qed.

Lemma constructor_inv_None ci td : gate_inv (constructor ci td None).
Proof.
  unfold constructor. refine (conj _ (conj _ _)); simpl.
  - intros win j Hw. discriminate.
  - intros _ win Hw. discriminate.
  - intros _. split; reflexivity.
Qed.

End GateInvariants.

Section GateWorld.
Import PyloidReadyManager Bridge.



Lemma gate_step_cases w e :
  gate (step w e) = gate w
  \/ gate (step w e) = inject (gate w)
  \/ (exists v, gate (step w e) = set_ipc v (gate w))
  \/ (exists id, e = PollTick id /\ gate (step w e) = fire_interval id (gate w))
  \/ (exists id, gate (step w e) = fire_timeout id (gate w))
  \/ (e = SetReady /\ gate (step w e) = setReady (gate w)).
Proof.
  destruct e; simpl; eauto 10.
  - unfold ensureReady.
    destruct (checks_window r && _); [left; reflexivity |].
    destruct (negb _); left; reflexivity.
  - unfold resume. destruct (suspended w !! i); [| left; reflexivity].
    destruct (whenReady (gate w)); left; reflexivity.
Qed.

Lemma step_gate_inv w e : gate_inv (gate w) -> gate_inv (gate (step w e)).
Proof.
  intros H.
  destruct (gate_step_cases w e)
    as [-> | [-> | [(v & ->) | [(id & _ & ->) | [(id & ->) | (_ & ->)]]]]];
    auto using inject_inv, set_ipc_inv, fire_interval_inv, fire_timeout_inv,
      setReady_inv.
Qed.

Lemma run_gate_inv w es : gate_inv (gate w) -> gate_inv (gate (run w es)).
Proof.
  revert w. induction es as [| e es IH]; intros w H; [exact H |].
  simpl. apply IH, step_gate_inv, H.
Qed.

(** A manager without a window holds no timer id, whether the SDK was
    loaded in a page or outside a browser. *)
Lemma timers_need_window (g : option (JS.Realm * bool * JS.Val * nat)) es :
  let s := gate (run (boot ((fun '(r, b, v, n) => page r b v n) <$> g)) es) in
  window s = None ->
  pollingInterval (this s) = None /\ pollingTimeout (this s) = None.
Proof.
  intros s. subst s.
  assert (gate_inv (gate (boot ((fun '(r, b, v, n) => page r b v n) <$> g))))
    as Hboot.
  { destruct g as [[[[r b] v] n] |]; simpl.
    - apply constructor_inv.
    - apply constructor_inv_None. }
  destruct (run_gate_inv _ es Hboot) as (_ & _ & H). exact H.
Qed.

(** A settled promise keeps its state. *)
Lemma on_timeout_readyPromise s :
  whenReady (on_timeout s) = whenReady s
  \/ (whenReady s = Pending /\ isReady s = false
      /\ whenReady (on_timeout s) = Rejected timed_out).
Proof.
  unfold whenReady, isReady, on_timeout.
  destruct (ready (this s)); simpl; [left; reflexivity |].
  rewrite stopPolling_readyPromise.
  destruct (readyPromise (this s)); simpl; auto.
Qed.

Lemma on_timeout_ready s : isReady (on_timeout s) = isReady s.
Proof.
  unfold isReady, on_timeout.
  destruct (ready (this s)) eqn:Hr; simpl; [exact Hr |].
  rewrite stopPolling_this_ready. exact Hr.
Qed.

Lemma setReady_rejected s reason :
  whenReady s = Rejected reason -> whenReady (setReady s) = Rejected reason.
Proof.
  unfold whenReady, setReady. intros H.
  destruct (ready (this s)); simpl; [exact H |].
  rewrite stopPolling_readyPromise. simpl. rewrite H. reflexivity.
Qed.

Lemma stopPolling_rejected s reason :
  whenReady s = Rejected reason ->
  whenReady (stopPolling s) = Rejected reason.
Proof. unfold whenReady. rewrite stopPolling_readyPromise. auto. Qed.

Lemma on_timeout_rejected s reason :
  whenReady s = Rejected reason -> whenReady (on_timeout s) = Rejected reason.
Proof.
  unfold whenReady, on_timeout. intros H.
  destruct (ready (this s)); simpl; [exact H |].
  rewrite stopPolling_readyPromise. rewrite H. reflexivity.
Qed.

Lemma step_rejected w e reason :
  whenReady (gate w) = Rejected reason ->
  whenReady (gate (step w e)) = Rejected reason.
Proof.
  intros H.
  destruct (gate_step_cases w e)
    as [-> | [-> | [(v & ->) | [(id & _ & ->) | [(id & ->) | (_ & ->)]]]]].
  - exact H.
  - unfold inject. destruct (window (gate w)); exact H.
  - unfold set_ipc. destruct (window (gate w)); exact H.
  - unfold fire_interval, on_interval.
    destruct (window (gate w)) as [win |]; [| exact H].
    destruct (bool_decide _); [| exact H].
    destruct (__PYLOID__ win); [| exact H].
    apply setReady_rejected, stopPolling_rejected, H.
  - unfold fire_timeout.
    destruct (window (gate w)) as [win |]; [| exact H].
    destruct (bool_decide _); [| exact H].
    apply on_timeout_rejected. exact H.
  - apply setReady_rejected, H.
Qed.

Lemma run_rejected w es reason :
  whenReady (gate w) = Rejected reason ->
  whenReady (gate (run w es)) = Rejected reason.
Proof.
  revert w. induction es as [| e es IH]; intros w H; [exact H |].
  simpl. apply IH, step_rejected, H.
Qed.

(** Without interval timers, only an explicit [setReady()] sets the flag. *)
Lemma step_stays_unready w e :
  quiet (gate w) -> isReady (gate w) = false -> e <> SetReady ->
  quiet (gate (step w e)) /\ isReady (gate (step w e)) = false.
Proof.
  intros Hq Hr He.
  destruct (gate_step_cases w e)
    as [-> | [-> | [(v & ->) | [(id & _ & ->) | [(id & ->) | (E & _)]]]]].
  - auto.
  - unfold inject. destruct (window (gate w)) as [win |] eqn:Hw; [| auto].
    split; [| exact Hr].
    intros win' Hw'. simpl in Hw'. inversion Hw'; subst win'. simpl.
    exact (Hq win Hw).
  - unfold set_ipc. destruct (window (gate w)) as [win |] eqn:Hw; [| auto].
    split; [| exact Hr].
    intros win' Hw'. simpl in Hw'. inversion Hw'; subst win'. simpl.
    exact (Hq win Hw).
  - unfold fire_interval.
    destruct (window (gate w)) as [win |] eqn:Hw; [| auto].
    rewrite (Hq win Hw).
    rewrite bool_decide_eq_false_2; [auto |].
    apply not_elem_of_nil.
  - unfold fire_timeout.
    destruct (window (gate w)) as [win |] eqn:Hw; [| auto].
    destruct (bool_decide _); [| auto].
    set (s1 := {| window := Some (clearTimeout id win);
                  this := this (gate w) |}).
    assert (quiet s1) as Hq1.
    { intros win' Hw'. simpl in Hw'. inversion Hw'; subst win'. simpl.
      exact (Hq win Hw). }
    split.
    + unfold on_timeout. destruct (ready (this s1)); [exact Hq1 |].
      intros win' Hw'. simpl in Hw'.
      exact (stopPolling_quiet s1 (quiet_owned s1 Hq1) win' Hw').
    + rewrite on_timeout_ready. exact Hr.
  - contradiction.
Qed.

Lemma run_stays_unready w es :
  quiet (gate w) -> isReady (gate w) = false -> SetReady ∉ es ->
  isReady (gate (run w es)) = false.
Proof.
  revert w. induction es as [| e es IH]; intros w Hq Hr Hes; [exact Hr |].
  simpl.
  destruct (step_stays_unready w e Hq Hr) as [Hq' Hr'].
  - intros ->. apply Hes. left.
  - apply IH; auto. intros Hin. apply Hes. right. exact Hin.
Qed.

End GateWorld.

Section NoPrematureCalls.
Import PyloidReadyManager Bridge.

Lemma fire_timeout_ready id s : isReady (fire_timeout id s) = isReady s.
Proof.
  unfold fire_timeout.
  destruct (window s); [| reflexivity].
  destruct (bool_decide _); [| reflexivity].
  rewrite on_timeout_ready. reflexivity.
Qed.

Lemma step_resolved_ready w e :
  resolved_ready (gate w) -> resolved_ready (gate (step w e)).
Proof.
  intros H.
  destruct (gate_step_cases w e)
    as [-> | [-> | [(v & ->) | [(id & _ & ->) | [(id & ->) | (_ & ->)]]]]].
  - exact H.
  - unfold inject. destruct (window (gate w)); exact H.
  - unfold set_ipc. destruct (window (gate w)); exact H.
  - unfold fire_interval, on_interval.
    destruct (window (gate w)) as [win |]; [| exact H].
    destruct (bool_decide _); [| exact H].
    destruct (__PYLOID__ win); [| exact H].
    intros _. apply setReady_ready.
  - unfold fire_timeout.
    destruct (window (gate w)) as [win |]; [| exact H].
    destruct (bool_decide _); [| exact H].
    match goal with |- resolved_ready (on_timeout ?s) =>
      destruct (on_timeout_readyPromise s) as [Hr | (_ & _ & Hr)] end.
    + intros Hp. rewrite on_timeout_ready. rewrite Hr in Hp. exact (H Hp).
    + intros Hp. rewrite Hr in Hp. discriminate.
  - intros _. apply setReady_ready.
Qed.

Lemma history_step_cases w e :
  history (step w e) = history w
  \/ exists r c a,
       gate (step w e) = gate w
       /\ history (step w e) = record r c a w
       /\ ((a = false /\ c = Failed (ssr_message r))
           \/ (a = false /\ isReady (gate w) = true /\ c = fn r (gate w))
           \/ (a = true /\ whenReady (gate w) = Resolved
               /\ c = fn r (gate w))
           \/ (a = true /\ exists reason, c = Failed reason)).
Proof.
  destruct e; simpl; auto.
  - unfold ensureReady.
    destruct (checks_window r && _).
    + right. exists r, (Failed (ssr_message r)), false.
      split; [reflexivity |]. split; [reflexivity |]. left. auto.
    + destruct (isReady (gate w)) eqn:Hr; simpl; [| left; reflexivity].
      right. exists r, (fn r (gate w)), false.
      split; [reflexivity |]. split; [reflexivity |]. right. left. auto.
  - unfold resume. destruct (suspended w !! i) as [r |]; [| auto].
    destruct (whenReady (gate w)) eqn:Hp; [auto | |].
    + right. exists r, (fn r (gate w)), true.
      split; [reflexivity |]. split; [reflexivity |].
      right. right. left. auto.
    + right. exists r, (Failed reason), true.
      split; [reflexivity |]. split; [reflexivity |].
      right. right. right. eauto.
Qed.

Lemma step_world_inv w e : world_inv w -> world_inv (step w e).
Proof.
  intros [Hg Hh]. split; [exact (step_resolved_ready w e Hg) |].
  destruct (history_step_cases w e) as [-> | (r & c & a & _ & -> & Hc)];
    [exact Hh |].
  intros x Hx. unfold record in Hx.
  apply elem_of_app in Hx as [Hx | Hx]; [exact (Hh x Hx) |].
  apply list_elem_of_singleton in Hx. subst x.
  unfold entry_ok. simpl.
  destruct Hc as [(-> & ->) | [(-> & Hr & ->) | [(-> & Hp & ->) | (-> & m & ->)]]];
    simpl; intros Hi; try discriminate.
  - split; [exact Hr | discriminate].
  - split; [exact (Hg Hp) | intros _; exact Hp].
Qed.

Lemma run_world_inv w es : world_inv w -> world_inv (run w es).
Proof.
  revert w. induction es as [| e es IH]; intros w H; [exact H |].
  simpl. apply IH, step_world_inv, H.
Qed.

Lemma boot_world_inv g : world_inv (boot g).
Proof.
  split; [| intros e He; simpl in He; apply elem_of_nil in He; contradiction].
  unfold boot, constructor. simpl.
  destruct g as [win |]; [| discriminate].
  destruct (__PYLOID__ win); [| discriminate].
  intros _. apply setReady_ready.
Qed.

End NoPrematureCalls.

Section ReadyGateClaims.
Import PyloidReadyManager Bridge.

(** C1.  Along every run of the event loop, started from any global scope:
    every call of a [BaseAPI] method or of [callIPC] that reached a bridge
    function did so while [isReady()] was true and, if it had been
    suspended on [whenReady()], after that promise was resolved.  A call
    made while the flag is false is suspended (or fails at once where there
    is no [window]) and invokes nothing; its continuation does not run
    while the promise is pending; a call made while the flag is true runs
    its bridge function in the same job, without being suspended. *)
Theorem no_premature_bridge_calls (g : option Window) (es : list Event) :
  let w := run (boot g) es in
  (forall e, e ∈ history w -> invokes (completion e) = true ->
     ready_at e = true /\ (awaited e = true -> signal_at e = Resolved))
  /\ (forall r, isReady (gate w) = false ->
        step w (Issue r)
        = {| gate := gate w; suspended := suspended w ++ [r];
             history := history w |}
        \/ (window (gate w) = None
            /\ step w (Issue r)
               = {| gate := gate w; suspended := suspended w;
                    history :=
                      record r (Failed (ssr_message r)) false w |}))
  /\ (forall i, whenReady (gate w) = Pending -> step w (Resume i) = w)
  /\ (forall r, isReady (gate w) = true ->
        exists c,
          step w (Issue r)
          = {| gate := gate w; suspended := suspended w;
               history :=
                 history w ++
                   [{| request := r; completion := c;
                       awaited := false; ready_at := true;
                       signal_at := whenReady (gate w) |}] |}
          /\ (is_Some (window (gate w)) -> c = fn r (gate w))).
Proof.
  intros w.
  pose proof (run_world_inv (boot g) es (boot_world_inv g)) as [_ Hh].
  fold w in Hh.
  split; [exact Hh |]. split; [| split].
  - intros r Hr. simpl. unfold ensureReady. rewrite Hr. simpl.
    destruct (checks_window r); simpl; [| left; reflexivity].
    destruct (window (gate w)) as [win |] eqn:Hw.
    + rewrite bool_decide_eq_true_2 by eauto. simpl. left. reflexivity.
    + rewrite bool_decide_eq_false_2 by (intros [x Hx]; discriminate).
      simpl. right. split; reflexivity.
  - intros i Hp. simpl. unfold resume. rewrite Hp.
    destruct (suspended w !! i); reflexivity.
  - intros r Hr. simpl. unfold ensureReady, record. rewrite Hr. simpl.
    destruct (checks_window r && negb (bool_decide (is_Some (window (gate w)))))
      eqn:Hssr.
    + exists (Failed (ssr_message r)). split; [reflexivity |].
      intros Hw. rewrite bool_decide_eq_true_2, andb_false_r in Hssr by exact Hw.
      discriminate.
    + exists (fn r (gate w)). split; [reflexivity | reflexivity].
Qed.

(** A page without the bridge: a title is set before the host injects the
    bridge, the poll finds it, the suspended call resumes. *)
Lemma no_premature_bridge_calls_witness :
  let w := run (boot (Some (page JS.two_members false JS.VUndefined 1)))
             [Issue (Typed (setTitle "Hello")); Inject; PollTick 1; Resume 0] in
  let e := {| request := Typed (setTitle "Hello");
              completion := Forwarded (setTitle "Hello");
              awaited := true; ready_at := true; signal_at := Resolved |} in
  e ∈ history w /\ invokes (completion e) = true
  /\ ready_at e = true /\ (awaited e = true -> signal_at e = Resolved).
Proof.
  intros w e.
  assert (e ∈ history w) as Hin by (vm_compute; left).
  split; [exact Hin |]. split; [reflexivity |].
  exact (proj1 (no_premature_bridge_calls
                  (Some (page JS.two_members false JS.VUndefined 1))
                  [Issue (Typed (setTitle "Hello")); Inject; PollTick 1;
                   Resume 0]) e Hin eq_refl).
Defined.

(** C2, as stated, fails: after the timeout has fired, an explicit
    [setReady()] still sets the ready flag, while [whenReady()] stays
    rejected. *)
Lemma setReady_after_timeout :
  let w1 := run (boot (Some (page JS.two_members false JS.VUndefined 1))) [TimeoutFires 2] in
  let w2 := step w1 SetReady in
  isReady (gate w1) = false
  /\ whenReady (gate w1) = Rejected timed_out
  /\ isReady (gate w2) = true
  /\ whenReady (gate w2) = Rejected timed_out.
Proof. vm_compute. repeat split. Qed.

(** C2, amended.  Once the timeout has fired before the bridge was
    detected, [whenReady()] is rejected with the timeout error and stays so
    whatever happens next; the ready flag stays false as long as nobody
    calls [setReady()] explicitly, even if the bridge appears and timers
    tick; an explicit [setReady()] does set the flag. *)
Theorem timeout_is_terminal (r : JS.Realm) (b : bool) (v : JS.Val) (n : nat)
    (es : list Event) (id : nat) (es' : list Event) :
  let w := run (boot (Some (page r b v n))) es in
  let w1 := step w (TimeoutFires id) in
  isReady (gate w) = false ->
  whenReady (gate w1) = Rejected timed_out ->
  whenReady (gate (run w1 es')) = Rejected timed_out
  /\ (SetReady ∉ es' -> isReady (gate (run w1 es')) = false)
  /\ isReady (gate (step (run w1 es') SetReady)) = true.
Proof.
  intros w w1 Hr Hp.
  split; [exact (run_rejected w1 es' timed_out Hp) |].
  split; [| apply setReady_ready].
  intros Hno. apply run_stays_unready; [| | exact Hno].
  - assert (gate_inv (gate w1)) as (_ & Hq & _).
    { apply step_gate_inv, run_gate_inv, constructor_inv. }
    apply Hq. rewrite Hp. discriminate.
  - unfold w1. simpl. rewrite fire_timeout_ready. exact Hr.
Qed.

Lemma timeout_is_terminal_witness :
  let w := run (boot (Some (page JS.two_members false JS.VUndefined 1))) [] in
  let w1 := step w (TimeoutFires 2) in
  let es' := [Inject; PollTick 1; Issue (Typed getData); Resume 0] in
  isReady (gate w) = false
  /\ whenReady (gate w1) = Rejected timed_out
  /\ whenReady (gate (run w1 es')) = Rejected timed_out
  /\ isReady (gate (run w1 es')) = false.
Proof.
  intros w w1 es'.
  assert (isReady (gate w) = false) as Hr by reflexivity.
  assert (whenReady (gate w1) = Rejected timed_out) as Hp by reflexivity.
  assert (SetReady ∉ es') as Hno.
  { intros H. repeat (apply elem_of_cons in H as [H | H]; [discriminate |]).
    apply elem_of_nil in H. exact H. }
  pose proof (timeout_is_terminal JS.two_members false JS.VUndefined 1 [] 2 es' Hr Hp)
    as (H1 & H2 & _).
  exact (conj Hr (conj Hp (conj H1 (H2 Hno)))).
Defined.

(** C9.  [setReady()] is idempotent: in every state of the manager, a call
    made when the flag is already set changes nothing, and two or more
    calls in a row leave the manager, its timers, its promise and the
    pending calls exactly as one call does.  That one call sets the flag,
    forgets both timers and resolves the promise if it was pending. *)
Theorem setReady_idempotent (w : World) :
  (isReady (gate w) = true -> step w SetReady = w)
  /\ (forall k, run w (replicate (S (S k)) SetReady) = step w SetReady)
  /\ isReady (gate (step w SetReady)) = true
  /\ (isReady (gate w) = false ->
      pollingInterval (this (gate (step w SetReady))) = None
      /\ pollingTimeout (this (gate (step w SetReady))) = None
      /\ whenReady (gate (step w SetReady)) = resolve (whenReady (gate w))).
Proof.
  assert (forall x, isReady (gate x) = true -> step x SetReady = x) as Hnoop.
  { intros [g s h] Hx. simpl in *. unfold on_gate. simpl.
    rewrite (setReady_when_ready g Hx). reflexivity. }
  split; [apply Hnoop |]. split; [| split].
  - intros k.
    assert (forall j x, isReady (gate x) = true ->
              run x (replicate j SetReady) = x) as Hrep.
    { induction j as [| j IH]; intros x Hx; [reflexivity |].
      change (run (step x SetReady) (replicate j SetReady) = x).
      rewrite (Hnoop x Hx). exact (IH x Hx). }
    change (run (step w SetReady) (replicate (S k) SetReady)
            = step w SetReady).
    apply Hrep. simpl. apply setReady_ready.
  - simpl. apply setReady_ready.
  - intros Hr. simpl.
    destruct (setReady_first (gate w) Hr) as (_ & Hi & Ht & Hp). auto.
Qed.

Lemma setReady_idempotent_witness :
  let w := boot (Some (page JS.two_members true JS.VUndefined 1)) in
  let w' := boot (Some (page JS.two_members false JS.VUndefined 1)) in
  isReady (gate w) = true /\ step w SetReady = w
  /\ isReady (gate w') = false
  /\ pollingInterval (this (gate (step w' SetReady))) = None.
Proof.
  intros w w'.
  assert (isReady (gate w) = true) as Hr by reflexivity.
  assert (isReady (gate w') = false) as Hr' by reflexivity.
  split; [exact Hr |].
  split; [exact (proj1 (setReady_idempotent w) Hr) |].
  split; [exact Hr' |].
  exact (proj1 (proj2 (proj2 (proj2 (setReady_idempotent w'))) Hr')).
Defined.

End ReadyGateClaims.

(** ** buildUrl *)

Section BuildUrl.
Import Url.

Lemma startsWith_spec (s p : string) :
  JS.startsWith s p = true <-> exists rest, s = p +:+ rest.
Proof.
  unfold JS.startsWith. revert s.
  induction p as [| c p IH]; intros s; simpl.
  - split; [intros _; exists s; reflexivity |].
    intros _. destruct s; reflexivity.
  - destruct s as [| d s]; simpl.
    + split; [discriminate | intros [rest H]; discriminate].
    + destruct (Ascii.ascii_dec c d) as [-> | Hne].
      * rewrite IH. split; intros [rest H]; exists rest.
        -- rewrite H. reflexivity.
        -- inversion H. reflexivity.
      * split; [discriminate |].
        intros [rest H]. inversion H. congruence.
Qed.

Lemma replace_trailing_slash_spec (s : string) :
  (exists b, s = b +:+ "/" /\ replace_trailing_slash s = b)
  \/ ((forall x, s <> x +:+ "/") /\ replace_trailing_slash s = s).
Proof.
  induction s as [| c rest IH]; simpl.
  - right. split; [| reflexivity]. intros [| d x]; discriminate.
  - destruct (Ascii.eqb c "/") eqn:Hc; simpl.
    + apply Ascii.eqb_eq in Hc. subst c.
      destruct (String.eqb rest "") eqn:Hrest.
      * apply String.eqb_eq in Hrest. subst rest.
        left. exists "". split; reflexivity.
      * apply String.eqb_neq in Hrest.
        destruct IH as [(b & -> & ->) | (Hno & ->)].
        -- left. exists (String "/" b). split; reflexivity.
        -- right. split; [| reflexivity].
           intros [| d x] H; simpl in H; inversion H; subst.
           ++ contradiction.
           ++ exact (Hno x eq_refl).
    + apply Ascii.eqb_neq in Hc.
      destruct IH as [(b & -> & ->) | (Hno & ->)].
      * left. exists (String c b). split; reflexivity.
      * right. split; [| reflexivity].
        intros [| d x] H; simpl in H; inversion H; subst.
        -- contradiction.
        -- exact (Hno x eq_refl).
Qed.

Lemma replace_leading_slash_spec (s : string) :
  (exists p, s = "/" +:+ p /\ replace_leading_slash s = p)
  \/ ((forall x, s <> "/" +:+ x) /\ replace_leading_slash s = s).
Proof.
  destruct s as [| c rest]; simpl.
  - right. split; [intros x; discriminate | reflexivity].
  - destruct (Ascii.eqb c "/") eqn:Hc.
    + apply Ascii.eqb_eq in Hc. subst c. left. exists rest.
      split; reflexivity.
    + apply Ascii.eqb_neq in Hc. right. split; [| reflexivity].
      intros x H. inversion H. contradiction.
Qed.

(** C6.  A path that starts with [http://] or [https://] is returned as it
    is, whatever the base.  Any other path is joined to the base with one
    slash, after one trailing slash of the base (if it has one) and one
    leading slash of the path (if it has one) are removed, and no more than
    one.  Base "http://x/" and path "/a/b" give "http://x/a/b". *)
Theorem buildUrl_joins (serverUrl path : string) :
  ((exists rest, path = "http://" +:+ rest \/ path = "https://" +:+ rest) ->
     buildUrl serverUrl path = path)
  /\ (~ (exists rest, path = "http://" +:+ rest \/ path = "https://" +:+ rest) ->
      exists b p,
        buildUrl serverUrl path = b +:+ "/" +:+ p
        /\ (serverUrl = b +:+ "/"
            \/ (serverUrl = b /\ forall x, serverUrl <> x +:+ "/"))
        /\ (path = "/" +:+ p \/ (path = p /\ forall x, path <> "/" +:+ x)))
  /\ buildUrl "http://x/" "/a/b" = "http://x/a/b".
Proof.
  split; [| split; [| reflexivity]].
  - intros [rest [H | H]]; unfold buildUrl.
    + assert (JS.startsWith path "http://" = true) as ->
        by (apply startsWith_spec; eauto).
      reflexivity.
    + assert (JS.startsWith path "https://" = true) as ->
        by (apply startsWith_spec; eauto).
      rewrite orb_true_r. reflexivity.
  - intros Hrel. unfold buildUrl.
    destruct (JS.startsWith path "http://") eqn:H1.
    { exfalso. apply Hrel. apply startsWith_spec in H1 as [rest H].
      eauto. }
    destruct (JS.startsWith path "https://") eqn:H2.
    { exfalso. apply Hrel. apply startsWith_spec in H2 as [rest H].
      eauto. }
    simpl.
    exists (replace_trailing_slash serverUrl), (replace_leading_slash path).
    split; [reflexivity |]. split.
    + destruct (replace_trailing_slash_spec serverUrl)
        as [(b & Hb & ->) | (Hno & ->)]; auto.
    + destruct (replace_leading_slash_spec path)
        as [(p & Hp & ->) | (Hno & ->)]; auto.
Qed.

Lemma buildUrl_joins_witness :
  buildUrl "http://x/" "https://other/y" = "https://other/y"
  /\ exists b p,
       buildUrl "http://x//" "a" = b +:+ "/" +:+ p
       /\ ("http://x//" = b +:+ "/"
           \/ ("http://x//" = b /\ forall x, "http://x//" <> x +:+ "/"))
       /\ ("a" = "/" +:+ p \/ ("a" = p /\ forall x, "a" <> "/" +:+ x)).
Proof.
  split.
  - apply (proj1 (buildUrl_joins "http://x/" "https://other/y")).
    exists "other/y". right. reflexivity.
  - apply (proj1 (proj2 (buildUrl_joins "http://x//" "a"))).
    intros [rest [H | H]]; discriminate.
Defined.

End BuildUrl.

(** ** callIPC *)

Section CallIPC.
Import JS IPC.

Variable realm : Realm.

Lemma append_assoc (a b c : string) : (a +:+ b) +:+ c = a +:+ (b +:+ c).
Proof.
  induction a as [| x a IH]; [reflexivity |].
  change (String x ((a +:+ b) +:+ c) = String x (a +:+ (b +:+ c))).
  f_equal. exact IH.
Qed.

Lemma typeof_function v :
  String.eqb (typeof v) "function" = true <-> exists f ps, v = VFun f ps.
Proof.
  destruct v; simpl; split; try discriminate; try (intros (f' & ps & H); discriminate).
  - eauto.
  - reflexivity.
Qed.






End CallIPC.

Section CallIPCClaims.
Import JS IPC.

Lemma split_length sep s : 0 < length (split sep s).
Proof.
  induction s as [| c s IH]; simpl; [lia |].
  destruct (Ascii.eqb c sep); simpl; [lia |].
  destruct (split sep s); simpl in *; lia.
Qed.






Section Dispatch.
Import PyloidReadyManager Bridge.




End Dispatch.


(** The same with a function that carries properties of its own. *)
Example callIPC_accepts_a_function_container :
  let g := VFun (HostFn 1) {[ "b" := VFun (HostFn 2) ∅ ]} in
  callIPC_body two_members (VObj {[ "a" := g ]}) "a.b" [VNum 1]
  = Invoked (HostFn 2) g [VNum 1].
Proof. vm_compute. reflexivity. Qed.

(** And with any member a string inherits, in a realm that has it. *)
Example callIPC_invokes_inherited_members (realm : Realm) :
  realm (VStr "hello") "charAt"
  = VFun (Builtin "String.prototype.charAt") ∅ ->
  callIPC_body realm (VObj {[ "a" := VStr "hello" ]}) "a.charAt" [VNum 1]
  = Invoked (Builtin "String.prototype.charAt") (VStr "hello") [VNum 1].
Proof.
  intros H. unfold callIPC_body.
  change (split "." "a.charAt") with ["a"; "charAt"]. simpl.
  rewrite lookup_singleton_eq. simpl. rewrite H. reflexivity.
Qed.



End CallIPCClaims.

(** ** The lazily resolved caches of the fetch module *)

Section FetchInvariants.
Import Async PyloidFetch.

Lemma elem_of_insert_inv {A} (l : list A) i x y :
  y ∈ <[i := x]> l -> y = x \/ y ∈ l.
Proof.
  intros H. apply list_elem_of_lookup in H as [j Hj].
  apply list_lookup_insert_Some in Hj as [(_ & -> & _) | (_ & Hj)].
  - left. reflexivity.
  - right. apply list_elem_of_lookup. eauto.
Qed.

Lemma delete_no_tag {A B} (l : list (A * B)) k a b :
  NoDup l.*1 -> l !! k = Some (a, b) ->
  NoDup (delete k l).*1 /\ (forall b', (a, b') ∉ delete k l)
  /\ (forall x, x ∈ delete k l -> x ∈ l)
  /\ (forall a' b', a' <> a -> (a', b') ∈ l -> (a', b') ∈ delete k l).
Proof.
  intros Hnd Hk.
  destruct (list_elem_of_split_length l k (a, b) Hk) as (l1 & l2 & -> & ->).
  rewrite delete_middle.
  rewrite fmap_app, fmap_cons in Hnd. simpl in Hnd.
  apply NoDup_app in Hnd as (Hn1 & Hd & Hn2).
  apply NoDup_cons in Hn2 as [Ha2 Hn2].
  split; [| split; [| split]].
  - rewrite fmap_app. apply NoDup_app. split; [exact Hn1 |]. split; [| exact Hn2].
    intros x Hx Hx2. apply (Hd x Hx). right. exact Hx2.
  - intros b' Hin. apply elem_of_app in Hin as [Hin | Hin].
    + apply (Hd a); [| left].
      apply list_elem_of_fmap. exists (a, b'). auto.
    + apply Ha2. apply list_elem_of_fmap. exists (a, b'). auto.
  - intros x Hx. apply elem_of_app in Hx as [Hx | Hx];
      apply elem_of_app; [left | right; right]; exact Hx.
  - intros a' b' Hne Hin. apply elem_of_app in Hin as [Hin | Hin];
      apply elem_of_app; [left; exact Hin |].
    apply elem_of_cons in Hin as [Hin | Hin]; [congruence | right; exact Hin].
Qed.

Lemma stable_refl s : stable s s.
Proof. unfold stable. auto. Qed.

Lemma stable_trans s1 s2 s3 : stable s1 s2 -> stable s2 s3 -> stable s1 s3.
Proof.
  intros (A1 & B1 & C1) (A2 & B2 & C2). unfold stable. split; [| split]; eauto.
Qed.

Lemma progress_ok_stable c s s' p :
  stable s s' -> progress_ok c s p -> progress_ok c s' p.
Proof.
  intros (Hs & Hc & Hp). destruct p as [r | | m]; simpl.
  - apply Hs.
  - intros (v & Hv & Hf). exists v. split; [apply Hc, Hv | exact Hf].
  - intros (r & Hr & [H | (-> & v & H & Hf)]); exists r;
      (split; [exact (Hs c r Hr) |]).
    + left. apply Hp; [exact H | discriminate].
    + right. split; [reflexivity |]. exists v. split; [| exact Hf].
      apply Hp; [exact H | discriminate].
Qed.

Lemma outcome_ok_stable s s' fc :
  stable s s' -> outcome_ok s fc -> outcome_ok s' fc.
Proof.
  intros (_ & Hc & _). unfold outcome_ok.
  destruct (outcome fc) as [[m | q] |]; auto.
  intros (base & w & Hb & Hw & Hf & Hq). exists base, w.
  split; [exact (Hc ServerUrl base Hb) |].
  split; [exact (Hc WindowId w Hw) | auto].
Qed.


Lemma cache_ok_stored_Some c s r :
  cache_ok c s -> stored c s = Some r ->
  host_calls c s = 1 /\ exists p, promises s !! r = Some p.
Proof.
  unfold cache_ok. intros H Hr. rewrite Hr in H. destruct H as [Hh Hp].
  split; [exact Hh |]. destruct (promises s !! r) as [p |]; [eauto | contradiction].
Qed.

Lemma cache_ok_cached c s v :
  cache_ok c s -> cached c s = Some v ->
  exists r, stored c s = Some r /\ promises s !! r = Some (Fulfilled v)
    /\ (forall r', (c, r') ∉ inflight s).
Proof.
  unfold cache_ok. intros H Hv.
  destruct (stored c s) as [r |]; [| destruct H as [H _]; congruence].
  exists r. split; [reflexivity |]. destruct H as [_ H].
  destruct (promises s !! r) as [[| v' | m] |]; try contradiction;
    destruct H as [H1 H2]; try congruence.
  rewrite Hv in H1. inversion H1. auto.
Qed.

Lemma cache_ok_inflight c s r :
  cache_ok c s -> (c, r) ∈ inflight s ->
  stored c s = Some r /\ promises s !! r = Some Pending /\ cached c s = None.
Proof.
  unfold cache_ok. intros H Hin.
  destruct (stored c s) as [r0 |]; [| destruct H as (_ & _ & H); destruct (H r Hin)].
  destruct H as [_ H].
  destruct (promises s !! r0) as [[| v' | m] |] eqn:Hp; try contradiction;
    destruct H as [H1 H2].
  - rewrite (H2 r Hin). auto.
  - destruct (H2 r Hin).
  - destruct (H2 r Hin).
Qed.

Lemma ensure_ok c s p s' :
  state_ok s -> ensureInitialized c s = (p, s') ->
  state_ok s' /\ stable s s' /\ calls s' = calls s /\ progress_ok c s' p.
Proof.
  intros (Hc & Hnd & Hdiff). unfold ensureInitialized.
  destruct (JS.falsy_str (cached c s)) eqn:Hf.
  - destruct (stored c s) as [r |] eqn:Hst.
    + intros H. inversion H; subst. split; [exact (conj Hc (conj Hnd Hdiff)) |].
      split; [apply stable_refl |]. split; [reflexivity | exact Hst].
    + pose proof (Hc c) as Hcc. unfold cache_ok in Hcc. rewrite Hst in Hcc.
      destruct Hcc as (Hcached & Hcalls & Hnone).
      pose proof (Hc ServerUrl) as HS. pose proof (Hc WindowId) as HW.
      destruct s as [su sup wi wip ps n1 n2 fl cs].
      unfold initialize, alloc. simpl in *.
      destruct c; simpl in *; intros H; inversion H; subst; clear H.
      * unfold state_ok, stable, cache_ok. simpl.
        split; [split; [| split] |].
        -- intros [|]; simpl.
           ++ split; [reflexivity |].
              rewrite lookup_app_r, Nat.sub_diag by lia. simpl.
              split; [reflexivity |].
              intros r' Hin. apply elem_of_app in Hin as [Hin | Hin].
              ** destruct (Hnone r' Hin).
              ** apply list_elem_of_singleton in Hin. congruence.
           ++ unfold cache_ok in HW. simpl in HW.
              destruct wip as [r' |].
              ** destruct HW as [Hh HW]. split; [exact Hh |].
                 destruct (ps !! r') as [x |] eqn:Hx; [| contradiction].
                 rewrite (lookup_app_l_Some _ _ _ _ Hx).
                 destruct x; destruct HW as [H1 H2]; (split; [exact H1 |]);
                   intros r'' Hin; apply elem_of_app in Hin as [Hin | Hin];
                   try (apply list_elem_of_singleton in Hin; discriminate);
                   try (exact (H2 _ Hin)); eauto.
              ** destruct HW as (H1 & H2 & H3). split; [exact H1 |].
                 split; [exact H2 |].
                 intros r'' Hin; apply elem_of_app in Hin as [Hin | Hin];
                   try (apply list_elem_of_singleton in Hin; discriminate).
                 exact (H3 r'' Hin).
        -- rewrite fmap_app. apply NoDup_app. split; [exact Hnd |].
           split; [| apply NoDup_singleton].
           intros x Hx Hx'. apply list_elem_of_singleton in Hx'. subst x.
           apply list_elem_of_fmap in Hx as ([a b] & Ha & Hin). simpl in Ha.
           subst a. exact (Hnone b Hin).
        -- intros r r' Hr Hr'. inversion Hr; subst.
           unfold cache_ok in HW. simpl in HW.
           destruct HW as [_ HW].
           destruct (ps !! r') eqn:Hx; [| contradiction].
           apply lookup_lt_Some in Hx. lia.
        -- split; [split; [| split] |].
           ++ intros [|] r; simpl; [discriminate | auto].
           ++ intros [|] v; simpl; auto.
           ++ intros r p Hp _. apply lookup_app_l_Some. exact Hp.
           ++ split; reflexivity.
      * unfold state_ok, stable, cache_ok. simpl.
        split; [split; [| split] |].
        -- intros [|]; simpl.
           ++ unfold cache_ok in HS. simpl in HS.
              destruct sup as [r' |].
              ** destruct HS as [Hh HS]. split; [exact Hh |].
                 destruct (ps !! r') as [x |] eqn:Hx; [| contradiction].
                 rewrite (lookup_app_l_Some _ _ _ _ Hx).
                 destruct x; destruct HS as [H1 H2]; (split; [exact H1 |]);
                   intros r'' Hin; apply elem_of_app in Hin as [Hin | Hin];
                   try (apply list_elem_of_singleton in Hin; discriminate);
                   try (exact (H2 _ Hin)); eauto.
              ** destruct HS as (H1 & H2 & H3). split; [exact H1 |].
                 split; [exact H2 |].
                 intros r'' Hin; apply elem_of_app in Hin as [Hin | Hin];
                   try (apply list_elem_of_singleton in Hin; discriminate).
                 exact (H3 r'' Hin).
           ++ split; [reflexivity |].
              rewrite lookup_app_r, Nat.sub_diag by lia. simpl.
              split; [reflexivity |].
              intros r' Hin. apply elem_of_app in Hin as [Hin | Hin].
              ** destruct (Hnone r' Hin).
              ** apply list_elem_of_singleton in Hin. congruence.
        -- rewrite fmap_app. apply NoDup_app. split; [exact Hnd |].
           split; [| apply NoDup_singleton].
           intros x Hx Hx'. apply list_elem_of_singleton in Hx'. subst x.
           apply list_elem_of_fmap in Hx as ([a b] & Ha & Hin). simpl in Ha.
           subst a. exact (Hnone b Hin).
        -- intros r r' Hr Hr'. inversion Hr'; subst.
           unfold cache_ok in HS. simpl in HS.
           destruct HS as [_ HS].
           destruct (ps !! r) eqn:Hx; [| contradiction].
           apply lookup_lt_Some in Hx. lia.
        -- split; [split; [| split] |].
           ++ intros [|] r; simpl; [auto | discriminate].
           ++ intros [|] v; simpl; auto.
           ++ intros r p Hp _. apply lookup_app_l_Some. exact Hp.
           ++ split; reflexivity.
  - intros H. inversion H; subst. split; [exact (conj Hc (conj Hnd Hdiff)) |].
    split; [apply stable_refl |]. split; [reflexivity |].
    simpl. destruct (cached c s') as [v |] eqn:Hv; [| discriminate].
    exists v. auto.
Qed.


Lemma settle_pending r p ps :
  ps !! r = Some Pending -> settle r p ps = <[r := p]> ps.
Proof. unfold settle. intros ->. reflexivity. Qed.

Lemma settle_settled r p ps q x :
  ps !! x = Some q -> q <> Pending -> settle r p ps !! x = Some q.
Proof.
  unfold settle. intros Hx Hq.
  destruct (ps !! r) as [[| |] |] eqn:Hr; try exact Hx.
  rewrite list_lookup_insert_ne; [exact Hx |]. congruence.
Qed.

Lemma answer_ok k a s :
  state_ok s ->
  state_ok (answer k a s) /\ stable s (answer k a s)
  /\ calls (answer k a s) = calls s.
Proof.
  intros Hs. unfold answer.
  destruct (inflight s !! k) as [[c r] |] eqn:Hk;
    [| split; [exact Hs | split; [apply stable_refl | reflexivity]]].
  destruct Hs as (Hc & Hnd & Hdiff).
  assert ((c, r) ∈ inflight s) as Hin by (apply list_elem_of_lookup; eauto).
  destruct (cache_ok_inflight c s r (Hc c) Hin) as (Hst & Hpend & Hcached).
  destruct (delete_no_tag (inflight s) k c r Hnd Hk) as (Hnd' & Hgone & Hsub & Hkeep).
  pose proof (Hc ServerUrl) as HS. pose proof (Hc WindowId) as HW.
  assert (r < length (promises s)) as Hlen by (eapply lookup_lt_Some; eauto).
  destruct s as [su sup wi wip ps n1 n2 fl cs]. simpl in *.
  set (fl' := delete k fl) in *.
  assert (forall p, settle r p ps = <[r := p]> ps) as Hsettle
    by (intros p; apply settle_pending, Hpend).
  assert (forall c' r', c' <> c ->
            stored c' {| serverUrl := su; serverUrlPromise := sup;
                           windowId := wi; windowIdPromise := wip;
                           promises := ps; getServerUrl_calls := n1;
                           getWindowId_calls := n2; inflight := fl;
                           calls := cs |} = Some r' ->
            r <> r') as Hother.
  { intros c' r' Hne Hr'.
    destruct c, c'; simpl in *; try congruence.
    - intros ->. exact (Hdiff _ _ Hst Hr' eq_refl).
    - intros ->. exact (Hdiff _ _ Hr' Hst eq_refl). }
  destruct c; simpl in *; subst sup || subst wip; destruct a as [v | e]; simpl;
    rewrite Hsettle; unfold state_ok, stable, cache_ok; simpl.
  - (* ServerUrl, Ok *)
    split; [split; [| split] |].
    + intros [|]; simpl.
      * unfold cache_ok in HS; simpl in HS. destruct HS as [Hh _].
        split; [exact Hh |]. rewrite list_lookup_insert_eq by exact Hlen.
        split; [reflexivity | exact Hgone].
      * unfold cache_ok in HW; simpl in HW.
        destruct wip as [r' |].
        -- destruct HW as [Hh HW]. split; [exact Hh |].
           rewrite list_lookup_insert_ne
             by (apply (Hother WindowId); [discriminate | reflexivity]).
           destruct (ps !! r') as [[| w | m] |]; [| | | contradiction];
             destruct HW as [H1 H2]; (split; [exact H1 |]); intros r'' Hin'.
           ++ apply H2, Hsub, Hin'.
           ++ exact (H2 r'' (Hsub _ Hin')).
           ++ exact (H2 r'' (Hsub _ Hin')).
        -- destruct HW as (H1 & H2 & H3). split; [exact H1 |]. split; [exact H2 |].
           intros r'' Hin'. exact (H3 r'' (Hsub _ Hin')).
    + exact Hnd'.
    + exact Hdiff.
    + split; [split; [| split] |]; [auto | | | reflexivity].
      * intros [|] w; simpl; [congruence | auto].
      * intros x p Hx Hp. rewrite list_lookup_insert_ne; [exact Hx |]. congruence.
  - (* ServerUrl, Err *)
    split; [split; [| split] |].
    + intros [|]; simpl.
      * unfold cache_ok in HS; simpl in HS. destruct HS as [Hh _].
        split; [exact Hh |]. rewrite list_lookup_insert_eq by exact Hlen.
        split; [exact Hcached | exact Hgone].
      * unfold cache_ok in HW; simpl in HW.
        destruct wip as [r' |].
        -- destruct HW as [Hh HW]. split; [exact Hh |].
           rewrite list_lookup_insert_ne
             by (apply (Hother WindowId); [discriminate | reflexivity]).
           destruct (ps !! r') as [[| w | m] |]; [| | | contradiction];
             destruct HW as [H1 H2]; (split; [exact H1 |]); intros r'' Hin'.
           ++ apply H2, Hsub, Hin'.
           ++ exact (H2 r'' (Hsub _ Hin')).
           ++ exact (H2 r'' (Hsub _ Hin')).
        -- destruct HW as (H1 & H2 & H3). split; [exact H1 |]. split; [exact H2 |].
           intros r'' Hin'. exact (H3 r'' (Hsub _ Hin')).
    + exact Hnd'.
    + exact Hdiff.
    + split; [split; [| split] |]; [auto | auto | | reflexivity].
      intros x p Hx Hp. rewrite list_lookup_insert_ne; [exact Hx |]. congruence.
  - (* WindowId, Ok *)
    split; [split; [| split] |].
    + intros [|]; simpl.
      * unfold cache_ok in HS; simpl in HS.
        destruct sup as [r' |].
        -- destruct HS as [Hh HS]. split; [exact Hh |].
           rewrite list_lookup_insert_ne
             by (apply (Hother ServerUrl); [discriminate | reflexivity]).
           destruct (ps !! r') as [[| w | m] |]; [| | | contradiction];
             destruct HS as [H1 H2]; (split; [exact H1 |]); intros r'' Hin'.
           ++ apply H2, Hsub, Hin'.
           ++ exact (H2 r'' (Hsub _ Hin')).
           ++ exact (H2 r'' (Hsub _ Hin')).
        -- destruct HS as (H1 & H2 & H3). split; [exact H1 |]. split; [exact H2 |].
           intros r'' Hin'. exact (H3 r'' (Hsub _ Hin')).
      * unfold cache_ok in HW; simpl in HW. destruct HW as [Hh _].
        split; [exact Hh |]. rewrite list_lookup_insert_eq by exact Hlen.
        split; [reflexivity | exact Hgone].
    + exact Hnd'.
    + exact Hdiff.
    + split; [split; [| split] |]; [auto | | | reflexivity].
      * intros [|] w; simpl; [auto | congruence].
      * intros x p Hx Hp. rewrite list_lookup_insert_ne; [exact Hx |]. congruence.
  - (* WindowId, Err *)
    split; [split; [| split] |].
    + intros [|]; simpl.
      * unfold cache_ok in HS; simpl in HS.
        destruct sup as [r' |].
        -- destruct HS as [Hh HS]. split; [exact Hh |].
           rewrite list_lookup_insert_ne
             by (apply (Hother ServerUrl); [discriminate | reflexivity]).
           destruct (ps !! r') as [[| w | m] |]; [| | | contradiction];
             destruct HS as [H1 H2]; (split; [exact H1 |]); intros r'' Hin'.
           ++ apply H2, Hsub, Hin'.
           ++ exact (H2 r'' (Hsub _ Hin')).
           ++ exact (H2 r'' (Hsub _ Hin')).
        -- destruct HS as (H1 & H2 & H3). split; [exact H1 |]. split; [exact H2 |].
           intros r'' Hin'. exact (H3 r'' (Hsub _ Hin')).
      * unfold cache_ok in HW; simpl in HW. destruct HW as [Hh _].
        split; [exact Hh |]. rewrite list_lookup_insert_eq by exact Hlen.
        split; [exact Hcached | exact Hgone].
    + exact Hnd'.
    + exact Hdiff.
    + split; [split; [| split] |]; [auto | auto | | reflexivity].
      intros x p Hx Hp. rewrite list_lookup_insert_ne; [exact Hx |]. congruence.
Qed.


Lemma cache_ok_with_calls c cs s : cache_ok c (with_calls cs s) <-> cache_ok c s.
Proof. destruct c; reflexivity. Qed.

Lemma state_ok_with_calls cs s : state_ok (with_calls cs s) <-> state_ok s.
Proof.
  unfold state_ok. simpl.
  split; intros (H1 & H2 & H3); (split; [| split]); auto;
    intros c; apply (cache_ok_with_calls c cs s), H1.
Qed.

Lemma progress_ok_with_calls c cs s p :
  progress_ok c (with_calls cs s) p <-> progress_ok c s p.
Proof. destruct c, p; reflexivity. Qed.

Lemma outcome_ok_with_calls cs s fc :
  outcome_ok (with_calls cs s) fc <-> outcome_ok s fc.
Proof. reflexivity. Qed.

Lemma stable_with_calls cs s : stable s (with_calls cs s).
Proof.
  unfold stable. split; [| split]; [intros [|] | intros [|] |]; simpl; auto.
Qed.

Lemma call_ok_stable s s' fc : stable s s' -> call_ok s fc -> call_ok s' fc.
Proof.
  intros Hst [Hp Ho]. split.
  - intros c. eapply progress_ok_stable; eauto.
  - eapply outcome_ok_stable; eauto.
Qed.

Lemma call_ok_with_calls cs s fc : call_ok (with_calls cs s) fc <-> call_ok s fc.
Proof.
  unfold call_ok. split; intros [Hp Ho]; split; auto;
    intros c; apply (progress_ok_with_calls c cs s), Hp.
Qed.

Lemma fetch_inv u o s : inv s -> inv (fetch u o s) /\ stable s (fetch u o s).
Proof.
  intros [Hs Hcalls]. unfold fetch.
  destruct (ensureInitialized ServerUrl s) as [p1 s1] eqn:H1.
  destruct (ensureInitialized WindowId s1) as [p2 s2] eqn:H2.
  destruct (ensure_ok _ _ _ _ Hs H1) as (Hs1 & Hst1 & Hc1 & Hp1).
  destruct (ensure_ok _ _ _ _ Hs1 H2) as (Hs2 & Hst2 & Hc2 & Hp2).
  pose proof (stable_trans _ _ _ Hst1 Hst2) as Hst.
  split.
  - split; [apply state_ok_with_calls, Hs2 |].
    simpl. intros fc Hfc. apply call_ok_with_calls.
    apply elem_of_app in Hfc as [Hfc | Hfc].
    + rewrite Hc2, Hc1 in Hfc.
      apply (call_ok_stable s); [exact Hst | apply Hcalls, Hfc].
    + apply list_elem_of_singleton in Hfc. subst fc. split; [| exact I].
      intros [|]; simpl; [| exact Hp2].
      apply (progress_ok_stable _ s1); [exact Hst2 | exact Hp1].
  - eapply stable_trans; [exact Hst | apply stable_with_calls].
Qed.

Lemma answer_inv k a s : inv s -> inv (answer k a s) /\ stable s (answer k a s).
Proof.
  intros [Hs Hcalls].
  destruct (answer_ok k a s Hs) as (Hs' & Hst & Hc).
  split; [| exact Hst]. split; [exact Hs' |].
  rewrite Hc. intros fc Hfc.
  apply (call_ok_stable s); [exact Hst | apply Hcalls, Hfc].
Qed.

Lemma progress_finish_same c pr fc : progress c (finish_ensure c pr fc) = pr.
Proof. destruct c; reflexivity. Qed.

Lemma progress_finish_other c c' pr fc :
  c' <> c -> progress c' (finish_ensure c pr fc) = progress c' fc.
Proof. destruct c, c'; simpl; congruence. Qed.

Lemma outcome_finish c pr fc : outcome (finish_ensure c pr fc) = outcome fc.
Proof. destruct c; reflexivity. Qed.

Lemma url_finish c pr fc : url (finish_ensure c pr fc) = url fc.
Proof. destruct c; reflexivity. Qed.

Lemma options_finish c pr fc : options (finish_ensure c pr fc) = options fc.
Proof. destruct c; reflexivity. Qed.

Lemma wake_inv i c s : inv s -> inv (wake i c s) /\ stable s (wake i c s).
Proof.
  intros [Hs Hcalls]. unfold wake.
  destruct (calls s !! i) as [fc |] eqn:Hi;
    [| split; [exact (conj Hs Hcalls) | apply stable_refl]].
  destruct (progress c fc) as [r | | m] eqn:Hpr;
    try (split; [exact (conj Hs Hcalls) | apply stable_refl]).
  destruct (promises s !! r) as [p |] eqn:Hp;
    [| split; [exact (conj Hs Hcalls) | apply stable_refl]].
  destruct (after_await c p s) as [pr |] eqn:Haw;
    [| split; [exact (conj Hs Hcalls) | apply stable_refl]].
  split; [| apply stable_with_calls].
  split; [apply state_ok_with_calls, Hs |].
  simpl. intros fc' Hfc'. apply call_ok_with_calls.
  apply elem_of_insert_inv in Hfc' as [-> | Hfc']; [| apply Hcalls, Hfc'].
  assert (fc ∈ calls s) as Hfc by (apply list_elem_of_lookup; eauto).
  destruct (Hcalls fc Hfc) as [Hprog Hout].
  split.
  - intros c'. destruct (decide (c' = c)) as [-> | Hne].
    + rewrite progress_finish_same.
      pose proof (Hprog c) as Hpc. rewrite Hpr in Hpc. simpl in Hpc.
      destruct Hs as (Hc & _).
      pose proof (Hc c) as Hcc. unfold cache_ok in Hcc.
      rewrite Hpc, Hp in Hcc. destruct Hcc as [_ Hcc].
      unfold after_await in Haw.
      destruct p as [| v | m]; [discriminate | |]; inversion Haw; subst pr.
      * destruct Hcc as [Hv _]. rewrite Hv.
        destruct (JS.falsy_str (Some v)) eqn:Hf; simpl.
        -- exists r. split; [exact Hpc |]. right. split; [reflexivity |]. eauto.
        -- exists v. auto.
      * simpl. exists r. auto.
    + rewrite progress_finish_other by exact Hne. apply Hprog.
  - unfold outcome_ok in *. rewrite outcome_finish, url_finish, options_finish.
    exact Hout.
Qed.

Lemma continue_inv i s : inv s -> inv (continue i s) /\ stable s (continue i s).
Proof.
  intros [Hs Hcalls]. unfold continue.
  destruct (calls s !! i) as [fc |] eqn:Hi;
    [| split; [exact (conj Hs Hcalls) | apply stable_refl]].
  assert (fc ∈ calls s) as Hfc by (apply list_elem_of_lookup; eauto).
  destruct (Hcalls fc Hfc) as [Hprog Hout].
  destruct (outcome fc) as [x |] eqn:Hx;
    [split; [exact (conj Hs Hcalls) | apply stable_refl] |].
  destruct (rejection fc) as [m |].
  - split; [| apply stable_with_calls].
    split; [apply state_ok_with_calls, Hs |].
    simpl. intros fc' Hfc'. apply call_ok_with_calls.
    apply elem_of_insert_inv in Hfc' as [-> | Hfc']; [| apply Hcalls, Hfc'].
    split; [exact Hprog | exact I].
  - destruct (ensureServerUrl fc) as [r1 | | m1] eqn:H1;
      try (split; [exact (conj Hs Hcalls) | apply stable_refl]).
    destruct (ensureWindowId fc) as [r2 | | m2] eqn:H2;
      try (split; [exact (conj Hs Hcalls) | apply stable_refl]).
    split; [| apply stable_with_calls].
    split; [apply state_ok_with_calls, Hs |].
    simpl. intros fc' Hfc'. apply call_ok_with_calls.
    apply elem_of_insert_inv in Hfc' as [-> | Hfc']; [| apply Hcalls, Hfc'].
    split; [exact Hprog |].
    pose proof (Hprog ServerUrl) as HS. pose proof (Hprog WindowId) as HW.
    simpl in HS, HW. rewrite H1 in HS. rewrite H2 in HW. simpl in HS, HW.
    destruct HS as (base & Hbase & _). destruct HW as (w & Hw & Hwf).
    unfold outcome_ok, request, enhance. simpl. rewrite Hbase, Hw.
    exists base, w. auto.
Qed.

Lemma step_inv s e : inv s -> inv (step s e) /\ stable s (step s e).
Proof.
  destruct e; simpl;
    auto using fetch_inv, answer_inv, wake_inv, continue_inv.
Qed.

Lemma init_inv : inv init.
Proof.
  split; [split; [| split] |]; simpl.
  - intros [|]; unfold cache_ok; simpl; repeat split; intros r Hr;
      apply elem_of_nil in Hr; exact Hr.
  - apply NoDup_nil_2.
  - discriminate.
  - intros fc Hfc. apply elem_of_nil in Hfc. contradiction.
Qed.

Lemma run_inv s es : inv s -> inv (run s es) /\ stable s (run s es).
Proof.
  revert s. induction es as [| e es IH]; intros s Hs; simpl.
  - split; [exact Hs | apply stable_refl].
  - destruct (step_inv s e Hs) as [Hs' Hst].
    destruct (IH _ Hs') as [Hs'' Hst'].
    split; [exact Hs'' | eapply stable_trans; eauto].
Qed.

End FetchInvariants.

Section FetchFacts.
Import Async PyloidFetch.

Lemma reachable_inv es : inv (run init es).
Proof. apply run_inv, init_inv. Qed.

Lemma progress_stored c s p :
  state_ok s -> progress_ok c s p -> exists r, stored c s = Some r.
Proof.
  intros (Hc & _) Hp. destruct p as [r | | m]; simpl in Hp.
  - eauto.
  - destruct Hp as (v & Hv & _).
    destruct (cache_ok_cached c s v (Hc c) Hv) as (r & Hr & _). eauto.
  - destruct Hp as (r & Hr & _). eauto.
Qed.

Lemma fetch_single_flight es c :
  let s := run init es in
  host_calls c s <= 1
  /\ (calls s <> [] -> host_calls c s = 1)
  /\ (forall fc r, fc ∈ calls s -> progress c fc = Awaiting r ->
        stored c s = Some r)
  /\ (forall fc, fc ∈ calls s -> progress c fc = Returned ->
        exists r v, stored c s = Some r
          /\ promises s !! r = Some (Fulfilled v) /\ cached c s = Some v)
  /\ (forall fc q, fc ∈ calls s -> outcome fc = Some (inr q) ->
        exists base w,
          serverUrl s = Some base /\ windowId s = Some w
          /\ completeUrl q = Url.buildUrl base (url fc)
          /\ enhanced_headers (enhancedOptions q) !! session_header
             = Some (Text w)).
Proof.
  intros s. pose proof (reachable_inv es) as [Hs Hcalls]. fold s in Hs, Hcalls.
  pose proof Hs as (Hc & _).
  split; [| split; [| split; [| split]]].
  - pose proof (Hc c) as H. unfold cache_ok in H.
    destruct (stored c s); [destruct H as [-> _]; lia |].
    destruct H as (_ & -> & _). lia.
  - intros Hne. destruct (calls s) as [| fc l] eqn:Hl; [contradiction |].
    assert (fc ∈ fc :: l) as Hfc by left.
    destruct (Hcalls fc Hfc) as [Hp _].
    destruct (progress_stored c s _ Hs (Hp c)) as [r Hr].
    exact (proj1 (cache_ok_stored_Some c s r (Hc c) Hr)).
  - intros fc r Hfc Hp. destruct (Hcalls fc Hfc) as [Hpr _].
    specialize (Hpr c). rewrite Hp in Hpr. exact Hpr.
  - intros fc Hfc Hp. destruct (Hcalls fc Hfc) as [Hpr _].
    specialize (Hpr c). rewrite Hp in Hpr. destruct Hpr as (v & Hv & _).
    destruct (cache_ok_cached c s v (Hc c) Hv) as (r & Hr & Hpv & _).
    eauto.
  - intros fc q Hfc Hq. destruct (Hcalls fc Hfc) as [_ Ho].
    unfold outcome_ok in Ho. rewrite Hq in Ho.
    destruct Ho as (base & w & Hb & Hw & _ & ->).
    exists base, w. simpl. rewrite lookup_insert_eq. auto.
Qed.

Lemma fetch_failure_is_kept es k c r e es' :
  let s := run init es in
  inflight s !! k = Some (c, r) ->
  let s' := run (answer k (Err e) s) es' in
  cached c s' = None
  /\ stored c s' = Some r
  /\ promises s' !! r = Some (Rejected (failed_to_get c e))
  /\ host_calls c s' = 1
  /\ (forall fc, fc ∈ calls s' ->
        progress c fc = Awaiting r
        \/ progress c fc = Thrown (failed_to_get c e)).
Proof.
  intros s Hk s'.
  pose proof (reachable_inv es) as Hinv. fold s in Hinv.
  destruct Hinv as [Hs Hcalls].
  assert ((c, r) ∈ inflight s) as Hin by (apply list_elem_of_lookup; eauto).
  destruct Hs as (Hc & Hnd & Hdiff).
  destruct (cache_ok_inflight c s r (Hc c) Hin) as (Hst & Hpend & _).
  set (s1 := answer k (Err e) s) in *.
  assert (stored c s1 = Some r /\ promises s1 !! r = Some (Rejected (failed_to_get c e)))
    as [Hst1 Hp1].
  { unfold s1, answer. rewrite Hk.
    destruct s as [su sup wi wip ps n1 n2 fl cs]. simpl in *.
    rewrite (settle_pending _ _ _ Hpend).
    split; [destruct c; exact Hst |].
    apply list_lookup_insert_eq. eapply lookup_lt_Some; eauto. }
  assert (inv s1) as Hinv1.
  { apply (step_inv s (Answer k (Err e))). exact (conj (conj Hc (conj Hnd Hdiff)) Hcalls). }
  destruct (run_inv s1 es' Hinv1) as [[Hs' Hcalls'] (HstS & _ & HstP)].
  fold s' in Hs', Hcalls', HstS, HstP.
  assert (stored c s' = Some r) as Hst' by (apply HstS, Hst1).
  assert (promises s' !! r = Some (Rejected (failed_to_get c e))) as Hp'
    by (apply HstP; [exact Hp1 | discriminate]).
  pose proof (proj1 Hs' c) as Hcc. unfold cache_ok in Hcc.
  rewrite Hst', Hp' in Hcc. destruct Hcc as (Hh & Hcached & _).
  split; [exact Hcached |]. split; [exact Hst' |]. split; [exact Hp' |].
  split; [exact Hh |].
  intros fc Hfc. destruct (Hcalls' fc Hfc) as [Hpr _]. specialize (Hpr c).
  destruct (progress c fc) as [r' | | m]; simpl in Hpr.
  - left. congruence.
  - destruct Hpr as (v & Hv & _). congruence.
  - right. destruct Hpr as (r' & Hr' & [H | (_ & v & H & _)]);
      rewrite Hst' in Hr'; inversion Hr'; subst r'; congruence.
Qed.

End FetchFacts.

(** ** RpcClient *)

Section RpcInvariants.
Import Async RpcClient.

Lemma rpc_stable_refl s : stable s s.
Proof. unfold stable. auto. Qed.

Lemma rpc_stable_trans s1 s2 s3 : stable s1 s2 -> stable s2 s3 -> stable s1 s3.
Proof.
  intros (A1 & B1 & C1 & D1) (A2 & B2 & C2 & D2). unfold stable.
  split; [| split; [| split]]; eauto.
Qed.

Lemma rpc_stable_with_calls cs s : stable s (with_calls cs s).
Proof. unfold stable. simpl. auto. Qed.

Lemma failed_with_stable s s' m : stable s s' -> failed_with s m -> failed_with s' m.
Proof.
  intros (Hp & _ & _ & Hs) (r & Hr & H). exists r. split; [exact (Hp r Hr) |].
  destruct H as [H | (-> & v & H & Hf)].
  - left. apply Hs; [exact H | discriminate].
  - right. split; [reflexivity |]. exists v. split; [| exact Hf].
    apply Hs; [exact H | discriminate].
Qed.

Lemma stage_ok_stable s s' c : stable s s' -> stage_ok s c -> stage_ok s' c.
Proof.
  intros Hst. pose proof Hst as (Hp & He & Hw & Hs). unfold stage_ok.
  destruct (stage c) as [[r | | m] | |]; auto.
  - intros (H1 & H2 & H3). auto.
  - intros (H1 & H2 & H3). split; [exact H1 |]. split.
    + destruct (endpoint s) as [e |] eqn:Hes; [| discriminate].
      rewrite (He e eq_refl). exact H2.
    + intros Hwt. destruct (H3 Hwt) as [w Hws]. rewrite (Hw w Hws). eauto.
  - intros (H1 & H2 & H3). split; [exact H1 |]. split; [exact H2 |].
    exact (failed_with_stable s s' m Hst H3).
  - intros H Hpo. destruct (H Hpo) as (Hwt & m & -> & Hm).
    split; [exact Hwt |]. exists m. split; [reflexivity |].
    exact (failed_with_stable s s' m Hst Hm).
Qed.

Lemma posted_ok_stable s s' c : stable s s' -> posted_ok s c -> posted_ok s' c.
Proof.
  intros (Hp & He & Hw & Hs) H q Hq.
  destruct (H q Hq) as (H1 & H2 & H3 & H4 & H5 & H6 & H7).
  split; [exact H1 |]. split; [exact H2 |]. split; [exact H3 |].
  split; [exact H4 |]. split; [| split].
  - symmetry. apply He. symmetry. exact H5.
  - destruct H6 as [H6 | H6]; [left; exact H6 |].
    destruct (windowId s) as [w |] eqn:Hws; [| left; exact H6].
    right. rewrite (Hw w eq_refl). exact H6.
  - intros Hwt. destruct (H7 Hwt) as [Hid [w Hws]].
    rewrite (Hw w Hws). split; [congruence | eauto].
Qed.

Lemma stage_ok_with_calls cs s c : stage_ok (with_calls cs s) c <-> stage_ok s c.
Proof. reflexivity. Qed.

Lemma posted_ok_with_calls cs s c : posted_ok (with_calls cs s) c <-> posted_ok s c.
Proof. reflexivity. Qed.

Lemma lazy_ok_with_calls cs s : lazy_ok (with_calls cs s) <-> lazy_ok s.
Proof. reflexivity. Qed.

Lemma rpc_ensure_ok s p s' :
  lazy_ok s -> ensureEndpointInitialized s = (p, s') ->
  lazy_ok s' /\ stable s s' /\ calls s' = calls s
  /\ is_Some (endpointPromise s')
  /\ match p with
     | Awaiting r => endpointPromise s' = Some r
     | Returned => JS.falsy_str (endpoint s') = false
     | Thrown _ => False
     end.
Proof.
  intros Hl. unfold ensureEndpointInitialized.
  destruct (JS.falsy_str (endpoint s)) eqn:Hf.
  - destruct (endpointPromise s) as [r |] eqn:Hp.
    + intros H. inversion H; subst.
      split; [exact Hl |]. split; [apply rpc_stable_refl |].
      split; [reflexivity |]. split; [eauto | exact Hp].
    + unfold lazy_ok in Hl. rewrite Hp in Hl.
      destruct Hl as (He & Hw & H1 & H2 & Hfl).
      destruct s as [ep epp wi ps n1 n2 fl cs]. simpl in *. subst.
      unfold initializeEndpoint, alloc. simpl.
      intros H. inversion H; subst; clear H.
      unfold lazy_ok, stable. simpl.
      rewrite lookup_app_r, Nat.sub_diag by lia. simpl.
      split; [split; [reflexivity |]; split; [reflexivity |]; left; auto |].
      split; [| split; [reflexivity | split; [eauto | reflexivity]]].
      split; [discriminate |]. split; [discriminate |]. split; [discriminate |].
      intros r p Hr _. apply lookup_app_l_Some. exact Hr.
  - intros H. inversion H; subst.
    split; [exact Hl |]. split; [apply rpc_stable_refl |].
    split; [reflexivity |]. split; [| exact Hf].
    unfold lazy_ok in Hl. destruct (endpointPromise s'); [eauto |].
    destruct Hl as (He & _). rewrite He in Hf. discriminate.
Qed.

Lemma rpc_answer_ok k a s :
  lazy_ok s ->
  lazy_ok (answer k a s) /\ stable s (answer k a s)
  /\ calls (answer k a s) = calls s
  /\ (is_Some (endpointPromise s) -> is_Some (endpointPromise (answer k a s))).
Proof.
  intros Hl. unfold answer.
  destruct (inflight s !! k) as [h |] eqn:Hk;
    [| split; [exact Hl | split; [apply rpc_stable_refl | split; [reflexivity | auto]]]].
  unfold lazy_ok in Hl.
  destruct (endpointPromise s) as [r |] eqn:Hp;
    [| destruct Hl as (_ & _ & _ & _ & Hfl); rewrite Hfl in Hk; discriminate].
  destruct Hl as [Hn1 Hl].
  destruct (promises s !! r) as [[| v | m] |] eqn:Hpr; try contradiction;
    try (destruct Hl as (Hfl & _); rewrite Hfl in Hk; discriminate).
  destruct Hl as (Hw & Hcase).
  assert (r < length (promises s)) as Hlen by (eapply lookup_lt_Some; eauto).
  destruct s as [ep epp wi ps n1 n2 fl cs]. simpl in *. subst.
  destruct Hcase as [(Hfl & He & Hn2) | (url & Hfl & He & Hn2)]; subst;
    destruct k as [| k]; simpl in Hk; try discriminate; inversion Hk; subst h;
    destruct a as [v | e]; simpl; unfold lazy_ok, stable; simpl;
    rewrite ?(settle_pending _ _ _ Hpr), ?Hpr, ?list_lookup_insert_eq by exact Hlen.
  - split; [split; [reflexivity |]; split; [reflexivity |]; right; eauto |].
    split; [| split; [reflexivity | eauto]].
    split; [auto |]. split; [discriminate |]. split; auto.
  - split; [split; [reflexivity |]; split; [reflexivity |]; split; [reflexivity |]; split; [lia | auto] |].
    split; [| split; [reflexivity | eauto]].
    split; [auto |]. split; [auto |]. split; [auto |].
    intros x p Hx Hne. rewrite list_lookup_insert_ne; [exact Hx | congruence].
  - split; [split; [reflexivity |]; split; [reflexivity |]; split; [reflexivity |]; split; [reflexivity | eauto] |].
    split; [| split; [reflexivity | eauto]].
    split; [auto |]. split; [auto |]. split; [discriminate |].
    intros x p Hx Hne. rewrite list_lookup_insert_ne; [exact Hx | congruence].
  - split; [split; [reflexivity |]; split; [reflexivity |]; split; [reflexivity |]; split; [lia | discriminate] |].
    split; [| split; [reflexivity | eauto]].
    split; [auto |]. split; [auto |]. split; [auto |].
    intros x p Hx Hne. rewrite list_lookup_insert_ne; [exact Hx | congruence].
Qed.


Lemma rpc_call_inv m p s : inv s -> inv (call m p s) /\ stable s (call m p s).
Proof.
  intros (Hl & Hne & Hcalls). unfold call.
  destruct (ensureEndpointInitialized s) as [pr s1] eqn:He.
  destruct (rpc_ensure_ok s pr s1 Hl He) as (Hl1 & Hst & Hc & Hsome & Hpr).
  split; [| eapply rpc_stable_trans; [exact Hst | apply rpc_stable_with_calls]].
  split; [exact Hl1 |]. split; [intros _; exact Hsome |].
  simpl. intros c Hin. apply elem_of_app in Hin as [Hin | Hin].
  - rewrite Hc in Hin. destruct (Hcalls c Hin) as [H1 H2].
    split; [eapply stage_ok_stable | eapply posted_ok_stable]; eauto.
  - apply list_elem_of_singleton in Hin. subst c. split.
    + unfold stage_ok. simpl. destruct pr as [r | | x]; [| | contradiction].
      * auto.
      * split; [reflexivity |]. split; [exact Hpr | discriminate].
    + intros q Hq. discriminate.
Qed.

Lemma rpc_answer_inv k a s : inv s -> inv (answer k a s) /\ stable s (answer k a s).
Proof.
  intros (Hl & Hne & Hcalls).
  destruct (rpc_answer_ok k a s Hl) as (Hl' & Hst & Hc & Hsome).
  split; [| exact Hst]. split; [exact Hl' |].
  rewrite Hc. split; [intros H; apply Hsome, Hne, H |].
  intros c Hin. destruct (Hcalls c Hin) as [H1 H2].
  split; [eapply stage_ok_stable | eapply posted_ok_stable]; eauto.
Qed.

Lemma rpc_wake_inv i s : inv s -> inv (wake i s) /\ stable s (wake i s).
Proof.
  intros (Hl & Hne & Hcalls). unfold wake.
  destruct (calls s !! i) as [c |] eqn:Hi;
    [| split; [exact (conj Hl (conj Hne Hcalls)) | apply rpc_stable_refl]].
  assert (c ∈ calls s) as Hc by (apply list_elem_of_lookup; eauto).
  assert (calls s <> []) as Hnonempty by (intros E; rewrite E in Hc; apply elem_of_nil in Hc; exact Hc).
  destruct (Hcalls c Hc) as [Hstage Hposted].
  destruct (stage c) as [[r | | m] | |] eqn:Hsc;
    try (split; [exact (conj Hl (conj Hne Hcalls)) | apply rpc_stable_refl]).
  - destruct (promises s !! r) as [p |] eqn:Hp;
      [| split; [exact (conj Hl (conj Hne Hcalls)) | apply rpc_stable_refl]].
    destruct (after_await p s) as [pr |] eqn:Haw;
      [| split; [exact (conj Hl (conj Hne Hcalls)) | apply rpc_stable_refl]].
    split; [| apply rpc_stable_with_calls].
    split; [exact Hl |]. split; [intros _; apply Hne, Hnonempty |].
    simpl. intros c' Hin.
    apply elem_of_insert_inv in Hin as [-> | Hin]; [| apply Hcalls, Hin].
    unfold stage_ok in Hstage. rewrite Hsc in Hstage.
    destruct Hstage as (Hep & Hwt & Hpo).
    split; [| intros q Hq; simpl in Hq; congruence].
    unfold stage_ok. simpl.
    unfold lazy_ok in Hl. rewrite Hep, Hp in Hl. destruct Hl as [_ Hl].
    unfold after_await in Haw.
    destruct p as [| v | x]; [discriminate | |]; inversion Haw; subst pr.
    + destruct Hl as (_ & Hev & _ & Hws). rewrite Hev.
      destruct (JS.falsy_str (Some v)) eqn:Hf.
      * split; [exact Hpo |]. split; [exact Hwt |]. exists r.
        split; [exact Hep |]. right. split; [reflexivity |]. eauto.
      * split; [exact Hpo |]. split; [reflexivity | auto].
    + split; [exact Hpo |]. split; [exact Hwt |]. exists r. auto.
  - split; [| apply rpc_stable_with_calls].
    split; [exact Hl |]. split; [intros _; apply Hne, Hnonempty |].
    simpl. intros c' Hin.
    apply elem_of_insert_inv in Hin as [-> | Hin]; [| apply Hcalls, Hin].
    unfold stage_ok in Hstage. rewrite Hsc in Hstage.
    destruct Hstage as (Hpo & Hf & Hws).
    split; [unfold stage_ok; simpl; eauto |].
    intros q Hq. simpl in Hq. inversion Hq; subst q; clear Hq. simpl.
    split; [reflexivity |]. split; [reflexivity |]. split; [reflexivity |].
    split; [reflexivity |]. split; [| split; [right; reflexivity | auto]].
    destruct (endpoint s); [reflexivity | discriminate].
  - split; [| apply rpc_stable_with_calls].
    split; [exact Hl |]. split; [intros _; apply Hne, Hnonempty |].
    simpl. intros c' Hin.
    apply elem_of_insert_inv in Hin as [-> | Hin]; [| apply Hcalls, Hin].
    unfold stage_ok in Hstage. rewrite Hsc in Hstage.
    destruct Hstage as (Hpo & Hwt & Hm).
    split; [| exact Hposted].
    unfold stage_ok. simpl. intros _. split; [exact Hwt |]. eauto.
Qed.

Lemma rpc_respond_inv i t s : inv s -> inv (respond i t s) /\ stable s (respond i t s).
Proof.
  intros (Hl & Hne & Hcalls). unfold respond.
  destruct (calls s !! i) as [c |] eqn:Hi;
    [| split; [exact (conj Hl (conj Hne Hcalls)) | apply rpc_stable_refl]].
  assert (c ∈ calls s) as Hc by (apply list_elem_of_lookup; eauto).
  assert (calls s <> []) as Hnonempty by (intros E; rewrite E in Hc; apply elem_of_nil in Hc; exact Hc).
  destruct (Hcalls c Hc) as [Hstage Hposted].
  destruct (stage c) as [[r | | m] | |] eqn:Hsc;
    try (split; [exact (conj Hl (conj Hne Hcalls)) | apply rpc_stable_refl]).
  split; [| apply rpc_stable_with_calls].
  split; [exact Hl |]. split; [intros _; apply Hne, Hnonempty |].
  simpl. intros c' Hin.
  apply elem_of_insert_inv in Hin as [-> | Hin]; [| apply Hcalls, Hin].
  unfold stage_ok in Hstage. rewrite Hsc in Hstage.
  split; [| exact Hposted].
  unfold stage_ok. simpl. intros Hpo. rewrite Hpo in Hstage.
  destruct Hstage as [x Hx]. discriminate.
Qed.

Lemma rpc_step_inv s e : inv s -> inv (step s e) /\ stable s (step s e).
Proof.
  destruct e; simpl;
    auto using rpc_call_inv, rpc_answer_inv, rpc_wake_inv, rpc_respond_inv.
Qed.

Lemma rpc_run_inv s es : inv s -> inv (run s es) /\ stable s (run s es).
Proof.
  revert s. induction es as [| e es IH]; intros s Hs; simpl.
  - split; [exact Hs | apply rpc_stable_refl].
  - destruct (rpc_step_inv s e Hs) as [Hs' Hst].
    destruct (IH _ Hs') as [Hs'' Hst'].
    split; [exact Hs'' | eapply rpc_stable_trans; eauto].
Qed.

Lemma rpc_constructor_lazy i :
  JS.falsy_str i = true -> inv (constructor i).
Proof.
  intros Hf. unfold constructor. rewrite Hf.
  split; [| split].
  - unfold lazy_ok. simpl. auto 6.
  - simpl. congruence.
  - simpl. intros c Hc. apply elem_of_nil in Hc. contradiction.
Qed.

(** A client built with an endpoint. *)

Lemma explicit_step e s ev : explicit_ok e s -> explicit_ok e (step s ev).
Proof.
  intros (He & Hf & Hw & H1 & H2 & Hfl & Hcalls).
  destruct ev as [m p | k a | i | i t]; simpl.
  - unfold call, ensureEndpointInitialized. rewrite He, Hf. simpl.
    unfold explicit_ok. simpl. do 6 (split; [assumption |]).
    intros c Hin. apply elem_of_app in Hin as [Hin | Hin]; [apply Hcalls, Hin |].
    apply list_elem_of_singleton in Hin. subst c.
    unfold explicit_call_ok. simpl.
    split; [reflexivity |]. split; [discriminate |]. split; [discriminate |].
    intros q Hq. discriminate.
  - unfold answer. rewrite Hfl. simpl.
    exact (conj He (conj Hf (conj Hw (conj H1 (conj H2 (conj Hfl Hcalls)))))).
  - unfold wake.
    destruct (calls s !! i) as [c |] eqn:Hi;
      [| exact (conj He (conj Hf (conj Hw (conj H1 (conj H2 (conj Hfl Hcalls))))))].
    assert (c ∈ calls s) as Hc by (apply list_elem_of_lookup; eauto).
    destruct (Hcalls c Hc) as (Hwt & Hna & Hnt & Hpo).
    destruct (stage c) as [[r | | m] | |] eqn:Hsc;
      try exact (conj He (conj Hf (conj Hw (conj H1 (conj H2 (conj Hfl Hcalls)))))).
    + destruct (Hna r eq_refl).
    + unfold explicit_ok. simpl. do 6 (split; [assumption |]).
      intros c' Hin.
      apply elem_of_insert_inv in Hin as [-> | Hin]; [| apply Hcalls, Hin].
      unfold explicit_call_ok. simpl.
      split; [exact Hwt |]. split; [discriminate |]. split; [discriminate |].
      intros q Hq. simpl in Hq. inversion Hq; subst q; clear Hq. simpl.
      split; [reflexivity |]. split; [reflexivity |]. split; [reflexivity |].
      split; [reflexivity |]. split; [rewrite He; reflexivity |].
      split; [right; reflexivity |]. rewrite Hwt. discriminate.
    + destruct (Hnt m eq_refl).
  - unfold respond.
    destruct (calls s !! i) as [c |] eqn:Hi;
      [| exact (conj He (conj Hf (conj Hw (conj H1 (conj H2 (conj Hfl Hcalls))))))].
    assert (c ∈ calls s) as Hc by (apply list_elem_of_lookup; eauto).
    destruct (Hcalls c Hc) as (Hwt & Hna & Hnt & Hpo).
    destruct (stage c) as [[r | | m] | |] eqn:Hsc;
      try exact (conj He (conj Hf (conj Hw (conj H1 (conj H2 (conj Hfl Hcalls)))))).
    unfold explicit_ok. simpl. do 6 (split; [assumption |]).
    intros c' Hin.
    apply elem_of_insert_inv in Hin as [-> | Hin]; [| apply Hcalls, Hin].
    unfold explicit_call_ok. simpl.
    split; [exact Hwt |]. split; [discriminate |]. split; [discriminate |].
    exact Hpo.
Qed.

Lemma explicit_run e s es : explicit_ok e s -> explicit_ok e (run s es).
Proof.
  revert s. induction es as [| ev es IH]; intros s Hs; [exact Hs |].
  simpl. apply IH, explicit_step, Hs.
Qed.

Lemma explicit_constructor e :
  JS.falsy_str (Some e) = false -> explicit_ok e (constructor (Some e)).
Proof.
  intros Hf. unfold constructor. rewrite Hf. unfold explicit_ok. simpl.
  do 6 (split; [auto |]).
  intros c Hc. apply elem_of_nil in Hc. contradiction.
Qed.

End RpcInvariants.

Section RpcFacts.
Import Async RpcClient.

Lemma rpc_reachable i es :
  let s := run (constructor i) es in
  inv s \/ exists e, explicit_ok e s.
Proof.
  intros s. destruct (JS.falsy_str i) eqn:Hf.
  - left. apply rpc_run_inv, rpc_constructor_lazy, Hf.
  - right. destruct i as [e |]; [| discriminate].
    exists e. apply explicit_run, explicit_constructor, Hf.
Qed.

Lemma lazy_counts s :
  lazy_ok s -> getServerUrl_calls s <= 1 /\ getWindowId_calls s <= 1.
Proof.
  unfold lazy_ok. destruct (endpointPromise s) as [r |].
  - intros [-> H]. split; [lia |].
    destruct (promises s !! r) as [[| v | m] |]; [| | | contradiction].
    + destruct H as (_ & [(_ & _ & ->) | (url & _ & _ & ->)]); lia.
    + destruct H as (_ & _ & -> & _). lia.
    + destruct H as (_ & _ & H & _). exact H.
  - intros (_ & _ & -> & -> & _). lia.
Qed.

Lemma rpc_single_flight i es :
  let s := run (constructor i) es in
  getServerUrl_calls s <= 1 /\ getWindowId_calls s <= 1
  /\ (forall c r, c ∈ calls s -> stage c = Ensuring (Awaiting r) ->
        endpointPromise s = Some r)
  /\ (forall c, c ∈ calls s -> waited c = true -> getServerUrl_calls s = 1)
  /\ (forall c q, c ∈ calls s -> waited c = true -> posted c = Some q ->
        Some (target q) = endpoint s
        /\ id (body q) = windowId s /\ is_Some (windowId s)).
Proof.
  intros s. destruct (rpc_reachable i es) as [(Hl & Hne & Hcalls) | (e & He)];
    fold s in Hl, Hne, Hcalls || fold s in He.
  - destruct (lazy_counts s Hl) as [H1 H2].
    split; [exact H1 |]. split; [exact H2 |]. split; [| split].
    + intros c r Hc Hst. destruct (Hcalls c Hc) as [Hs _].
      unfold stage_ok in Hs. rewrite Hst in Hs. apply Hs.
    + intros c Hc _.
      assert (calls s <> []) as Hn
        by (intros E; rewrite E in Hc; apply elem_of_nil in Hc; exact Hc).
      destruct (Hne Hn) as [r Hr]. unfold lazy_ok in Hl. rewrite Hr in Hl.
      apply Hl.
    + intros c q Hc Hw Hq. destruct (Hcalls c Hc) as [_ Hp].
      destruct (Hp q Hq) as (_ & _ & _ & _ & Ht & _ & Hid).
      destruct (Hid Hw). auto.
  - destruct He as (He & Hf & Hw & H1 & H2 & Hfl & Hcalls).
    split; [lia |]. split; [lia |]. split; [| split].
    + intros c r Hc Hst. destruct (Hcalls c Hc) as (_ & Hna & _).
      destruct (Hna r Hst).
    + intros c Hc Hwt. destruct (Hcalls c Hc) as (Hwf & _). congruence.
    + intros c q Hc Hwt. destruct (Hcalls c Hc) as (Hwf & _). congruence.
Qed.

(** Once the stored promise is rejected, only the list of calls changes. *)
Lemma rpc_frozen_step s r m ev :
  lazy_ok s -> endpointPromise s = Some r ->
  promises s !! r = Some (Rejected m) ->
  exists cs, step s ev = with_calls cs s.
Proof.
  intros Hl Hr Hp. unfold lazy_ok in Hl. rewrite Hr, Hp in Hl.
  destruct Hl as (_ & Hfl & _).
  destruct ev as [mm p | k a | i | i t]; simpl.
  - unfold call, ensureEndpointInitialized. rewrite Hr.
    destruct (JS.falsy_str (endpoint s)); eauto.
  - unfold answer. rewrite Hfl. simpl. exists (calls s).
    destruct s; reflexivity.
  - unfold wake. destruct (calls s !! i) as [c |];
      [| exists (calls s); destruct s; reflexivity].
    destruct (stage c) as [[r' | | x] | |]; eauto;
      try (exists (calls s); destruct s; reflexivity).
    destruct (promises s !! r'); [| exists (calls s); destruct s; reflexivity].
    destruct (after_await p s); eauto.
    exists (calls s); destruct s; reflexivity.
  - unfold respond. destruct (calls s !! i) as [c |];
      [| exists (calls s); destruct s; reflexivity].
    destruct (stage c) as [[r' | | x] | |]; eauto;
      exists (calls s); destruct s; reflexivity.
Qed.

Lemma rpc_frozen s r m es :
  lazy_ok s -> endpointPromise s = Some r ->
  promises s !! r = Some (Rejected m) ->
  exists cs, run s es = with_calls cs s.
Proof.
  revert s. induction es as [| ev es IH]; intros s Hl Hr Hp.
  - exists (calls s). destruct s; reflexivity.
  - simpl. destruct (rpc_frozen_step s r m ev Hl Hr Hp) as [cs ->].
    destruct (IH (with_calls cs s)) as [cs' ->]; [exact Hl | exact Hr | exact Hp |].
    exists cs'. reflexivity.
Qed.

Lemma rpc_failure_is_kept i es k h e es' :
  let s := run (constructor i) es in
  inflight s !! k = Some h ->
  let s' := run (answer k (Err e) s) es' in
  exists r,
    (h = AskServerUrl r \/ exists url, h = AskWindowId r url)
    /\ endpointPromise s' = Some r
    /\ promises s' !! r = Some (Rejected (failed_to_get e))
    /\ getServerUrl_calls s' = 1
    /\ inflight s' = []
    /\ (h = AskServerUrl r ->
        endpoint s' = None /\ windowId s' = None
        /\ getWindowId_calls s' = 0
        /\ forall c, c ∈ calls s' ->
             posted c = None
             /\ (stage c = Ensuring (Awaiting r)
                 \/ stage c = Ensuring (Thrown (failed_to_get e))
                 \/ stage c = Settled (inl (failed_to_get e)))).
Proof.
  intros s Hk s'.
  destruct (rpc_reachable i es) as [Hinv | (x & Hx)];
    fold s in Hinv || fold s in Hx;
    [| destruct Hx as (_ & _ & _ & _ & _ & Hfl & _); rewrite Hfl in Hk;
       discriminate].
  set (s1 := answer k (Err e) s) in *.
  assert (inv s1) as Hinv1 by (apply (rpc_step_inv s (Answer k (Err e))), Hinv).
  assert (inv s') as Hinv' by (apply rpc_run_inv, Hinv1).
  destruct Hinv as (Hl & Hne & Hcalls).
  assert (exists r, (h = AskServerUrl r \/ exists url, h = AskWindowId r url)
            /\ endpointPromise s1 = Some r
            /\ promises s1 !! r = Some (Rejected (failed_to_get e))
            /\ (h = AskServerUrl r -> endpoint s1 = None))
    as (r & Hh & Hr1 & Hp1 & He1).
  { unfold s1, answer. rewrite Hk. unfold lazy_ok in Hl.
    destruct (endpointPromise s) as [r |] eqn:Hr;
      [| destruct Hl as (_ & _ & _ & _ & Hfl); rewrite Hfl in Hk; discriminate].
    destruct Hl as [_ Hl].
    destruct (promises s !! r) as [[| v | m] |] eqn:Hpr; try contradiction;
      try (destruct Hl as (Hfl & _); rewrite Hfl in Hk; discriminate).
    assert (r < length (promises s)) as Hlen by (eapply lookup_lt_Some; eauto).
    exists r.
    destruct Hl as (_ & [(Hfl & Hen & _) | (url & Hfl & Hen & _)]);
      rewrite Hfl in Hk; destruct k; simpl in Hk; try discriminate;
      inversion Hk; subst h; simpl;
      rewrite (settle_pending _ _ _ Hpr), list_lookup_insert_eq by exact Hlen.
    - split; [left; reflexivity |]. split; [exact Hr |]. split; [reflexivity |].
      intros _. exact Hen.
    - split; [right; eauto |]. split; [exact Hr |]. split; [reflexivity |].
      intros H. discriminate. }
  destruct Hinv1 as (Hl1 & _).
  destruct (rpc_frozen s1 r _ es' Hl1 Hr1 Hp1) as [cs Hs'].
  fold s' in Hs'.
  exists r. split; [exact Hh |].
  assert (endpointPromise s' = Some r) as Hr' by (rewrite Hs'; exact Hr1).
  assert (promises s' !! r = Some (Rejected (failed_to_get e))) as Hp'
    by (rewrite Hs'; exact Hp1).
  split; [exact Hr' |]. split; [exact Hp' |].
  destruct Hinv' as (Hl' & _ & Hcalls').
  pose proof Hl' as Hl''. unfold lazy_ok in Hl''. rewrite Hr', Hp' in Hl''.
  destruct Hl'' as (Hn1 & Hfl' & Hw' & _ & _).
  split; [exact Hn1 |]. split; [exact Hfl' |].
  intros Hfirst.
  assert (endpoint s' = None) as He' by (rewrite Hs'; exact (He1 Hfirst)).
  split; [exact He' |]. split; [exact Hw' |].
  split.
  - unfold lazy_ok in Hl1. rewrite Hr1, Hp1 in Hl1.
    rewrite Hs'. simpl.
    subst h. unfold s1, answer in *. rewrite Hk in *.
    unfold lazy_ok in Hl. 
    destruct (endpointPromise s) as [r0 |] eqn:Hr0;
      [| destruct Hl as (_ & _ & _ & _ & Hfl); rewrite Hfl in Hk; discriminate].
    destruct Hl as [_ Hl].
    destruct (promises s !! r0) as [[| v | m] |] eqn:Hpr; try contradiction;
      try (destruct Hl as (Hfl & _); rewrite Hfl in Hk; discriminate).
    destruct Hl as (_ & [(Hfl & _ & Hn2) | (url & Hfl & _)]);
      rewrite Hfl in Hk; destruct k; simpl in Hk; try discriminate.
    simpl. exact Hn2.
  - intros c Hc. destruct (Hcalls' c Hc) as [Hsg Hpo].
    assert (posted c = None) as Hnone.
    { destruct (posted c) as [q |] eqn:Hq; [| reflexivity].
      destruct (Hpo q Hq) as (_ & _ & _ & _ & Ht & _).
      rewrite He' in Ht. discriminate. }
    split; [exact Hnone |].
    assert (forall m, failed_with s' m -> m = failed_to_get e) as Hsame.
    { intros m (r0 & Hr0 & [H | (_ & v & H & _)]); congruence. }
    unfold stage_ok in Hsg.
    destruct (stage c) as [[r0 | | m] | | x].
    + left. destruct Hsg as (Hr0 & _). congruence.
    + destruct Hsg as (_ & Hf & _). rewrite He' in Hf. discriminate.
    + right. left. destruct Hsg as (_ & _ & Hm). rewrite (Hsame m Hm).
      reflexivity.
    + rewrite Hnone in Hsg. destruct Hsg as [q Hq]. discriminate.
    + right. right. destruct (Hsg Hnone) as (_ & m & -> & Hm).
      rewrite (Hsame m Hm). reflexivity.
Qed.

End RpcFacts.

(** ** The client built with an endpoint *)

Section RpcClaims.
Import Async RpcClient.

(** C10, as stated, fails for the empty string: the constructor treats it as
    no endpoint at all, the first call resolves endpoint and window id through
    the host, and the envelope carries that window id. *)
Lemma empty_endpoint_is_resolved :
  let s := run (constructor (Some ""))
             [Call "ping" None; Answer 0 (Ok "http://h/rpc");
              Answer 0 (Ok "w-1"); Wake 0; Wake 0] in
  getWindowId_calls s = 1
  /\ sent s = [{| jsonrpc := "2.0"; method := "ping"; params := JS.VObj ∅;
                  id := Some "w-1" |}].
Proof. vm_compute. split; reflexivity. Qed.

(** C10, amended.  A client built with a non-empty endpoint never asks the
    host for anything (neither the endpoint nor the window id), and every
    envelope it sends carries [id] null. *)
Theorem explicit_endpoint_sends_null_id (e : string) (es : list Event) :
  e <> "" ->
  let s := run (constructor (Some e)) es in
  getServerUrl_calls s = 0
  /\ getWindowId_calls s = 0
  /\ inflight s = []
  /\ windowId s = None
  /\ (forall x, x ∈ sent s -> id x = None).
Proof.
  intros Hne s.
  assert (JS.falsy_str (Some e) = false) as Hf
    by (simpl; apply String.eqb_neq, Hne).
  pose proof (explicit_run e _ es (explicit_constructor e Hf)) as H.
  fold s in H. destruct H as (He & _ & Hw & H1 & H2 & Hfl & Hcalls).
  split; [exact H1 |]. split; [exact H2 |]. split; [exact Hfl |].
  split; [exact Hw |].
  intros x Hx. unfold sent in Hx.
  apply list_elem_of_fmap in Hx as (q & -> & Hq).
  apply list_elem_of_omap in Hq as (c & Hc & Hpc).
  destruct (Hcalls c Hc) as (_ & _ & _ & Hpo).
  destruct (Hpo q Hpc) as (_ & _ & _ & _ & _ & [Hid | Hid] & _); congruence.
Qed.

Lemma explicit_endpoint_sends_null_id_witness :
  let s := run (constructor (Some "http://h/rpc"))
             [Call "ping" None; Wake 0; Call "sum" (Some (JS.VNum 2))] in
  "http://h/rpc" <> ""
  /\ getWindowId_calls s = 0
  /\ sent s = [{| jsonrpc := "2.0"; method := "ping"; params := JS.VObj ∅;
                  id := None |}].
Proof.
  intros s.
  assert ("http://h/rpc" <> "") as Hne by discriminate.
  split; [exact Hne |].
  split; [| vm_compute; reflexivity].
  exact (proj1 (proj2 (explicit_endpoint_sends_null_id "http://h/rpc"
                         [Call "ping" None; Wake 0;
                          Call "sum" (Some (JS.VNum 2))] Hne))).
Defined.

End RpcClaims.

(** ** The life cycle of the readiness gate *)

Section GateLifecycle.
Import PyloidReadyManager Bridge Lifecycle.

(** One step of the world acts on the manager as one of its operations. *)
Lemma gate_ops w e (P : State -> Prop) :
  P (gate w) ->
  P (inject (gate w)) ->
  (forall v, P (set_ipc v (gate w))) ->
  (forall id, P (fire_interval id (gate w))) ->
  (forall id, P (fire_timeout id (gate w))) ->
  P (setReady (gate w)) ->
  P (gate (step w e)).
Proof.
  intros H0 H1 H2 H3 H4 H5.
  destruct (gate_step_cases w e)
    as [-> | [-> | [(v & ->) | [(id & _ & ->) | [(id & ->) | (_ & ->)]]]]];
    auto.
Qed.

Lemma stopPolling_isReady s : isReady (stopPolling s) = isReady s.
Proof. apply stopPolling_this_ready. Qed.

Lemma setReady_settled s :
  whenReady s <> Pending -> whenReady (setReady s) = whenReady s.
Proof.
  unfold whenReady, setReady. intros H.
  destruct (ready (this s)); simpl; [reflexivity |].
  rewrite stopPolling_readyPromise. simpl.
  destruct (readyPromise (this s)); [contradiction | reflexivity | reflexivity].
Qed.

Lemma on_timeout_settled s :
  whenReady s <> Pending -> whenReady (on_timeout s) = whenReady s.
Proof.
  unfold whenReady, on_timeout. intros H.
  destruct (ready (this s)); simpl; [reflexivity |].
  rewrite stopPolling_readyPromise.
  destruct (readyPromise (this s)); [contradiction | reflexivity | reflexivity].
Qed.

Lemma on_interval_settled s :
  whenReady s <> Pending -> whenReady (on_interval s) = whenReady s.
Proof.
  intros H. unfold on_interval.
  destruct (window s) as [win |]; [| reflexivity].
  destruct (__PYLOID__ win); [| reflexivity].
  rewrite setReady_settled; unfold whenReady in *;
    rewrite stopPolling_readyPromise; auto.
Qed.

Lemma on_interval_isReady s : isReady s = true -> isReady (on_interval s) = true.
Proof.
  intros H. unfold on_interval.
  destruct (window s) as [win |]; [| exact H].
  destruct (__PYLOID__ win); [| exact H]. apply setReady_ready.
Qed.

Lemma step_never_resets w e :
  (isReady (gate w) = true -> isReady (gate (step w e)) = true)
  /\ (whenReady (gate w) <> Pending ->
      whenReady (gate (step w e)) = whenReady (gate w)).
Proof.
  split; intros H; apply (gate_ops w e); auto.
  - unfold inject. destruct (window (gate w)); exact H.
  - intros v. unfold set_ipc. destruct (window (gate w)); exact H.
  - intros id. unfold fire_interval. destruct (window (gate w)); [| exact H].
    destruct (bool_decide _); [| exact H]. apply on_interval_isReady, H.
  - intros id. rewrite fire_timeout_ready. exact H.
  - apply setReady_ready.
  - unfold inject. destruct (window (gate w)); reflexivity.
  - intros v. unfold set_ipc. destruct (window (gate w)); reflexivity.
  - intros id. unfold fire_interval. destruct (window (gate w)); [| reflexivity].
    destruct (bool_decide _); [| reflexivity]. apply on_interval_settled, H.
  - intros id. unfold fire_timeout. destruct (window (gate w)); [| reflexivity].
    destruct (bool_decide _); [| reflexivity].
    rewrite on_timeout_settled; [reflexivity | exact H].
  - apply setReady_settled, H.
Qed.

(** X1 *)
(** X1.  Nothing in the module ever clears the ready flag or re-arms the
    promise: along every run of the event loop, from any state, a flag that
    is set stays set, and a promise of [whenReady()] that is settled keeps
    its outcome (resolved, or rejected with the same reason). *)
Theorem ready_never_resets (w : World) (es : list Event) :
  (isReady (gate w) = true -> isReady (gate (run w es)) = true)
  /\ (whenReady (gate w) <> Pending ->
      whenReady (gate (run w es)) = whenReady (gate w)).
Proof.
  revert w. induction es as [| e es IH]; intros w; [split; auto |].
  simpl. destruct (step_never_resets w e) as [H1 H2].
  destruct (IH (step w e)) as [I1 I2].
  split.
  - intros H. apply I1, H1, H.
  - intros H. rewrite I2; [apply H2, H |]. rewrite (H2 H). exact H.
Qed.

Lemma ready_never_resets_witness :
  let w := run (boot (Some (page JS.two_members false JS.VUndefined 1))) [Inject; PollTick 1] in
  let es := [TimeoutFires 2; SetReady; PollTick 1; Issue (Typed getData)] in
  isReady (gate w) = true
  /\ isReady (gate (run w es)) = true
  /\ whenReady (gate (run w es)) = Resolved.
Proof.
  intros w es.
  assert (isReady (gate w) = true) as Hr by reflexivity.
  assert (whenReady (gate w) <> Pending) as Hp by discriminate.
  destruct (ready_never_resets w es) as [H1 H2].
  exact (conj Hr (conj (H1 Hr) (H2 Hp))).
Defined.


Lemma drop_self i : drop i [i] = [].
Proof. unfold drop. rewrite filter_cons, Nat.eqb_refl. reflexivity. Qed.

Lemma drop_nil i : drop i [] = [].
Proof. reflexivity. Qed.

(** Both timers cancelled at once: the state after any path out of pending. *)
Lemma stopPolling_armed win m i t :
  pollingInterval m = Some i -> pollingTimeout m = Some t ->
  intervals win = [i] ->
  (timeouts win = [t] \/ timeouts win = []) ->
  let s' := stopPolling {| window := Some win; this := m |} in
  pollingInterval (this s') = None /\ pollingTimeout (this s') = None
  /\ ready (this s') = ready m /\ readyPromise (this s') = readyPromise m
  /\ exists win', window s' = Some win'
       /\ intervals win' = [] /\ timeouts win' = []
       /\ __PYLOID__ win' = __PYLOID__ win /\ ipc win' = ipc win.
Proof.
  intros Hi Ht Hwi Hwt. unfold stopPolling. simpl. rewrite Hi. simpl.
  rewrite Ht. simpl. repeat split.
  eexists. split; [reflexivity |]. simpl. rewrite Hwi, drop_self.
  destruct Hwt as [-> | ->]; rewrite ?drop_self, ?drop_nil; auto.
Qed.

Lemma stopPolling_idle s :
  pollingInterval (this s) = None -> pollingTimeout (this s) = None ->
  stopPolling s = s.
Proof. unfold stopPolling. intros -> ->. reflexivity. Qed.

Lemma timers_inv_settled s :
  whenReady s <> Pending ->
  timers_inv s <->
  (pollingInterval (this s) = None /\ pollingTimeout (this s) = None
   /\ forall win, window s = Some win ->
        intervals win = [] /\ timeouts win = []).
Proof.
  unfold timers_inv. destruct (whenReady s); [contradiction | |]; reflexivity.
Qed.

Lemma setReady_timers s : timers_inv s -> timers_inv (setReady s).
Proof.
  intros H. unfold timers_inv in H.
  destruct (whenReady s) eqn:Hp.
  - destruct H as (Hr & win & i & t & Hw & Hi & Ht & Hwi & Hwt).
    unfold isReady in Hr. unfold whenReady in Hp.
    destruct s as [w m]. simpl in *. subst w.
    unfold setReady. simpl. rewrite Hr. simpl.
    destruct (stopPolling_armed win (set_ready true m) i t Hi Ht Hwi (or_introl Hwt))
      as (Ai & At & Ar & Ap & win' & Aw & Awi & Awt & _).
    unfold timers_inv, whenReady. simpl. rewrite Ap. simpl. rewrite Hp. simpl.
    split; [exact Ai |]. split; [exact At |].
    intros x Hx. rewrite Aw in Hx. inversion Hx; subst. auto.
  - assert (whenReady s <> Pending) as Hne by (rewrite Hp; discriminate).
    apply timers_inv_settled in Hne as Hs. 
    assert (timers_inv s) as Hinv by (unfold timers_inv; rewrite Hp; exact H).
    destruct H as (Hi & Ht & Hw).
    unfold setReady. destruct (ready (this s)); simpl; [exact Hinv |].
    rewrite stopPolling_idle by (simpl; assumption). simpl.
    unfold timers_inv, whenReady in *. simpl. rewrite Hp. simpl.
    auto.
  - assert (timers_inv s) as Hinv by (unfold timers_inv; rewrite Hp; exact H).
    destruct H as (Hi & Ht & Hw).
    unfold setReady. destruct (ready (this s)); simpl; [exact Hinv |].
    rewrite stopPolling_idle by (simpl; assumption). simpl.
    unfold timers_inv, whenReady in *. simpl. rewrite Hp. simpl.
    auto.
Qed.

Lemma fire_interval_timers id s : timers_inv s -> timers_inv (fire_interval id s).
Proof.
  intros H. pose proof H as Hinv. unfold timers_inv in H.
  unfold fire_interval.
  destruct (window s) as [win |] eqn:Hw; [| exact Hinv].
  destruct (bool_decide (id ∈ intervals win)) eqn:Hd; [| exact Hinv].
  apply bool_decide_eq_true_1 in Hd.
  destruct (whenReady s) eqn:Hp.
  - destruct H as (Hr & win0 & i & t & Hw0 & Hi & Ht & Hwi & Hwt).
    inversion Hw0; subst win0.
    unfold on_interval. rewrite Hw.
    destruct (__PYLOID__ win) eqn:Hb; [| exact Hinv].
    destruct s as [w m]. simpl in *. subst w.
    destruct (stopPolling_armed win m i t Hi Ht Hwi (or_introl Hwt))
      as (Ai & At & Ar & Ap & win' & Aw & Awi & Awt & _).
    set (s1 := stopPolling {| window := Some win; this := m |}) in *.
    unfold isReady in Hr. simpl in Hr.
    unfold setReady. rewrite Ar, Hr. simpl.
    rewrite (stopPolling_idle {| window := window s1; this := set_ready true (this s1) |})
      by (simpl; assumption).
    unfold timers_inv, whenReady. simpl. rewrite Ap.
    unfold whenReady in Hp. simpl in Hp. rewrite Hp. simpl.
    split; [exact Ai |]. split; [exact At |].
    intros x Hx. rewrite Aw in Hx. inversion Hx; subst. auto.
  - destruct H as (_ & _ & Hwin). destruct (Hwin win eq_refl) as [Hwi _].
    rewrite Hwi in Hd. apply elem_of_nil in Hd. contradiction.
  - destruct H as (_ & _ & Hwin). destruct (Hwin win eq_refl) as [Hwi _].
    rewrite Hwi in Hd. apply elem_of_nil in Hd. contradiction.
Qed.

Lemma fire_timeout_timers id s : timers_inv s -> timers_inv (fire_timeout id s).
Proof.
  intros H. pose proof H as Hinv. unfold timers_inv in H.
  unfold fire_timeout.
  destruct (window s) as [win |] eqn:Hw; [| exact Hinv].
  destruct (bool_decide (id ∈ timeouts win)) eqn:Hd; [| exact Hinv].
  apply bool_decide_eq_true_1 in Hd.
  destruct (whenReady s) eqn:Hp.
  - destruct H as (Hr & win0 & i & t & Hw0 & Hi & Ht & Hwi & Hwt).
    inversion Hw0; subst win0.
    rewrite Hwt in Hd. apply list_elem_of_singleton in Hd. subst id.
    unfold on_timeout. simpl. unfold isReady in Hr. rewrite Hr. simpl.
    destruct (stopPolling_armed (clearTimeout t win) (this s) i t Hi Ht)
      as (Ai & At & Ar & Ap & win' & Aw & Awi & Awt & _).
    { exact Hwi. }
    { right. simpl. rewrite Hwt. apply drop_self. }
    unfold timers_inv, whenReady. simpl. rewrite Ap.
    unfold whenReady in Hp. rewrite Hp. simpl.
    split; [exact Ai |]. split; [exact At |].
    intros x Hx. rewrite Aw in Hx. inversion Hx; subst. auto.
  - destruct H as (_ & _ & Hwin). destruct (Hwin win eq_refl) as [_ Hwt].
    rewrite Hwt in Hd. apply elem_of_nil in Hd. contradiction.
  - destruct H as (_ & _ & Hwin). destruct (Hwin win eq_refl) as [_ Hwt].
    rewrite Hwt in Hd. apply elem_of_nil in Hd. contradiction.
Qed.

Lemma inject_timers s : timers_inv s -> timers_inv (inject s).
Proof.
  intros H. unfold inject.
  destruct (window s) as [win |] eqn:Hw; [| exact H].
  unfold timers_inv, whenReady, isReady in *. simpl.
  destruct (readyPromise (this s)).
  - destruct H as (Hr & win0 & i & t & Hw0 & Hi & Ht & Hwi & Hwt).
    rewrite Hw in Hw0. inversion Hw0; subst win0.
    split; [exact Hr |]. eexists _, i, t. split; [reflexivity |]. simpl. auto.
  - destruct H as (Hi & Ht & Hwin). split; [exact Hi |]. split; [exact Ht |].
    intros x Hx. inversion Hx; subst. simpl. apply Hwin. exact Hw.
  - destruct H as (Hi & Ht & Hwin). split; [exact Hi |]. split; [exact Ht |].
    intros x Hx. inversion Hx; subst. simpl. apply Hwin. exact Hw.
Qed.

Lemma set_ipc_timers v s : timers_inv s -> timers_inv (set_ipc v s).
Proof.
  intros H. unfold set_ipc.
  destruct (window s) as [win |] eqn:Hw; [| exact H].
  unfold timers_inv, whenReady, isReady in *. simpl.
  destruct (readyPromise (this s)).
  - destruct H as (Hr & win0 & i & t & Hw0 & Hi & Ht & Hwi & Hwt).
    rewrite Hw in Hw0. inversion Hw0; subst win0.
    split; [exact Hr |]. eexists _, i, t. split; [reflexivity |]. simpl. auto.
  - destruct H as (Hi & Ht & Hwin). split; [exact Hi |]. split; [exact Ht |].
    intros x Hx. inversion Hx; subst. simpl. apply Hwin. exact Hw.
  - destruct H as (Hi & Ht & Hwin). split; [exact Hi |]. split; [exact Ht |].
    intros x Hx. inversion Hx; subst. simpl. apply Hwin. exact Hw.
Qed.

Lemma run_timers w es : timers_inv (gate w) -> timers_inv (gate (run w es)).
Proof.
  revert w. induction es as [| e es IH]; intros w H; [exact H |].
  simpl. apply IH. apply (gate_ops w e);
    auto using inject_timers, set_ipc_timers, fire_interval_timers,
      fire_timeout_timers, setReady_timers.
Qed.

Lemma boot_timers (g : option (JS.Realm * bool * JS.Val * nat)) :
  timers_inv (gate (boot ((fun '(r, b, v, n) => page r b v n) <$> g))).
Proof.
  destruct g as [[[[r b] v] n] |]; simpl.
  - unfold constructor. simpl. destruct b; simpl.
    + unfold timers_inv, whenReady. simpl. split; [reflexivity |].
      split; [reflexivity |]. intros x Hx. inversion Hx; subst. auto.
    + unfold timers_inv, whenReady, isReady. simpl. split; [reflexivity |].
      eexists _, n, (S n). split; [reflexivity |]. simpl. auto.
  - unfold timers_inv, whenReady. simpl. split; [reflexivity |].
    split; [reflexivity |]. intros x Hx. discriminate.
Qed.


(** X2.  In a browser page, as long as [whenReady()] is pending the manager
    holds exactly one live interval and one live timeout, the flag is
    false, and the firing of that timeout rejects the promise with the
    timeout error; once the promise is settled both handles are forgotten
    and no timer of the manager is left registered. *)
Theorem gate_is_armed_until_settled (g : option (JS.Realm * bool * JS.Val * nat))
    (es : list Event) :
  let s := gate (run (boot ((fun '(r, b, v, n) => page r b v n) <$> g)) es) in
  (whenReady s = Pending ->
     exists win i t,
       window s = Some win
       /\ pollingInterval (this s) = Some i /\ intervals win = [i]
       /\ pollingTimeout (this s) = Some t /\ timeouts win = [t]
       /\ whenReady (fire_timeout t s) = Rejected timed_out
       /\ isReady (fire_timeout t s) = false)
  /\ (whenReady s <> Pending ->
      pollingInterval (this s) = None /\ pollingTimeout (this s) = None
      /\ forall win, window s = Some win ->
           intervals win = [] /\ timeouts win = []).
Proof.
  intros s.
  pose proof (run_timers _ es (boot_timers g)) as H. fold s in H.
  split.
  - intros Hp. unfold timers_inv in H. rewrite Hp in H.
    destruct H as (Hr & win & i & t & Hw & Hi & Ht & Hwi & Hwt).
    exists win, i, t. repeat (split; [assumption |]).
    split; [| rewrite fire_timeout_ready; exact Hr].
    unfold fire_timeout. rewrite Hw, Hwt.
    rewrite bool_decide_eq_true_2 by (apply list_elem_of_singleton; reflexivity).
    unfold on_timeout. simpl. unfold isReady in Hr. rewrite Hr. simpl.
    unfold whenReady. simpl. rewrite stopPolling_readyPromise. simpl.
    unfold whenReady in Hp. rewrite Hp. reflexivity.
  - intros Hp. apply timers_inv_settled in H; [exact H | exact Hp].
Qed.

Lemma gate_is_armed_until_settled_witness :
  let s := gate (run (boot (Some (page JS.two_members false JS.VUndefined 1)))
                   [Issue (Typed getData); SetIpc JS.VNull]) in
  whenReady s = Pending
  /\ exists win i t,
       window s = Some win
       /\ pollingInterval (this s) = Some i /\ intervals win = [i]
       /\ pollingTimeout (this s) = Some t /\ timeouts win = [t]
       /\ whenReady (fire_timeout t s) = Rejected timed_out
       /\ isReady (fire_timeout t s) = false.
Proof.
  intros s.
  assert (whenReady s = Pending) as Hp by reflexivity.
  exact (conj Hp
           (proj1 (gate_is_armed_until_settled
                     (Some (JS.two_members, false, JS.VUndefined, 1))
                     [Issue (Typed getData); SetIpc JS.VNull]) Hp)).
Defined.

(** X3.  The polling callback: while the promise is pending, a tick of
    the registered interval does nothing if [window.__PYLOID__] is still
    missing, and, if it is there, sets the flag, resolves the promise and
    removes both timers. *)
Theorem poll_detects_bridge (g : option (JS.Realm * bool * JS.Val * nat))
    (es : list Event) (win : Window) :
  let s := gate (run (boot ((fun '(r, b, v, n) => page r b v n) <$> g)) es) in
  whenReady s = Pending -> window s = Some win ->
  exists i,
    intervals win = [i]
    /\ (__PYLOID__ win = false -> fire_interval i s = s)
    /\ (__PYLOID__ win = true ->
        isReady (fire_interval i s) = true
        /\ whenReady (fire_interval i s) = Resolved
        /\ pollingInterval (this (fire_interval i s)) = None
        /\ pollingTimeout (this (fire_interval i s)) = None
        /\ forall win', window (fire_interval i s) = Some win' ->
             intervals win' = [] /\ timeouts win' = []).
Proof.
  intros s Hp Hw.
  pose proof (run_timers _ es (boot_timers g)) as H. fold s in H.
  pose proof (fire_interval_timers) as Hfi.
  unfold timers_inv in H. rewrite Hp in H.
  destruct H as (Hr & win0 & i & t & Hw0 & Hi & Ht & Hwi & Hwt).
  rewrite Hw in Hw0. inversion Hw0; subst win0.
  exists i. split; [exact Hwi |].
  assert (fire_interval i s = on_interval s) as Hfire.
  { unfold fire_interval. rewrite Hw, Hwi.
    rewrite bool_decide_eq_true_2 by (apply list_elem_of_singleton; reflexivity).
    reflexivity. }
  split.
  - intros Hb. rewrite Hfire. unfold on_interval. rewrite Hw, Hb. reflexivity.
  - intros Hb.
    assert (isReady (fire_interval i s) = true
            /\ whenReady (fire_interval i s) = Resolved) as [Hready Hres].
    { rewrite Hfire. unfold on_interval. rewrite Hw, Hb.
      split; [apply setReady_ready |].
      assert (isReady (stopPolling s) = false) as Hr'
        by (rewrite stopPolling_isReady; exact Hr).
      destruct (setReady_first (stopPolling s) Hr') as (_ & _ & _ & ->).
      unfold whenReady. rewrite stopPolling_readyPromise.
      unfold whenReady in Hp. rewrite Hp. reflexivity. }
    split; [exact Hready |]. split; [exact Hres |].
    assert (timers_inv (fire_interval i s)) as Hinv.
    { apply Hfi. unfold timers_inv. rewrite Hp.
      split; [exact Hr |]. exists win, i, t. auto. }
    apply timers_inv_settled in Hinv; [| rewrite Hres; discriminate].
    destruct Hinv as (A & B & C). auto.
Qed.

Lemma setReady_not_pending s :
  ready_settled s -> whenReady (setReady s) <> Pending.
Proof.
  intros H. unfold setReady, whenReady.
  destruct (ready (this s)) eqn:Hr; simpl; [apply H, Hr |].
  rewrite stopPolling_readyPromise. simpl.
  destruct (readyPromise (this s)); discriminate.
Qed.

Lemma step_ready_settled w e :
  ready_settled (gate w) -> ready_settled (gate (step w e)).
Proof.
  intros H. apply (gate_ops w e); auto.
  - unfold inject. destruct (window (gate w)); exact H.
  - intros v. unfold set_ipc. destruct (window (gate w)); exact H.
  - intros id. unfold fire_interval, on_interval.
    destruct (window (gate w)) as [win |]; [| exact H].
    destruct (bool_decide _); [| exact H].
    destruct (__PYLOID__ win); [| exact H].
    intros _. apply setReady_not_pending.
    unfold ready_settled, isReady, whenReady.
    rewrite stopPolling_this_ready, stopPolling_readyPromise. exact H.
  - intros id. unfold fire_timeout.
    destruct (window (gate w)) as [win |]; [| exact H].
    destruct (bool_decide _); [| exact H].
    intros Hr. rewrite on_timeout_ready in Hr.
    rewrite on_timeout_settled; apply H; exact Hr.
  - intros _. apply setReady_not_pending, H.
Qed.

Lemma run_ready_settled g es : ready_settled (gate (run (boot g) es)).
Proof.
  assert (ready_settled (gate (boot g))) as Hb.
  { unfold boot, constructor. simpl. destruct g as [win |]; [| discriminate].
    destruct (__PYLOID__ win); [| discriminate].
    intros _. apply setReady_not_pending. discriminate. }
  revert Hb. generalize (boot g). induction es as [| e es IH]; intros w H;
    [exact H |].
  simpl. apply IH, step_ready_settled, H.
Qed.

(** X4.  The flag is never set while the promise is pending, so a call
    suspended on [whenReady()] can always be resumed once [isReady()] is
    true: its continuation leaves the queue and completes. *)
Theorem ready_calls_complete (g : option Window) (es : list Event)
    (i : nat) (r : Request) :
  let w := run (boot g) es in
  isReady (gate w) = true ->
  suspended w !! i = Some r ->
  whenReady (gate w) <> Pending
  /\ exists c,
       step w (Resume i)
       = {| gate := gate w; suspended := delete i (suspended w);
            history := record r c true w |}.
Proof.
  intros w Hr Hi.
  pose proof (run_ready_settled g es Hr) as Hp. fold w in Hp.
  split; [exact Hp |].
  simpl. unfold resume. rewrite Hi.
  destruct (whenReady (gate w)); [contradiction | eauto | eauto].
Qed.

Lemma run_window_None w es :
  window (gate w) = None -> window (gate (run w es)) = None.
Proof.
  revert w. induction es as [| e es IH]; intros w H; [exact H |].
  simpl. apply IH. apply (gate_ops w e); auto.
  - unfold inject. rewrite H. exact H.
  - intros v. unfold set_ipc. rewrite H. exact H.
  - intros id. unfold fire_interval. rewrite H. exact H.
  - intros id. unfold fire_timeout. rewrite H. exact H.
  - unfold setReady. destruct (ready (this (gate w))); [exact H |].
    simpl. apply stopPolling_window_None. exact H.
Qed.

Lemma step_ssr w e : ssr_world w -> ssr_world (step w e).
Proof.
  intros (Hw & Hp & Hs & Hh).
  assert (window (gate (step w e)) = None) as Hw'
    by (apply (run_window_None w [e]), Hw).
  assert (whenReady (gate (step w e)) = Rejected no_window) as Hp'
    by (apply step_rejected, Hp).
  split; [exact Hw' |]. split; [exact Hp' |].
  destruct e as [| v | id | id | | r | i]; simpl in *; try (split; assumption).
  - unfold ensureReady. rewrite Hw.
    rewrite bool_decide_eq_false_2 by (intros [x Hx]; discriminate).
    simpl. rewrite andb_true_r.
    destruct (checks_window r) eqn:Hc; simpl.
    + split; [exact Hs |]. intros x Hx. unfold record in Hx.
      apply elem_of_app in Hx as [Hx | Hx]; [exact (Hh x Hx) |].
      apply list_elem_of_singleton in Hx. subst x.
      unfold ssr_entry. simpl. split; [reflexivity |].
      destruct r; simpl in *; try discriminate; auto.
    + destruct r; simpl in Hc; try discriminate.
      destruct (isReady (gate w)); simpl.
      * split; [exact Hs |]. intros x Hx. unfold record in Hx.
        apply elem_of_app in Hx as [Hx | Hx]; [exact (Hh x Hx) |].
        apply list_elem_of_singleton in Hx. subst x.
        unfold ssr_entry, fn. rewrite Hw. simpl. auto.
      * split; [| exact Hh]. intros x Hx.
        apply elem_of_app in Hx as [Hx | Hx]; [exact (Hs x Hx) |].
        apply list_elem_of_singleton in Hx. subst x. reflexivity.
  - unfold resume. destruct (suspended w !! i) as [r |] eqn:Hi;
      [| split; assumption].
    rewrite Hp. simpl.
    assert (r ∈ suspended w) as Hr by (apply list_elem_of_lookup; eauto).
    split.
    + intros x Hx. apply Hs. eapply list_elem_of_delete_inv, Hx.
    + intros x Hx. unfold record in Hx.
      apply elem_of_app in Hx as [Hx | Hx]; [exact (Hh x Hx) |].
      apply list_elem_of_singleton in Hx. subst x.
      unfold ssr_entry. simpl. split; [reflexivity |].
      pose proof (Hs r Hr) as Hv. destruct r; simpl in Hv; try discriminate.
      auto.
Qed.

(** X5.  Without a [window] (server-side rendering) the promise is
    rejected with the no-window error for ever and no bridge function is
    ever invoked: a call of the current [BaseAPI] or of [callIPC] fails in
    the same job with its own message and is never suspended; only a call
    of the earlier [BaseAPI], which does not test [window], is suspended,
    and it fails with the no-window error (or, after an explicit
    [setReady()], runs into the missing bridge). *)
Theorem server_side_calls_fail (es : list Event) :
  let w := run (boot None) es in
  window (gate w) = None
  /\ whenReady (gate w) = Rejected no_window
  /\ (forall r, r ∈ suspended w -> exists m, r = TypedV1 m)
  /\ (forall e, e ∈ history w ->
        invokes (completion e) = false
        /\ match request e with
           | TypedV1 _ =>
               (awaited e = false /\ completion e = NoBridge)
               \/ (awaited e = true /\ completion e = Failed no_window)
           | r => awaited e = false /\ completion e = Failed (ssr_message r)
           end).
Proof.
  intros w.
  assert (ssr_world w) as (Hw & Hp & Hs & Hh).
  { unfold w.
    assert (ssr_world (boot None)) as H0.
    { split; [reflexivity |]. split; [reflexivity |].
      split; intros x Hx; simpl in Hx; apply elem_of_nil in Hx; contradiction. }
    revert H0. generalize (boot None).
    induction es as [| e es IH]; intros w0 H0; [exact H0 |].
    simpl. apply IH, step_ssr, H0. }
  split; [exact Hw |]. split; [exact Hp |]. split; [| exact Hh].
  intros r Hr. specialize (Hs r Hr). destruct r; try discriminate. eauto.
Qed.

Lemma step_conserves w e :
  length (suspended (step w e)) + length (history (step w e))
  = length (suspended w) + length (history w)
    + (if is_issue e then 1 else 0).
Proof.
  destruct e as [| v | id | id | | r | i]; simpl; try lia.
  - unfold ensureReady.
    destruct (checks_window r && _); simpl;
      [unfold record; rewrite length_app; simpl; lia |].
    destruct (negb (isReady (gate w))); simpl;
      [rewrite length_app; simpl; lia |
       unfold record; rewrite length_app; simpl; lia].
  - unfold resume. destruct (suspended w !! i) as [r |] eqn:Hi; [| lia].
    assert (i < length (suspended w)) as Hlt by (eapply lookup_lt_Some; eauto).
    destruct (whenReady (gate w)); simpl; try lia;
      unfold record; rewrite length_app, length_delete by eauto; simpl; lia.
Qed.

(** X6.  No call is lost or duplicated by the gate: after any run, the
    calls still suspended and the calls completed add up to the calls
    issued. *)
Theorem calls_are_conserved (g : option Window) (es : list Event) :
  let w := run (boot g) es in
  length (suspended w) + length (history w) = issued es.
Proof.
  intros w. unfold w.
  assert (forall w0, length (suspended (run w0 es))
                     + length (history (run w0 es))
                     = length (suspended w0) + length (history w0) + issued es)
    as H.
  { induction es as [| e es IH]; intros w0; [unfold issued; simpl; lia |].
    simpl run. rewrite IH, step_conserves. unfold issued. simpl.
    destruct (is_issue e) eqn:He.
    - rewrite filter_cons_True by (rewrite He; exact I). simpl. lia.
    - rewrite filter_cons_False by (rewrite He; exact id). lia. }
  rewrite H. reflexivity.
Qed.


Lemma step_loaded w e :
  isReady (gate w) = true -> suspended w = [] ->
  (forall x, x ∈ history w -> awaited x = false) ->
  suspended (step w e) = []
  /\ (forall x, x ∈ history (step w e) -> awaited x = false).
Proof.
  intros Hr Hs Hh.
  destruct e as [| v | id | id | | r | i]; simpl; try (split; assumption).
  - unfold ensureReady. rewrite Hr. simpl.
    destruct (checks_window r && _); simpl; (split; [exact Hs |]);
      intros x Hx; unfold record in Hx;
      (apply elem_of_app in Hx as [Hx | Hx]; [exact (Hh x Hx) |]);
      apply list_elem_of_singleton in Hx; subst x; reflexivity.
  - unfold resume. rewrite Hs. simpl. rewrite Hs. split; [reflexivity | exact Hh].
Qed.

(** X7.  If [window.__PYLOID__] is there when the module is loaded, the
    manager is ready at once and registers no timer, the promise is
    resolved, and no later call is ever suspended. *)
Theorem bridge_present_at_load (win : Window) (es : list Event) :
  __PYLOID__ win = true ->
  window (gate (boot (Some win))) = Some win
  /\ let w := run (boot (Some win)) es in
     isReady (gate w) = true
     /\ whenReady (gate w) = Resolved
     /\ suspended w = []
     /\ forall x, x ∈ history w -> awaited x = false.
Proof.
  intros Hb.
  assert (gate (boot (Some win))
          = setReady {| window := Some win; this := fresh 20 10000 |}) as Hg
    by (unfold boot, constructor; simpl; rewrite Hb; reflexivity).
  split; [rewrite Hg; reflexivity |].
  assert (isReady (gate (boot (Some win))) = true
          /\ whenReady (gate (boot (Some win))) = Resolved
          /\ suspended (boot (Some win)) = []
          /\ forall x, x ∈ history (boot (Some win)) -> awaited x = false) as H0.
  { rewrite Hg. split; [reflexivity |]. split; [reflexivity |].
    split; [reflexivity |]. intros x Hx. apply elem_of_nil in Hx. contradiction. }
  revert H0. generalize (boot (Some win)).
  induction es as [| e es IH]; intros w0 H0; [exact H0 |].
  simpl. apply IH. destruct H0 as (Hr & Hp & Hs & Hh).
  destruct (step_never_resets w0 e) as [Hr' Hp'].
  split; [exact (Hr' Hr) |].
  split; [rewrite Hp' by (rewrite Hp; discriminate); exact Hp |].
  exact (step_loaded w0 e Hr Hs Hh).
Qed.

Lemma step_shares_rejection w e reason :
  whenReady (gate w) = Rejected reason ->
  exists new,
    history (step w e) = history w ++ new
    /\ forall x, x ∈ new -> awaited x = true -> completion x = Failed reason.
Proof.
  intros Hp.
  assert (forall r c, exists new,
            record r c false w = history w ++ new
            /\ forall x, x ∈ new -> awaited x = true ->
                 completion x = Failed reason) as Hfalse.
  { intros r c. eexists. split; [reflexivity |]. intros x Hx Ha.
    apply list_elem_of_singleton in Hx. subst x. discriminate. }
  assert (exists new,
            history w = history w ++ new
            /\ forall x, x ∈ new -> awaited x = true ->
                 completion x = Failed reason) as Hsame.
  { exists []. split; [rewrite app_nil_r; reflexivity |].
    intros x Hx. apply elem_of_nil in Hx. contradiction. }
  destruct e as [| v | id | id | | r | i]; simpl; try exact Hsame.
  - unfold ensureReady. destruct (checks_window r && _); simpl; [apply Hfalse |].
    destruct (negb (isReady (gate w))); simpl; [exact Hsame | apply Hfalse].
  - unfold resume. destruct (suspended w !! i) as [r |]; [| exact Hsame].
    rewrite Hp. simpl. eexists. split; [reflexivity |]. intros x Hx _.
    apply list_elem_of_singleton in Hx. subst x. reflexivity.
Qed.

(** X8.  Once [whenReady()] is rejected, every call whose continuation
    runs afterwards fails with that same reason. *)
Theorem waiters_share_rejection (w : World) (reason : string)
    (es : list Event) :
  whenReady (gate w) = Rejected reason ->
  exists new,
    history (run w es) = history w ++ new
    /\ forall x, x ∈ new -> awaited x = true -> completion x = Failed reason.
Proof.
  revert w. induction es as [| e es IH]; intros w Hp.
  - exists []. split; [simpl; rewrite app_nil_r; reflexivity |].
    intros x Hx. apply elem_of_nil in Hx. contradiction.
  - destruct (step_shares_rejection w e reason Hp) as (n1 & H1 & K1).
    destruct (IH (step w e) (step_rejected w e reason Hp)) as (n2 & H2 & K2).
    exists (n1 ++ n2). split.
    + simpl. rewrite H2, H1, app_assoc. reflexivity.
    + intros x Hx. apply elem_of_app in Hx as [Hx | Hx]; auto.
Qed.


Lemma poll_detects_bridge_witness :
  let s := gate (run (boot (Some (page JS.two_members false JS.VUndefined 1))) [Inject]) in
  whenReady s = Pending
  /\ isReady (fire_interval 1 s) = true
  /\ whenReady (fire_interval 1 s) = Resolved.
Proof.
  intros s.
  pose (win := {| __PYLOID__ := true; ipc := JS.VUndefined;
                  realm := JS.two_members; intervals := [1];
                  timeouts := [2]; nextTimer := 3 |}).
  assert (whenReady s = Pending) as Hp by reflexivity.
  assert (window s = Some win) as Hw by reflexivity.
  destruct (poll_detects_bridge (Some (JS.two_members, false, JS.VUndefined, 1)) [Inject] win
              Hp Hw) as (i & Hi & _ & H).
  injection Hi as <-.
  destruct (H eq_refl) as (H1 & H2 & _).
  exact (conj Hp (conj H1 H2)).
Defined.

Lemma ready_calls_complete_witness :
  let w := run (boot (Some (page JS.two_members false JS.VUndefined 1)))
             [Issue (Typed getData); SetReady] in
  isReady (gate w) = true
  /\ suspended w !! 0 = Some (Typed getData)
  /\ whenReady (gate w) <> Pending
  /\ exists c,
       step w (Resume 0)
       = {| gate := gate w; suspended := delete 0 (suspended w);
            history := record (Typed getData) c true w |}.
Proof.
  intros w.
  assert (isReady (gate w) = true) as Hr by reflexivity.
  assert (suspended w !! 0 = Some (Typed getData)) as Hi by reflexivity.
  destruct (ready_calls_complete (Some (page JS.two_members false JS.VUndefined 1))
              [Issue (Typed getData); SetReady] 0 (Typed getData) Hr Hi)
    as [Hp Hc].
  exact (conj Hr (conj Hi (conj Hp Hc))).
Defined.

Lemma bridge_present_at_load_witness :
  let win := page JS.two_members true JS.VUndefined 1 in
  let w := run (boot (Some win)) [Issue (Typed getData); PollTick 1] in
  __PYLOID__ win = true
  /\ window (gate (boot (Some win))) = Some win
  /\ isReady (gate w) = true
  /\ whenReady (gate w) = Resolved
  /\ suspended w = []
  /\ forall x, x ∈ history w -> awaited x = false.
Proof.
  intros win w.
  destruct (bridge_present_at_load win [Issue (Typed getData); PollTick 1]
              eq_refl) as (H0 & H1 & H2 & H3 & H4).
  exact (conj eq_refl (conj H0 (conj H1 (conj H2 (conj H3 H4))))).
Defined.

Lemma waiters_share_rejection_witness :
  let w := run (boot (Some (page JS.two_members false JS.VUndefined 1)))
             [Issue (Typed getData); TimeoutFires 2] in
  whenReady (gate w) = Rejected timed_out
  /\ exists new,
       history (run w [Inject; Resume 0]) = history w ++ new
       /\ forall x, x ∈ new -> awaited x = true ->
            completion x = Failed timed_out.
Proof.
  intros w.
  assert (whenReady (gate w) = Rejected timed_out) as Hp by reflexivity.
  exact (conj Hp (waiters_share_rejection w timed_out [Inject; Resume 0] Hp)).
Defined.

End GateLifecycle.

(** ** Dynamic calls, the proxy and detection *)

Section DynamicCalls.
Import JS IPC.

Lemma split_cons sep s : exists x xs, split sep s = x :: xs.
Proof.
  pose proof (split_length sep s) as H.
  destruct (split sep s) as [| x xs]; [simpl in H; lia | eauto].
Qed.

Lemma split_app sep a b :
  split sep (a +:+ String sep b) = split sep a ++ split sep b.
Proof.
  induction a as [| c a IH].
  - change (split sep (String sep b) = [""] ++ split sep b).
    simpl. rewrite Ascii.eqb_refl. reflexivity.
  - change (split sep (String c (a +:+ String sep b))
            = split sep (String c a) ++ split sep b).
    simpl. destruct (Ascii.eqb c sep); [rewrite IH; reflexivity |].
    rewrite IH. destruct (split_cons sep a) as (x & xs & ->). reflexivity.
Qed.

Lemma split_dotless s : IPCProxy.dotless s = true -> split "." s = [s].
Proof.
  induction s as [| c s IH]; [reflexivity |].
  simpl. intros H. apply andb_true_iff in H as [Hc Hs].
  apply negb_true_iff in Hc. rewrite Hc, (IH Hs). reflexivity.
Qed.

Lemma join_cons sep x y ys :
  join sep (x :: y :: ys) = x +:+ sep +:+ join sep (y :: ys).
Proof. reflexivity. Qed.

Lemma join_split s : join "." (split "." s) = s.
Proof.
  induction s as [| c s IH]; [reflexivity |].
  simpl. destruct (split_cons "." s) as (x & xs & Hs). rewrite Hs in *.
  destruct (Ascii.eqb_spec c ".") as [-> | _].
  - rewrite join_cons, IH. reflexivity.
  - destruct xs as [| y ys].
    + simpl in *. rewrite IH. reflexivity.
    + rewrite join_cons. rewrite join_cons in IH. rewrite <- IH. reflexivity.
Qed.

Lemma join_app sep l1 l2 :
  l1 <> [] -> l2 <> [] ->
  join sep (l1 ++ l2) = join sep l1 +:+ sep +:+ join sep l2.
Proof.
  intros H1 H2. induction l1 as [| x l1 IH]; [contradiction |].
  destruct l1 as [| y l1].
  - destruct l2 as [| z l2]; [contradiction | reflexivity].
  - change (x +:+ sep +:+ join sep ((y :: l1) ++ l2)
            = (x +:+ sep +:+ join sep (y :: l1)) +:+ sep +:+ join sep l2).
    rewrite IH by discriminate. rewrite !append_assoc. reflexivity.
Qed.

Lemma navigate_inl realm path parts n : forall i cur message,
  navigate realm path parts n i cur = inl message ->
  exists k, i <= k < i + n
    /\ message = not_accessible path (join "." (take (S k) parts)).
Proof.
  induction n as [| n IH]; intros i cur message; simpl; [discriminate |].
  destruct (truthy cur && _).
  - intros H. destruct (IH _ _ _ H) as (k & Hk & ->). exists k.
    split; [lia | reflexivity].
  - intros H. inversion H. exists i. split; [lia | reflexivity].
Qed.

(** X9.  [callIPC] fails in one of two ways only: with "IPC method
    '<path>' is not available or not a function.", or with "IPC path
    '<path>' is not accessible. '<prefix>' is not an object." where
    [<prefix>] is a proper prefix of the path that ends just before one of
    its dots. *)
Theorem callIPC_errors_name_a_prefix (realm : Realm) (ipc : Val)
    (path : string) (args : list Val) (message : string) :
  callIPC_body realm ipc path args = Threw message ->
  message = not_available path
  \/ exists prefix_ rest,
       path = prefix_ +:+ "." +:+ rest
       /\ message = not_accessible path prefix_.
Proof.
  unfold callIPC_body.
  destruct (navigate _ _ _ _ _) as [m | cur] eqn:Hn.
  - intros H. inversion H; subst m. right.
    destruct (navigate_inl _ _ _ _ _ _ _ Hn) as (k & Hk & ->).
    exists (join "." (take (S k) (split "." path))),
           (join "." (drop (S k) (split "." path))).
    split; [| reflexivity].
    rewrite <- join_app.
    + rewrite take_drop, join_split. reflexivity.
    + intros H0. apply (f_equal length) in H0. rewrite length_take in H0.
      change (length (@nil string)) with 0 in H0. lia.
    + intros H0. apply (f_equal length) in H0. rewrite length_drop in H0.
      change (length (@nil string)) with 0 in H0. lia.
  - destruct (negb _ || _); [intros H; inversion H; auto |].
    destruct (get realm cur _); intros H; inversion H; auto.
Qed.


Lemma callIPC_one_segment realm ipc prop args :
  IPCProxy.dotless prop = true ->
  callIPC_body realm ipc prop args
  = match get realm ipc prop with
    | VFun f _ =>
        if truthy ipc then Invoked f ipc args else Threw (not_available prop)
    | _ => Threw (not_available prop)
    end.
Proof.
  intros H. unfold callIPC_body. rewrite (split_dotless prop H). simpl.
  destruct (truthy ipc); simpl; destruct (get realm ipc prop); reflexivity.
Qed.

Lemma callIPC_two_segments realm ipc prop nested args :
  IPCProxy.dotless prop = true -> IPCProxy.dotless nested = true ->
  callIPC_body realm ipc (prop +:+ "." +:+ nested) args
  = if is_object ipc then
      match get realm (get realm ipc prop) nested with
      | VFun f _ =>
          if truthy (get realm ipc prop)
          then Invoked f (get realm ipc prop) args
          else Threw (not_available (prop +:+ "." +:+ nested))
      | _ => Threw (not_available (prop +:+ "." +:+ nested))
      end
    else Threw (not_accessible (prop +:+ "." +:+ nested) prop).
Proof.
  intros H1 H2. unfold callIPC_body.
  change (prop +:+ "." +:+ nested) with (prop +:+ String "." nested).
  rewrite split_app, (split_dotless prop H1), (split_dotless nested H2).
  simpl. fold (is_object ipc). destruct (is_object ipc); [| reflexivity].
  destruct (truthy (get realm ipc prop)); simpl;
    destruct (get realm (get realm ipc prop) nested); reflexivity.
Qed.

(** X10.  The proxy around the exported [ipc]: for names without a dot
    other than [callIPC] and [ensureReady], [ipc.prop(...args)] calls
    [callIPC(prop, ...args)] and [ipc.prop.nested(...args)] calls
    [callIPC(prop + '.' + nested, ...args)].  The first invokes
    [window.ipc[prop]] on [window.ipc] when [window.ipc] is truthy and the
    member is a function; the second needs [window.ipc] to be a non-null
    object and invokes [window.ipc[prop][nested]] on [window.ipc[prop]]
    when that container is truthy and the member is a function; every
    other case fails with the matching message.  A member is what the
    property read finds, own or inherited through the prototypes of the
    page's realm: with the standard prototypes [ipc.hasOwnProperty('a')]
    invokes [Object.prototype.hasOwnProperty] on [window.ipc]. *)
Theorem proxy_resolves_members (realm : Realm) (ipc : Val)
    (prop nested : string) (args : list Val) :
  IPCProxy.dotless prop = true -> IPCProxy.dotless nested = true ->
  prop <> "callIPC" -> prop <> "ensureReady" ->
  let path := prop +:+ "." +:+ nested in
  IPCProxy.apply (IPCProxy.get prop) args = Some (Bridge.Dynamic prop args)
  /\ (IPCProxy.access (IPCProxy.get prop) nested
        ≫= fun h => IPCProxy.apply h args)
     = Some (Bridge.Dynamic path args)
  /\ callIPC_body realm ipc prop args
     = match get realm ipc prop with
       | VFun f _ =>
           if truthy ipc then Invoked f ipc args
           else Threw (not_available prop)
       | _ => Threw (not_available prop)
       end
  /\ callIPC_body realm ipc path args
     = (if is_object ipc then
          match get realm (get realm ipc prop) nested with
          | VFun f _ =>
              if truthy (get realm ipc prop)
              then Invoked f (get realm ipc prop) args
              else Threw (not_available path)
          | _ => Threw (not_available path)
          end
        else Threw (not_accessible path prop))
  /\ (forall m f ps,
        ipc = VObj m -> m !! prop = None ->
        realm ipc prop = VFun f ps ->
        callIPC_body realm ipc prop args = Invoked f ipc args).
Proof.
  intros H1 H2 Hc He path.
  assert (IPCProxy.get prop = IPCProxy.Namespace prop) as Hg.
  { unfold IPCProxy.get.
    apply String.eqb_neq in Hc, He. rewrite Hc, He. reflexivity. }
  rewrite Hg. split; [reflexivity |]. split; [reflexivity |].
  split; [apply callIPC_one_segment, H1 |].
  split; [apply callIPC_two_segments; assumption |].
  intros m f ps -> Hm Hr.
  rewrite (callIPC_one_segment realm (VObj m) prop args H1).
  simpl. rewrite Hm, Hr. reflexivity.
Qed.

Lemma proxy_resolves_members_witness :
  let setTitle := VFun (HostFn 0) ∅ in
  let window := VObj {[ "setTitle" := setTitle ]} in
  let ipc := VObj {[ "window" := window ]} in
  (IPCProxy.access (IPCProxy.get "window") "setTitle"
     ≫= fun h => IPCProxy.apply h [VStr "Hello"])
  = Some (Bridge.Dynamic "window.setTitle" [VStr "Hello"])
  /\ callIPC_body two_members ipc "window.setTitle" [VStr "Hello"]
     = Invoked (HostFn 0) window [VStr "Hello"]
  /\ callIPC_body two_members ipc "toString" []
     = Invoked (Builtin "Object.prototype.toString") ipc [].
Proof.
  intros setTitle window ipc.
  assert ("window" <> "callIPC") as Hc by discriminate.
  assert ("window" <> "ensureReady") as He by discriminate.
  assert ("toString" <> "callIPC") as Hc' by discriminate.
  assert ("toString" <> "ensureReady") as He' by discriminate.
  destruct (proxy_resolves_members two_members ipc "window" "setTitle"
              [VStr "Hello"] eq_refl eq_refl Hc He) as (_ & H2 & _ & H4 & _).
  destruct (proxy_resolves_members two_members ipc "toString" "x" []
              eq_refl eq_refl Hc' He') as (_ & _ & _ & _ & H5).
  split; [exact H2 |].
  split; [etransitivity; [exact H4 | reflexivity] |].
  exact (H5 _ (Builtin "Object.prototype.toString") ∅ eq_refl eq_refl
           eq_refl).
Defined.

Lemma callIPC_errors_name_a_prefix_witness :
  let ipc := VObj {[ "a" := VNum 1 ]} in
  callIPC_body two_members ipc "a.b.c" []
  = Threw (not_accessible "a.b.c" "a.b")
  /\ (not_accessible "a.b.c" "a.b" = not_available "a.b.c"
      \/ exists prefix_ rest,
           "a.b.c" = prefix_ +:+ "." +:+ rest
           /\ not_accessible "a.b.c" "a.b"
              = not_accessible "a.b.c" prefix_).
Proof.
  intros ipc.
  assert (callIPC_body two_members ipc "a.b.c" []
          = Threw (not_accessible "a.b.c" "a.b"))
    as H by reflexivity.
  exact (conj H (callIPC_errors_name_a_prefix two_members ipc "a.b.c" [] _ H)).
Defined.

End DynamicCalls.


Section Detection.
Import PyloidReadyManager Bridge Lifecycle.

Lemma stopPolling_has_bridge s : has_bridge s -> has_bridge (stopPolling s).
Proof.
  intros (win & Hw & Hb). unfold stopPolling, has_bridge.
  destruct (pollingInterval (this s)); simpl;
    destruct (pollingTimeout (this s)); simpl; rewrite ?Hw; simpl;
    eexists; (split; [reflexivity |]); exact Hb.
Qed.

Lemma setReady_has_bridge s : has_bridge s -> has_bridge (setReady s).
Proof.
  intros H. unfold setReady. destruct (ready (this s)); simpl; [exact H |].
  apply (stopPolling_has_bridge
           {| window := window s; this := set_ready true (this s) |}) in H.
  exact H.
Qed.

Lemma on_timeout_detected s : detected s -> detected (on_timeout s).
Proof.
  intros H. unfold on_timeout. destruct (ready (this s)) eqn:Hr; simpl;
    [exact H |].
  intros [Hp | Hp].
  - unfold isReady in Hp. simpl in Hp.
    rewrite stopPolling_this_ready, Hr in Hp. discriminate.
  - unfold whenReady in Hp. simpl in Hp.
    rewrite stopPolling_readyPromise in Hp.
    assert (whenReady s = Resolved) as Hp'.
    { unfold whenReady. destruct (readyPromise (this s));
        simpl in Hp; congruence. }
    destruct (stopPolling_has_bridge s (H (or_intror Hp')))
      as (win & Hw & Hb).
    exists win. auto.
Qed.

Lemma step_detected w e :
  e <> SetReady -> detected (gate w) -> detected (gate (step w e)).
Proof.
  intros He H. destruct e as [| v | id | id | | r | i]; simpl;
    try exact H; try contradiction.
  - unfold inject. destruct (window (gate w)) as [win |] eqn:Hw; [| exact H].
    intros _. eexists. split; [reflexivity | reflexivity].
  - unfold set_ipc. destruct (window (gate w)) as [win |] eqn:Hw; [| exact H].
    intros Hp. destruct (H Hp) as (win' & Hw' & Hb).
    rewrite Hw in Hw'. inversion Hw'; subst win'.
    eexists. split; [reflexivity | exact Hb].
  - unfold fire_interval, on_interval.
    destruct (window (gate w)) as [win |] eqn:Hw; [| exact H].
    destruct (bool_decide _); [| exact H].
    destruct (__PYLOID__ win) eqn:Hb; [| exact H].
    intros _. apply setReady_has_bridge, stopPolling_has_bridge.
    exists win. auto.
  - unfold fire_timeout.
    destruct (window (gate w)) as [win |] eqn:Hw; [| exact H].
    destruct (bool_decide _); [| exact H].
    apply on_timeout_detected.
    intros Hp. destruct (H Hp) as (win' & Hw' & Hb).
    rewrite Hw in Hw'. inversion Hw'; subst win'.
    eexists. split; [reflexivity | exact Hb].
  - unfold ensureReady. destruct (checks_window r && _); [exact H |].
    destruct (negb _); exact H.
  - unfold resume. destruct (suspended w !! i); [| exact H].
    destruct (whenReady (gate w)); exact H.
Qed.

Lemma boot_detected g : detected (gate (boot g)).
Proof.
  unfold boot, constructor. simpl. destruct g as [win |].
  - destruct (__PYLOID__ win) eqn:Hb.
    + intros _. apply setReady_has_bridge. exists win. auto.
    + intros [H | H]; discriminate.
  - intros [H | H]; discriminate.
Qed.

Lemma fn_has_bridge r s : has_bridge s -> fn r s <> NoBridge.
Proof.
  intros (win & Hw & Hb). unfold fn. rewrite Hw, Hb.
  destruct r; try discriminate.
  destruct (IPC.callIPC_body _ _ _); discriminate.
Qed.

Lemma step_no_missing_bridge w e :
  e <> SetReady -> detected (gate w) ->
  (forall x, x ∈ history w -> completion x <> NoBridge) ->
  forall x, x ∈ history (step w e) -> completion x <> NoBridge.
Proof.
  intros He H Hh.
  destruct (history_step_cases w e)
    as [-> | (r & c & a & _ & -> & Hc)]; [exact Hh |].
  intros x Hx. unfold record in Hx.
  apply elem_of_app in Hx as [Hx | Hx]; [exact (Hh x Hx) |].
  apply list_elem_of_singleton in Hx. subst x. simpl.
  destruct Hc as [(_ & ->) | [(_ & Hr & ->) | [(_ & Hp & ->) | (_ & reason & ->)]]];
    try discriminate; apply fn_has_bridge, H; auto.
Qed.

Lemma fn_typed r s m :
  request_method r = Some m -> fn r s = Forwarded m \/ invokes (fn r s) = false.
Proof.
  unfold fn. destruct (window s) as [win |]; [| auto].
  destruct r; simpl; try discriminate; intros H; inversion H; subst;
    destruct (__PYLOID__ win); auto.
Qed.

Lemma run_typed_shape w es :
  (forall x, x ∈ history w ->
     forall m, request x = Typed m \/ request x = TypedV1 m ->
       completion x = Forwarded m \/ invokes (completion x) = false) ->
  forall x, x ∈ history (run w es) ->
    forall m, request x = Typed m \/ request x = TypedV1 m ->
      completion x = Forwarded m \/ invokes (completion x) = false.
Proof.
  revert w. induction es as [| e es IH]; intros w H; [exact H |].
  simpl. apply IH.
  destruct (history_step_cases w e)
    as [-> | (r & c & a & _ & -> & Hc)]; [exact H |].
  intros x Hx m Hm. unfold record in Hx.
  apply elem_of_app in Hx as [Hx | Hx]; [exact (H x Hx m Hm) |].
  apply list_elem_of_singleton in Hx. subst x. simpl in *.
  assert (request_method r = Some m) as Hr
    by (destruct Hm as [-> | ->]; reflexivity).
  destruct Hc as [(_ & ->) | [(_ & _ & ->) | [(_ & _ & ->) | (_ & reason & ->)]]];
    auto using fn_typed.
Qed.

(** X11.  As long as nobody calls [setReady()] explicitly, the gate is
    opened by detection only: whenever the flag is set or the promise
    resolved, [window.__PYLOID__] is there, no completed call ever ran
    into a missing bridge, and a typed call that invoked something was
    forwarded to its own bridge method. *)
Theorem detection_guarantees_bridge (g : option Window) (es : list Event) :
  SetReady ∉ es ->
  let w := run (boot g) es in
  (isReady (gate w) = true \/ whenReady (gate w) = Resolved ->
   exists win, window (gate w) = Some win /\ __PYLOID__ win = true)
  /\ (forall x, x ∈ history w ->
        completion x <> NoBridge
        /\ (invokes (completion x) = true ->
            forall m, request x = Typed m \/ request x = TypedV1 m ->
                      completion x = Forwarded m)).
Proof.
  intros Hno w.
  assert (detected (gate w)
          /\ forall x, x ∈ history w -> completion x <> NoBridge) as [Hd Hh].
  { unfold w. clear w.
    assert (detected (gate (boot g))
            /\ forall x, x ∈ history (boot g) -> completion x <> NoBridge)
      as H0.
    { split; [apply boot_detected |]. intros x Hx. simpl in Hx.
      apply elem_of_nil in Hx. contradiction. }
    revert H0. generalize (boot g).
    induction es as [| e es IH]; intros w0 H0; [exact H0 |].
    simpl. apply IH.
    - intros Hin. apply Hno. right. exact Hin.
    - assert (e <> SetReady) as He by (intros ->; apply Hno; left).
      destruct H0 as [Hd Hh]. split.
      + apply step_detected; assumption.
      + apply step_no_missing_bridge; assumption. }
  split; [exact Hd |].
  intros x Hx. split; [exact (Hh x Hx) |].
  intros Hi m Hm.
  destruct (run_typed_shape (boot g) es
              (fun y Hy => False_ind _ (proj1 (elem_of_nil y) Hy)) x Hx m Hm)
    as [H | H]; [exact H | congruence].
Qed.


Lemma detection_guarantees_bridge_witness :
  let es := [Issue (Typed getData); Inject; PollTick 1; Resume 0] in
  let w := run (boot (Some (page JS.two_members false JS.VUndefined 1))) es in
  (SetReady ∉ es)
  /\ (isReady (gate w) = true \/ whenReady (gate w) = Resolved ->
      exists win, window (gate w) = Some win /\ __PYLOID__ win = true)
  /\ (forall x, x ∈ history w ->
        completion x <> NoBridge
        /\ (invokes (completion x) = true ->
            forall m, request x = Typed m \/ request x = TypedV1 m ->
                      completion x = Forwarded m)).
Proof.
  intros es w.
  assert (SetReady ∉ es) as Hno.
  { intros H. repeat (apply elem_of_cons in H as [H | H]; [discriminate |]).
    apply elem_of_nil in H. exact H. }
  exact (conj Hno
           (detection_guarantees_bridge
              (Some (page JS.two_members false JS.VUndefined 1)) es Hno)).
Defined.

Lemma stopPolling_window s win :
  window s = Some win ->
  exists win', window (stopPolling s) = Some win'
               /\ __PYLOID__ win' = __PYLOID__ win.
Proof.
  intros Hw. unfold stopPolling.
  destruct (pollingInterval (this s)); simpl;
    destruct (pollingTimeout (this s)); simpl; rewrite ?Hw; simpl;
    eexists; (split; [reflexivity |]); reflexivity.
Qed.

(** X12.  The flag is not evidence of the bridge: an explicit
    [setReady()] made while [window.__PYLOID__] is missing opens the gate,
    and the next typed call runs at once, unsuspended, into the missing
    bridge. *)
Theorem explicit_setReady_skips_detection (w : World) (win : Window)
    (m : Method) :
  window (gate w) = Some win -> __PYLOID__ win = false ->
  isReady (gate w) = false ->
  let w1 := step w SetReady in
  isReady (gate w1) = true
  /\ history (step w1 (Issue (Typed m)))
     = history w ++
         [{| request := Typed m; completion := NoBridge; awaited := false;
             ready_at := true; signal_at := resolve (whenReady (gate w)) |}].
Proof.
  intros Hw Hb Hr w1.
  assert (isReady (gate w1) = true) as Hr1 by apply setReady_ready.
  split; [exact Hr1 |].
  assert (exists win1, window (gate w1) = Some win1 /\ __PYLOID__ win1 = false)
    as (win1 & Hw1 & Hb1).
  { unfold w1. simpl. unfold setReady. unfold isReady in Hr. rewrite Hr. simpl.
    destruct (stopPolling_window
                {| window := window (gate w);
                   this := set_ready true (this (gate w)) |} win Hw)
      as (win' & Hw' & Hb').
    exists win'. split; [exact Hw' | congruence]. }
  assert (whenReady (gate w1) = resolve (whenReady (gate w))) as Hp.
  { destruct (setReady_first (gate w) Hr) as (_ & _ & _ & Hp). exact Hp. }
  simpl. unfold ensureReady. fold w1. rewrite Hw1, Hr1. simpl.
  change (setReady (gate w)) with (gate w1).
  unfold record, fn. rewrite Hw1, Hb1, Hr1, Hp. reflexivity.
Qed.

Lemma explicit_setReady_skips_detection_witness :
  let w := boot (Some (page JS.two_members false JS.VUndefined 1)) in
  isReady (gate (step w SetReady)) = true
  /\ history (step (step w SetReady) (Issue (Typed getData)))
     = history w ++
         [{| request := Typed getData; completion := NoBridge;
             awaited := false; ready_at := true;
             signal_at := resolve (whenReady (gate w)) |}].
Proof.
  intros w.
  exact (explicit_setReady_skips_detection w _ getData eq_refl eq_refl eq_refl).
Defined.

End Detection.

Section MissingBridge.
Import JS IPC.

(** X13.  With [window.ipc] missing (undefined, null or any other falsy
    value) every dynamic call fails, whatever the path. *)
Theorem callIPC_needs_the_bridge (realm : Realm) (ipc : Val)
    (path : string) (args : list Val) :
  truthy ipc = false ->
  exists message, callIPC_body realm ipc path args = Threw message.
Proof.
  intros H. unfold callIPC_body.
  destruct (length (split "." path) - 1) as [| n] eqn:Hn; simpl.
  - rewrite H. simpl. eauto.
  - rewrite H. simpl. eauto.
Qed.

Lemma callIPC_needs_the_bridge_witness :
  truthy VUndefined = false
  /\ exists message,
       callIPC_body two_members VUndefined "window.setTitle" [VStr "Hello"]
       = Threw message.
Proof.
  exact (conj eq_refl
           (callIPC_needs_the_bridge two_members VUndefined
              "window.setTitle" [VStr "Hello"] eq_refl)).
Defined.

End MissingBridge.

(** ** The event listeners *)

Section EventFacts.
Import EventAPI.

Variable JSON_parse : string -> option JS.Val.
Variable on_prototype : string -> bool.


Lemma listen_Some e cb s s' :
  listen on_prototype e cb s = Some s' ->
  s' = {| _listeners :=
            <[e := default [] (_listeners s !! e) ++ [cb]]> (_listeners s);
          _eventHandler := <[cb := next s]> (_eventHandler s);
          captured := <[next s := cb]> (captured s);
          document := addEventListener e (next s) (document s);
          next := S (next s) |}
  /\ (_listeners s !! e = None -> on_prototype e = false).
Proof.
  unfold EventAPI.listen. destruct (_listeners s !! e) as [cbs |] eqn:He.
  - intros H. inversion H. split; [reflexivity | discriminate].
  - destruct (on_prototype e); [discriminate |].
    intros H. inversion H. split; reflexivity.
Qed.

Lemma elem_of_detach_fold e H cbs : forall doc x,
  x ∈ fold_left (detach e H) cbs doc
  <-> x ∈ doc
      /\ forall cb h, cb ∈ cbs -> H !! cb = Some h -> x <> (e, h).
Proof.
  induction cbs as [| c cbs IH]; intros doc x; simpl.
  - split; [intros Hx; split; [exact Hx |] | intros [Hx _]; exact Hx].
    intros cb h Hin. apply elem_of_nil in Hin. contradiction.
  - rewrite IH. unfold detach. split.
    + intros [Hx Hr]. destruct (H !! c) as [hc |] eqn:Hc.
      * unfold removeEventListener in Hx.
        apply list_elem_of_filter in Hx as [Hne Hx].
        split; [exact Hx |]. intros cb h Hin Hh.
        apply elem_of_cons in Hin as [-> | Hin]; [| exact (Hr cb h Hin Hh)].
        rewrite Hc in Hh. inversion Hh; subst. exact Hne.
      * split; [exact Hx |]. intros cb h Hin Hh.
        apply elem_of_cons in Hin as [-> | Hin]; [| exact (Hr cb h Hin Hh)].
        rewrite Hc in Hh. discriminate.
    + intros [Hx Hr]. split.
      * destruct (H !! c) as [hc |] eqn:Hc; [| exact Hx].
        apply list_elem_of_filter. split; [| exact Hx].
        apply (Hr c hc); [left | exact Hc].
      * intros cb h Hin. apply Hr. right. exact Hin.
Qed.

Lemma NoDup_detach_fold e H cbs : forall doc,
  NoDup doc -> NoDup (fold_left (detach e H) cbs doc).
Proof.
  induction cbs as [| c cbs IH]; intros doc Hd; [exact Hd |].
  simpl. apply IH. unfold detach. destruct (H !! c); [| exact Hd].
  apply NoDup_filter, Hd.
Qed.

Lemma listen_wf e cb s s' :
  wf on_prototype s -> listen on_prototype e cb s = Some s' ->
  wf on_prototype s'.
Proof.
  intros (Hd & Hh & Hc & Hn & Ho & Hk) Hl.
  destruct (listen_Some e cb s s' Hl) as [-> Hp].
  unfold EventAPI.wf. simpl.
  refine (conj _ (conj _ (conj _ (conj _ (conj _ _))))).
  - intros t h. unfold addEventListener.
    destruct (bool_decide _); [intros Hx; specialize (Hd t h Hx); lia |].
    intros Hx. apply elem_of_app in Hx as [Hx | Hx];
      [specialize (Hd t h Hx); lia |].
    apply list_elem_of_singleton in Hx. inversion Hx. lia.
  - intros c h Hx. destruct (decide (c = cb)) as [-> | Hne].
    + rewrite lookup_insert_eq in Hx. inversion Hx. lia.
    + rewrite lookup_insert_ne in Hx by congruence.
      specialize (Hh c h Hx). lia.
  - intros h. destruct (decide (h = next s)) as [-> | Hne].
    + rewrite lookup_insert_eq. split; [eauto | lia].
    + rewrite lookup_insert_ne by congruence. rewrite <- Hc. lia.
  - unfold addEventListener. destruct (bool_decide _) eqn:Hb; [exact Hn |].
    apply bool_decide_eq_false in Hb.
    apply NoDup_app. split; [exact Hn |]. split; [| apply NoDup_singleton].
    intros x Hx Hx'. apply list_elem_of_singleton in Hx'. subst x. auto.
  - intros k cbs Hx. destruct (decide (k = e)) as [-> | Hne].
    + destruct (_listeners s !! e) as [old |] eqn:He; [eauto | auto].
    + rewrite lookup_insert_ne in Hx by congruence. eauto.
  - intros c h Hx. destruct (decide (c = cb)) as [-> | Hne].
    + rewrite lookup_insert_eq in Hx. inversion Hx.
      apply lookup_insert_eq.
    + rewrite lookup_insert_ne in Hx by congruence.
      rewrite lookup_insert_ne; [exact (Hk c h Hx) |].
      specialize (Hh c h Hx). lia.
Qed.

Lemma unlisten_own_wf e cbs s :
  wf on_prototype s -> wf on_prototype (unlisten_own e cbs s).
Proof.
  intros (Hd & Hh & Hc & Hn & Ho & Hk). unfold EventAPI.wf. simpl.
  refine (conj _ (conj Hh (conj Hc (conj _ (conj _ Hk))))).
  - intros t h Hx. apply elem_of_detach_fold in Hx as [Hx _]. eauto.
  - apply NoDup_detach_fold, Hn.
  - intros k c Hx. apply lookup_delete_Some in Hx as [_ Hx]. eauto.
Qed.

Lemma clearAllListeners_wf keys : forall s,
  wf on_prototype s -> wf on_prototype (clearAllListeners keys s).
Proof.
  induction keys as [| k keys IH]; intros s H; [exact H |].
  simpl. apply IH. destruct (_listeners s !! k); [| exact H].
  apply unlisten_own_wf, H.
Qed.

Lemma unlisten_Some e s s' :
  unlisten on_prototype e s = Some s' ->
  match _listeners s !! e with
  | Some cbs => s' = unlisten_own e cbs s
  | None => s' = s
  end.
Proof.
  unfold EventAPI.unlisten. destruct (_listeners s !! e).
  - intros H. inversion H. reflexivity.
  - destruct (on_prototype e); [discriminate |]. intros H. inversion H.
    reflexivity.
Qed.

Lemma step_wf s s' :
  wf on_prototype s -> step on_prototype s s' -> wf on_prototype s'.
Proof.
  intros H [e cb s1 Hl | e s1 Hu | keys _].
  - exact (listen_wf e cb s s1 H Hl).
  - apply unlisten_Some in Hu. destruct (_listeners s !! e); subst s1;
      [apply unlisten_own_wf, H | exact H].
  - apply clearAllListeners_wf, H.
Qed.

Lemma empty_wf : wf on_prototype empty.
Proof.
  unfold EventAPI.wf. simpl.
  refine (conj _ (conj _ (conj _ (conj _ (conj _ _))))).
  - intros t h Hx. apply elem_of_nil in Hx. contradiction.
  - intros cb h Hx. rewrite lookup_empty in Hx. discriminate.
  - intros h. rewrite lookup_empty. split; [lia | intros [x Hx]; discriminate].
  - apply NoDup_nil_2.
  - intros e cbs Hx. rewrite lookup_empty in Hx. discriminate.
  - intros cb h Hx. rewrite lookup_empty in Hx. discriminate.
Qed.

Lemma rtc_wf s s' :
  wf on_prototype s -> rtc (step on_prototype) s s' -> wf on_prototype s'.
Proof.
  intros H Hr. induction Hr as [| x y z Hxy _ IH]; [exact H |].
  apply IH. exact (step_wf x y H Hxy).
Qed.

Lemma reachable_wf s : reachable on_prototype s -> wf on_prototype s.
Proof. apply rtc_wf, empty_wf. Qed.

Lemma omap_ext_in {A B} (f g : A -> option B) (l : list A) :
  (forall x, x ∈ l -> f x = g x) -> omap f l = omap g l.
Proof.
  induction l as [| a l IH]; intros H; [reflexivity |].
  csimpl. rewrite (H a) by left. rewrite IH; [reflexivity |].
  intros x Hx. apply H. right. exact Hx.
Qed.

Lemma omap_none_in {A B} (f : A -> option B) (l : list A) :
  (forall x, x ∈ l -> f x = None) -> omap f l = [].
Proof.
  induction l as [| a l IH]; intros H; [reflexivity |].
  csimpl. rewrite (H a) by left. apply IH.
  intros x Hx. apply H. right. exact Hx.
Qed.

Lemma omap_filter_none {A B} (f : A -> option B) (P : A -> Prop)
    `{forall x, Decision (P x)} (l : list A) :
  (forall x, x ∈ l -> ~ P x -> f x = None) ->
  omap f (filter P l) = omap f l.
Proof.
  induction l as [| a l IH]; intros Hf; [reflexivity |].
  assert (omap f (filter P l) = omap f l) as IH'
    by (apply IH; intros x Hx; apply Hf; right; exact Hx).
  destruct (decide (P a)) as [Ha | Ha].
  - rewrite filter_cons_True by exact Ha. csimpl. rewrite IH'. reflexivity.
  - rewrite filter_cons_False by exact Ha. csimpl.
    rewrite (Hf a); [exact IH' | left | exact Ha].
Qed.

(** X14.  [listen] appends: after [listen(eventName, callback)] returns,
    an event of that name calls every callback it called before, in the
    same order, and then [callback], each with the event's detail (parsed
    as JSON when it is a string that parses, as it is otherwise); events
    of other names are handled as before; the callback is added at the end
    of the list kept for the name. *)
Theorem listen_registers (s s' : State) (e : string) (cb : nat)
    (detail : JS.Val) :
  reachable on_prototype s -> listen on_prototype e cb s = Some s' ->
  dispatch JSON_parse e detail s'
  = dispatch JSON_parse e detail s ++ [(cb, eventData JSON_parse detail)]
  /\ (forall t, t <> e ->
        dispatch JSON_parse t detail s' = dispatch JSON_parse t detail s)
  /\ exists callbacks,
       _listeners s' !! e = Some (callbacks ++ [cb])
       /\ (_listeners s !! e = Some callbacks
           \/ _listeners s !! e = None /\ callbacks = []).
Proof.
  intros Hr Hl. pose proof (reachable_wf s Hr) as (Hd & Hh & Hc & Hn & Ho & Hk).
  destruct (listen_Some e cb s s' Hl) as [-> Hp].
  assert (addEventListener e (next s) (document s)
          = document s ++ [(e, next s)]) as Hadd.
  { unfold addEventListener. rewrite bool_decide_eq_false_2; [reflexivity |].
    intros Hx. specialize (Hd _ _ Hx). lia. }
  assert (forall t,
            EventAPI.dispatch JSON_parse t detail
              {| _listeners :=
                   <[e := default [] (_listeners s !! e) ++ [cb]]>
                     (_listeners s);
                 _eventHandler := <[cb := next s]> (_eventHandler s);
                 captured := <[next s := cb]> (captured s);
                 document := addEventListener e (next s) (document s);
                 next := S (next s) |}
            = dispatch JSON_parse t detail s
              ++ (if String.eqb e t
                  then [(cb, eventData JSON_parse detail)] else []))
    as Hdis.
  { intros t. unfold EventAPI.dispatch. simpl. rewrite Hadd, omap_app.
    f_equal.
    - apply omap_ext_in. intros [t' h] Hx.
      destruct (String.eqb t' t); [| reflexivity].
      rewrite lookup_insert_ne; [reflexivity |].
      specialize (Hd _ _ Hx). lia.
    - simpl. destruct (String.eqb e t); [| reflexivity].
      rewrite lookup_insert_eq. reflexivity. }
  split; [rewrite Hdis, String.eqb_refl; reflexivity |].
  split.
  - intros t Hne. rewrite Hdis.
    assert (String.eqb e t = false) as -> by (apply String.eqb_neq; congruence).
    apply app_nil_r.
  - simpl. rewrite lookup_insert_eq.
    destruct (_listeners s !! e) as [cbs |]; simpl.
    + exists cbs. split; [reflexivity | left; reflexivity].
    + exists []. split; [reflexivity | right; split; reflexivity].
Qed.


(** X15.  [listen] and [unlisten] throw exactly for the event names that
    [Object.prototype] answers to (such as [toString]): [_listeners] is a
    plain object, the inherited member passes the truthiness test and has
    neither [push] nor [forEach]; no such name ever becomes an own key. *)
Theorem listen_throws_on_prototype_names (s : State) (e : string) (cb : nat) :
  reachable on_prototype s ->
  (listen on_prototype e cb s = None <-> on_prototype e = true)
  /\ (unlisten on_prototype e s = None <-> on_prototype e = true).
Proof.
  intros Hr. pose proof (reachable_wf s Hr) as (_ & _ & _ & _ & Ho & _).
  unfold EventAPI.listen, EventAPI.unlisten.
  destruct (_listeners s !! e) as [cbs |] eqn:He.
  - rewrite (Ho e cbs He). split; split; discriminate.
  - destruct (on_prototype e); split; split; auto; discriminate.
Qed.

Lemma clearAllListeners_captured keys : forall s,
  captured (clearAllListeners keys s) = captured s
  /\ _eventHandler (clearAllListeners keys s) = _eventHandler s
  /\ next (clearAllListeners keys s) = next s.
Proof.
  induction keys as [| k keys IH]; intros s; [auto |].
  simpl. destruct (_listeners s !! k); rewrite !(proj1 (IH _)),
    !(proj1 (proj2 (IH _))), !(proj2 (proj2 (IH _))); auto.
Qed.

Lemma listen_tracked e cb s s' :
  wf on_prototype s -> tracked s ->
  (forall h, captured s !! h <> Some cb) ->
  listen on_prototype e cb s = Some s' -> tracked s'.
Proof.
  intros (Hd & Hh & Hc & Hn & Ho & Hk) Ht Hnew Hl.
  destruct (listen_Some e cb s s' Hl) as [-> Hp].
  intros t h Hx. simpl in *.
  assert ((t, h) ∈ document s \/ (t, h) = (e, next s)) as [Hin | Heq].
  { unfold addEventListener in Hx. destruct (bool_decide _); [auto |].
    apply elem_of_app in Hx as [Hx | Hx]; [auto |].
    apply list_elem_of_singleton in Hx. auto. }
  - destruct (Ht t h Hin) as (cb0 & cbs0 & H1 & H2 & H3 & H4).
    assert (cb0 <> cb) as Hne by (intros ->; exact (Hnew h H1)).
    assert (h <> next s) as Hlt by (specialize (Hd t h Hin); lia).
    destruct (decide (t = e)) as [-> | Hte].
    + exists cb0, (cbs0 ++ [cb]).
      rewrite lookup_insert_ne by congruence.
      rewrite lookup_insert_ne by congruence.
      rewrite lookup_insert_eq, H3. simpl.
      split; [exact H1 |]. split; [exact H2 |]. split; [reflexivity |].
      apply elem_of_app. left. exact H4.
    + exists cb0, cbs0.
      rewrite lookup_insert_ne by congruence.
      rewrite lookup_insert_ne by congruence.
      rewrite lookup_insert_ne by congruence. auto.
  - inversion Heq; subst t h.
    exists cb, (default [] (_listeners s !! e) ++ [cb]).
    rewrite !lookup_insert_eq.
    split; [reflexivity |]. split; [reflexivity |]. split; [reflexivity |].
    apply elem_of_app. right. left.
Qed.

Lemma unlisten_own_tracked e cbs s :
  _listeners s !! e = Some cbs -> tracked s ->
  tracked (unlisten_own e cbs s).
Proof.
  intros He Ht t h Hx. simpl in *.
  apply elem_of_detach_fold in Hx as [Hin Hkeep].
  destruct (Ht t h Hin) as (cb0 & cbs0 & H1 & H2 & H3 & H4).
  destruct (decide (t = e)) as [-> | Hte].
  - rewrite He in H3. inversion H3; subst cbs0.
    exfalso. exact (Hkeep cb0 h H4 H2 eq_refl).
  - exists cb0, cbs0. rewrite lookup_delete_ne by congruence. auto.
Qed.

Lemma clearAllListeners_tracked keys : forall s,
  tracked s -> tracked (clearAllListeners keys s).
Proof.
  induction keys as [| k keys IH]; intros s H; [exact H |].
  simpl. apply IH. destruct (_listeners s !! k) eqn:Hk; [| exact H].
  apply unlisten_own_tracked; assumption.
Qed.

Lemma step_tracked s s' :
  wf on_prototype s -> step on_prototype s s' ->
  once s' -> once s /\ (tracked s -> tracked s').
Proof.
  intros Hwf [e cb s1 Hl | e s1 Hu | keys _] Ho.
  - pose proof Hwf as (Hd & Hh & Hc & Hn & _ & Hk).
    destruct (listen_Some e cb s s1 Hl) as [Hs1 _].
    assert (forall h c, captured s !! h = Some c -> captured s1 !! h = Some c)
      as Hmono.
    { intros h c Hx. rewrite Hs1. simpl.
      rewrite lookup_insert_ne; [exact Hx |].
      assert (h < next s) by (apply Hc; eauto). lia. }
    split.
    + intros h1 h2 c H1 H2. apply (Ho h1 h2 c); auto.
    + intros Ht. apply (listen_tracked e cb s s1 Hwf Ht); [| exact Hl].
      intros h Hx.
      assert (h < next s) as Hlt by (apply Hc; eauto).
      assert (h = next s); [| lia].
      apply (Ho h (next s) cb); [auto |].
      rewrite Hs1. simpl. apply lookup_insert_eq.
  - apply unlisten_Some in Hu.
    destruct (_listeners s !! e) as [cbs |] eqn:He; subst s1;
      [| split; auto].
    split; [exact Ho |]. apply unlisten_own_tracked, He.
  - split.
    + intros h1 h2 c. rewrite <- (proj1 (clearAllListeners_captured keys s)). apply Ho.
    + apply clearAllListeners_tracked.
Qed.

Lemma reachable_tracked s : reachable on_prototype s -> once s -> tracked s.
Proof.
  unfold EventAPI.reachable. revert s.
  apply (rtc_ind_r (fun s => once s -> tracked s)).
  - intros _ t h Hx. apply elem_of_nil in Hx. contradiction.
  - intros y z Hr Hs IH Ho.
    destruct (step_tracked y z (reachable_wf y Hr) Hs Ho) as [Hy Ht].
    exact (Ht (IH Hy)).
Qed.

Lemma dispatch_untracked t detail s :
  tracked s -> _listeners s !! t = None -> dispatch JSON_parse t detail s = [].
Proof.
  intros Ht Hn. unfold EventAPI.dispatch. apply omap_none_in.
  intros [t' h] Hx. destruct (String.eqb_spec t' t) as [-> | _]; [| reflexivity].
  destruct (Ht t h Hx) as (cb0 & cbs0 & _ & _ & H3 & _). congruence.
Qed.

Lemma omap_detach_fold {B} (f : string * nat -> option B) e H cbs :
  (forall h, f (e, h) = None) ->
  forall doc, omap f (fold_left (detach e H) cbs doc) = omap f doc.
Proof.
  intros Hf. induction cbs as [| c cbs IH]; intros doc; [reflexivity |].
  simpl. rewrite IH. unfold detach. destruct (H !! c) as [h |]; [| reflexivity].
  unfold removeEventListener. apply omap_filter_none.
  intros x _ Hx. apply dec_stable in Hx. subst x. apply Hf.
Qed.

(** X16.  As long as no function has been passed to [listen] twice,
    [unlisten(eventName)] removes every listener of that name from the
    document, so that a later event of that name calls nothing, leaves the
    listeners of the other names alone, and drops the name from
    [_listeners]. *)
Theorem unlisten_detaches (s s' : State) (e : string) (detail : JS.Val) :
  reachable on_prototype s -> once s ->
  unlisten on_prototype e s = Some s' ->
  dispatch JSON_parse e detail s' = []
  /\ (forall t, t <> e ->
        dispatch JSON_parse t detail s' = dispatch JSON_parse t detail s)
  /\ _listeners s' = delete e (_listeners s).
Proof.
  intros Hr Ho Hu. pose proof (reachable_tracked s Hr Ho) as Ht.
  apply unlisten_Some in Hu.
  destruct (_listeners s !! e) as [cbs |] eqn:He; subst s'.
  - split; [| split; [| reflexivity]].
    + apply dispatch_untracked; [apply unlisten_own_tracked; assumption |].
      simpl. apply lookup_delete_eq.
    + intros t Hne. unfold EventAPI.dispatch. simpl.
      apply omap_detach_fold. intros h.
      assert (String.eqb e t = false) as ->
        by (apply String.eqb_neq; congruence).
      reflexivity.
  - split; [apply dispatch_untracked; assumption |].
    split; [reflexivity |]. symmetry. apply delete_id, He.
Qed.

Lemma clearAllListeners_listeners keys : forall s,
  (forall k, is_Some (_listeners s !! k) -> k ∈ keys) ->
  _listeners (clearAllListeners keys s) = ∅.
Proof.
  induction keys as [| k keys IH]; intros s H.
  - simpl. apply map_empty. intros i.
    destruct (_listeners s !! i) eqn:Hi; [| reflexivity].
    assert (i ∈ @nil string) as Hx by (apply H; eauto).
    apply elem_of_nil in Hx. contradiction.
  - simpl. apply IH. intros k' Hk'.
    destruct (_listeners s !! k) as [cbs |] eqn:Hk.
    + simpl in Hk'. destruct Hk' as [x Hx].
      apply lookup_delete_Some in Hx as [Hne Hx].
      assert (k' ∈ k :: keys) as Hin by (apply H; eauto).
      apply elem_of_cons in Hin as [-> | Hin]; [contradiction | exact Hin].
    + assert (k' ∈ k :: keys) as Hin by (apply H; exact Hk').
      apply elem_of_cons in Hin as [-> | Hin]; [| exact Hin].
      rewrite Hk in Hk'. destruct Hk' as [x Hx]. discriminate.
Qed.

(** X17.  [clearAllListeners], in whatever order the names are
    enumerated, leaves [_listeners] empty; if no function has been passed
    to [listen] twice it also leaves no listener of the API on the
    document. *)
Theorem clearAllListeners_detaches (s : State) (keys : list string) :
  reachable on_prototype s ->
  keys ≡ₚ elements (dom (_listeners s)) ->
  _listeners (clearAllListeners keys s) = ∅
  /\ (once s ->
      document (clearAllListeners keys s) = []
      /\ forall t detail,
           dispatch JSON_parse t detail (clearAllListeners keys s) = []).
Proof.
  intros Hr Hkeys.
  assert (_listeners (clearAllListeners keys s) = ∅) as Hl.
  { apply clearAllListeners_listeners. intros k Hk. rewrite Hkeys.
    apply elem_of_elements, elem_of_dom. exact Hk. }
  split; [exact Hl |]. intros Ho.
  pose proof (clearAllListeners_tracked keys s (reachable_tracked s Hr Ho)) as Ht.
  assert (document (clearAllListeners keys s) = []) as Hd.
  { destruct (document (clearAllListeners keys s)) as [| [t h] doc] eqn:Hdoc;
      [reflexivity |].
    destruct (Ht t h) as (cb0 & cbs0 & _ & _ & H3 & _);
      [rewrite Hdoc; left |].
    rewrite Hl, lookup_empty in H3. discriminate. }
  split; [exact Hd |]. intros t detail. unfold EventAPI.dispatch.
  rewrite Hd. reflexivity.
Qed.


Lemma step_captured s s' h cb :
  wf on_prototype s -> step on_prototype s s' ->
  captured s !! h = Some cb -> captured s' !! h = Some cb.
Proof.
  intros (_ & _ & Hc & _) [e c s1 Hl | e s1 Hu | keys _] Hx.
  - destruct (listen_Some e c s s1 Hl) as [-> _]. simpl.
    rewrite lookup_insert_ne; [exact Hx |].
    assert (h < next s) by (apply Hc; eauto). lia.
  - apply unlisten_Some in Hu. destruct (_listeners s !! e); subst s1;
      exact Hx.
  - rewrite (proj1 (clearAllListeners_captured keys s)). exact Hx.
Qed.

Lemma rtc_captured s s' h cb :
  wf on_prototype s -> rtc (step on_prototype) s s' ->
  captured s !! h = Some cb -> captured s' !! h = Some cb.
Proof.
  intros Hwf Hr. induction Hr as [| x y z Hxy _ IH]; [auto |].
  intros Hx. apply IH; [exact (step_wf x y Hwf Hxy) |].
  exact (step_captured x y h cb Hwf Hxy Hx).
Qed.

Lemma unlisten_own_orphan e h0 k cbs s :
  orphan e h0 s -> orphan e h0 (unlisten_own k cbs s).
Proof.
  intros (Hd & Hn). split; [| exact Hn]. simpl.
  apply elem_of_detach_fold. split; [exact Hd |].
  intros cb h _ Hh Heq. inversion Heq; subst. exact (Hn cb Hh).
Qed.

Lemma clearAllListeners_orphan e h0 keys : forall s,
  orphan e h0 s -> orphan e h0 (clearAllListeners keys s).
Proof.
  induction keys as [| k keys IH]; intros s H; [exact H |].
  simpl. apply IH. destruct (_listeners s !! k); [| exact H].
  apply unlisten_own_orphan, H.
Qed.

Lemma step_orphan e h0 s s' :
  wf on_prototype s -> step on_prototype s s' ->
  orphan e h0 s -> orphan e h0 s'.
Proof.
  intros (Hd & _) [k c s1 Hl | k s1 Hu | keys _] (Hin & Hn).
  - destruct (listen_Some k c s s1 Hl) as [-> _]. split; simpl.
    + unfold addEventListener. destruct (bool_decide _); [exact Hin |].
      apply elem_of_app. left. exact Hin.
    + intros c' Hx. destruct (decide (c' = c)) as [-> | Hne].
      * rewrite lookup_insert_eq in Hx. inversion Hx.
        specialize (Hd e h0 Hin). lia.
      * rewrite lookup_insert_ne in Hx by congruence. exact (Hn c' Hx).
  - apply unlisten_Some in Hu. destruct (_listeners s !! k); subst s1;
      [apply unlisten_own_orphan |]; split; assumption.
  - apply clearAllListeners_orphan. split; assumption.
Qed.

Lemma rtc_orphan e h0 s s' :
  wf on_prototype s -> rtc (step on_prototype) s s' ->
  orphan e h0 s -> orphan e h0 s'.
Proof.
  intros Hwf Hr. induction Hr as [| x y z Hxy _ IH]; [auto |].
  intros H. apply IH; [exact (step_wf x y Hwf Hxy) |].
  exact (step_orphan e h0 x y Hwf Hxy H).
Qed.

(** X18.  A function passed to [listen] a second time, for the same or
    another event name, while its first listener is still registered,
    loses that first listener for good: [_eventHandler] now names the new
    closure, so no later [unlisten] or [clearAllListeners] removes the old
    one from the document, and every event of the first name keeps calling
    the function. *)
Theorem relisten_orphans_handler (s s1 s1' s2 s3 : State) (e e2 : string)
    (cb : nat) (detail : JS.Val) :
  reachable on_prototype s ->
  listen on_prototype e cb s = Some s1 ->
  rtc (step on_prototype) s1 s1' ->
  (e, next s) ∈ document s1' ->
  listen on_prototype e2 cb s1' = Some s2 ->
  rtc (step on_prototype) s2 s3 ->
  (e, next s) ∈ document s3
  /\ (cb, eventData JSON_parse detail) ∈ dispatch JSON_parse e detail s3.
Proof.
  intros Hr Hl1 Hr1 Hin Hl2 Hr2.
  pose proof (reachable_wf s Hr) as Hwf.
  pose proof (listen_wf e cb s s1 Hwf Hl1) as Hwf1.
  pose proof (rtc_wf s1 s1' Hwf1 Hr1) as Hwf1'.
  pose proof (listen_wf e2 cb s1' s2 Hwf1' Hl2) as Hwf2.
  assert (captured s1 !! next s = Some cb) as Hc1.
  { destruct (listen_Some e cb s s1 Hl1) as [-> _]. simpl.
    apply lookup_insert_eq. }
  pose proof (rtc_captured s1 s1' _ _ Hwf1 Hr1 Hc1) as Hc1'.
  assert (captured s2 !! next s = Some cb) as Hc2.
  { apply (step_captured s1' s2 _ _ Hwf1'); [| exact Hc1'].
    exact (step_listen on_prototype s1' e2 cb s2 Hl2). }
  assert (orphan e (next s) s2) as Ho2.
  { pose proof Hwf1' as (Hd & _ & _ & _ & _ & Hk).
    destruct (listen_Some e2 cb s1' s2 Hl2) as [-> _]. split; simpl.
    - unfold addEventListener. destruct (bool_decide _); [exact Hin |].
      apply elem_of_app. left. exact Hin.
    - intros c Hx. destruct (decide (c = cb)) as [-> | Hne].
      + rewrite lookup_insert_eq in Hx. inversion Hx.
        specialize (Hd e (next s) Hin). lia.
      + rewrite lookup_insert_ne in Hx by congruence.
        apply Hk in Hx. congruence. }
  destruct (rtc_orphan e (next s) s2 s3 Hwf2 Hr2 Ho2) as [Hd3 _].
  split; [exact Hd3 |].
  unfold EventAPI.dispatch. apply list_elem_of_omap.
  exists (e, next s). split; [exact Hd3 |].
  rewrite String.eqb_refl.
  rewrite (rtc_captured s2 s3 _ _ Hwf2 Hr2 Hc2). reflexivity.
Qed.

End EventFacts.

Section EventWitnesses.
Import EventAPI.

Lemma once_singleton (h cb : nat) (h1 h2 c : nat) :
  ({[ h := cb ]} : gmap nat nat) !! h1 = Some c ->
  ({[ h := cb ]} : gmap nat nat) !! h2 = Some c -> h1 = h2.
Proof.
  intros H1 H2.
  apply lookup_singleton_Some in H1 as [<- _].
  apply lookup_singleton_Some in H2 as [<- _]. reflexivity.
Qed.

Lemma listen_registers_witness :
  let proto := fun k => String.eqb k "toString" in
  let parse := fun _ : string => @None JS.Val in
  exists s',
    listen proto "ready" 7 empty = Some s'
    /\ dispatch parse "ready" (JS.VStr "x") s' = [(7, JS.VStr "x")].
Proof.
  intros proto parse. eexists. split; [reflexivity |].
  exact (proj1 (listen_registers parse proto empty _ "ready" 7 (JS.VStr "x")
                  (rtc_refl _ _) eq_refl)).
Defined.

Lemma listen_throws_on_prototype_names_witness :
  let proto := fun k => String.eqb k "toString" in
  reachable proto empty
  /\ listen proto "toString" 7 empty = None
  /\ unlisten proto "toString" empty = None.
Proof.
  intros proto.
  assert (reachable proto empty) as Hr by apply rtc_refl.
  destruct (listen_throws_on_prototype_names proto empty "toString" 7 Hr)
    as [H1 H2].
  exact (conj Hr (conj (proj2 H1 eq_refl) (proj2 H2 eq_refl))).
Defined.

Lemma unlisten_detaches_witness :
  let proto := fun k => String.eqb k "toString" in
  let parse := fun _ : string => @None JS.Val in
  exists s s',
    listen proto "ready" 7 empty = Some s
    /\ unlisten proto "ready" s = Some s'
    /\ dispatch parse "ready" (JS.VStr "x") s = [(7, JS.VStr "x")]
    /\ dispatch parse "ready" (JS.VStr "x") s' = [].
Proof.
  intros proto parse.
  pose (s := {| _listeners := {[ "ready" := [7] ]};
                _eventHandler := {[ 7 := 0 ]}; captured := {[ 0 := 7 ]};
                document := [("ready", 0)]; next := 1 |}).
  assert (listen proto "ready" 7 empty = Some s) as Hl by reflexivity.
  assert (reachable proto s) as Hr
    by exact (rtc_once _ _ (step_listen proto empty "ready" 7 s Hl)).
  assert (once s) as Ho by exact (once_singleton 0 7).
  exists s. eexists. split; [exact Hl |]. split; [reflexivity |].
  split; [reflexivity |].
  exact (proj1 (unlisten_detaches parse proto s _ "ready" (JS.VStr "x")
                  Hr Ho eq_refl)).
Defined.

Lemma clearAllListeners_detaches_witness :
  let proto := fun k => String.eqb k "toString" in
  let parse := fun _ : string => @None JS.Val in
  exists s,
    listen proto "ready" 7 empty = Some s
    /\ _listeners (clearAllListeners ["ready"] s) = ∅
    /\ document (clearAllListeners ["ready"] s) = [].
Proof.
  intros proto parse.
  pose (s := {| _listeners := {[ "ready" := [7] ]};
                _eventHandler := {[ 7 := 0 ]}; captured := {[ 0 := 7 ]};
                document := [("ready", 0)]; next := 1 |}).
  assert (listen proto "ready" 7 empty = Some s) as Hl by reflexivity.
  assert (reachable proto s) as Hr
    by exact (rtc_once _ _ (step_listen proto empty "ready" 7 s Hl)).
  assert (once s) as Ho by exact (once_singleton 0 7).
  assert (["ready"] ≡ₚ elements (dom (_listeners s))) as Hk.
  { assert (elements (dom (_listeners s)) = ["ready"]) as -> by reflexivity.
    reflexivity. }
  destruct (clearAllListeners_detaches parse proto s ["ready"] Hr Hk)
    as [H1 H2].
  exists s. exact (conj Hl (conj H1 (proj1 (H2 Ho)))).
Defined.

Lemma relisten_orphans_handler_witness :
  let proto := fun k => String.eqb k "toString" in
  let parse := fun _ : string => @None JS.Val in
  exists s1 s2 s3,
    listen proto "ready" 7 empty = Some s1
    /\ listen proto "ready" 7 s1 = Some s2
    /\ unlisten proto "ready" s2 = Some s3
    /\ _listeners s3 !! "ready" = None
    /\ ("ready", 0) ∈ document s3
    /\ (7, JS.VStr "x") ∈ dispatch parse "ready" (JS.VStr "x") s3.
Proof.
  intros proto parse.
  pose (s1 := {| _listeners := {[ "ready" := [7] ]};
                 _eventHandler := {[ 7 := 0 ]}; captured := {[ 0 := 7 ]};
                 document := [("ready", 0)]; next := 1 |}).
  assert (listen proto "ready" 7 empty = Some s1) as Hl1 by reflexivity.
  pose (s2 := default s1 (listen proto "ready" 7 s1)).
  pose (s3 := default s2 (unlisten proto "ready" s2)).
  assert (listen proto "ready" 7 s1 = Some s2) as Hl2 by reflexivity.
  assert (unlisten proto "ready" s2 = Some s3) as Hu by reflexivity.
  assert (("ready", next empty) ∈ document s1) as Hin by left.
  destruct (relisten_orphans_handler parse proto empty s1 s1 s2 s3
              "ready" "ready" 7 (JS.VStr "x") (rtc_refl _ _) Hl1
              (rtc_refl _ _) Hin Hl2
              (rtc_once _ _ (step_unlisten proto s2 "ready" s3 Hu)))
    as [H1 H2].
  exists s1, s2, s3.
  exact (conj Hl1 (conj Hl2 (conj Hu (conj eq_refl (conj H1 H2))))).
Defined.

End EventWitnesses.

(** ** The RPC client: races, failures and the whole path *)

Section RpcRaces.
Import Async RpcClient Delivery.

Lemma omap_none_all {A B} (f : A -> option B) (l : list A) :
  (forall x, x ∈ l -> f x = None) -> omap f l = [].
Proof.
  induction l as [| a l IH]; intros H; [reflexivity |].
  csimpl. rewrite (H a) by left. apply IH.
  intros x Hx. apply H. right. exact Hx.
Qed.

Lemma falsy_str_Some v : JS.falsy_str (Some v) = false <-> v <> "".
Proof.
  simpl. split.
  - intros H ->. discriminate.
  - intros H. apply String.eqb_neq. exact H.
Qed.

(** A client that has a host call under way was built without an endpoint
    and is in the first or in the second stage of its resolution. *)
Lemma rpc_inflight_cases i es h :
  let s := run (constructor i) es in
  h ∈ inflight s ->
  inv s
  /\ exists r, endpointPromise s = Some r
       /\ promises s !! r = Some Pending
       /\ windowId s = None
       /\ getServerUrl_calls s = 1
       /\ ((h = AskServerUrl r /\ inflight s = [h] /\ endpoint s = None
            /\ getWindowId_calls s = 0)
           \/ exists url, h = AskWindowId r url /\ inflight s = [h]
                /\ endpoint s = Some url /\ getWindowId_calls s = 1).
Proof.
  intros s Hin.
  destruct (rpc_reachable i es) as [Hinv | (e & He)]; fold s in Hinv || fold s in He.
  - split; [exact Hinv |]. destruct Hinv as (Hl & _).
    unfold lazy_ok in Hl. destruct (endpointPromise s) as [r |].
    + destruct Hl as [Hn Hl]. exists r. split; [reflexivity |].
      destruct (promises s !! r) as [[| v | m] |]; try contradiction.
      * destruct Hl as (Hw & [(Hfl & He & Hn2) | (url & Hfl & He & Hn2)]);
          rewrite Hfl in Hin; apply list_elem_of_singleton in Hin; subst h.
        -- split; [reflexivity |]. split; [exact Hw |]. split; [exact Hn |].
           left. auto.
        -- split; [reflexivity |]. split; [exact Hw |]. split; [exact Hn |].
           right. exists url. auto.
      * destruct Hl as (Hfl & _). rewrite Hfl in Hin.
        apply elem_of_nil in Hin. contradiction.
      * destruct Hl as (Hfl & _). rewrite Hfl in Hin.
        apply elem_of_nil in Hin. contradiction.
    + destruct Hl as (_ & _ & _ & _ & Hfl). rewrite Hfl in Hin.
      apply elem_of_nil in Hin. contradiction.
  - destruct He as (_ & _ & _ & _ & _ & Hfl & _). rewrite Hfl in Hin.
    apply elem_of_nil in Hin. contradiction.
Qed.

(** A call made when the endpoint is there needs one continuation to reach
    the platform [fetch]. *)
Lemma call_with_endpoint m p s url :
  endpoint s = Some url -> url <> "" ->
  let j := length (calls s) in
  let c := {| call_method := m; call_params := p; waited := false;
              stage := Posting; posted := Some (post m p s) |} in
  wake j (call m p s) = with_calls (calls s ++ [c]) s.
Proof.
  intros He Hne j c. unfold call, ensureEndpointInitialized.
  rewrite He. apply falsy_str_Some in Hne. rewrite Hne.
  unfold wake. simpl. rewrite lookup_app_r, Nat.sub_diag by lia. simpl.
  unfold with_calls. simpl. f_equal.
  rewrite insert_app_r_alt, Nat.sub_diag by lia. reflexivity.
Qed.

(** X19.  [initializeEndpoint] stores the endpoint before it asks for the
    window id.  A call made in between, while [getWindowId] is unanswered,
    finds the endpoint, does not wait, and posts its envelope at once with
    [id] null. *)
Theorem call_before_window_id_sends_null_id (i : option string)
    (es : list Event) (r : nat) (url m : string) (p : option JS.Val) :
  let s := run (constructor i) es in
  AskWindowId r url ∈ inflight s -> url <> "" ->
  let j := length (calls s) in
  let s' := wake j (call m p s) in
  getWindowId_calls s' = 1 /\ windowId s' = None
  /\ inflight s' = [AskWindowId r url]
  /\ exists c q,
       calls s' !! j = Some c /\ waited c = false /\ stage c = Posting
       /\ posted c = Some q /\ target q = url
       /\ id (body q) = None /\ method (body q) = m.
Proof.
  intros s Hin Hne j s'.
  destruct (rpc_inflight_cases i es _ Hin)
    as (_ & r0 & _ & _ & Hw & _ & [(Hh & _) | (u & Hh & Hfl & He & Hn)]);
    [discriminate |].
  fold s in Hw, Hfl, He, Hn. inversion Hh; subst r0 u. clearbody s.
  pose proof (call_with_endpoint m p s url He Hne) as Hc. cbv zeta in Hc.
  unfold s', j. rewrite Hc. simpl.
  split; [exact Hn |]. split; [exact Hw |]. split; [exact Hfl |].
  eexists _, _. rewrite lookup_app_r, Nat.sub_diag by lia.
  split; [reflexivity |]. simpl.
  split; [reflexivity |]. split; [reflexivity |]. split; [reflexivity |].
  unfold post. simpl. rewrite He, Hw. auto.
Qed.


Lemma call_before_window_id_sends_null_id_witness :
  let s := run (constructor None) [Call "a" None; Answer 0 (Ok "http://h")] in
  let s' := wake 1 (call "b" None s) in
  AskWindowId 0 "http://h" ∈ inflight s
  /\ windowId s' = None
  /\ exists c q,
       calls s' !! 1 = Some c /\ posted c = Some q
       /\ target q = "http://h" /\ id (body q) = None.
Proof.
  intros s s'.
  assert (AskWindowId 0 "http://h" ∈ inflight s) as Hin by left.
  assert ("http://h" <> "") as Hne by discriminate.
  destruct (call_before_window_id_sends_null_id None
              [Call "a" None; Answer 0 (Ok "http://h")] 0 "http://h" "b" None
              Hin Hne)
    as (_ & Hw & _ & c & q & H1 & _ & _ & H2 & H3 & H4 & _).
  split; [exact Hin |]. split; [exact Hw |]. exists c, q. auto.
Defined.

(** X20.  When [getWindowId] fails, the endpoint stored just before stays:
    the window id is never resolved and never asked for again, the calls
    that were waiting never post, and every request the client sends,
    before or after, goes to that endpoint with [id] null; a later call
    does not even see the failure. *)
Theorem window_id_failure_keeps_endpoint (i : option string)
    (es : list Event) (k r : nat) (url e : string) (es' : list Event) :
  let s := run (constructor i) es in
  inflight s !! k = Some (AskWindowId r url) ->
  let s' := run (answer k (Err e) s) es' in
  endpoint s' = Some url /\ windowId s' = None
  /\ getServerUrl_calls s' = 1 /\ getWindowId_calls s' = 1
  /\ inflight s' = []
  /\ (forall c q, c ∈ calls s' -> posted c = Some q ->
        waited c = false /\ target q = url /\ id (body q) = None)
  /\ (url <> "" -> forall m p,
        exists c q,
          calls (wake (length (calls s')) (call m p s'))
            !! length (calls s') = Some c
          /\ posted c = Some q /\ target q = url /\ id (body q) = None).
Proof.
  intros s Hk s'.
  assert (AskWindowId r url ∈ inflight s) as Hin
    by (apply list_elem_of_lookup; eauto).
  destruct (rpc_inflight_cases i es _ Hin)
    as (Hinv & r0 & _ & _ & _ & _ & [(Hh & _) | (u & Hh & _ & He & Hn)]);
    [discriminate |].
  fold s in Hinv, He, Hn. inversion Hh; subst r0 u. clear Hh.
  destruct (rpc_failure_is_kept i es k _ e es' Hk)
    as (r' & _ & Hp' & Hrej & Hn1 & Hfl & _).
  fold s in Hp', Hrej, Hn1, Hfl. fold s' in Hp', Hrej, Hn1, Hfl.
  destruct (rpc_answer_inv k (Err e) s Hinv) as [Hinv0 Hst0].
  destruct (rpc_run_inv (answer k (Err e) s) es' Hinv0) as [Hinv' Hst'].
  fold s' in Hinv', Hst'.
  assert (endpoint s' = Some url) as He'.
  { destruct Hst' as (_ & H2 & _). apply H2.
    destruct Hst0 as (_ & H2' & _). apply H2'. exact He. }
  pose proof Hinv' as (Hl & _ & Hcalls).
  unfold lazy_ok in Hl. rewrite Hp', Hrej in Hl.
  destruct Hl as (_ & _ & Hw & Hle & Hz).
  assert (getWindowId_calls s' = 1) as Hn'.
  { destruct (getWindowId_calls s') as [| [| n]]; [| reflexivity | lia].
    rewrite (Hz eq_refl) in He'. discriminate. }
  split; [exact He' |]. split; [exact Hw |]. split; [exact Hn1 |].
  split; [exact Hn' |]. split; [exact Hfl |]. split.
  - intros c q Hc Hq. destruct (Hcalls c Hc) as [_ Hpo].
    destruct (Hpo q Hq) as (_ & _ & _ & _ & Ht & Hid & Hwt).
    rewrite He' in Ht. inversion Ht. rewrite Hw in Hid, Hwt.
    split; [| split; [reflexivity | destruct Hid; assumption]].
    destruct (waited c); [| reflexivity].
    destruct (Hwt eq_refl) as [_ [x Hx]]. discriminate.
  - intros Hne m p.
    pose proof (call_with_endpoint m p s' url He' Hne) as Hc. cbv zeta in Hc.
    rewrite Hc. simpl. rewrite lookup_app_r, Nat.sub_diag by lia.
    eexists _, _. split; [reflexivity |]. split; [reflexivity |].
    unfold post. simpl. rewrite He', Hw. auto.
Qed.

Lemma window_id_failure_keeps_endpoint_witness :
  let s := run (constructor None) [Call "a" None; Answer 0 (Ok "http://h")] in
  let s' := run (answer 0 (Err "boom") s) [Wake 0; Wake 0] in
  inflight s !! 0 = Some (AskWindowId 0 "http://h")
  /\ endpoint s' = Some "http://h" /\ windowId s' = None
  /\ exists c q,
       calls (wake (length (calls s')) (call "b" None s'))
         !! length (calls s') = Some c
       /\ posted c = Some q /\ target q = "http://h" /\ id (body q) = None.
Proof.
  intros s s'.
  assert (inflight s !! 0 = Some (AskWindowId 0 "http://h")) as Hk
    by reflexivity.
  assert ("http://h" <> "") as Hne by discriminate.
  destruct (window_id_failure_keeps_endpoint None
              [Call "a" None; Answer 0 (Ok "http://h")] 0 0 "http://h" "boom"
              [Wake 0; Wake 0] Hk)
    as (H1 & H2 & _ & _ & _ & _ & H3).
  exact (conj Hk (conj H1 (conj H2 (H3 Hne "b" None)))).
Defined.


Lemma step_addressed s ev :
  inv s -> (forall c, c ∈ calls s -> addressed c) ->
  forall c, c ∈ calls (step s ev) -> addressed c.
Proof.
  intros (Hl & _ & Hcalls) Ha.
  destruct ev as [m p | k a | i | i t]; simpl.
  - unfold call. destruct (ensureEndpointInitialized s) as [pr s1] eqn:He.
    destruct (rpc_ensure_ok s pr s1 Hl He) as (_ & _ & Hc & _).
    simpl. rewrite Hc. intros c Hin.
    apply elem_of_app in Hin as [Hin | Hin]; [exact (Ha c Hin) |].
    apply list_elem_of_singleton in Hin. subst c. intros q Hq. discriminate.
  - destruct (rpc_answer_ok k a s Hl) as (_ & _ & -> & _). exact Ha.
  - unfold wake. destruct (calls s !! i) as [c0 |] eqn:Hi; [| exact Ha].
    assert (c0 ∈ calls s) as Hin0 by (apply list_elem_of_lookup; eauto).
    assert (forall st c, c ∈ <[i := with_stage st c0]> (calls s) ->
              addressed c) as Hstage.
    { intros st c Hin. apply elem_of_insert_inv in Hin as [-> | Hin];
        [| exact (Ha c Hin)].
      intros q Hq. exact (Ha c0 Hin0 q Hq). }
    destruct (stage c0) as [[r | | x] | |] eqn:Hst; try exact Ha.
    + destruct (promises s !! r) as [pp |]; [| exact Ha].
      destruct (after_await pp s); [| exact Ha]. simpl. apply Hstage.
    + simpl. intros c Hin. apply elem_of_insert_inv in Hin as [-> | Hin];
        [| exact (Ha c Hin)].
      intros q Hq. simpl in Hq. inversion Hq; subst q. simpl.
      destruct (Hcalls c0 Hin0) as [Hso _]. unfold stage_ok in Hso.
      rewrite Hst in Hso. destruct Hso as (_ & Hf & _).
      destruct (endpoint s); [exact Hf | discriminate].
    + simpl. apply Hstage.
  - unfold respond. destruct (calls s !! i) as [c0 |] eqn:Hi; [| exact Ha].
    assert (c0 ∈ calls s) as Hin0 by (apply list_elem_of_lookup; eauto).
    destruct (stage c0); try exact Ha. simpl.
    intros c Hin. apply elem_of_insert_inv in Hin as [-> | Hin];
      [| exact (Ha c Hin)].
    intros q Hq. exact (Ha c0 Hin0 q Hq).
Qed.

Lemma run_addressed s es :
  inv s -> (forall c, c ∈ calls s -> addressed c) ->
  forall c, c ∈ calls (run s es) -> addressed c.
Proof.
  revert s. induction es as [| ev es IH]; intros s Hinv Ha; [exact Ha |].
  simpl. apply IH; [apply rpc_step_inv, Hinv |].
  apply step_addressed; assumption.
Qed.

Lemma reachable_addressed i es :
  forall c, c ∈ calls (run (constructor i) es) -> addressed c.
Proof.
  destruct (JS.falsy_str i) eqn:Hf.
  - apply run_addressed; [apply rpc_constructor_lazy, Hf |].
    unfold constructor. rewrite Hf. simpl. intros c Hc.
    apply elem_of_nil in Hc. contradiction.
  - destruct i as [e |]; [| discriminate].
    pose proof (explicit_run e _ es (explicit_constructor e Hf))
      as (He & Hfe & _ & _ & _ & _ & Hc).
    intros c Hin q Hq. destruct (Hc c Hin) as (_ & _ & _ & Hpo).
    destruct (Hpo q Hq) as (_ & _ & _ & _ & Ht & _).
    rewrite He in Ht. inversion Ht as [Ht']. rewrite Ht'. exact Hfe.
Qed.

Lemma settle_lookup r p store x y :
  settle r p store !! x = Some y -> store !! x = Some y \/ y = p.
Proof.
  unfold settle. destruct (store !! r) as [[| v | m] |]; auto.
  intros H. apply list_lookup_insert_Some in H as [(_ & -> & _) | (_ & H)];
    auto.
Qed.

Lemma step_rejections s ev :
  (forall r m, promises s !! r = Some (Rejected m) ->
     exists e, m = failed_to_get e) ->
  forall r m, promises (step s ev) !! r = Some (Rejected m) ->
    exists e, m = failed_to_get e.
Proof.
  intros H. destruct ev as [mm p | k a | i | i t]; simpl.
  - unfold call, ensureEndpointInitialized.
    destruct (JS.falsy_str (endpoint s)); [| exact H].
    destruct (endpointPromise s); [exact H |].
    unfold initializeEndpoint, alloc. simpl. intros r m Hr.
    apply lookup_app_Some in Hr as [Hr | [_ Hr]]; [exact (H r m Hr) |].
    destruct (r - length (promises s)) as [| n]; simpl in Hr; discriminate.
  - unfold answer. destruct (inflight s !! k) as [h |]; [| exact H].
    destruct h as [r0 | r0 url]; destruct a as [v | e]; simpl;
      try exact H; intros r m Hr; apply settle_lookup in Hr as [Hr | Hr];
      try exact (H r m Hr); inversion Hr; eauto.
  - unfold wake. destruct (calls s !! i) as [c |]; [| exact H].
    destruct (stage c) as [[r0 | | x] | |]; try exact H.
    destruct (promises s !! r0) as [pp |]; [| exact H].
    destruct (after_await pp s); exact H.
  - unfold respond. destruct (calls s !! i) as [c |]; [| exact H].
    destruct (stage c); exact H.
Qed.

Lemma reachable_rejections i es r m :
  promises (run (constructor i) es) !! r = Some (Rejected m) ->
  exists e, m = failed_to_get e.
Proof.
  assert (forall r m, promises (constructor i) !! r = Some (Rejected m) ->
            exists e, m = failed_to_get e) as H0.
  { unfold constructor. destruct (JS.falsy_str i); simpl; intros r0 m0 Hr.
    - rewrite lookup_nil in Hr. discriminate.
    - destruct r0; simpl in Hr; [discriminate |].
      rewrite lookup_nil in Hr. discriminate. }
  revert r m. generalize dependent (constructor i).
  induction es as [| ev es IH]; intros s H0; [exact H0 |].
  simpl. apply IH, step_rejections, H0.
Qed.

(** X21.  Every request a client sends goes to its endpoint, which is
    not the empty string.  So when the host answers [getServerUrl] with the
    empty string, the client keeps it, never asks again, never sends
    anything, and every call that settles fails with "RPC endpoint could
    not be initialized." or with the error of the failed resolution. *)
Theorem empty_endpoint_never_sends (i : option string) (es : list Event) :
  let s := run (constructor i) es in
  (forall c q, c ∈ calls s -> posted c = Some q ->
     target q <> "" /\ endpoint s = Some (target q))
  /\ (forall k r es',
        inflight s !! k = Some (AskServerUrl r) ->
        let s' := run (answer k (Ok "") s) es' in
        endpoint s' = Some ""
        /\ getServerUrl_calls s' = 1
        /\ sent s' = []
        /\ forall c m, c ∈ calls s' -> stage c = Settled (inl m) ->
             m = not_initialized \/ exists e, m = failed_to_get e).
Proof.
  intros s.
  assert (forall es0 c q,
            c ∈ calls (run (constructor i) es0) -> posted c = Some q ->
            target q <> ""
            /\ endpoint (run (constructor i) es0) = Some (target q)) as Hsent.
  { intros es0 c q Hc Hq. split.
    - apply falsy_str_Some. exact (reachable_addressed i es0 c Hc q Hq).
    - destruct (rpc_reachable i es0) as [(_ & _ & Hcalls) | (e & He)].
      + destruct (Hcalls c Hc) as [_ Hpo].
        destruct (Hpo q Hq) as (_ & _ & _ & _ & Ht & _). auto.
      + destruct He as (_ & _ & _ & _ & _ & _ & Hcalls).
        destruct (Hcalls c Hc) as (_ & _ & _ & Hpo).
        destruct (Hpo q Hq) as (_ & _ & _ & _ & Ht & _). auto. }
  split; [apply Hsent |].
  intros k r es' Hk s'.
  assert (s' = run (constructor i) (es ++ Answer k (Ok "") :: es')) as Hs'
    by (unfold s', s, run; rewrite fold_left_app; reflexivity).
  assert (AskServerUrl r ∈ inflight s) as Hin
    by (apply list_elem_of_lookup; eauto).
  destruct (rpc_inflight_cases i es _ Hin)
    as (Hinv & r0 & Hp & Hpend & _ & Hn1 & [(Hh & Hfl & He & _) | (u & Hh & _)]);
    [| discriminate].
  fold s in Hinv, Hp, Hpend, Hn1, Hfl, He. inversion Hh; subst r0. clear Hh.
  assert (k = 0) as ->.
  { rewrite Hfl in Hk. destruct k; [reflexivity | discriminate]. }
  destruct (rpc_answer_inv 0 (Ok "") s Hinv) as [Hinv0 Hst0].
  destruct (rpc_run_inv (answer 0 (Ok "") s) es' Hinv0) as [Hinv' Hst'].
  fold s' in Hinv', Hst'.
  assert (endpoint (answer 0 (Ok "") s) = Some "") as He0
    by (unfold answer; rewrite Hfl; reflexivity).
  assert (endpoint s' = Some "") as He'
    by (destruct Hst' as (_ & H2 & _); apply H2, He0).
  assert (forall c, c ∈ calls s' -> posted c = None) as Hnone.
  { intros c Hc. destruct (posted c) as [q |] eqn:Hq; [| reflexivity].
    rewrite Hs' in Hc. destruct (Hsent _ c q Hc Hq) as [Hne Ht].
    rewrite <- Hs', He' in Ht. inversion Ht. congruence. }
  split; [exact He' |]. split.
  - destruct Hinv' as (Hl & _).
    assert (endpointPromise s' = Some r) as Hp'.
    { destruct Hst' as (H1 & _). apply H1.
      destruct Hst0 as (H1' & _). apply H1', Hp. }
    unfold lazy_ok in Hl. rewrite Hp' in Hl. destruct Hl as [Hl _]. exact Hl.
  - split.
    + unfold sent. rewrite (omap_none_all posted (calls s') Hnone). reflexivity.
    + intros c m Hc Hst. destruct Hinv' as (_ & _ & Hcalls).
      destruct (Hcalls c Hc) as [Hso _]. unfold stage_ok in Hso.
      rewrite Hst in Hso.
      destruct (Hso (Hnone c Hc)) as (_ & m' & Hm & (r' & Hr' & Hcase)).
      inversion Hm; subst m'.
      destruct Hcase as [Hrej | (-> & _)]; [| auto].
      right. rewrite Hs' in Hrej. exact (reachable_rejections i _ r' m Hrej).
Qed.


Lemma empty_endpoint_never_sends_witness :
  let s := run (constructor None) [Call "a" None] in
  let s' := run (answer 0 (Ok "") s) [Answer 0 (Ok "w-1"); Wake 0; Wake 0] in
  inflight s !! 0 = Some (AskServerUrl 0)
  /\ endpoint s' = Some "" /\ sent s' = []
  /\ stage <$> calls s' = [Settled (inl not_initialized)].
Proof.
  intros s s'.
  assert (inflight s !! 0 = Some (AskServerUrl 0)) as Hk by reflexivity.
  destruct (empty_endpoint_never_sends None [Call "a" None]) as [_ H].
  destruct (H 0 0 [Answer 0 (Ok "w-1"); Wake 0; Wake 0] Hk)
    as (H1 & _ & H2 & _).
  exact (conj Hk (conj H1 (conj H2 eq_refl))).
Defined.

(** X22.  The whole path of a lazily built client: a first call asks the
    host for the endpoint and then the window id, once each; it and a call
    made after the answers both post [{jsonrpc: "2.0", method, params, id}]
    to the endpoint with the window id as [id], and each settles with what
    its own response says. *)
Theorem rpc_round_trip (i : option string) (m1 m2 url wid : string)
    (p1 p2 : option JS.Val) (e1 e2 : Engine) (d1 d2 : Json.Value) :
  JS.falsy_str i = true -> url <> "" ->
  let s := run (constructor i)
             [Call m1 p1; Answer 0 (Ok url); Answer 0 (Ok wid); Call m2 p2;
              Wake 0; Wake 0; Wake 1;
              Respond 1 (Parsed e2 d2); Respond 0 (Parsed e1 d1)] in
  getServerUrl_calls s = 1 /\ getWindowId_calls s = 1
  /\ endpoint s = Some url /\ windowId s = Some wid
  /\ calls s
     = [{| call_method := m1; call_params := p1; waited := true;
           stage := Settled (on_response e1 d1);
           posted :=
             Some {| target := url; http_method := "POST";
                     http_headers :=
                       {[ "Content-Type" := "application/json" ]};
                     body := {| jsonrpc := "2.0"; method := m1;
                                params := match p1 with
                                          | None | Some JS.VUndefined =>
                                              JS.VObj ∅
                                          | Some v => v
                                          end;
                                id := Some wid |} |} |};
        {| call_method := m2; call_params := p2; waited := false;
           stage := Settled (on_response e2 d2);
           posted :=
             Some {| target := url; http_method := "POST";
                     http_headers :=
                       {[ "Content-Type" := "application/json" ]};
                     body := {| jsonrpc := "2.0"; method := m2;
                                params := match p2 with
                                          | None | Some JS.VUndefined =>
                                              JS.VObj ∅
                                          | Some v => v
                                          end;
                                id := Some wid |} |} |}].
Proof.
  intros Hf Hne s.
  assert (constructor i = constructor None) as Hc
    by (unfold constructor; rewrite Hf; reflexivity).
  unfold s. rewrite Hc. clear s Hc Hf i.
  destruct url as [| a u]; [contradiction |]. clear Hne.
  repeat split.
Qed.

Lemma rpc_round_trip_witness :
  let engine :=
    {| cannot_read_null := "Cannot read properties of null";
       cannot_convert := "Cannot convert object to primitive value" |} in
  let d :=
    Json.Object {[ "jsonrpc" := Json.Str "2.0";
                   "result" := Json.Number false "3";
                   "id" := Json.Str "w-1" ]} in
  let s := run (constructor None)
             [Call "sum" None; Answer 0 (Ok "http://h"); Answer 0 (Ok "w-1");
              Call "sum" None; Wake 0; Wake 0; Wake 1;
              Respond 1 (Parsed engine d); Respond 0 (Parsed engine d)] in
  stage <$> calls s
  = [Settled (inr (Some (Json.Number false "3")));
     Settled (inr (Some (Json.Number false "3")))].
Proof.
  intros engine d s.
  assert ("http://h" <> "") as Hne by discriminate.
  destruct (rpc_round_trip None "sum" "sum" "http://h" "w-1" None None
              engine engine d d eq_refl Hne) as (_ & _ & _ & _ & H).
  unfold s. rewrite H. reflexivity.
Defined.

End RpcRaces.

(** ** The enhanced fetch: failures, status and the whole path *)

Section FetchOutcomes.
Import Async PyloidFetch PyloidFetchStatus Delivery.

Lemma ensure_not_thrown c s p s' m :
  ensureInitialized c s = (p, s') -> p <> Thrown m.
Proof.
  unfold ensureInitialized. destruct (JS.falsy_str (cached c s)).
  - destruct (stored c s).
    + intros H. inversion H. discriminate.
    + destruct (initialize c s). intros H. inversion H. discriminate.
  - intros H. inversion H. discriminate.
Qed.

Lemma after_await_not_awaiting c p s pr r :
  after_await c p s = Some pr -> pr <> Awaiting r.
Proof.
  destruct p as [| v | m]; simpl; [discriminate | |];
    intros H; inversion H; [destruct (JS.falsy_str _) |]; discriminate.
Qed.

Lemma step_decided s e :
  inv s ->
  (forall fc, fc ∈ calls s -> decided fc /\ rejected_by fc) ->
  forall fc, fc ∈ calls (step s e) -> decided fc /\ rejected_by fc.
Proof.
  intros [Hs Hcalls] Hd. destruct e as [u o | k a | i c | i]; simpl.
  - unfold fetch.
    destruct (ensureInitialized ServerUrl s) as [p1 s1] eqn:H1.
    destruct (ensureInitialized WindowId s1) as [p2 s2] eqn:H2.
    destruct (ensure_ok _ _ _ _ Hs H1) as (Hs1 & _ & Hc1 & _).
    destruct (ensure_ok _ _ _ _ Hs1 H2) as (_ & _ & Hc2 & _).
    simpl. rewrite Hc2, Hc1. intros fc Hfc.
    apply elem_of_app in Hfc as [Hfc | Hfc]; [exact (Hd fc Hfc) |].
    apply list_elem_of_singleton in Hfc. subst fc.
    split; [exact I |]. unfold rejected_by. simpl.
    intros [|] m; simpl; eapply ensure_not_thrown; eauto.
  - destruct (answer_ok k a s Hs) as (_ & _ & ->). exact Hd.
  - unfold wake. destruct (calls s !! i) as [fc0 |] eqn:Hi; [| exact Hd].
    assert (fc0 ∈ calls s) as Hfc0 by (apply list_elem_of_lookup; eauto).
    destruct (progress c fc0) as [r | | m] eqn:Hpr; try exact Hd.
    destruct (promises s !! r) as [p |]; [| exact Hd].
    destruct (after_await c p s) as [pr |] eqn:Haw; [| exact Hd].
    simpl. intros fc Hfc.
    apply elem_of_insert_inv in Hfc as [-> | Hfc]; [| exact (Hd fc Hfc)].
    destruct (Hd fc0 Hfc0) as [Hdec Hrej]. split.
    + unfold decided in *.
      assert (outcome (finish_ensure c pr fc0) = outcome fc0) as ->
        by (destruct c; reflexivity).
      destruct (outcome fc0) as [[m0 | q] |]; [| | exact I].
      * destruct c; simpl; rewrite Hdec; reflexivity.
      * destruct Hdec as (A & B & _).
        destruct c; simpl in Hpr; congruence.
    + unfold rejected_by in *.
      destruct (rejection fc0) as [m0 |] eqn:Hr0.
      * assert (rejection (finish_ensure c pr fc0) = Some m0) as ->
          by (destruct c; simpl; rewrite Hr0; reflexivity).
        destruct Hrej as [c0 Hc0]. exists c0.
        rewrite progress_finish_other; [exact Hc0 |].
        intros ->. congruence.
      * destruct pr as [r' | | m'].
        -- exfalso. exact (after_await_not_awaiting _ _ _ _ r' Haw eq_refl).
        -- assert (rejection (finish_ensure c Returned fc0) = None) as ->
             by (destruct c; simpl; rewrite Hr0; reflexivity).
           intros c' m'. destruct (decide (c' = c)) as [-> | Hne].
           ++ rewrite progress_finish_same. discriminate.
           ++ rewrite progress_finish_other by exact Hne. apply Hrej.
        -- assert (rejection (finish_ensure c (Thrown m') fc0) = Some m') as ->
             by (destruct c; simpl; rewrite Hr0; reflexivity).
           exists c. apply progress_finish_same.
  - unfold continue. destruct (calls s !! i) as [fc0 |] eqn:Hi; [| exact Hd].
    assert (fc0 ∈ calls s) as Hfc0 by (apply list_elem_of_lookup; eauto).
    destruct (Hd fc0 Hfc0) as [Hdec Hrej].
    destruct (Hcalls fc0 Hfc0) as [Hprog _].
    destruct (outcome fc0) as [x |] eqn:Hx; [exact Hd |].
    destruct (rejection fc0) as [m |] eqn:Hr0.
    + simpl. intros fc Hfc.
      apply elem_of_insert_inv in Hfc as [-> | Hfc]; [| exact (Hd fc Hfc)].
      split.
      * unfold decided. simpl. exact Hr0.
      * unfold rejected_by in *. simpl. rewrite Hr0 in *. exact Hrej.
    + destruct (ensureServerUrl fc0) as [r1 | | m1] eqn:H1; try exact Hd.
      destruct (ensureWindowId fc0) as [r2 | | m2] eqn:H2; try exact Hd.
      simpl. intros fc Hfc.
      apply elem_of_insert_inv in Hfc as [-> | Hfc]; [| exact (Hd fc Hfc)].
      split.
      * pose proof (Hprog ServerUrl) as HS. simpl in HS. rewrite H1 in HS.
        destruct HS as (base & Hbase & _). simpl in Hbase.
        unfold decided, request. simpl. rewrite Hbase. simpl. auto.
      * unfold rejected_by in *. simpl. rewrite Hr0 in *. exact Hrej.
Qed.

Lemma run_decided s es :
  inv s ->
  (forall fc, fc ∈ calls s -> decided fc /\ rejected_by fc) ->
  forall fc, fc ∈ calls (run s es) -> decided fc /\ rejected_by fc.
Proof.
  revert s. induction es as [| e es IH]; intros s Hinv Hd; [exact Hd |].
  simpl. apply IH; [apply step_inv, Hinv |].
  apply step_decided; assumption.
Qed.

Lemma reachable_decided es fc :
  fc ∈ calls (run init es) -> decided fc /\ rejected_by fc.
Proof.
  apply run_decided; [apply init_inv |].
  intros x Hx. apply elem_of_nil in Hx. contradiction.
Qed.


Lemma settle_lookup_at r p store x y :
  settle r p store !! x = Some y ->
  store !! x = Some y \/ (x = r /\ y = p).
Proof.
  unfold settle. destruct (store !! r) as [[| v | m] |]; auto.
  intros H. apply list_lookup_insert_Some in H as [(-> & -> & _) | (_ & H)];
    auto.
Qed.

Lemma ensure_promises c s p s' r m :
  ensureInitialized c s = (p, s') ->
  promises s' !! r = Some (Rejected m) -> promises s !! r = Some (Rejected m).
Proof.
  unfold ensureInitialized. destruct (JS.falsy_str (cached c s)).
  - destruct (stored c s).
    + intros H. inversion H. auto.
    + unfold initialize, alloc. simpl. intros H. inversion H; subst. clear H.
      destruct c; simpl; intros Hr;
        (apply lookup_app_Some in Hr as [Hr | [_ Hr]]; [exact Hr |]);
        destruct (r - length (promises s)); simpl in Hr; discriminate.
  - intros H. inversion H. auto.
Qed.

Lemma step_rejected_by_host s e :
  inv s ->
  (forall r m, promises s !! r = Some (Rejected m) ->
     exists c x, stored c s = Some r /\ m = failed_to_get c x) ->
  forall r m, promises (step s e) !! r = Some (Rejected m) ->
    exists c x, stored c (step s e) = Some r /\ m = failed_to_get c x.
Proof.
  intros Hinv H r m Hr.
  destruct (step_inv s e Hinv) as [_ (Hst & _)].
  assert (promises s !! r = Some (Rejected m)
          \/ exists c x, stored c (step s e) = Some r /\ m = failed_to_get c x)
    as [Hold | Hnew]; [| | exact Hnew].
  - destruct e as [u o | k a | i c | i]; simpl in *.
    + left. unfold fetch in Hr.
      destruct (ensureInitialized ServerUrl s) as [p1 s1] eqn:H1.
      destruct (ensureInitialized WindowId s1) as [p2 s2] eqn:H2.
      simpl in Hr. eapply ensure_promises; [exact H1 |].
      eapply ensure_promises; [exact H2 | exact Hr].
    + unfold answer in *.
      destruct (inflight s !! k) as [[c r0] |] eqn:Hk; [| auto].
      assert ((c, r0) ∈ inflight s) as Hin
        by (apply list_elem_of_lookup; eauto).
      destruct Hinv as [(Hc & _) _].
      destruct (cache_ok_inflight c s r0 (Hc c) Hin) as (Hs0 & _).
      destruct a as [v | x]; simpl in Hr;
        apply settle_lookup_at in Hr as [Hr | [-> Hr]];
        try (left; destruct c; exact Hr); try discriminate.
      right. inversion Hr. exists c, x. split; [| reflexivity].
      apply Hst, Hs0.
    + left. unfold wake in Hr.
      destruct (calls s !! i) as [fc |]; [| exact Hr].
      destruct (progress c fc) as [r0 | | m0]; try exact Hr.
      destruct (promises s !! r0) as [p |]; [| exact Hr].
      destruct (after_await c p s); exact Hr.
    + left. unfold continue in Hr.
      destruct (calls s !! i) as [fc |]; [| exact Hr].
      destruct (outcome fc); [exact Hr |].
      destruct (rejection fc); [exact Hr |].
      destruct (ensureServerUrl fc); try exact Hr.
      destruct (ensureWindowId fc); exact Hr.
  - destruct (H r m Hold) as (c & x & Hs0 & Hm). exists c, x.
    split; [apply Hst, Hs0 | exact Hm].
Qed.

Lemma reachable_rejected_by_host es r m :
  promises (run init es) !! r = Some (Rejected m) ->
  exists c x, stored c (run init es) = Some r /\ m = failed_to_get c x.
Proof.
  assert (forall r m, promises init !! r = Some (Rejected m) ->
            exists c x, stored c init = Some r /\ m = failed_to_get c x) as H0.
  { intros r0 m0 Hr. simpl in Hr. rewrite lookup_nil in Hr. discriminate. }
  pose proof init_inv as Hinv. revert r m. revert H0 Hinv.
  generalize init. induction es as [| e es IH]; intros s H0 Hinv; [exact H0 |].
  simpl. apply IH; [apply step_rejected_by_host; assumption |].
  apply step_inv, Hinv.
Qed.

Lemma stored_distinct s c c' r :
  state_ok s -> stored c s = Some r -> stored c' s = Some r -> c = c'.
Proof.
  intros (_ & _ & Hd) H1 H2.
  destruct c, c'; simpl in *; try reflexivity; exfalso;
    [exact (Hd r r H1 H2 eq_refl) | exact (Hd r r H2 H1 eq_refl)].
Qed.

Lemma falsy_empty v : JS.falsy_str (Some v) = true -> v = "".
Proof. simpl. apply String.eqb_eq. Qed.

(** X23.  How a [fetch] call can end before the platform is reached: only
    with the first rejection [Promise.all] saw, which is the error of one
    of its two resolutions, either "Failed to get ...: <error>" when the
    host call failed (the cache is then empty) or "... could not be
    initialized." when the host answered with the empty string.  A request
    is handed to the platform only after both resolutions returned, and is
    built from a non-empty server URL: [buildUrl] never sees a null
    base. *)
Theorem fetch_fails_only_by_resolution (es : list Event) (fc : FetchCall) :
  let s := run init es in
  fc ∈ calls s ->
  match outcome fc with
  | Some (inl m) =>
      rejection fc = Some m
      /\ exists c,
           progress c fc = Thrown m
           /\ ((cached c s = None /\ exists x, m = failed_to_get c x)
               \/ (cached c s = Some "" /\ m = not_initialized c))
  | Some (inr q) =>
      ensureServerUrl fc = Returned /\ ensureWindowId fc = Returned
      /\ rejection fc = None
      /\ exists base, serverUrl s = Some base /\ base <> ""
           /\ completeUrl q = Url.buildUrl base (url fc)
  | None => True
  end.
Proof.
  intros s Hfc.
  destruct (reachable_decided es fc Hfc) as [Hdec Hrej].
  pose proof (reachable_inv es) as [Hs Hcalls]. fold s in Hs, Hcalls.
  destruct (Hcalls fc Hfc) as [Hprog Hout].
  unfold decided in Hdec. unfold outcome_ok in Hout.
  destruct (outcome fc) as [[m | q] |]; [| | exact I].
  - split; [exact Hdec |].
    unfold rejected_by in Hrej. rewrite Hdec in Hrej.
    destruct Hrej as [c Hc]. exists c. split; [exact Hc |].
    pose proof (Hprog c) as Hp. rewrite Hc in Hp. simpl in Hp.
    destruct Hp as (r & Hr & Hcase).
    pose proof (proj1 Hs c) as Hcc. unfold cache_ok in Hcc. rewrite Hr in Hcc.
    destruct Hcc as [_ Hcc].
    destruct Hcase as [Hp | (-> & v & Hp & Hf)]; rewrite Hp in Hcc.
    + left. split; [exact (proj1 Hcc) |].
      destruct (reachable_rejected_by_host es r m Hp) as (c2 & x & Hs2 & Hm).
      fold s in Hs2. rewrite (stored_distinct s c c2 r Hs Hr Hs2). eauto.
    + right. apply falsy_empty in Hf. subst v. split; [exact (proj1 Hcc) |].
      reflexivity.
  - destruct Hdec as (A & B & C). split; [exact A |]. split; [exact B |].
    split; [exact C |].
    destruct Hout as (base & w & Hb & _ & _ & ->).
    exists base. split; [exact Hb |]. split; [| reflexivity].
    pose proof (Hprog ServerUrl) as Hp. simpl in Hp. rewrite A in Hp.
    destruct Hp as (v & Hv & Hf). simpl in Hv. rewrite Hb in Hv.
    inversion Hv; subst v. intros ->. discriminate.
Qed.


Lemma fetch_fails_only_by_resolution_witness :
  let es := [Fetch "/a" {| headers := None; others := ∅ |};
             Answer 0 (Err "boom"); Wake 0 ServerUrl; Continue 0] in
  exists fc,
    calls (run init es) !! 0 = Some fc
    /\ outcome fc = Some (inl "Failed to get server URL: boom")
    /\ rejection fc = Some "Failed to get server URL: boom".
Proof.
  intros es.
  pose (fc := default {| url := ""; options := {| headers := None; others := ∅ |};
                         ensureServerUrl := Returned; ensureWindowId := Returned;
                         rejection := None; outcome := None |}
                (calls (run init es) !! 0)).
  assert (calls (run init es) !! 0 = Some fc) as Hi by reflexivity.
  assert (fc ∈ calls (run init es)) as Hfc
    by (apply list_elem_of_lookup; eauto).
  assert (outcome fc = Some (inl "Failed to get server URL: boom")) as Ho
    by reflexivity.
  pose proof (fetch_fails_only_by_resolution es fc Hfc) as H.
  cbv zeta in H. rewrite Ho in H.
  exists fc. exact (conj Hi (conj Ho (proj1 H))).
Defined.

(** X24.  When the host answers a resolver with the empty string, the
    module caches it: the status accessor of that cache reports ready from
    then on, the host is never asked again, and no [fetch] call ever
    reaches the platform: each one waits or fails with "... could not be
    initialized.". *)
Theorem empty_answer_blocks_fetch (es : list Event) (k : nat) (c : Cache)
    (r : nat) (es' : list Event) :
  let s := run init es in
  inflight s !! k = Some (c, r) ->
  let s' := run (answer k (Ok "") s) es' in
  cached c s' = Some ""
  /\ match c with
     | ServerUrl => isServerUrlReady s' = true
     | WindowId => isWindowIdReady s' = true
     end
  /\ host_calls c s' = 1
  /\ forall fc, fc ∈ calls s' ->
       (progress c fc = Awaiting r
        \/ progress c fc = Thrown (not_initialized c))
       /\ forall q, outcome fc <> Some (inr q).
Proof.
  intros s Hk s'.
  assert (s' = run init (es ++ Answer k (Ok "") :: es')) as Hs'
    by (unfold s', s, run; rewrite fold_left_app; reflexivity).
  pose proof (reachable_inv es) as Hinv. fold s in Hinv.
  assert ((c, r) ∈ inflight s) as Hin by (apply list_elem_of_lookup; eauto).
  destruct (cache_ok_inflight c s r (proj1 (proj1 Hinv) c) Hin)
    as (Hst & Hpend & _).
  destruct (answer_inv k (Ok "") s Hinv) as [Hinv0 Hst0].
  destruct (run_inv (answer k (Ok "") s) es' Hinv0) as [Hinv' Hst'].
  fold s' in Hinv', Hst'.
  assert (cached c (answer k (Ok "") s) = Some ""
          /\ promises (answer k (Ok "") s) !! r = Some (Fulfilled ""))
    as [Hc0 Hp0].
  { unfold answer. rewrite Hk.
    assert (r < length (promises s)) as Hlt by (eapply lookup_lt_Some; eauto).
    destruct c; simpl; rewrite (settle_pending _ _ _ Hpend);
      (split; [reflexivity | apply list_lookup_insert_eq, Hlt]). }
  assert (cached c s' = Some "") as Hc'
    by (destruct Hst' as (_ & H2 & _); apply H2, Hc0).
  assert (stored c s' = Some r) as Hstored'.
  { destruct Hst' as (H1 & _). apply H1. destruct Hst0 as (H1' & _).
    apply H1', Hst. }
  assert (promises s' !! r = Some (Fulfilled "")) as Hp'
    by (destruct Hst' as (_ & _ & H3); apply H3; [exact Hp0 | discriminate]).
  split; [exact Hc' |]. split.
  { destruct c; simpl in Hc';
      [unfold isServerUrlReady | unfold isWindowIdReady]; rewrite Hc';
      reflexivity. }
  split.
  { pose proof (proj1 (proj1 Hinv') c) as Hcc. unfold cache_ok in Hcc.
    rewrite Hstored' in Hcc. exact (proj1 Hcc). }
  intros fc Hfc.
  destruct (proj2 Hinv' fc Hfc) as [Hprog _].
  assert (progress c fc = Awaiting r
          \/ progress c fc = Thrown (not_initialized c)) as Hcase.
  { pose proof (Hprog c) as Hp. destruct (progress c fc) as [r' | | m];
      simpl in Hp.
    - left. congruence.
    - destruct Hp as (v & Hv & Hf). rewrite Hc' in Hv. inversion Hv; subst v.
      discriminate.
    - right. destruct Hp as (r' & Hr' & [Hrej | (-> & _)]); [| reflexivity].
      rewrite Hstored' in Hr'. inversion Hr'; subst r'. congruence. }
  split; [exact Hcase |].
  intros q Hq. rewrite Hs' in Hfc.
  destruct (reachable_decided _ fc Hfc) as [Hdec _].
  unfold decided in Hdec. rewrite Hq in Hdec. destruct Hdec as (A & B & _).
  destruct c; simpl in Hcase; destruct Hcase; congruence.
Qed.

Lemma empty_answer_blocks_fetch_witness :
  let o := {| headers := None; others := ∅ |} in
  let s := run init [Fetch "/a" o] in
  let s' := run (answer 0 (Ok "") s)
              [Answer 0 (Ok "w-1"); Wake 0 ServerUrl; Wake 0 WindowId;
               Continue 0; Fetch "/b" o] in
  inflight s !! 0 = Some (ServerUrl, 0)
  /\ isServerUrlReady s' = true
  /\ forall fc, fc ∈ calls s' -> forall q, outcome fc <> Some (inr q).
Proof.
  intros o s s'.
  assert (inflight s !! 0 = Some (ServerUrl, 0)) as Hk by reflexivity.
  destruct (empty_answer_blocks_fetch [Fetch "/a" o] 0 ServerUrl 0
              [Answer 0 (Ok "w-1"); Wake 0 ServerUrl; Wake 0 WindowId;
               Continue 0; Fetch "/b" o] Hk) as (_ & H1 & _ & H2).
  split; [exact Hk |]. split; [exact H1 |].
  intros fc Hfc. exact (proj2 (H2 fc Hfc)).
Defined.

(** X25.  [isServerUrlReady()] and [isWindowIdReady()] are true exactly
    when the host has answered the resolver and the module holds that
    answer; [getServerUrl()] and [getWindowId()] return it; once a value is
    there it never changes, and a ready cache stays ready. *)
Theorem accessors_report_the_answer (es es' : list Event) :
  let s := run init es in
  let s' := run s es' in
  (isServerUrlReady s = true <->
     exists r v, serverUrlPromise s = Some r
       /\ promises s !! r = Some (Fulfilled v) /\ getServerUrl s = Some v)
  /\ (isWindowIdReady s = true <->
        exists r v, windowIdPromise s = Some r
          /\ promises s !! r = Some (Fulfilled v) /\ getWindowId s = Some v)
  /\ (forall v, getServerUrl s = Some v -> getServerUrl s' = Some v)
  /\ (forall v, getWindowId s = Some v -> getWindowId s' = Some v)
  /\ (isServerUrlReady s = true -> isServerUrlReady s' = true)
  /\ (isWindowIdReady s = true -> isWindowIdReady s' = true).
Proof.
  intros s s'.
  pose proof (reachable_inv es) as Hinv. fold s in Hinv.
  destruct (run_inv s es' Hinv) as [_ (_ & Hkeep & _)]. fold s' in Hkeep.
  assert (forall c, (exists v, cached c s = Some v) <->
            exists r v, stored c s = Some r
              /\ promises s !! r = Some (Fulfilled v) /\ cached c s = Some v)
    as Hready.
  { intros c. split.
    - intros [v Hv].
      destruct (cache_ok_cached c s v (proj1 (proj1 Hinv) c) Hv)
        as (r & Hr & Hp & _). eauto.
    - intros (r & v & _ & _ & Hv). eauto. }
  assert (forall o : option string,
            match o with Some _ => true | None => false end = true
            <-> exists v, o = Some v) as Hbool.
  { intros [v |]; split; intros H; eauto; try discriminate.
    destruct H as [v' H]. discriminate. }
  split; [unfold isServerUrlReady; rewrite Hbool; apply (Hready ServerUrl) |].
  split; [unfold isWindowIdReady; rewrite Hbool; apply (Hready WindowId) |].
  split; [exact (Hkeep ServerUrl) |]. split; [exact (Hkeep WindowId) |].
  unfold isServerUrlReady, isWindowIdReady. rewrite !Hbool.
  split; intros [v Hv]; exists v;
    [exact (Hkeep ServerUrl v Hv) | exact (Hkeep WindowId v Hv)].
Qed.

(** X26.  The whole path of the enhanced [fetch]: the first call asks the
    host for the server URL and the window id, once each; whichever order
    the answers come in, it and a later call hand to the platform the URL
    built from the cached base and their own options with the window id in
    the [X-Pyloid-Window-Id] header; the later call asks the host nothing. *)
Theorem fetch_round_trip (u1 u2 base w : string) (o1 o2 : RequestInit) :
  base <> "" -> w <> "" ->
  let s := run init
             [Fetch u1 o1; Answer 1 (Ok w); Answer 0 (Ok base);
              Wake 0 WindowId; Wake 0 ServerUrl; Continue 0;
              Fetch u2 o2; Continue 1] in
  getServerUrl_calls s = 1 /\ getWindowId_calls s = 1
  /\ inflight s = []
  /\ getServerUrl s = Some base /\ getWindowId s = Some w
  /\ (outcome <$> calls s)
     = [Some (inr {| completeUrl := Url.buildUrl base u1;
                     enhancedOptions :=
                       {| enhanced_headers :=
                            <[session_header := Text w]> (spread (headers o1));
                          enhanced_others := others o1 |} |});
        Some (inr {| completeUrl := Url.buildUrl base u2;
                     enhancedOptions :=
                       {| enhanced_headers :=
                            <[session_header := Text w]> (spread (headers o2));
                          enhanced_others := others o2 |} |})].
Proof.
  intros Hb Hw s.
  destruct base as [| a b]; [contradiction |].
  destruct w as [| a' w']; [contradiction |].
  repeat split.
Qed.

Lemma fetch_round_trip_witness :
  let o := {| headers := None; others := ∅ |} in
  let s := run init
             [Fetch "/a/b" o; Answer 1 (Ok "w-1"); Answer 0 (Ok "http://x/");
              Wake 0 WindowId; Wake 0 ServerUrl; Continue 0;
              Fetch "https://y/c" o; Continue 1] in
  (completeUrl <$> omap (fun fc =>
                           match outcome fc with
                           | Some (inr q) => Some q
                           | _ => None
                           end) (calls s))
  = ["http://x/a/b"; "https://y/c"].
Proof.
  intros o s.
  assert ("http://x/" <> "") as Hb by discriminate.
  assert ("w-1" <> "") as Hw by discriminate.
  destruct (fetch_round_trip "/a/b" "https://y/c" "http://x/" "w-1" o o Hb Hw)
    as (_ & _ & _ & _ & _ & H).
  fold s in H.
  destruct (calls s) as [| fc1 [| fc2 [| fc3 l]]]; try discriminate.
  inversion H as [[H1 H2]]. csimpl. rewrite H1, H2. reflexivity.
Defined.

End FetchOutcomes.

(** ** buildUrl: what the result keeps of the base *)

Section BuildUrlFacts.
Import Url PyloidFetch.

Lemma is_absolute_spec p :
  is_absolute p = true
  <-> exists rest, p = "http://" +:+ rest \/ p = "https://" +:+ rest.
Proof.
  unfold is_absolute. rewrite orb_true_iff, !startsWith_spec.
  split.
  - intros [[rest H] | [rest H]]; eauto.
  - intros [rest [H | H]]; eauto.
Qed.

Lemma is_absolute_app p x : is_absolute p = true -> is_absolute (p +:+ x) = true.
Proof.
  rewrite !is_absolute_spec. intros [rest [-> | ->]]; exists (rest +:+ x);
    rewrite append_assoc; auto.
Qed.

Lemma buildUrl_absolute base path :
  is_absolute path = true -> buildUrl base path = path.
Proof. unfold buildUrl, is_absolute. intros ->. reflexivity. Qed.

(** X27.  For a path that is not absolute, [buildUrl] only adds to the
    base: the result starts with the whole base.  So with an absolute base
    the result is absolute, and building again from it, with any base,
    changes nothing. *)
Theorem buildUrl_extends_the_base (base path : string) :
  is_absolute path = false ->
  (exists x, buildUrl base path = base +:+ x)
  /\ (is_absolute base = true ->
      is_absolute (buildUrl base path) = true
      /\ forall base', buildUrl base' (buildUrl base path) = buildUrl base path).
Proof.
  intros Hrel.
  assert (exists x, buildUrl base path = base +:+ x) as [x Hx].
  { unfold buildUrl. unfold is_absolute in Hrel. rewrite Hrel.
    destruct (replace_trailing_slash_spec base) as [(b & -> & ->) | (_ & ->)].
    - exists (replace_leading_slash path). rewrite append_assoc. reflexivity.
    - eauto. }
  split; [eauto |]. intros Hb.
  assert (is_absolute (buildUrl base path) = true) as Habs
    by (rewrite Hx; apply is_absolute_app, Hb).
  split; [exact Habs |]. intros base'. apply buildUrl_absolute, Habs.
Qed.

Lemma buildUrl_extends_the_base_witness :
  is_absolute "/a/b" = false
  /\ (exists x, buildUrl "http://x/" "/a/b" = "http://x/" +:+ x)
  /\ buildUrl "http://other" (buildUrl "http://x/" "/a/b")
     = buildUrl "http://x/" "/a/b".
Proof.
  destruct (buildUrl_extends_the_base "http://x/" "/a/b" eq_refl) as [H1 H2].
  exact (conj eq_refl (conj H1 (proj2 (H2 eq_refl) "http://other"))).
Defined.

End BuildUrlFacts.

(** ** Progress of the enhanced fetch *)

Section FetchProgress.
Import Async PyloidFetch PyloidFetchStatus Delivery.

(** With the cache filled, the continuation of the wait returns. *)
Lemma wake_returns i c s fc v :
  inv s -> cached c s = Some v -> v <> "" -> calls s !! i = Some fc ->
  exists fc',
    calls (wake i c s) !! i = Some fc'
    /\ progress c fc' = Returned
    /\ (forall c', c' <> c -> progress c' fc' = progress c' fc)
    /\ rejection fc' = rejection fc /\ outcome fc' = outcome fc
    /\ url fc' = url fc /\ options fc' = options fc.
Proof.
  intros [Hs Hcalls] Hv Hne Hi.
  assert (fc ∈ calls s) as Hfc by (apply list_elem_of_lookup; eauto).
  destruct (Hcalls fc Hfc) as [Hprog _]. specialize (Hprog c).
  destruct (cache_ok_cached c s v (proj1 Hs c) Hv) as (r & Hr & Hp & _).
  assert (JS.falsy_str (Some v) = false) as Hf by (apply falsy_str_Some, Hne).
  unfold wake. rewrite Hi.
  destruct (progress c fc) as [r' | | m] eqn:Hpr; simpl in Hprog.
  - rewrite Hr in Hprog. inversion Hprog; subst r'. rewrite Hp.
    unfold after_await. rewrite Hv, Hf. simpl.
    assert (i < length (calls s)) as Hlt by (eapply lookup_lt_Some; eauto).
    rewrite list_lookup_insert_eq by exact Hlt.
    eexists. split; [reflexivity |].
    split; [apply progress_finish_same |].
    split; [intros c' Hc'; apply progress_finish_other, Hc' |].
    destruct c; simpl; destruct (rejection fc); auto.
  - exists fc. rewrite Hi. auto 10.
  - exfalso. destruct Hprog as (r' & Hr' & [Hrej | (_ & v' & Hful & Hfv)]);
      rewrite Hr in Hr'; inversion Hr'; subst r'.
    + rewrite Hp in Hrej. discriminate.
    + rewrite Hp in Hful. inversion Hful; subst v'.
      simpl in Hf, Hfv. congruence.
Qed.

(** X28.  Once both caches hold a non-empty value, no [fetch] call is
    stuck or lost: whenever it was made, running its continuations hands
    to the platform the URL built from the cached base and its own path,
    with its own options and the cached window id in the
    [X-Pyloid-Window-Id] header. *)
Theorem fetch_completes_once_resolved (es : list Event) (i : nat)
    (fc0 : FetchCall) (base w : string) :
  let s := run init es in
  calls s !! i = Some fc0 ->
  serverUrl s = Some base -> base <> "" ->
  windowId s = Some w -> w <> "" ->
  let s' := run s [Wake i ServerUrl; Wake i WindowId; Continue i] in
  exists fc,
    calls s' !! i = Some fc
    /\ outcome fc
       = Some (inr {| completeUrl := Url.buildUrl base (url fc0);
                      enhancedOptions :=
                        {| enhanced_headers :=
                             <[session_header := Text w]>
                               (spread (headers (options fc0)));
                           enhanced_others := others (options fc0) |} |}).
Proof.
  intros s Hi Hb Hbne Hw Hwne s'.
  pose proof (reachable_inv es) as Hinv. fold s in Hinv.
  set (s1 := wake i ServerUrl s).
  set (s2 := wake i WindowId s1).
  assert (s' = continue i s2) as Hs' by reflexivity.
  destruct (wake_inv i ServerUrl s Hinv) as [Hinv1 (_ & Hk1 & _)].
  fold s1 in Hinv1, Hk1.
  destruct (wake_inv i WindowId s1 Hinv1) as [Hinv2 (_ & Hk2 & _)].
  fold s2 in Hinv2, Hk2.
  destruct (wake_returns i ServerUrl s fc0 base Hinv Hb Hbne Hi)
    as (fc1 & Hi1 & Hp1 & _ & Hr1 & Ho1 & Hu1 & Hop1).
  fold s1 in Hi1.
  pose proof (Hk1 WindowId w Hw) as Hw1.
  destruct (wake_returns i WindowId s1 fc1 w Hinv1 Hw1 Hwne Hi1)
    as (fc2 & Hi2 & Hp2 & Hoth & Hr2 & Ho2 & Hu2 & Hop2).
  fold s2 in Hi2.
  assert (ensureServerUrl fc2 = Returned) as HS
    by (rewrite <- Hp1; apply (Hoth ServerUrl); discriminate).
  assert (ensureWindowId fc2 = Returned) as HW by exact Hp2.
  pose proof (Hk2 ServerUrl base (Hk1 ServerUrl base Hb)) as Hb2.
  pose proof (Hk2 WindowId w Hw1) as Hw2. simpl in Hb2, Hw2.
  assert (fc2 ∈ calls s2) as Hfc2 by (apply list_elem_of_lookup; eauto).
  assert (s2 = run init (es ++ [Wake i ServerUrl; Wake i WindowId])) as Hrun
    by (unfold s2, s1, s, run; rewrite fold_left_app; reflexivity).
  destruct (reachable_decided (es ++ [Wake i ServerUrl; Wake i WindowId]) fc2)
    as [Hdec Hrej]; [rewrite <- Hrun; exact Hfc2 |].
  assert (rejection fc2 = None) as Hnone.
  { unfold rejected_by in Hrej. destruct (rejection fc2) as [m |]; [| reflexivity].
    destruct Hrej as [[|] Hc]; simpl in Hc; congruence. }
  assert (i < length (calls s2)) as Hlt by (eapply lookup_lt_Some; eauto).
  rewrite Hs'. unfold continue. rewrite Hi2.
  destruct (outcome fc2) as [[m | q] |] eqn:Hout.
  - unfold decided in Hdec. rewrite Hout in Hdec. congruence.
  - exists fc2. split; [exact Hi2 |]. rewrite Hout.
    destruct (proj2 Hinv2 fc2 Hfc2) as [_ Hok]. unfold outcome_ok in Hok.
    rewrite Hout in Hok. destruct Hok as (b' & w' & Hb' & Hw' & _ & ->).
    rewrite Hb2 in Hb'. rewrite Hw2 in Hw'. inversion Hb'. inversion Hw'.
    subst b' w'. rewrite Hu2, Hu1, Hop2, Hop1. reflexivity.
  - rewrite Hnone, HS, HW. simpl.
    rewrite list_lookup_insert_eq by exact Hlt.
    eexists. split; [reflexivity |]. simpl.
    unfold request, enhance. rewrite Hb2, Hw2, Hu2, Hu1, Hop2, Hop1.
    reflexivity.
Qed.

Lemma fetch_completes_once_resolved_witness :
  let o := {| headers := None; others := ∅ |} in
  let s := run init [Fetch "/a" o; Fetch "b" o; Answer 0 (Ok "http://x");
                     Answer 0 (Ok "w-1")] in
  let s' := run s [Wake 1 ServerUrl; Wake 1 WindowId; Continue 1] in
  exists fc,
    calls s' !! 1 = Some fc
    /\ outcome fc
       = Some (inr {| completeUrl := "http://x/b";
                      enhancedOptions :=
                        {| enhanced_headers :=
                             {[ session_header := Text "w-1" ]};
                           enhanced_others := ∅ |} |}).
Proof.
  intros o s s'.
  assert ("http://x" <> "") as Hb by discriminate.
  assert ("w-1" <> "") as Hw by discriminate.
  exact (fetch_completes_once_resolved
           [Fetch "/a" o; Fetch "b" o; Answer 0 (Ok "http://x");
            Answer 0 (Ok "w-1")] 1
           {| url := "b"; options := o; ensureServerUrl := Awaiting 0;
              ensureWindowId := Awaiting 1; rejection := None;
              outcome := None |}
           "http://x" "w-1" eq_refl eq_refl Hb eq_refl Hw).
Defined.

End FetchProgress.

(** ** Progress of the RPC client *)

Section RpcProgress.
Import Async RpcClient Delivery.

(** X29.  Once a client holds a non-empty endpoint and the window id, no
    call is stuck or lost: whenever it was made, running its continuations
    brings it to the platform [fetch] (or it is there already), with a
    request for its own method sent to the endpoint; the envelope carries
    the window id, unless the call had posted before the window id was
    known, without waiting, with [id] null. *)
Theorem rpc_call_completes_once_resolved (i0 : option string)
    (es : list Event) (j : nat) (c0 : RpcCall) (url wid : string) :
  let s := run (constructor i0) es in
  calls s !! j = Some c0 ->
  endpoint s = Some url -> url <> "" -> windowId s = Some wid ->
  let s' := run s [Wake j; Wake j] in
  exists c q,
    calls s' !! j = Some c
    /\ (stage c = Posting \/ exists r, stage c = Settled r)
    /\ posted c = Some q
    /\ target q = url
    /\ method (body q) = call_method c0
    /\ (id (body q) = Some wid \/ (id (body q) = None /\ waited c0 = false))
    /\ (posted c0 = None -> id (body q) = Some wid).
Proof.
  intros s Hj He Hne Hw s'.
  assert (JS.falsy_str (Some url) = false) as Hf by (apply falsy_str_Some, Hne).
  assert (c0 ∈ calls s) as Hc0 by (apply list_elem_of_lookup; eauto).
  assert (j < length (calls s)) as Hlt by (eapply lookup_lt_Some; eauto).
  destruct (rpc_reachable i0 es) as [Hinv | (e & Hex)];
    fold s in Hinv || fold s in Hex;
    [| destruct Hex as (_ & _ & Hwn & _); congruence].
  destruct Hinv as (Hl & _ & Hcalls).
  destruct (Hcalls c0 Hc0) as [Hso Hpo].
  assert (exists r, endpointPromise s = Some r
                    /\ promises s !! r = Some (Fulfilled url))
    as (r & Hr & Hp).
  { unfold lazy_ok in Hl. destruct (endpointPromise s) as [r |].
    - exists r. split; [reflexivity |]. destruct Hl as [_ Hl].
      destruct (promises s !! r) as [[| v | m] |]; try contradiction.
      + destruct Hl as (Hwn & _). congruence.
      + destruct Hl as (_ & Hv & _). congruence.
      + destruct Hl as (_ & Hwn & _). congruence.
    - destruct Hl as (_ & Hwn & _). congruence. }
  assert (forall m, ~ failed_with s m) as Hnofail.
  { intros m (r' & Hr' & [Hrej | (_ & v & Hful & Hfv)]);
      rewrite Hr in Hr'; inversion Hr'; subst r'.
    - rewrite Hp in Hrej. discriminate.
    - rewrite Hp in Hful. inversion Hful; subst v. congruence. }
  assert (forall q, posted c0 = Some q ->
            target q = url /\ method (body q) = call_method c0
            /\ (id (body q) = Some wid
                \/ (id (body q) = None /\ waited c0 = false))) as Hold.
  { intros q Hq. destruct (Hpo q Hq) as (_ & Hm & _ & _ & Ht & Hid & Hwt).
    rewrite He in Ht. inversion Ht. split; [reflexivity |].
    split; [exact Hm |]. rewrite Hw in Hid, Hwt.
    destruct Hid as [Hid | Hid]; [| auto].
    right. split; [exact Hid |]. destruct (waited c0); [| reflexivity].
    destruct (Hwt eq_refl) as [Hid' _]. congruence. }
  assert (forall cs, post (call_method c0) (call_params c0) (with_calls cs s)
                     = post (call_method c0) (call_params c0) s) as Hpost
    by reflexivity.
  assert (target (post (call_method c0) (call_params c0) s) = url
          /\ method (body (post (call_method c0) (call_params c0) s))
             = call_method c0
          /\ id (body (post (call_method c0) (call_params c0) s)) = Some wid)
    as (Ht & Hm & Hid).
  { unfold post. simpl. rewrite He, Hw. auto. }
  unfold s'. simpl. unfold stage_ok in Hso.
  destruct (stage c0) as [[r' | | m] | | r0] eqn:Hst.
  - destruct Hso as (Hr' & _ & Hnp). rewrite Hr in Hr'. inversion Hr'; subst r'.
    unfold wake at 2. rewrite Hj, Hst, Hp. unfold after_await. rewrite He, Hf.
    unfold wake. simpl. rewrite list_lookup_insert_eq by exact Hlt. simpl.
    rewrite list_lookup_insert_eq by (rewrite length_insert; exact Hlt).
    eexists _, _. split; [reflexivity |]. simpl.
    split; [auto |]. split; [reflexivity |]. rewrite Hpost. auto.
  - destruct Hso as (Hnp & _).
    unfold wake at 2. rewrite Hj, Hst.
    unfold wake. simpl. rewrite list_lookup_insert_eq by exact Hlt. simpl.
    rewrite list_lookup_insert_eq by exact Hlt.
    eexists _, _. split; [reflexivity |]. simpl.
    split; [auto |]. split; [reflexivity |]. auto.
  - exfalso. destruct Hso as (_ & _ & Hfail). exact (Hnofail m Hfail).
  - destruct Hso as [q Hq]. destruct (Hold q Hq) as (A & B & C).
    unfold wake at 2. rewrite Hj, Hst. unfold wake. rewrite Hj, Hst.
    exists c0, q. rewrite Hst. split; [exact Hj |]. split; [auto |].
    split; [exact Hq |]. split; [exact A |]. split; [exact B |].
    split; [exact C |]. intros Hn. congruence.
  - destruct (posted c0) as [q |] eqn:Hq.
    + destruct (Hold q eq_refl) as (A & B & C).
      unfold wake at 2. rewrite Hj, Hst. unfold wake. rewrite Hj, Hst.
      exists c0, q. rewrite Hst. split; [exact Hj |]. split; [eauto |].
      split; [exact Hq |]. split; [exact A |]. split; [exact B |].
      split; [exact C |]. discriminate.
    + exfalso. destruct (Hso eq_refl) as (_ & m & _ & Hfail).
      exact (Hnofail m Hfail).
Qed.

Lemma rpc_call_completes_once_resolved_witness :
  let s := run (constructor None)
             [Call "a" None; Call "b" (Some (JS.VNum 1));
              Answer 0 (Ok "http://h"); Answer 0 (Ok "w-1")] in
  let s' := run s [Wake 1; Wake 1] in
  exists c q,
    calls s' !! 1 = Some c /\ posted c = Some q
    /\ target q = "http://h" /\ id (body q) = Some "w-1".
Proof.
  intros s s'.
  assert ("http://h" <> "") as Hne by discriminate.
  destruct (rpc_call_completes_once_resolved None
              [Call "a" None; Call "b" (Some (JS.VNum 1));
               Answer 0 (Ok "http://h"); Answer 0 (Ok "w-1")] 1
              {| call_method := "b"; call_params := Some (JS.VNum 1);
                 waited := true; stage := Ensuring (Awaiting 0);
                 posted := None |}
              "http://h" "w-1" eq_refl eq_refl Hne eq_refl)
    as (c & q & H1 & _ & H3 & H4 & _ & _ & H7).
  exists c, q.
  exact (conj H1 (conj H3 (conj H4 (H7 eq_refl)))).
Defined.

End RpcProgress.

(** ** The history of a call *)

Section RpcHistory.
Import Async RpcClient.

Lemma rpc_run_app s es1 es2 : run s (es1 ++ es2) = run (run s es1) es2.
Proof. unfold run. apply fold_left_app. Qed.

Lemma ensure_calls s :
  calls (ensureEndpointInitialized s).2 = calls s.
Proof.
  unfold ensureEndpointInitialized.
  destruct (JS.falsy_str (endpoint s)); [| reflexivity].
  destruct (endpointPromise s); reflexivity.
Qed.

Lemma call_calls m p s :
  calls (call m p s)
  = calls s ++
      [{| call_method := m; call_params := p;
          waited := JS.falsy_str (endpoint s);
          stage := Ensuring (ensureEndpointInitialized s).1;
          posted := None |}].
Proof.
  unfold call. pose proof (ensure_calls s) as Hc.
  unfold ensureEndpointInitialized in *.
  destruct (JS.falsy_str (endpoint s)); [| reflexivity].
  destruct (endpointPromise s); reflexivity.
Qed.

Lemma answer_calls k a s : calls (answer k a s) = calls s.
Proof.
  unfold answer. destruct (inflight s !! k) as [h |]; [| reflexivity].
  destruct h, a; reflexivity.
Qed.

(** A call keeps its place, its arguments and its [waited] mark. *)
Lemma step_keeps_call s ev j c :
  calls s !! j = Some c ->
  exists c', calls (step s ev) !! j = Some c'
    /\ call_method c' = call_method c /\ call_params c' = call_params c
    /\ waited c' = waited c.
Proof.
  intros Hj.
  assert (forall k c0 c1,
            calls s !! k = Some c0 ->
            call_method c1 = call_method c0 ->
            call_params c1 = call_params c0 -> waited c1 = waited c0 ->
            exists c', <[k := c1]> (calls s) !! j = Some c'
              /\ call_method c' = call_method c
              /\ call_params c' = call_params c /\ waited c' = waited c)
    as Hins.
  { intros k c0 c1 Hk H1 H2 H3. destruct (decide (k = j)) as [-> | Hne].
    - rewrite Hj in Hk. inversion Hk; subst c0.
      rewrite list_lookup_insert_eq by (eapply lookup_lt_Some; eauto).
      eauto.
    - rewrite list_lookup_insert_ne by exact Hne. eauto. }
  destruct ev as [m p | k a | i | i t]; simpl.
  - rewrite call_calls. exists c. split; [| auto].
    apply lookup_app_l_Some. exact Hj.
  - rewrite answer_calls. eauto.
  - unfold wake. destruct (calls s !! i) as [c0 |] eqn:Hi; [| eauto].
    destruct (stage c0) as [[r | | x] | |]; eauto; simpl.
    + destruct (promises s !! r) as [pp |]; [| eauto].
      destruct (after_await pp s); [| eauto]. simpl.
      apply (Hins i c0); auto.
    + apply (Hins i c0); auto.
    + apply (Hins i c0); auto.
  - unfold respond. destruct (calls s !! i) as [c0 |] eqn:Hi; [| eauto].
    destruct (stage c0); eauto. simpl. apply (Hins i c0); auto.
Qed.

Lemma run_keeps_call es : forall s j c,
  calls s !! j = Some c ->
  exists c', calls (run s es) !! j = Some c'
    /\ call_method c' = call_method c /\ call_params c' = call_params c
    /\ waited c' = waited c.
Proof.
  induction es as [| ev es IH]; intros s j c Hj; [simpl; eauto |].
  simpl. destruct (step_keeps_call s ev j c Hj) as (c1 & H1 & A & B & C).
  destruct (IH _ j c1 H1) as (c2 & H2 & A' & B' & C').
  exists c2. split; [exact H2 |]. split; [congruence |].
  split; congruence.
Qed.

(** Every request handed to the platform is the one [call] builds. *)
Lemma step_posts s ev :
  (forall c q, c ∈ calls s -> posted c = Some q ->
     exists s0, q = post (call_method c) (call_params c) s0) ->
  forall c q, c ∈ calls (step s ev) -> posted c = Some q ->
    exists s0, q = post (call_method c) (call_params c) s0.
Proof.
  intros H.
  assert (forall k c0 st c q,
            calls s !! k = Some c0 ->
            c ∈ <[k := with_stage st c0]> (calls s) -> posted c = Some q ->
            exists s0, q = post (call_method c) (call_params c) s0) as Hst.
  { intros k c0 st c q Hk Hin Hq.
    apply elem_of_insert_inv in Hin as [-> | Hin]; [| exact (H c q Hin Hq)].
    simpl in *. apply (H c0 q); [| exact Hq].
    apply list_elem_of_lookup. eauto. }
  destruct ev as [m p | k a | i | i t]; simpl.
  - rewrite call_calls. intros c q Hin Hq.
    apply elem_of_app in Hin as [Hin | Hin]; [exact (H c q Hin Hq) |].
    apply list_elem_of_singleton in Hin. subst c. discriminate.
  - rewrite answer_calls. exact H.
  - unfold wake. destruct (calls s !! i) as [c0 |] eqn:Hi; [| exact H].
    destruct (stage c0) as [[r | | x] | |]; try exact H; simpl.
    + destruct (promises s !! r) as [pp |]; [| exact H].
      destruct (after_await pp s); [| exact H]. simpl.
      intros c q. apply (Hst i c0). exact Hi.
    + intros c q Hin Hq.
      apply elem_of_insert_inv in Hin as [-> | Hin]; [| exact (H c q Hin Hq)].
      simpl in Hq. inversion Hq. simpl. eauto.
    + intros c q. apply (Hst i c0). exact Hi.
  - unfold respond. destruct (calls s !! i) as [c0 |] eqn:Hi; [| exact H].
    destruct (stage c0); try exact H. simpl.
    intros c q. apply (Hst i c0). exact Hi.
Qed.

Lemma reachable_posts i es c q :
  c ∈ calls (run (constructor i) es) -> posted c = Some q ->
  exists s0, q = post (call_method c) (call_params c) s0.
Proof.
  assert (forall c q, c ∈ calls (constructor i) -> posted c = Some q ->
            exists s0, q = post (call_method c) (call_params c) s0) as H0.
  { unfold constructor. destruct (JS.falsy_str i); simpl;
      intros c0 q0 Hc; apply elem_of_nil in Hc; contradiction. }
  revert c q. generalize dependent (constructor i).
  induction es as [| ev es IH]; intros s H0; [exact H0 |].
  simpl. apply IH, step_posts, H0.
Qed.

(** Calls made once the window id is known carry it. *)
Lemma step_carries wid j s ev :
  windowId s = Some wid ->
  (forall n c q, j <= n -> calls s !! n = Some c -> posted c = Some q ->
     id (body q) = Some wid) ->
  forall n c q, j <= n -> calls (step s ev) !! n = Some c ->
    posted c = Some q -> id (body q) = Some wid.
Proof.
  intros Hw H.
  assert (forall k c0 st n c q,
            calls s !! k = Some c0 -> j <= n ->
            <[k := with_stage st c0]> (calls s) !! n = Some c ->
            posted c = Some q -> id (body q) = Some wid) as Hst.
  { intros k c0 st n c q Hk Hn Hin Hq.
    apply list_lookup_insert_Some in Hin as [(Hkn & Hc & _) | (_ & Hin)].
    - subst n c. simpl in Hq. exact (H k c0 q Hn Hk Hq).
    - exact (H n c q Hn Hin Hq). }
  destruct ev as [m p | k a | i | i t]; simpl.
  - rewrite call_calls. intros n c q Hn Hin Hq.
    apply lookup_app_Some in Hin as [Hin | [_ Hin]];
      [exact (H n c q Hn Hin Hq) |].
    destruct (n - length (calls s)); simpl in Hin; [| discriminate].
    inversion Hin; subst c. discriminate.
  - rewrite answer_calls. exact H.
  - unfold wake. destruct (calls s !! i) as [c0 |] eqn:Hi; [| exact H].
    destruct (stage c0) as [[r | | x] | |]; try exact H; simpl.
    + destruct (promises s !! r) as [pp |]; [| exact H].
      destruct (after_await pp s); [| exact H]. simpl.
      intros n c q. apply (Hst i c0). exact Hi.
    + intros n c q Hn Hin Hq.
      apply list_lookup_insert_Some in Hin as [(Hkn & Hc & _) | (_ & Hin)].
      * subst n c. simpl in Hq. inversion Hq. simpl. exact Hw.
      * exact (H n c q Hn Hin Hq).
    + intros n c q. apply (Hst i c0). exact Hi.
  - unfold respond. destruct (calls s !! i) as [c0 |] eqn:Hi; [| exact H].
    destruct (stage c0); try exact H. simpl.
    intros n c q. apply (Hst i c0). exact Hi.
Qed.

Lemma run_carries wid j es : forall s,
  inv s -> windowId s = Some wid ->
  (forall n c q, j <= n -> calls s !! n = Some c -> posted c = Some q ->
     id (body q) = Some wid) ->
  forall n c q, j <= n -> calls (run s es) !! n = Some c ->
    posted c = Some q -> id (body q) = Some wid.
Proof.
  induction es as [| ev es IH]; intros s Hinv Hw H; [exact H |].
  simpl. destruct (rpc_step_inv s ev Hinv) as [Hinv' (_ & _ & Hkeep & _)].
  apply IH; [exact Hinv' | exact (Hkeep wid Hw) |].
  apply step_carries; assumption.
Qed.

End RpcHistory.

(** ** Single flight: the three lazily resolved caches *)

Section RpcFlight.
Import Async RpcClient.

(** A client that has no endpoint yet: a call stores the promise of the one
    resolution, or finds it stored, and waits for it. *)
Lemma rpc_call_unresolved i es m p :
  let s := run (constructor i) es in
  JS.falsy_str (endpoint s) = true ->
  exists r,
    calls (call m p s)
    = calls s ++ [{| call_method := m; call_params := p; waited := true;
                     stage := Ensuring (Awaiting r); posted := None |}]
    /\ (forall r0, endpointPromise s = Some r0 ->
          r0 = r /\ getServerUrl_calls s = 1
          /\ call m p s = with_calls (calls (call m p s)) s)
    /\ (endpointPromise s = None ->
          r = length (promises s)
          /\ call m p s
             = {| endpoint := endpoint s; endpointPromise := Some r;
                  windowId := None; promises := promises s ++ [Pending];
                  getServerUrl_calls := 1; getWindowId_calls := 0;
                  inflight := [AskServerUrl r];
                  calls := calls (call m p s) |}).
Proof.
  intros s Hf.
  destruct (rpc_reachable i es) as [(Hl & _) | (e & He)];
    fold s in Hl || fold s in He;
    [| destruct He as (He & Hfe & _); rewrite He, Hfe in Hf; discriminate].
  unfold lazy_ok in Hl. unfold call, ensureEndpointInitialized.
  rewrite Hf. destruct (endpointPromise s) as [r0 |] eqn:Hp.
  - exists r0. simpl. split; [reflexivity |]. split; [| discriminate].
    intros r1 Hr1. inversion Hr1; subst r1. destruct Hl as [Hn _].
    split; [reflexivity |]. split; [exact Hn | reflexivity].
  - destruct Hl as (He & Hw & H1 & H2 & Hfl).
    exists (length (promises s)).
    unfold initializeEndpoint, alloc. simpl.
    split; [reflexivity |]. split; [discriminate |]. intros _.
    split; [reflexivity |].
    rewrite Hw, H1, H2, Hfl. reflexivity.
Qed.

(** The host's two answers, on a client that is waiting for them. *)
Lemma rpc_answer_url i es k r url :
  let s := run (constructor i) es in
  inflight s !! k = Some (AskServerUrl r) ->
  promises s !! r = Some Pending
  /\ answer k (Ok url) s
     = {| endpoint := Some url; endpointPromise := Some r;
          windowId := None; promises := promises s;
          getServerUrl_calls := 1; getWindowId_calls := 1;
          inflight := [AskWindowId r url]; calls := calls s |}.
Proof.
  intros s Hk.
  assert (AskServerUrl r ∈ inflight s) as Hin
    by (apply list_elem_of_lookup; eauto).
  destruct (rpc_inflight_cases i es _ Hin)
    as (_ & r0 & Hp & Hpend & Hw & Hn1
        & [(Hh & Hfl & He & Hn2) | (u & Hh & _)]); [| discriminate].
  fold s in Hp, Hpend, Hw, Hn1, Hfl, He, Hn2. inversion Hh; subst r0.
  split; [exact Hpend |].
  assert (k = 0) as ->
    by (rewrite Hfl in Hk; destruct k; [reflexivity | discriminate]).
  unfold answer. rewrite Hfl. simpl. rewrite Hp, Hw, Hn1, Hn2.
  reflexivity.
Qed.

Lemma rpc_answer_id i es k r url wid :
  let s := run (constructor i) es in
  inflight s !! k = Some (AskWindowId r url) ->
  promises s !! r = Some Pending
  /\ answer k (Ok wid) s
     = {| endpoint := Some url; endpointPromise := Some r;
          windowId := Some wid;
          promises := <[r := Fulfilled url]> (promises s);
          getServerUrl_calls := 1; getWindowId_calls := 1;
          inflight := []; calls := calls s |}.
Proof.
  intros s Hk.
  assert (AskWindowId r url ∈ inflight s) as Hin
    by (apply list_elem_of_lookup; eauto).
  destruct (rpc_inflight_cases i es _ Hin)
    as (_ & r0 & Hp & Hpend & Hw & Hn1
        & [(Hh & _) | (u & Hh & Hfl & He & Hn2)]); [discriminate |].
  fold s in Hp, Hpend, Hw, Hn1, Hfl, He, Hn2. inversion Hh; subst r0 u.
  split; [exact Hpend |].
  assert (k = 0) as ->
    by (rewrite Hfl in Hk; destruct k; [reflexivity | discriminate]).
  unfold answer. rewrite Hfl. simpl.
  rewrite (settle_pending _ _ _ Hpend), Hp, He, Hn1, Hn2.
  reflexivity.
Qed.

(** What a call that found the endpoint missing sees later on. *)
Lemma rpc_waiter_sees i es1 m p es2 :
  let s1 := run (constructor i) es1 in
  let s := run s1 (Call m p :: es2) in
  JS.falsy_str (endpoint s1) = true ->
  exists r c,
    endpointPromise s = Some r /\ getServerUrl_calls s = 1
    /\ (forall r0, endpointPromise s1 = Some r0 -> r0 = r)
    /\ calls s !! length (calls s1) = Some c
    /\ call_method c = m /\ call_params c = p
    /\ (forall r', stage c = Ensuring (Awaiting r') -> r' = r)
    /\ (stage c = Ensuring Returned \/ is_Some (posted c) ->
        exists url wid,
          promises s !! r = Some (Fulfilled url)
          /\ endpoint s = Some url /\ windowId s = Some wid
          /\ forall q, posted c = Some q ->
               target q = url /\ id (body q) = Some wid).
Proof.
  intros s1 s Hf.
  destruct (rpc_reachable i es1) as [Hinv1 | (e & He)];
    fold s1 in Hinv1 || fold s1 in He;
    [| destruct He as (He & Hfe & _); rewrite He, Hfe in Hf; discriminate].
  destruct (rpc_call_inv m p s1 Hinv1) as [Hinv2 Hst2].
  destruct (rpc_run_inv (call m p s1) es2 Hinv2) as [Hinv Hst].
  change (run (call m p s1) es2) with s in Hinv, Hst.
  pose proof (rpc_stable_trans _ _ _ Hst2 Hst) as (Hkeep & _).
  set (c0 := {| call_method := m; call_params := p;
                waited := JS.falsy_str (endpoint s1);
                stage := Ensuring (ensureEndpointInitialized s1).1;
                posted := None |}).
  assert (calls (call m p s1) !! length (calls s1) = Some c0) as H0.
  { rewrite call_calls, lookup_app_r, Nat.sub_diag by lia. reflexivity. }
  destruct (run_keeps_call es2 (call m p s1) _ c0 H0)
    as (c & Hj & Hm & Hp & Hw).
  change (run (call m p s1) es2) with s in Hj.
  simpl in Hw. rewrite Hf in Hw.
  assert (c ∈ calls s) as Hc by (apply list_elem_of_lookup; eauto).
  destruct Hinv as (Hl & Hne & Hcalls).
  assert (calls s <> []) as Hnonempty
    by (intros E; rewrite E in Hc; apply elem_of_nil in Hc; exact Hc).
  destruct (Hne Hnonempty) as [r Hr].
  destruct (Hcalls c Hc) as [Hso Hpo].
  unfold lazy_ok in Hl. rewrite Hr in Hl. destruct Hl as [Hn1 Hl].
  exists r, c. split; [exact Hr |]. split; [exact Hn1 |].
  split; [intros r0 Hr0; specialize (Hkeep r0 Hr0); congruence |].
  split; [exact Hj |]. split; [exact Hm |]. split; [exact Hp |].
  split.
  - intros r' Hst'. unfold stage_ok in Hso. rewrite Hst' in Hso.
    destruct Hso as (Hr' & _). congruence.
  - intros Hcase.
    assert (is_Some (windowId s)
            /\ forall q, posted c = Some q ->
                 Some (target q) = endpoint s /\ id (body q) = windowId s)
      as [[wid Hwid] Hq].
    { destruct Hcase as [Hret | [q Hq]].
      - unfold stage_ok in Hso. rewrite Hret in Hso.
        destruct Hso as (Hnone & _ & Hws). split; [exact (Hws Hw) |].
        intros q Hq. congruence.
      - destruct (Hpo q Hq) as (_ & _ & _ & _ & _ & _ & Hid).
        destruct (Hid Hw) as [_ Hsome]. split; [exact Hsome |].
        intros q' Hq'.
        destruct (Hpo q' Hq') as (_ & _ & _ & _ & Ht & _ & Hid').
        destruct (Hid' Hw) as [Hid'' _]. auto. }
    destruct (promises s !! r) as [[| url | x] |]; try contradiction.
    + destruct Hl as (Hnone & _). congruence.
    + destruct Hl as (_ & He & _). exists url, wid.
      split; [reflexivity |]. split; [exact He |]. split; [exact Hwid |].
      intros q Hq'. destruct (Hq q Hq') as [Ht Hid].
      rewrite He in Ht. inversion Ht. split; [reflexivity | congruence].
    + destruct Hl as (_ & Hnone & _). congruence.
Qed.

(** The continuation of the wait. *)
Lemma rpc_wake_waiting i es j c r :
  let s := run (constructor i) es in
  calls s !! j = Some c -> stage c = Ensuring (Awaiting r) ->
  (promises s !! r = Some Pending -> wake j s = s)
  /\ (forall url, promises s !! r = Some (Fulfilled url) -> url <> "" ->
        endpoint s = Some url
        /\ wake j s
           = with_calls
               (<[j := {| call_method := call_method c;
                          call_params := call_params c;
                          waited := waited c; stage := Ensuring Returned;
                          posted := posted c |}]> (calls s)) s).
Proof.
  intros s Hj Hst.
  assert (c ∈ calls s) as Hc by (apply list_elem_of_lookup; eauto).
  split.
  - intros Hp. unfold wake. rewrite Hj, Hst, Hp. reflexivity.
  - intros url Hp Hne.
    assert (endpoint s = Some url) as He.
    { destruct (rpc_reachable i es) as [(Hl & _ & Hcalls) | (e & He)];
        fold s in Hl, Hcalls || fold s in He.
      - destruct (Hcalls c Hc) as [Hso _]. unfold stage_ok in Hso.
        rewrite Hst in Hso. destruct Hso as (Hr & _).
        unfold lazy_ok in Hl. rewrite Hr, Hp in Hl.
        destruct Hl as (_ & _ & He & _). exact He.
      - destruct He as (_ & _ & _ & _ & _ & _ & Hcalls).
        destruct (Hcalls c Hc) as (_ & Hna & _). destruct (Hna r Hst). }
    split; [exact He |].
    unfold wake. rewrite Hj, Hst, Hp. unfold after_await. rewrite He.
    apply falsy_str_Some in Hne. rewrite Hne. reflexivity.
Qed.

End RpcFlight.

Section FetchFlight.
Import Async PyloidFetch.

Lemma fetch_run_app s es1 es2 : run s (es1 ++ es2) = run (run s es1) es2.
Proof. unfold run. apply fold_left_app. Qed.

(** What [ensure...Initialized] does to the state, cache by cache. *)
Lemma ensure_shape c s :
  (JS.falsy_str (cached c s) = false ->
   ensureInitialized c s = (Returned, s))
  /\ (forall r, JS.falsy_str (cached c s) = true -> stored c s = Some r ->
        ensureInitialized c s = (Awaiting r, s))
  /\ (JS.falsy_str (cached c s) = true -> stored c s = None ->
      exists s',
        ensureInitialized c s = (Awaiting (length (promises s)), s')
        /\ stored c s' = Some (length (promises s))
        /\ promises s' = promises s ++ [Pending]
        /\ inflight s' = inflight s ++ [(c, length (promises s))]
        /\ host_calls c s' = S (host_calls c s)
        /\ calls s' = calls s
        /\ (forall c', cached c' s' = cached c' s)
        /\ (forall c', c' <> c ->
              stored c' s' = stored c' s
              /\ host_calls c' s' = host_calls c' s)).
Proof.
  unfold ensureInitialized. split; [| split].
  - intros ->. reflexivity.
  - intros r -> ->. reflexivity.
  - intros -> ->. unfold initialize, alloc.
    destruct c; simpl; eexists; (split; [reflexivity |]); simpl;
      (split; [reflexivity |]); (split; [reflexivity |]);
      (split; [reflexivity |]); (split; [reflexivity |]);
      (split; [reflexivity |]);
      (split; [intros [|]; reflexivity |]);
      intros [|] Hne; try contradiction; split; reflexivity.
Qed.

(** The other cache is left alone, and nothing is forgotten. *)
Lemma ensure_frame c s :
  let s' := (ensureInitialized c s).2 in
  calls s' = calls s
  /\ (forall c', cached c' s' = cached c' s)
  /\ (forall c', c' <> c ->
        stored c' s' = stored c' s /\ host_calls c' s' = host_calls c' s)
  /\ (forall r x, promises s !! r = Some x -> promises s' !! r = Some x)
  /\ (forall x, x ∈ inflight s -> x ∈ inflight s').
Proof.
  destruct (ensure_shape c s) as (H1 & H2 & H3).
  destruct (JS.falsy_str (cached c s)) eqn:Hf.
  - destruct (stored c s) as [r |] eqn:Hr.
    + rewrite (H2 r eq_refl eq_refl). simpl. auto 10.
    + destruct (H3 eq_refl eq_refl) as (s' & -> & _ & Hp & Hfl & _ & Hc & A & B).
      simpl. split; [exact Hc |]. split; [exact A |]. split; [exact B |].
      split.
      * intros r x Hx. rewrite Hp. apply lookup_app_l_Some. exact Hx.
      * intros x Hx. rewrite Hfl. apply elem_of_app. left. exact Hx.
  - rewrite (H1 eq_refl). simpl. auto 10.
Qed.

Lemma fetch_calls u o s :
  calls (fetch u o s)
  = calls s ++
      [{| url := u; options := o;
          ensureServerUrl := (ensureInitialized ServerUrl s).1;
          ensureWindowId :=
            (ensureInitialized WindowId
               (ensureInitialized ServerUrl s).2).1;
          rejection := None; outcome := None |}].
Proof.
  unfold fetch.
  pose proof (ensure_frame ServerUrl s) as (Hc1 & _).
  pose proof (ensure_frame WindowId (ensureInitialized ServerUrl s).2)
    as (Hc2 & _).
  cbv zeta in Hc1, Hc2.
  destruct (ensureInitialized ServerUrl s) as [p1 s1].
  simpl in Hc1, Hc2 |- *.
  destruct (ensureInitialized WindowId s1) as [p2 s2].
  simpl in Hc2 |- *. rewrite Hc2, Hc1. reflexivity.
Qed.

Lemma fetch_answer_calls k a s : calls (answer k a s) = calls s.
Proof.
  unfold answer. destruct (inflight s !! k) as [[c r] |]; [| reflexivity].
  destruct a; destruct c; reflexivity.
Qed.

(** A call keeps its place and its arguments. *)
Lemma step_keeps_fetch s ev j fc :
  calls s !! j = Some fc ->
  exists fc', calls (step s ev) !! j = Some fc'
    /\ url fc' = url fc /\ options fc' = options fc.
Proof.
  intros Hj.
  assert (forall k fc0 fc1,
            calls s !! k = Some fc0 ->
            url fc1 = url fc0 -> options fc1 = options fc0 ->
            exists fc', <[k := fc1]> (calls s) !! j = Some fc'
              /\ url fc' = url fc /\ options fc' = options fc) as Hins.
  { intros k fc0 fc1 Hk H1 H2. destruct (decide (k = j)) as [-> | Hne].
    - rewrite Hj in Hk. inversion Hk; subst fc0.
      rewrite list_lookup_insert_eq by (eapply lookup_lt_Some; eauto).
      eauto.
    - rewrite list_lookup_insert_ne by exact Hne. eauto. }
  destruct ev as [u o | k a | i c | i]; simpl.
  - rewrite fetch_calls. exists fc. split; [| auto].
    apply lookup_app_l_Some. exact Hj.
  - rewrite fetch_answer_calls. eauto.
  - unfold wake. destruct (calls s !! i) as [fc0 |] eqn:Hi; [| eauto].
    destruct (progress c fc0) as [r | | x]; eauto.
    destruct (promises s !! r) as [pp |]; [| eauto].
    destruct (after_await c pp s); [| eauto]. simpl.
    apply (Hins i fc0); [exact Hi | apply url_finish | apply options_finish].
  - unfold continue. destruct (calls s !! i) as [fc0 |] eqn:Hi; [| eauto].
    destruct (outcome fc0); [eauto |].
    destruct (rejection fc0); simpl.
    + apply (Hins i fc0); auto.
    + destruct (ensureServerUrl fc0); eauto.
      destruct (ensureWindowId fc0); eauto. simpl.
      apply (Hins i fc0); auto.
Qed.

Lemma run_keeps_fetch es : forall s j fc,
  calls s !! j = Some fc ->
  exists fc', calls (run s es) !! j = Some fc'
    /\ url fc' = url fc /\ options fc' = options fc.
Proof.
  induction es as [| ev es IH]; intros s j fc Hj; [simpl; eauto |].
  simpl. destruct (step_keeps_fetch s ev j fc Hj) as (fc1 & H1 & A & B).
  destruct (IH _ j fc1 H1) as (fc2 & H2 & A' & B').
  exists fc2. split; [exact H2 |]. split; congruence.
Qed.

(** A [fetch] call, cache by cache: it waits for the one resolution of a
    cache that is not filled, starting it when there is none; it does not
    wait for a cache that is filled. *)
Lemma fetch_creation es u o :
  let s := run init es in
  let s' := fetch u o s in
  exists fc,
    calls s' = calls s ++ [fc]
    /\ url fc = u /\ options fc = o
    /\ rejection fc = None /\ outcome fc = None
    /\ forall c,
         (JS.falsy_str (cached c s) = true ->
          exists r,
            progress c fc = Awaiting r /\ stored c s' = Some r
            /\ host_calls c s' = 1
            /\ (forall r0, stored c s = Some r0 ->
                  r0 = r /\ host_calls c s = 1
                  /\ forall r', (c, r') ∈ inflight s' -> (c, r') ∈ inflight s)
            /\ (stored c s = None ->
                  host_calls c s = 0 /\ promises s !! r = None
                  /\ promises s' !! r = Some Pending
                  /\ (c, r) ∈ inflight s'))
         /\ (JS.falsy_str (cached c s) = false ->
             progress c fc = Returned /\ stored c s' = stored c s
             /\ host_calls c s' = host_calls c s).
Proof.
  intros s s'.
  pose proof (reachable_inv es) as Hinv. fold s in Hinv.
  destruct Hinv as [Hs _]. pose proof Hs as (Hc & _).
  eexists. split; [apply fetch_calls |]. simpl.
  do 4 (split; [reflexivity |]).
  set (s1 := (ensureInitialized ServerUrl s).2).
  set (s2 := (ensureInitialized WindowId s1).2).
  assert (forall c, stored c s' = stored c s2 /\ host_calls c s' = host_calls c s2
                    /\ promises s' = promises s2
                    /\ inflight s' = inflight s2) as Hs'.
  { intros c. unfold s', fetch, s2, s1.
    destruct (ensureInitialized ServerUrl s) as [p1 t1]. simpl.
    destruct (ensureInitialized WindowId t1) as [p2 t2]. simpl.
    destruct c; auto. }
  pose proof (ensure_frame ServerUrl s) as (_ & A1 & B1 & P1 & I1).
  pose proof (ensure_frame WindowId s1) as (_ & A2 & B2 & P2 & I2).
  fold s1 in A1, B1, P1, I1. fold s2 in A2, B2, P2, I2.
  destruct (ensure_shape ServerUrl s) as (S1 & S2 & S3).
  destruct (ensure_shape WindowId s1) as (W1 & W2 & W3).
  intros c. destruct (Hs' c) as (Est & Eh & Ep & Efl).
  assert (WindowId <> ServerUrl) as Hws by discriminate.
  assert (ServerUrl <> WindowId) as Hsw by discriminate.
  destruct c; simpl progress.
  - (* the server URL *)
    destruct (B2 ServerUrl Hsw) as [Bst Bh].
    split.
    + intros Hf. assert ((exists r0, stored ServerUrl s = Some r0)
         \/ stored ServerUrl s = None) as [[r0 Hr0] | Hr0]
   by (destruct (stored ServerUrl s); eauto).
      * exists r0. rewrite (S2 r0 Hf Hr0). cbn [fst snd].
        assert (s1 = s) as E1 by (unfold s1; rewrite (S2 r0 Hf Hr0); reflexivity).
        split; [reflexivity |].
        split; [rewrite Est, Bst, E1; exact Hr0 |].
        pose proof (cache_ok_stored_Some _ _ _ (Hc ServerUrl) Hr0) as [Hh _].
        split; [rewrite Eh, Bh, E1; exact Hh |].
        split; [| intros Hn; congruence].
        intros r1 Hr1. assert (r1 = r0) as -> by congruence.
        split; [reflexivity |]. split; [exact Hh |].
        intros r' Hin. rewrite Efl in Hin.
        assert (JS.falsy_str (cached WindowId s1) = true
                \/ JS.falsy_str (cached WindowId s1) = false)
          as [Hfw | Hfw]
          by (destruct (JS.falsy_str (cached WindowId s1)); auto).
        -- assert ((exists rw, stored WindowId s1 = Some rw)
                   \/ stored WindowId s1 = None) as [[rw Hrw] | Hrw]
             by (destruct (stored WindowId s1); eauto).
           ++ assert (s2 = s1) as E2
                by (unfold s2; rewrite (W2 rw Hfw Hrw); reflexivity).
              rewrite E2, E1 in Hin. exact Hin.
           ++ destruct (W3 Hfw Hrw) as (t & Ht & _ & _ & Hfl & _).
              assert (s2 = t) as E2 by (unfold s2; rewrite Ht; reflexivity).
              rewrite E2, Hfl in Hin. apply elem_of_app in Hin as [Hin | Hin].
              ** rewrite E1 in Hin. exact Hin.
              ** apply list_elem_of_singleton in Hin. discriminate.
        -- assert (s2 = s1) as E2
             by (unfold s2; rewrite (W1 Hfw); reflexivity).
           rewrite E2, E1 in Hin. exact Hin.
      * destruct (S3 Hf Hr0) as (t & Ht & Hst & Hp & Hfl & Hh & _).
        exists (length (promises s)). rewrite Ht. cbn [fst snd].
        assert (s1 = t) as E1 by (unfold s1; rewrite Ht; reflexivity).
        pose proof (Hc ServerUrl) as Hcc. unfold cache_ok in Hcc.
        rewrite Hr0 in Hcc. destruct Hcc as (_ & Hzero & _).
        split; [reflexivity |].
        split; [rewrite Est, Bst, E1; exact Hst |].
        split; [rewrite Eh, Bh, E1, Hh, Hzero; reflexivity |].
        split; [intros r1 Hr1; congruence |]. intros _.
        split; [exact Hzero |].
        split; [apply lookup_ge_None; lia |].
        split.
        -- rewrite Ep. apply P2. rewrite E1, Hp.
           rewrite lookup_app_r, Nat.sub_diag by lia. reflexivity.
        -- rewrite Efl. apply I2. rewrite E1, Hfl.
           apply elem_of_app. right. left.
    + intros Hf. rewrite (S1 Hf). cbn [fst snd].
      assert (s1 = s) as E1 by (unfold s1; rewrite (S1 Hf); reflexivity).
      split; [reflexivity |].
      split; [rewrite Est, Bst, E1; reflexivity |].
      rewrite Eh, Bh, E1. reflexivity.
  - (* the window id *)
    destruct (B1 WindowId Hws) as [Bst Bh].
    fold s1.
    split.
    + intros Hf. rewrite <- (A1 WindowId) in Hf.
      assert ((exists r0, stored WindowId s1 = Some r0)
              \/ stored WindowId s1 = None) as [[r0 Hr0] | Hr0]
        by (destruct (stored WindowId s1); eauto).
      * exists r0. rewrite (W2 r0 Hf Hr0). cbn [fst snd].
        assert (s2 = s1) as E2 by (unfold s2; rewrite (W2 r0 Hf Hr0); reflexivity).
        rewrite Bst in Hr0.
        pose proof (cache_ok_stored_Some _ _ _ (Hc WindowId) Hr0) as [Hh _].
        split; [reflexivity |].
        split; [rewrite Est, E2, Bst; exact Hr0 |].
        split; [rewrite Eh, E2, Bh; exact Hh |].
        split; [| intros Hn; congruence].
        intros r1 Hr1. assert (r1 = r0) as -> by congruence.
        split; [reflexivity |]. split; [exact Hh |].
        intros r' Hin. rewrite Efl, E2 in Hin.
        assert (JS.falsy_str (cached ServerUrl s) = true
                \/ JS.falsy_str (cached ServerUrl s) = false)
          as [Hfs | Hfs]
          by (destruct (JS.falsy_str (cached ServerUrl s)); auto).
        -- assert ((exists rs, stored ServerUrl s = Some rs)
                   \/ stored ServerUrl s = None) as [[rs Hrs] | Hrs]
             by (destruct (stored ServerUrl s); eauto).
           ++ assert (s1 = s) as E1
                by (unfold s1; rewrite (S2 rs Hfs Hrs); reflexivity).
              rewrite E1 in Hin. exact Hin.
           ++ destruct (S3 Hfs Hrs) as (t & Ht & _ & _ & Hfl & _).
              assert (s1 = t) as E1 by (unfold s1; rewrite Ht; reflexivity).
              rewrite E1, Hfl in Hin. apply elem_of_app in Hin as [Hin | Hin].
              ** exact Hin.
              ** apply list_elem_of_singleton in Hin. discriminate.
        -- assert (s1 = s) as E1
             by (unfold s1; rewrite (S1 Hfs); reflexivity).
           rewrite E1 in Hin. exact Hin.
      * destruct (W3 Hf Hr0) as (t & Ht & Hst & Hp & Hfl & Hh & _).
        exists (length (promises s1)). rewrite Ht. cbn [fst snd].
        assert (s2 = t) as E2 by (unfold s2; rewrite Ht; reflexivity).
        rewrite Bst in Hr0.
        pose proof (Hc WindowId) as Hcc. unfold cache_ok in Hcc.
        rewrite Hr0 in Hcc. destruct Hcc as (_ & Hzero & _).
        split; [reflexivity |].
        split; [rewrite Est, E2; exact Hst |].
        split; [rewrite Eh, E2, Hh, Bh, Hzero; reflexivity |].
        split; [intros r1 Hr1; congruence |]. intros _.
        split; [exact Hzero |].
        split.
        -- destruct (promises s !! length (promises s1)) as [x |] eqn:Hx;
             [| reflexivity].
           apply P1 in Hx. apply lookup_lt_Some in Hx. lia.
        -- split.
           ++ rewrite Ep, E2, Hp.
              rewrite lookup_app_r, Nat.sub_diag by lia. reflexivity.
           ++ rewrite Efl, E2, Hfl. apply elem_of_app. right. left.
    + intros Hf. rewrite <- (A1 WindowId) in Hf. rewrite (W1 Hf). cbn [fst snd].
      assert (s2 = s1) as E2 by (unfold s2; rewrite (W1 Hf); reflexivity).
      split; [reflexivity |].
      split; [rewrite Est, E2, Bst; reflexivity |].
      rewrite Eh, E2, Bh. reflexivity.
Qed.

(** The host's answer fills the cache and settles the one promise, for
    good; every call finds that value. *)
Lemma fetch_answer_value es k c r v es' :
  let s := run init es in
  inflight s !! k = Some (c, r) ->
  let s0 := answer k (Ok v) s in
  let s' := run s0 es' in
  (stored c s = Some r /\ promises s !! r = Some Pending
   /\ cached c s0 = Some v
   /\ promises s0 = <[r := Fulfilled v]> (promises s)
   /\ inflight s0 = delete k (inflight s)
   /\ calls s0 = calls s
   /\ (forall c', stored c' s0 = stored c' s
                  /\ host_calls c' s0 = host_calls c' s)
   /\ (forall c', c' <> c -> cached c' s0 = cached c' s))
  /\ stored c s' = Some r /\ cached c s' = Some v
  /\ promises s' !! r = Some (Fulfilled v) /\ host_calls c s' = 1
  /\ (forall fc, fc ∈ calls s' ->
        progress c fc = Awaiting r
        \/ (progress c fc = Returned /\ v <> "")
        \/ (progress c fc = Thrown (not_initialized c) /\ v = "")).
Proof.
  intros s Hk s0 s'.
  pose proof (reachable_inv es) as Hinv. fold s in Hinv.
  pose proof Hinv as [(Hc & _) _].
  assert ((c, r) ∈ inflight s) as Hin by (apply list_elem_of_lookup; eauto).
  destruct (cache_ok_inflight c s r (Hc c) Hin) as (Hst & Hpend & _).
  assert (cached c s0 = Some v
          /\ promises s0 = <[r := Fulfilled v]> (promises s)
          /\ inflight s0 = delete k (inflight s)
          /\ calls s0 = calls s
          /\ (forall c', stored c' s0 = stored c' s
                         /\ host_calls c' s0 = host_calls c' s)
          /\ (forall c', c' <> c -> cached c' s0 = cached c' s)) as H0.
  { unfold s0, answer. rewrite Hk.
    destruct c; simpl; rewrite (settle_pending _ _ _ Hpend);
      (split; [reflexivity |]); (split; [reflexivity |]);
      (split; [reflexivity |]); (split; [reflexivity |]);
      (split; [intros [|]; split; reflexivity |]);
      intros [|] Hne; try contradiction; reflexivity. }
  split; [exact (conj Hst (conj Hpend H0)) |].
  destruct H0 as (Hv0 & Hp0 & _ & _ & Hst0 & _).
  destruct (answer_inv k (Ok v) s Hinv) as [Hinv0 _]. fold s0 in Hinv0.
  destruct (run_inv s0 es' Hinv0) as [[Hs' Hcalls'] (HkS & HkC & HkP)].
  fold s' in Hs', Hcalls', HkS, HkC, HkP.
  assert (stored c s' = Some r) as Hst'
    by (apply HkS; rewrite (proj1 (Hst0 c)); exact Hst).
  assert (cached c s' = Some v) as Hv' by (apply HkC, Hv0).
  assert (promises s' !! r = Some (Fulfilled v)) as Hp'.
  { apply HkP; [| discriminate]. rewrite Hp0.
    apply list_lookup_insert_eq. eapply lookup_lt_Some; eauto. }
  split; [exact Hst' |]. split; [exact Hv' |]. split; [exact Hp' |].
  split; [exact (proj1 (cache_ok_stored_Some c s' r (proj1 Hs' c) Hst')) |].
  intros fc Hfc. destruct (Hcalls' fc Hfc) as [Hpr _]. specialize (Hpr c).
  destruct (progress c fc) as [r' | | m]; simpl in Hpr.
  - left. congruence.
  - right. left. split; [reflexivity |].
    destruct Hpr as (v' & Hv'' & Hf). rewrite Hv' in Hv''.
    inversion Hv''; subst v'. apply falsy_str_Some, Hf.
  - right. right.
    destruct Hpr as (r' & Hr' & [Hrej | (-> & v' & Hful & Hf)]);
      rewrite Hst' in Hr'; inversion Hr'; subst r'.
    + rewrite Hp' in Hrej. discriminate.
    + rewrite Hp' in Hful. inversion Hful; subst v'.
      split; [reflexivity |]. apply falsy_empty, Hf.
Qed.

(** The continuation of the wait for a cache. *)
Lemma fetch_wake_waiting es i fc c r :
  let s := run init es in
  calls s !! i = Some fc -> progress c fc = Awaiting r ->
  (promises s !! r = Some Pending -> wake i c s = s)
  /\ (forall v, promises s !! r = Some (Fulfilled v) -> v <> "" ->
        cached c s = Some v
        /\ wake i c s
           = with_calls (<[i := finish_ensure c Returned fc]> (calls s)) s).
Proof.
  intros s Hi Hpr.
  assert (fc ∈ calls s) as Hfc by (apply list_elem_of_lookup; eauto).
  split.
  - intros Hp. unfold wake. rewrite Hi, Hpr, Hp. reflexivity.
  - intros v Hp Hne.
    pose proof (reachable_inv es) as [(Hc & _) Hcalls].
    fold s in Hc, Hcalls.
    destruct (Hcalls fc Hfc) as [Hprog _]. specialize (Hprog c).
    rewrite Hpr in Hprog. simpl in Hprog.
    pose proof (Hc c) as Hcc. unfold cache_ok in Hcc.
    rewrite Hprog, Hp in Hcc. destruct Hcc as (_ & Hv & _).
    split; [exact Hv |].
    unfold wake. rewrite Hi, Hpr, Hp. unfold after_await. rewrite Hv.
    apply falsy_str_Some in Hne. rewrite Hne. reflexivity.
Qed.

(** What a [fetch] call sees later on, whenever it was made. *)
Lemma fetch_call_sees es1 u o es2 c :
  let s1 := run init es1 in
  let s := run s1 (Fetch u o :: es2) in
  exists r fc,
    stored c s = Some r /\ host_calls c s = 1
    /\ (forall r0, stored c s1 = Some r0 -> r0 = r)
    /\ calls s !! length (calls s1) = Some fc
    /\ url fc = u /\ options fc = o
    /\ (forall r', progress c fc = Awaiting r' -> r' = r)
    /\ (progress c fc = Returned ->
        exists v, promises s !! r = Some (Fulfilled v)
          /\ cached c s = Some v /\ v <> "").
Proof.
  intros s1 s.
  pose proof (reachable_inv es1) as Hinv1. fold s1 in Hinv1.
  destruct (fetch_inv u o s1 Hinv1) as [Hinv2 Hst2].
  destruct (run_inv (fetch u o s1) es2 Hinv2) as [Hinv Hst].
  change (run (fetch u o s1) es2) with s in Hinv, Hst.
  pose proof (stable_trans _ _ _ Hst2 Hst) as (Hkeep & _).
  assert (exists fc0, calls (fetch u o s1) !! length (calls s1) = Some fc0
                      /\ url fc0 = u /\ options fc0 = o)
    as (fc0 & H0 & Hu0 & Ho0).
  { rewrite fetch_calls, lookup_app_r, Nat.sub_diag by lia.
    eexists. split; [reflexivity |]. split; reflexivity. }
  destruct (run_keeps_fetch es2 (fetch u o s1) _ fc0 H0)
    as (fc & Hj & Hu & Ho).
  change (run (fetch u o s1) es2) with s in Hj.
  assert (fc ∈ calls s) as Hfc by (apply list_elem_of_lookup; eauto).
  destruct Hinv as [Hs Hcalls]. destruct (Hcalls fc Hfc) as [Hprog _].
  specialize (Hprog c).
  destruct (progress_stored c s _ Hs Hprog) as [r Hr].
  exists r, fc. split; [exact Hr |].
  split; [exact (proj1 (cache_ok_stored_Some c s r (proj1 Hs c) Hr)) |].
  split; [intros r0 Hr0; specialize (Hkeep c r0 Hr0); congruence |].
  split; [exact Hj |]. split; [congruence |]. split; [congruence |].
  split.
  - intros r' Hp. rewrite Hp in Hprog. simpl in Hprog. congruence.
  - intros Hp. rewrite Hp in Hprog. destruct Hprog as (v & Hv & Hf).
    destruct (cache_ok_cached c s v (proj1 Hs c) Hv) as (r' & Hr' & Hpv & _).
    exists v. split; [congruence |]. split; [exact Hv |].
    apply falsy_str_Some, Hf.
Qed.

End FetchFlight.

Section RpcResolved.
Import Async RpcClient.

Lemma rpc_call_resolved m p s :
  JS.falsy_str (endpoint s) = false ->
  call m p s
  = with_calls
      (calls s ++ [{| call_method := m; call_params := p; waited := false;
                      stage := Ensuring Returned; posted := None |}]) s.
Proof.
  intros Hf. unfold call, ensureEndpointInitialized. rewrite Hf. reflexivity.
Qed.

(** Once both answers are in, the resolution stands for good. *)
Lemma rpc_resolved_for_good i es k r url wid es' :
  let s := run (constructor i) es in
  inflight s !! k = Some (AskWindowId r url) ->
  let s' := run (answer k (Ok wid) s) es' in
  endpointPromise s' = Some r
  /\ promises s' !! r = Some (Fulfilled url)
  /\ endpoint s' = Some url /\ windowId s' = Some wid
  /\ getServerUrl_calls s' = 1 /\ getWindowId_calls s' = 1
  /\ inflight s' = [].
Proof.
  intros s Hk s'.
  destruct (rpc_answer_id i es k r url wid Hk) as [Hpend H0].
  fold s in Hpend, H0.
  assert (AskWindowId r url ∈ inflight s) as Hin
    by (apply list_elem_of_lookup; eauto).
  destruct (rpc_inflight_cases i es _ Hin) as (Hinv & _). fold s in Hinv.
  destruct (rpc_answer_inv k (Ok wid) s Hinv) as [Hinv0 _].
  destruct (rpc_run_inv (answer k (Ok wid) s) es' Hinv0)
    as [(Hl & _) (HkP & HkE & HkW & HkS)].
  fold s' in Hl, HkP, HkE, HkW, HkS.
  assert (endpointPromise s' = Some r) as Hr'
    by (apply HkP; rewrite H0; reflexivity).
  assert (promises s' !! r = Some (Fulfilled url)) as Hp'.
  { apply HkS; [| discriminate]. rewrite H0. simpl.
    apply list_lookup_insert_eq. eapply lookup_lt_Some; eauto. }
  split; [exact Hr' |]. split; [exact Hp' |].
  split; [apply HkE; rewrite H0; reflexivity |].
  split; [apply HkW; rewrite H0; reflexivity |].
  unfold lazy_ok in Hl. rewrite Hr', Hp' in Hl.
  destruct Hl as (Hn1 & Hfl & _ & Hn2 & _). auto.
Qed.

End RpcResolved.

Section SingleFlight.
Import Async.

(** C3.  Each of the three caches is resolved in a single flight.

    The fetch module, for each of its two caches:
    - in every run the host resolver has been called at most once, and
      exactly once as soon as one [fetch] call was made; every call still
      waiting awaits the promise held in the module variable; every call
      whose wait is over found the value that promise was fulfilled with;
      every request sent was built from the two cached values;
    - a [fetch] call that finds the cache unfilled waits for the stored
      promise; it asks the host only when no promise is stored yet, and
      then stores the new one; a call that finds the cache filled does not
      wait;
    - whatever happens next, the promise a call waits for is the one stored,
      which never changes, and the host has been asked once;
    - the host's answer fills the cache and fulfils that promise, for good;
      every call, whenever made, finds that value;
    - a waiting call stays waiting while the promise is pending, and returns
      once it is fulfilled.

    An [RpcClient]:
    - in every run [getServerUrl] and [getWindowId] have each been called at
      most once; every waiting call awaits the stored promise;
    - a call that finds no endpoint waits for the stored promise; it
      starts the resolution (one [getServerUrl] call) only when no promise
      is stored, and it changes nothing but the list of calls otherwise; a
      call that finds an endpoint does not wait and asks nothing;
    - whatever happens next, a call that found no endpoint waits for the
      one stored promise, and once it goes on it sends to the endpoint this
      promise was fulfilled with, with the window id;
    - the host's first answer is stored as endpoint and followed by the one
      [getWindowId] call; the second is stored as window id and fulfils the
      promise with the endpoint, for good;
    - a waiting call stays waiting while the promise is pending, and
      returns once it is fulfilled. *)
Theorem single_flight_resolution :
  (forall (es : list PyloidFetch.Event) (c : PyloidFetch.Cache),
     let s := PyloidFetch.run PyloidFetch.init es in
     PyloidFetch.host_calls c s <= 1
     /\ (PyloidFetch.calls s <> [] -> PyloidFetch.host_calls c s = 1)
     /\ (forall fc r, fc ∈ PyloidFetch.calls s ->
           PyloidFetch.progress c fc = Awaiting r ->
           PyloidFetch.stored c s = Some r)
     /\ (forall fc, fc ∈ PyloidFetch.calls s ->
           PyloidFetch.progress c fc = Returned ->
           exists r v, PyloidFetch.stored c s = Some r
             /\ PyloidFetch.promises s !! r = Some (Fulfilled v)
             /\ PyloidFetch.cached c s = Some v)
     /\ (forall fc q, fc ∈ PyloidFetch.calls s ->
           PyloidFetch.outcome fc = Some (inr q) ->
           exists base w,
             PyloidFetch.serverUrl s = Some base
             /\ PyloidFetch.windowId s = Some w
             /\ PyloidFetch.completeUrl q
                = Url.buildUrl base (PyloidFetch.url fc)
             /\ PyloidFetch.enhanced_headers (PyloidFetch.enhancedOptions q)
                  !! PyloidFetch.session_header
                = Some (PyloidFetch.Text w)))
  /\ (forall (es : list PyloidFetch.Event) (u : string)
             (o : PyloidFetch.RequestInit),
        let s := PyloidFetch.run PyloidFetch.init es in
        let s' := PyloidFetch.fetch u o s in
        exists fc,
          PyloidFetch.calls s' = PyloidFetch.calls s ++ [fc]
          /\ PyloidFetch.url fc = u /\ PyloidFetch.options fc = o
          /\ PyloidFetch.rejection fc = None
          /\ PyloidFetch.outcome fc = None
          /\ forall c,
               (JS.falsy_str (PyloidFetch.cached c s) = true ->
                exists r,
                  PyloidFetch.progress c fc = Awaiting r
                  /\ PyloidFetch.stored c s' = Some r
                  /\ PyloidFetch.host_calls c s' = 1
                  /\ (forall r0, PyloidFetch.stored c s = Some r0 ->
                        r0 = r /\ PyloidFetch.host_calls c s = 1
                        /\ forall r', (c, r') ∈ PyloidFetch.inflight s' ->
                             (c, r') ∈ PyloidFetch.inflight s)
                  /\ (PyloidFetch.stored c s = None ->
                        PyloidFetch.host_calls c s = 0
                        /\ PyloidFetch.promises s !! r = None
                        /\ PyloidFetch.promises s' !! r = Some Pending
                        /\ (c, r) ∈ PyloidFetch.inflight s'))
               /\ (JS.falsy_str (PyloidFetch.cached c s) = false ->
                   PyloidFetch.progress c fc = Returned
                   /\ PyloidFetch.stored c s' = PyloidFetch.stored c s
                   /\ PyloidFetch.host_calls c s'
                      = PyloidFetch.host_calls c s))
  /\ (forall (es1 : list PyloidFetch.Event) (u : string)
             (o : PyloidFetch.RequestInit) (es2 : list PyloidFetch.Event)
             (c : PyloidFetch.Cache),
        let s1 := PyloidFetch.run PyloidFetch.init es1 in
        let s := PyloidFetch.run s1 (PyloidFetch.Fetch u o :: es2) in
        exists r fc,
          PyloidFetch.stored c s = Some r
          /\ PyloidFetch.host_calls c s = 1
          /\ (forall r0, PyloidFetch.stored c s1 = Some r0 -> r0 = r)
          /\ PyloidFetch.calls s !! length (PyloidFetch.calls s1) = Some fc
          /\ PyloidFetch.url fc = u /\ PyloidFetch.options fc = o
          /\ (forall r', PyloidFetch.progress c fc = Awaiting r' -> r' = r)
          /\ (PyloidFetch.progress c fc = Returned ->
              exists v,
                PyloidFetch.promises s !! r = Some (Fulfilled v)
                /\ PyloidFetch.cached c s = Some v /\ v <> ""))
  /\ (forall (es : list PyloidFetch.Event) (k : nat)
             (c : PyloidFetch.Cache) (r : nat) (v : string)
             (es' : list PyloidFetch.Event),
        let s := PyloidFetch.run PyloidFetch.init es in
        PyloidFetch.inflight s !! k = Some (c, r) ->
        let s0 := PyloidFetch.answer k (Ok v) s in
        let s' := PyloidFetch.run s0 es' in
        (PyloidFetch.stored c s = Some r
         /\ PyloidFetch.promises s !! r = Some Pending
         /\ PyloidFetch.cached c s0 = Some v
         /\ PyloidFetch.promises s0
            = <[r := Fulfilled v]> (PyloidFetch.promises s)
         /\ PyloidFetch.inflight s0 = delete k (PyloidFetch.inflight s)
         /\ PyloidFetch.calls s0 = PyloidFetch.calls s
         /\ (forall c',
               PyloidFetch.stored c' s0 = PyloidFetch.stored c' s
               /\ PyloidFetch.host_calls c' s0
                  = PyloidFetch.host_calls c' s)
         /\ (forall c', c' <> c ->
               PyloidFetch.cached c' s0 = PyloidFetch.cached c' s))
        /\ PyloidFetch.stored c s' = Some r
        /\ PyloidFetch.cached c s' = Some v
        /\ PyloidFetch.promises s' !! r = Some (Fulfilled v)
        /\ PyloidFetch.host_calls c s' = 1
        /\ (forall fc, fc ∈ PyloidFetch.calls s' ->
              PyloidFetch.progress c fc = Awaiting r
              \/ (PyloidFetch.progress c fc = Returned /\ v <> "")
              \/ (PyloidFetch.progress c fc
                  = Thrown (PyloidFetch.not_initialized c) /\ v = "")))
  /\ (forall (es : list PyloidFetch.Event) (i : nat)
             (fc : PyloidFetch.FetchCall) (c : PyloidFetch.Cache) (r : nat),
        let s := PyloidFetch.run PyloidFetch.init es in
        PyloidFetch.calls s !! i = Some fc ->
        PyloidFetch.progress c fc = Awaiting r ->
        (PyloidFetch.promises s !! r = Some Pending ->
         PyloidFetch.wake i c s = s)
        /\ (forall v,
              PyloidFetch.promises s !! r = Some (Fulfilled v) -> v <> "" ->
              PyloidFetch.cached c s = Some v
              /\ PyloidFetch.wake i c s
                 = PyloidFetch.with_calls
                     (<[i := PyloidFetch.finish_ensure c Returned fc]>
                        (PyloidFetch.calls s)) s))
  /\ (forall (i : option string) (es : list RpcClient.Event),
        let s := RpcClient.run (RpcClient.constructor i) es in
        RpcClient.getServerUrl_calls s <= 1
        /\ RpcClient.getWindowId_calls s <= 1
        /\ (forall c r, c ∈ RpcClient.calls s ->
              RpcClient.stage c = RpcClient.Ensuring (Awaiting r) ->
              RpcClient.endpointPromise s = Some r)
        /\ (forall c, c ∈ RpcClient.calls s -> RpcClient.waited c = true ->
              RpcClient.getServerUrl_calls s = 1)
        /\ (forall c q, c ∈ RpcClient.calls s -> RpcClient.waited c = true ->
              RpcClient.posted c = Some q ->
              Some (RpcClient.target q) = RpcClient.endpoint s
              /\ RpcClient.id (RpcClient.body q) = RpcClient.windowId s
              /\ is_Some (RpcClient.windowId s)))
  /\ (forall (i : option string) (es : list RpcClient.Event) (m : string)
             (p : option JS.Val),
        let s := RpcClient.run (RpcClient.constructor i) es in
        let s' := RpcClient.call m p s in
        (JS.falsy_str (RpcClient.endpoint s) = true ->
         exists r,
           RpcClient.calls s'
           = RpcClient.calls s ++
               [{| RpcClient.call_method := m; RpcClient.call_params := p;
                   RpcClient.waited := true;
                   RpcClient.stage := RpcClient.Ensuring (Awaiting r);
                   RpcClient.posted := None |}]
           /\ (forall r0, RpcClient.endpointPromise s = Some r0 ->
                 r0 = r /\ RpcClient.getServerUrl_calls s = 1
                 /\ s' = RpcClient.with_calls (RpcClient.calls s') s)
           /\ (RpcClient.endpointPromise s = None ->
                 r = length (RpcClient.promises s)
                 /\ s' = {| RpcClient.endpoint := RpcClient.endpoint s;
                            RpcClient.endpointPromise := Some r;
                            RpcClient.windowId := None;
                            RpcClient.promises :=
                              RpcClient.promises s ++ [Pending];
                            RpcClient.getServerUrl_calls := 1;
                            RpcClient.getWindowId_calls := 0;
                            RpcClient.inflight := [RpcClient.AskServerUrl r];
                            RpcClient.calls := RpcClient.calls s' |}))
        /\ (JS.falsy_str (RpcClient.endpoint s) = false ->
            s' = RpcClient.with_calls
                   (RpcClient.calls s ++
                      [{| RpcClient.call_method := m;
                          RpcClient.call_params := p;
                          RpcClient.waited := false;
                          RpcClient.stage :=
                            RpcClient.Ensuring Returned;
                          RpcClient.posted := None |}]) s))
  /\ (forall (i : option string) (es1 : list RpcClient.Event) (m : string)
             (p : option JS.Val) (es2 : list RpcClient.Event),
        let s1 := RpcClient.run (RpcClient.constructor i) es1 in
        let s := RpcClient.run s1 (RpcClient.Call m p :: es2) in
        JS.falsy_str (RpcClient.endpoint s1) = true ->
        exists r c,
          RpcClient.endpointPromise s = Some r
          /\ RpcClient.getServerUrl_calls s = 1
          /\ (forall r0, RpcClient.endpointPromise s1 = Some r0 -> r0 = r)
          /\ RpcClient.calls s !! length (RpcClient.calls s1) = Some c
          /\ RpcClient.call_method c = m /\ RpcClient.call_params c = p
          /\ (forall r',
                RpcClient.stage c = RpcClient.Ensuring (Awaiting r') ->
                r' = r)
          /\ (RpcClient.stage c = RpcClient.Ensuring Returned
              \/ is_Some (RpcClient.posted c) ->
              exists url wid,
                RpcClient.promises s !! r = Some (Fulfilled url)
                /\ RpcClient.endpoint s = Some url
                /\ RpcClient.windowId s = Some wid
                /\ forall q, RpcClient.posted c = Some q ->
                     RpcClient.target q = url
                     /\ RpcClient.id (RpcClient.body q) = Some wid))
  /\ (forall (i : option string) (es : list RpcClient.Event) (k r : nat)
             (url : string),
        let s := RpcClient.run (RpcClient.constructor i) es in
        RpcClient.inflight s !! k = Some (RpcClient.AskServerUrl r) ->
        RpcClient.promises s !! r = Some Pending
        /\ RpcClient.answer k (Ok url) s
           = {| RpcClient.endpoint := Some url;
                RpcClient.endpointPromise := Some r;
                RpcClient.windowId := None;
                RpcClient.promises := RpcClient.promises s;
                RpcClient.getServerUrl_calls := 1;
                RpcClient.getWindowId_calls := 1;
                RpcClient.inflight := [RpcClient.AskWindowId r url];
                RpcClient.calls := RpcClient.calls s |})
  /\ (forall (i : option string) (es : list RpcClient.Event) (k r : nat)
             (url wid : string) (es' : list RpcClient.Event),
        let s := RpcClient.run (RpcClient.constructor i) es in
        RpcClient.inflight s !! k = Some (RpcClient.AskWindowId r url) ->
        let s0 := RpcClient.answer k (Ok wid) s in
        let s' := RpcClient.run s0 es' in
        RpcClient.promises s !! r = Some Pending
        /\ s0 = {| RpcClient.endpoint := Some url;
                   RpcClient.endpointPromise := Some r;
                   RpcClient.windowId := Some wid;
                   RpcClient.promises :=
                     <[r := Fulfilled url]> (RpcClient.promises s);
                   RpcClient.getServerUrl_calls := 1;
                   RpcClient.getWindowId_calls := 1;
                   RpcClient.inflight := [];
                   RpcClient.calls := RpcClient.calls s |}
        /\ RpcClient.endpointPromise s' = Some r
        /\ RpcClient.promises s' !! r = Some (Fulfilled url)
        /\ RpcClient.endpoint s' = Some url
        /\ RpcClient.windowId s' = Some wid
        /\ RpcClient.getServerUrl_calls s' = 1
        /\ RpcClient.getWindowId_calls s' = 1
        /\ RpcClient.inflight s' = [])
  /\ (forall (i : option string) (es : list RpcClient.Event) (j : nat)
             (c : RpcClient.RpcCall) (r : nat),
        let s := RpcClient.run (RpcClient.constructor i) es in
        RpcClient.calls s !! j = Some c ->
        RpcClient.stage c = RpcClient.Ensuring (Awaiting r) ->
        (RpcClient.promises s !! r = Some Pending -> RpcClient.wake j s = s)
        /\ (forall url,
              RpcClient.promises s !! r = Some (Fulfilled url) ->
              url <> "" ->
              RpcClient.endpoint s = Some url
              /\ RpcClient.wake j s
                 = RpcClient.with_calls
                     (<[j := {| RpcClient.call_method :=
                                  RpcClient.call_method c;
                                RpcClient.call_params :=
                                  RpcClient.call_params c;
                                RpcClient.waited := RpcClient.waited c;
                                RpcClient.stage :=
                                  RpcClient.Ensuring Returned;
                                RpcClient.posted := RpcClient.posted c |}]>
                        (RpcClient.calls s)) s)).
Proof.
  refine (conj _ (conj _ (conj _ (conj _ (conj _ (conj _ (conj _ (conj _
           (conj _ (conj _ _)))))))))).
  - intros es c. apply fetch_single_flight.
  - intros es u o. apply fetch_creation.
  - intros es1 u o es2 c. apply fetch_call_sees.
  - intros es k c r v es'. apply fetch_answer_value.
  - intros es i fc c r. apply fetch_wake_waiting.
  - intros i es. apply rpc_single_flight.
  - intros i es m p s s'. split.
    + apply rpc_call_unresolved.
    + apply rpc_call_resolved.
  - intros i es1 m p es2. apply rpc_waiter_sees.
  - intros i es k r url. apply rpc_answer_url.
  - intros i es k r url wid es' s Hk s0 s'.
    destruct (rpc_answer_id i es k r url wid Hk) as [Hp H0].
    split; [exact Hp |]. split; [exact H0 |].
    apply rpc_resolved_for_good. exact Hk.
  - intros i es j c r. apply rpc_wake_waiting.
Qed.

(** Three [fetch] calls race the empty caches; the host answers once for each
    cache; the three calls resume and send.  Three calls race a client
    without endpoint; the host answers once each question; the three calls
    resume and post to the same endpoint with the same id. *)
Lemma single_flight_resolution_witness :
  let o := {| PyloidFetch.headers := None; PyloidFetch.others := ∅ |} in
  let es :=
    [PyloidFetch.Fetch "/a" o; PyloidFetch.Fetch "/b" o;
     PyloidFetch.Fetch "/c" o;
     PyloidFetch.Answer 0 (Ok "http://x/"); PyloidFetch.Answer 0 (Ok "w-1");
     PyloidFetch.Wake 0 PyloidFetch.ServerUrl;
     PyloidFetch.Wake 0 PyloidFetch.WindowId;
     PyloidFetch.Wake 1 PyloidFetch.ServerUrl;
     PyloidFetch.Wake 1 PyloidFetch.WindowId;
     PyloidFetch.Wake 2 PyloidFetch.ServerUrl;
     PyloidFetch.Wake 2 PyloidFetch.WindowId;
     PyloidFetch.Continue 0; PyloidFetch.Continue 1; PyloidFetch.Continue 2] in
  let s := PyloidFetch.run PyloidFetch.init es in
  let rs1 := [RpcClient.Call "a" None; RpcClient.Call "b" None] in
  let rs2 :=
    [RpcClient.Answer 0 (Ok "http://h/rpc"); RpcClient.Answer 0 (Ok "w-1");
     RpcClient.Wake 0; RpcClient.Wake 1; RpcClient.Wake 2;
     RpcClient.Wake 0; RpcClient.Wake 1; RpcClient.Wake 2] in
  let t1 := RpcClient.run (RpcClient.constructor None) rs1 in
  let t := RpcClient.run t1 (RpcClient.Call "c" None :: rs2) in
  PyloidFetch.calls s <> []
  /\ PyloidFetch.getServerUrl_calls s = 1
  /\ PyloidFetch.getWindowId_calls s = 1
  /\ (PyloidFetch.completeUrl <$> omap (fun fc =>
         match PyloidFetch.outcome fc with
         | Some (inr q) => Some q
         | _ => None
         end) (PyloidFetch.calls s))
     = ["http://x/a"; "http://x/b"; "http://x/c"]
  /\ JS.falsy_str (RpcClient.endpoint t1) = true
  /\ RpcClient.getServerUrl_calls t = 1
  /\ RpcClient.getWindowId_calls t = 1
  /\ RpcClient.endpointPromise t = Some 0
  /\ (RpcClient.target <$> omap RpcClient.posted (RpcClient.calls t))
     = ["http://h/rpc"; "http://h/rpc"; "http://h/rpc"]
  /\ (RpcClient.id <$> RpcClient.sent t)
     = [Some "w-1"; Some "w-1"; Some "w-1"].
Proof.
  intros o es s rs1 rs2 t1 t.
  assert (PyloidFetch.calls s <> []) as Hne by (vm_compute; discriminate).
  assert (JS.falsy_str (RpcClient.endpoint t1) = true) as Hf by reflexivity.
  destruct single_flight_resolution
    as (F1 & _ & _ & _ & _ & _ & _ & R3 & _).
  destruct (R3 None rs1 "c" None rs2 Hf) as (r & c & Hr & Hn & Hr0 & _).
  split; [exact Hne |].
  split; [exact (proj1 (proj2 (F1 es PyloidFetch.ServerUrl)) Hne) |].
  split; [exact (proj1 (proj2 (F1 es PyloidFetch.WindowId)) Hne) |].
  split; [vm_compute; reflexivity |].
  split; [exact Hf |].
  split; [exact Hn |].
  split; [reflexivity |].
  split; [transitivity (Some r);
            [exact Hr | f_equal; symmetry; apply Hr0; reflexivity] |].
  split; vm_compute; reflexivity.
Defined.

End SingleFlight.

(** ** Failed resolutions *)

Section FetchFailure.
Import Async PyloidFetch.

(** The host's refusal rejects the one promise and touches nothing else. *)
Lemma fetch_answer_error es k c r e :
  let s := run init es in
  inflight s !! k = Some (c, r) ->
  let s0 := answer k (Err e) s in
  stored c s = Some r /\ promises s !! r = Some Pending
  /\ promises s0 = <[r := Rejected (failed_to_get c e)]> (promises s)
  /\ inflight s0 = delete k (inflight s)
  /\ calls s0 = calls s
  /\ (forall c', cached c' s0 = cached c' s
                 /\ stored c' s0 = stored c' s
                 /\ host_calls c' s0 = host_calls c' s).
Proof.
  intros s Hk s0.
  pose proof (reachable_inv es) as [(Hc & _) _]. fold s in Hc.
  assert ((c, r) ∈ inflight s) as Hin by (apply list_elem_of_lookup; eauto).
  destruct (cache_ok_inflight c s r (Hc c) Hin) as (Hst & Hpend & _).
  split; [exact Hst |]. split; [exact Hpend |].
  unfold s0, answer. rewrite Hk. simpl.
  rewrite (settle_pending _ _ _ Hpend).
  split; [reflexivity |]. split; [reflexivity |]. split; [reflexivity |].
  intros [|]; split; try split; reflexivity.
Qed.

Lemma fetch_wake_rejected s i fc c r m :
  calls s !! i = Some fc -> progress c fc = Awaiting r ->
  promises s !! r = Some (Rejected m) ->
  wake i c s
  = with_calls (<[i := finish_ensure c (Thrown m) fc]> (calls s)) s.
Proof.
  intros Hi Hp Hr. unfold wake. rewrite Hi, Hp, Hr. reflexivity.
Qed.

Lemma fetch_continue_rejected s i fc m :
  calls s !! i = Some fc -> outcome fc = None -> rejection fc = Some m ->
  continue i s = with_calls (<[i := with_outcome (inl m) fc]> (calls s)) s.
Proof.
  intros Hi Ho Hr. unfold continue. rewrite Hi, Ho, Hr. reflexivity.
Qed.

(** A [fetch] call made after the failure starts nothing: it waits for the
    rejected promise. *)
Lemma fetch_after_failure es k c r e es' u o :
  let s := run init es in
  inflight s !! k = Some (c, r) ->
  let s' := run (answer k (Err e) s) es' in
  let s'' := fetch u o s' in
  host_calls c s'' = 1 /\ stored c s'' = Some r
  /\ (forall r', (c, r') ∉ inflight s'')
  /\ exists fc,
       calls s'' = calls s' ++ [fc]
       /\ url fc = u /\ options fc = o /\ progress c fc = Awaiting r.
Proof.
  intros s Hk s' s''.
  destruct (fetch_failure_is_kept es k c r e es' Hk)
    as (Hnone & Hst & Hp & Hh & _).
  fold s in Hnone, Hst, Hp, Hh. fold s' in Hnone, Hst, Hp, Hh.
  assert (s' = run init (es ++ Answer k (Err e) :: es')) as Hs'
    by (rewrite fetch_run_app; reflexivity).
  pose proof (fetch_creation (es ++ Answer k (Err e) :: es') u o) as Hcr.
  cbv zeta in Hcr. rewrite <- Hs' in Hcr. fold s'' in Hcr.
  destruct Hcr as (fc & Hcalls & Hu & Ho & _ & _ & Hc).
  destruct (Hc c) as [Hwait _].
  assert (JS.falsy_str (cached c s') = true) as Hf
    by (rewrite Hnone; reflexivity).
  destruct (Hwait Hf) as (r1 & Hpr & Hst'' & Hh'' & Hsame & _).
  destruct (Hsame r Hst) as (-> & _ & Hfl).
  split; [exact Hh'' |]. split; [exact Hst'' |]. split.
  - intros r' Hin. apply Hfl in Hin.
    pose proof (reachable_inv (es ++ Answer k (Err e) :: es'))
      as [(Hco & _) _].
    rewrite <- Hs' in Hco. specialize (Hco c). unfold cache_ok in Hco.
    rewrite Hst, Hp in Hco. destruct Hco as (_ & _ & Hno).
    exact (Hno r' Hin).
  - exists fc. auto.
Qed.

(** After the failure no [fetch] call ever hands a request to the platform,
    and a call whose wait has ended fails with the first rejection it
    saw. *)
Lemma fetch_failure_fails es k c r e es' :
  let s := run init es in
  inflight s !! k = Some (c, r) ->
  let s' := run (answer k (Err e) s) es' in
  forall fc, fc ∈ calls s' ->
    (forall q, outcome fc <> Some (inr q))
    /\ (progress c fc = Thrown (failed_to_get c e) ->
        exists m c',
          rejection fc = Some m /\ progress c' fc = Thrown m
          /\ (outcome fc = None \/ outcome fc = Some (inl m))).
Proof.
  intros s Hk s' fc Hfc.
  destruct (fetch_failure_is_kept es k c r e es' Hk) as (_ & _ & _ & _ & Hpr).
  fold s in Hpr. fold s' in Hpr.
  assert (s' = run init (es ++ Answer k (Err e) :: es')) as Hs'
    by (rewrite fetch_run_app; reflexivity).
  rewrite Hs' in Hfc.
  destruct (reachable_decided _ fc Hfc) as [Hdec Hrej].
  rewrite <- Hs' in Hfc. specialize (Hpr fc Hfc).
  assert (forall q, outcome fc <> Some (inr q)) as Hnot.
  { intros q Hq. unfold Delivery.decided in Hdec. rewrite Hq in Hdec.
    destruct Hdec as (HS & HW & _).
    destruct c; simpl in Hpr; destruct Hpr as [H | H]; congruence. }
  split; [exact Hnot |].
  intros Hth. unfold Delivery.rejected_by in Hrej.
  destruct (rejection fc) as [m |] eqn:Hr.
  - destruct Hrej as [c' Hc']. exists m, c'.
    split; [reflexivity |]. split; [exact Hc' |].
    unfold Delivery.decided in Hdec.
    destruct (outcome fc) as [[m' | q] |] eqn:Ho.
    + right. congruence.
    + destruct (Hnot q eq_refl).
    + left. reflexivity.
  - destruct (Hrej c _ Hth).
Qed.

End FetchFailure.

Section RpcFailure.
Import Async RpcClient.

Lemma rpc_answer_error i es k h e :
  let s := run (constructor i) es in
  inflight s !! k = Some h ->
  exists r,
    (h = AskServerUrl r \/ exists url, h = AskWindowId r url)
    /\ endpointPromise s = Some r /\ promises s !! r = Some Pending
    /\ answer k (Err e) s
       = {| endpoint := endpoint s; endpointPromise := Some r;
            windowId := None;
            promises := <[r := Rejected (failed_to_get e)]> (promises s);
            getServerUrl_calls := 1;
            getWindowId_calls := getWindowId_calls s;
            inflight := []; calls := calls s |}.
Proof.
  intros s Hk.
  assert (h ∈ inflight s) as Hin by (apply list_elem_of_lookup; eauto).
  destruct (rpc_inflight_cases i es _ Hin)
    as (_ & r & Hp & Hpend & Hw & Hn1 & Hcase).
  fold s in Hp, Hpend, Hw, Hn1, Hcase.
  exists r.
  assert (inflight s = [h]) as Hfl
    by (destruct Hcase as [(_ & H & _) | (u & _ & H & _)]; exact H).
  assert (k = 0) as ->
    by (rewrite Hfl in Hk; destruct k; [reflexivity | discriminate]).
  split; [destruct Hcase as [(H & _) | (u & H & _)]; eauto |].
  split; [exact Hp |]. split; [exact Hpend |].
  unfold answer. rewrite Hfl. simpl.
  destruct Hcase as [(-> & _) | (u & -> & _)];
    unfold with_promises, with_inflight; simpl;
    rewrite (settle_pending _ _ _ Hpend), Hp, Hw, Hn1; reflexivity.
Qed.

Lemma rpc_wake_rejected s j c r m :
  calls s !! j = Some c -> stage c = Ensuring (Awaiting r) ->
  promises s !! r = Some (Rejected m) ->
  wake j s
  = with_calls (<[j := with_stage (Ensuring (Thrown m)) c]> (calls s)) s.
Proof.
  intros Hj Hst Hp. unfold wake. rewrite Hj, Hst, Hp. reflexivity.
Qed.

Lemma rpc_wake_thrown s j c m :
  calls s !! j = Some c -> stage c = Ensuring (Thrown m) ->
  wake j s
  = with_calls (<[j := with_stage (Settled (inl m)) c]> (calls s)) s.
Proof.
  intros Hj Hst. unfold wake. rewrite Hj, Hst. reflexivity.
Qed.

(** After a failed [getWindowId]: the endpoint stays, nothing is asked
    again, the calls that were waiting fail and never post, every request
    goes to the endpoint with [id] null. *)
Lemma rpc_window_id_failure i es k r url e es' :
  let s := run (constructor i) es in
  inflight s !! k = Some (AskWindowId r url) ->
  let s' := run (answer k (Err e) s) es' in
  endpoint s' = Some url /\ windowId s' = None
  /\ getWindowId_calls s' = 1
  /\ (forall c q, c ∈ calls s' -> posted c = Some q ->
        waited c = false /\ target q = url /\ id (body q) = None)
  /\ (forall j c0, calls s !! j = Some c0 ->
        stage c0 = Ensuring (Awaiting r) ->
        exists c,
          calls s' !! j = Some c /\ posted c = None
          /\ (stage c = Ensuring (Awaiting r)
              \/ stage c = Ensuring (Thrown (failed_to_get e))
              \/ stage c = Settled (inl (failed_to_get e)))).
Proof.
  intros s Hk s'.
  assert (AskWindowId r url ∈ inflight s) as Hin
    by (apply list_elem_of_lookup; eauto).
  destruct (rpc_inflight_cases i es _ Hin)
    as (Hinv & r0 & _ & _ & _ & _ & [(Hh & _) | (u & Hh & _ & He & Hn)]);
    [discriminate |].
  fold s in Hinv, He, Hn. inversion Hh; subst r0 u. clear Hh.
  destruct (rpc_failure_is_kept i es k _ e es' Hk)
    as (r' & Hcase & Hp' & Hrej & Hn1 & Hfl & _).
  fold s in Hp', Hrej, Hn1, Hfl. fold s' in Hp', Hrej, Hn1, Hfl.
  assert (r' = r) as ->
    by (destruct Hcase as [H | [u H]]; inversion H; reflexivity).
  destruct (rpc_answer_inv k (Err e) s Hinv) as [Hinv0 Hst0].
  destruct (rpc_run_inv (answer k (Err e) s) es' Hinv0) as [Hinv' Hst'].
  fold s' in Hinv', Hst'.
  assert (endpoint s' = Some url) as He'.
  { destruct Hst' as (_ & H2 & _). apply H2.
    destruct Hst0 as (_ & H2' & _). apply H2'. exact He. }
  pose proof Hinv' as (Hl & _ & Hcalls).
  unfold lazy_ok in Hl. rewrite Hp', Hrej in Hl.
  destruct Hl as (_ & _ & Hw & Hle & Hz).
  assert (getWindowId_calls s' = 1) as Hn'.
  { destruct (getWindowId_calls s') as [| [| n]]; [| reflexivity | lia].
    rewrite (Hz eq_refl) in He'. discriminate. }
  split; [exact He' |]. split; [exact Hw |]. split; [exact Hn' |].
  assert (forall c, c ∈ calls s' -> waited c = true -> posted c = None)
    as Hnopost.
  { intros c Hc Hwt. destruct (posted c) as [q |] eqn:Hq; [| reflexivity].
    destruct (Hcalls c Hc) as [_ Hpo].
    destruct (Hpo q Hq) as (_ & _ & _ & _ & _ & _ & Hid).
    destruct (Hid Hwt) as [_ [x Hx]]. congruence. }
  split.
  - intros c q Hc Hq. destruct (Hcalls c Hc) as [_ Hpo].
    destruct (Hpo q Hq) as (_ & _ & _ & _ & Ht & Hid & _).
    rewrite He' in Ht. inversion Ht. rewrite Hw in Hid.
    split; [| split; [reflexivity | destruct Hid; assumption]].
    destruct (waited c) eqn:Hwt; [| reflexivity].
    rewrite (Hnopost c Hc Hwt) in Hq. discriminate.
  - intros j c0 Hj Hst.
    assert (c0 ∈ calls s) as Hc0 by (apply list_elem_of_lookup; eauto).
    destruct Hinv as (_ & _ & Hcalls0).
    destruct (Hcalls0 c0 Hc0) as [Hso0 _]. unfold stage_ok in Hso0.
    rewrite Hst in Hso0. destruct Hso0 as (_ & Hwt0 & _).
    assert (calls (answer k (Err e) s) !! j = Some c0) as Hj0
      by (rewrite answer_calls; exact Hj).
    destruct (run_keeps_call es' _ j c0 Hj0) as (c & Hjc & _ & _ & Hwt).
    fold s' in Hjc. rewrite Hwt0 in Hwt.
    assert (c ∈ calls s') as Hc by (apply list_elem_of_lookup; eauto).
    pose proof (Hnopost c Hc Hwt) as Hnone.
    exists c. split; [exact Hjc |]. split; [exact Hnone |].
    assert (forall m, failed_with s' m -> m = failed_to_get e) as Hsame.
    { intros m (r0 & Hr0 & [H | (_ & v & H & _)]); congruence. }
    destruct (Hcalls c Hc) as [Hso _]. unfold stage_ok in Hso.
    destruct (stage c) as [[r0 | | m] | | x].
    + left. destruct Hso as (Hr0 & _). congruence.
    + destruct Hso as (_ & _ & Hws). destruct (Hws Hwt) as [x Hx].
      congruence.
    + right. left. destruct Hso as (_ & _ & Hm). rewrite (Hsame m Hm).
      reflexivity.
    + rewrite Hnone in Hso. destruct Hso as [q Hq]. discriminate.
    + right. right. destruct (Hso Hnone) as (_ & m & -> & Hm).
      rewrite (Hsame m Hm). reflexivity.
Qed.

(** A call made after the failure. *)
Lemma rpc_after_failure i es k h e es' m p :
  let s := run (constructor i) es in
  inflight s !! k = Some h ->
  let s' := run (answer k (Err e) s) es' in
  exists r,
    endpointPromise s' = Some r
    /\ (JS.falsy_str (endpoint s') = true ->
        call m p s'
        = with_calls
            (calls s' ++
               [{| call_method := m; call_params := p; waited := true;
                   stage := Ensuring (Awaiting r); posted := None |}]) s')
    /\ (forall url, endpoint s' = Some url -> url <> "" ->
        wake (length (calls s')) (call m p s')
        = with_calls
            (calls s' ++
               [{| call_method := m; call_params := p; waited := false;
                   stage := Posting;
                   posted :=
                     Some {| target := url; http_method := "POST";
                             http_headers :=
                               {[ "Content-Type" := "application/json" ]};
                             body :=
                               {| jsonrpc := "2.0"; method := m;
                                  params := match p with
                                            | None | Some JS.VUndefined =>
                                                JS.VObj ∅
                                            | Some v => v
                                            end;
                                  id := None |} |} |}]) s').
Proof.
  intros s Hk s'.
  destruct (rpc_failure_is_kept i es k h e es' Hk)
    as (r & _ & Hp' & Hrej & _).
  fold s in Hp', Hrej. fold s' in Hp', Hrej.
  exists r. split; [exact Hp' |]. split.
  - intros Hf. unfold call, ensureEndpointInitialized. rewrite Hf, Hp'.
    reflexivity.
  - intros url He Hne.
    pose proof (call_with_endpoint m p s' url He Hne) as Hc.
    cbv zeta in Hc. rewrite Hc. unfold post, envelope. rewrite He.
    assert (windowId s' = None) as Hw.
    { assert (h ∈ inflight s) as Hin by (apply list_elem_of_lookup; eauto).
      destruct (rpc_inflight_cases i es _ Hin) as (Hinv & _).
      fold s in Hinv.
      destruct (rpc_answer_inv k (Err e) s Hinv) as [Hinv0 _].
      destruct (rpc_run_inv (answer k (Err e) s) es' Hinv0) as [(Hl & _) _].
      fold s' in Hl. unfold lazy_ok in Hl. rewrite Hp', Hrej in Hl.
      destruct Hl as (_ & _ & Hw & _). exact Hw. }
    rewrite Hw. reflexivity.
Qed.

End RpcFailure.

Section FailedResolution.
Import Async.

(** C4, as stated, fails: after a failed resolution the module variable still
    holds the promise (now rejected); the next [fetch] starts no new
    resolution and fails with the error of the first one. *)
Lemma failed_resolution_is_not_retried :
  let o := {| PyloidFetch.headers := None; PyloidFetch.others := ∅ |} in
  let s1 := PyloidFetch.run PyloidFetch.init
              [PyloidFetch.Fetch "/a" o;
               PyloidFetch.Answer 0 (Err "Error: no bridge")] in
  let s2 := PyloidFetch.run s1
              [PyloidFetch.Fetch "/b" o;
               PyloidFetch.Wake 1 PyloidFetch.ServerUrl] in
  PyloidFetch.serverUrl s1 = None
  /\ PyloidFetch.serverUrlPromise s1 = Some 0
  /\ PyloidFetch.promises s1 !! 0
     = Some (Rejected "Failed to get server URL: Error: no bridge")
  /\ PyloidFetch.getServerUrl_calls s1 = 1
  /\ PyloidFetch.getServerUrl_calls s2 = 1
  /\ (PyloidFetch.ensureServerUrl <$> PyloidFetch.calls s2 !! 1)
     = Some (Thrown "Failed to get server URL: Error: no bridge").
Proof. vm_compute. repeat split. Qed.

(** C4, amended.  When the host call of a resolution attempt fails, the
    promise held in the module variable (or in the client) is rejected and
    stays there: it is never cleared and the host resolver is not called
    again.

    For the two caches of the fetch module the cached value stays empty;
    every [fetch] call, made before or after, waits for that promise, and
    its wait ends with the error of the attempt; the call then fails with
    the first rejection it saw (this one, or the one of the other cache),
    and no call ever hands a request to the platform.

    For the [RpcClient], when the failing host call is [getServerUrl] the
    endpoint stays empty and no call ever sends a request: each one waits
    for the rejected promise or has failed with that error.  When the
    failing host call is [getWindowId], the endpoint stored just before
    stays and the window id stays empty: the calls that were waiting fail
    with the error of the attempt and never send; every request the client
    sends goes to that endpoint with [id] null; a later call does not wait
    and does not see the failure, unless the endpoint is the empty
    string. *)
Theorem failed_resolution_is_kept :
  (forall (es : list PyloidFetch.Event) k c r e (es' : list PyloidFetch.Event),
     let s := PyloidFetch.run PyloidFetch.init es in
     PyloidFetch.inflight s !! k = Some (c, r) ->
     let s0 := PyloidFetch.answer k (Err e) s in
     let s' := PyloidFetch.run s0 es' in
     (PyloidFetch.promises s !! r = Some Pending
      /\ PyloidFetch.promises s0
         = <[r := Rejected (PyloidFetch.failed_to_get c e)]>
             (PyloidFetch.promises s)
      /\ PyloidFetch.inflight s0 = delete k (PyloidFetch.inflight s)
      /\ PyloidFetch.calls s0 = PyloidFetch.calls s
      /\ forall c',
           PyloidFetch.cached c' s0 = PyloidFetch.cached c' s
           /\ PyloidFetch.stored c' s0 = PyloidFetch.stored c' s
           /\ PyloidFetch.host_calls c' s0 = PyloidFetch.host_calls c' s)
     /\ PyloidFetch.cached c s' = None
     /\ PyloidFetch.stored c s' = Some r
     /\ PyloidFetch.promises s' !! r
        = Some (Rejected (PyloidFetch.failed_to_get c e))
     /\ PyloidFetch.host_calls c s' = 1
     /\ (forall fc, fc ∈ PyloidFetch.calls s' ->
           PyloidFetch.progress c fc = Awaiting r
           \/ PyloidFetch.progress c fc
              = Thrown (PyloidFetch.failed_to_get c e))
     /\ (forall fc, fc ∈ PyloidFetch.calls s' ->
           (forall q, PyloidFetch.outcome fc <> Some (inr q))
           /\ (PyloidFetch.progress c fc
               = Thrown (PyloidFetch.failed_to_get c e) ->
               exists m c',
                 PyloidFetch.rejection fc = Some m
                 /\ PyloidFetch.progress c' fc = Thrown m
                 /\ (PyloidFetch.outcome fc = None
                     \/ PyloidFetch.outcome fc = Some (inl m))))
     /\ (forall u o,
           let s'' := PyloidFetch.fetch u o s' in
           PyloidFetch.host_calls c s'' = 1
           /\ PyloidFetch.stored c s'' = Some r
           /\ (forall r', (c, r') ∉ PyloidFetch.inflight s'')
           /\ exists fc,
                PyloidFetch.calls s'' = PyloidFetch.calls s' ++ [fc]
                /\ PyloidFetch.url fc = u /\ PyloidFetch.options fc = o
                /\ PyloidFetch.progress c fc = Awaiting r)
     /\ (forall i fc,
           PyloidFetch.calls s' !! i = Some fc ->
           PyloidFetch.progress c fc = Awaiting r ->
           PyloidFetch.wake i c s'
           = PyloidFetch.with_calls
               (<[i := PyloidFetch.finish_ensure c
                         (Thrown (PyloidFetch.failed_to_get c e)) fc]>
                  (PyloidFetch.calls s')) s'))
  /\ (forall (s : PyloidFetch.State) i fc m,
        PyloidFetch.calls s !! i = Some fc ->
        PyloidFetch.outcome fc = None ->
        PyloidFetch.rejection fc = Some m ->
        PyloidFetch.continue i s
        = PyloidFetch.with_calls
            (<[i := {| PyloidFetch.url := PyloidFetch.url fc;
                       PyloidFetch.options := PyloidFetch.options fc;
                       PyloidFetch.ensureServerUrl :=
                         PyloidFetch.ensureServerUrl fc;
                       PyloidFetch.ensureWindowId :=
                         PyloidFetch.ensureWindowId fc;
                       PyloidFetch.rejection := Some m;
                       PyloidFetch.outcome := Some (inl m) |}]>
               (PyloidFetch.calls s)) s)
  /\ (forall (i : option string) (es : list RpcClient.Event) k h e
             (es' : list RpcClient.Event),
        let s := RpcClient.run (RpcClient.constructor i) es in
        RpcClient.inflight s !! k = Some h ->
        let s0 := RpcClient.answer k (Err e) s in
        let s' := RpcClient.run s0 es' in
        exists r,
          (h = RpcClient.AskServerUrl r
           \/ exists url, h = RpcClient.AskWindowId r url)
          /\ RpcClient.promises s !! r = Some Pending
          /\ s0 = {| RpcClient.endpoint := RpcClient.endpoint s;
                     RpcClient.endpointPromise := Some r;
                     RpcClient.windowId := None;
                     RpcClient.promises :=
                       <[r := Rejected (RpcClient.failed_to_get e)]>
                         (RpcClient.promises s);
                     RpcClient.getServerUrl_calls := 1;
                     RpcClient.getWindowId_calls :=
                       RpcClient.getWindowId_calls s;
                     RpcClient.inflight := [];
                     RpcClient.calls := RpcClient.calls s |}
          /\ RpcClient.endpointPromise s' = Some r
          /\ RpcClient.promises s' !! r
             = Some (Rejected (RpcClient.failed_to_get e))
          /\ RpcClient.getServerUrl_calls s' = 1
          /\ RpcClient.inflight s' = []
          /\ (h = RpcClient.AskServerUrl r ->
              RpcClient.endpoint s' = None /\ RpcClient.windowId s' = None
              /\ RpcClient.getWindowId_calls s' = 0
              /\ forall c, c ∈ RpcClient.calls s' ->
                   RpcClient.posted c = None
                   /\ (RpcClient.stage c = RpcClient.Ensuring (Awaiting r)
                       \/ RpcClient.stage c
                          = RpcClient.Ensuring
                              (Thrown (RpcClient.failed_to_get e))
                       \/ RpcClient.stage c
                          = RpcClient.Settled
                              (inl (RpcClient.failed_to_get e))))
          /\ (forall url, h = RpcClient.AskWindowId r url ->
              RpcClient.endpoint s' = Some url
              /\ RpcClient.windowId s' = None
              /\ RpcClient.getWindowId_calls s' = 1
              /\ (forall c q, c ∈ RpcClient.calls s' ->
                    RpcClient.posted c = Some q ->
                    RpcClient.waited c = false
                    /\ RpcClient.target q = url
                    /\ RpcClient.id (RpcClient.body q) = None)
              /\ (forall j c0, RpcClient.calls s !! j = Some c0 ->
                    RpcClient.stage c0 = RpcClient.Ensuring (Awaiting r) ->
                    exists c,
                      RpcClient.calls s' !! j = Some c
                      /\ RpcClient.posted c = None
                      /\ (RpcClient.stage c
                          = RpcClient.Ensuring (Awaiting r)
                          \/ RpcClient.stage c
                             = RpcClient.Ensuring
                                 (Thrown (RpcClient.failed_to_get e))
                          \/ RpcClient.stage c
                             = RpcClient.Settled
                                 (inl (RpcClient.failed_to_get e)))))
          /\ (forall m p,
                (JS.falsy_str (RpcClient.endpoint s') = true ->
                 RpcClient.call m p s'
                 = RpcClient.with_calls
                     (RpcClient.calls s' ++
                        [{| RpcClient.call_method := m;
                            RpcClient.call_params := p;
                            RpcClient.waited := true;
                            RpcClient.stage :=
                              RpcClient.Ensuring (Awaiting r);
                            RpcClient.posted := None |}]) s')
                /\ (forall url,
                      RpcClient.endpoint s' = Some url -> url <> "" ->
                      RpcClient.wake (length (RpcClient.calls s'))
                        (RpcClient.call m p s')
                      = RpcClient.with_calls
                          (RpcClient.calls s' ++
                             [{| RpcClient.call_method := m;
                                 RpcClient.call_params := p;
                                 RpcClient.waited := false;
                                 RpcClient.stage := RpcClient.Posting;
                                 RpcClient.posted :=
                                   Some
                                     {| RpcClient.target := url;
                                        RpcClient.http_method := "POST";
                                        RpcClient.http_headers :=
                                          {[ "Content-Type"
                                               := "application/json" ]};
                                        RpcClient.body :=
                                          {| RpcClient.jsonrpc := "2.0";
                                             RpcClient.method := m;
                                             RpcClient.params :=
                                               match p with
                                               | None
                                               | Some JS.VUndefined =>
                                                   JS.VObj ∅
                                               | Some v => v
                                               end;
                                             RpcClient.id := None |} |} |}])
                          s'))
          /\ (forall j c,
                RpcClient.calls s' !! j = Some c ->
                RpcClient.stage c = RpcClient.Ensuring (Awaiting r) ->
                RpcClient.wake j s'
                = RpcClient.with_calls
                    (<[j := RpcClient.with_stage
                              (RpcClient.Ensuring
                                 (Thrown (RpcClient.failed_to_get e))) c]>
                       (RpcClient.calls s')) s')
          /\ (forall j c m,
                RpcClient.calls s' !! j = Some c ->
                RpcClient.stage c = RpcClient.Ensuring (Thrown m) ->
                RpcClient.wake j s'
                = RpcClient.with_calls
                    (<[j := RpcClient.with_stage
                              (RpcClient.Settled (inl m)) c]>
                       (RpcClient.calls s')) s')).
Proof.
  refine (conj _ (conj _ _)).
  - intros es k c r e es' s Hk s0 s'.
    destruct (fetch_answer_error es k c r e Hk)
      as (_ & Hpend & Hp0 & Hfl0 & Hc0 & Hsame).
    split; [exact (conj Hpend (conj Hp0 (conj Hfl0 (conj Hc0 Hsame)))) |].
    destruct (fetch_failure_is_kept es k c r e es' Hk)
      as (H1 & H2 & H3 & H4 & H5).
    split; [exact H1 |]. split; [exact H2 |]. split; [exact H3 |].
    split; [exact H4 |]. split; [exact H5 |].
    split; [exact (fetch_failure_fails es k c r e es' Hk) |]. split.
    + intros u o. apply fetch_after_failure. exact Hk.
    + intros i fc Hi Hp. apply (fetch_wake_rejected _ _ _ _ r); assumption.
  - intros s i fc m Hi Ho Hr.
    rewrite (fetch_continue_rejected s i fc m Hi Ho Hr).
    unfold PyloidFetch.with_outcome. rewrite Hr. reflexivity.
  - intros i es k h e es' s Hk s0 s'.
    destruct (rpc_answer_error i es k h e Hk)
      as (r & Hcase & _ & Hpend & H0).
    destruct (rpc_failure_is_kept i es k h e es' Hk)
      as (r' & Hcase' & Hp' & Hrej & Hn1 & Hfl & Hfirst).
    assert (r' = r) as ->.
    { destruct Hcase as [-> | [u ->]]; destruct Hcase' as [H | [u' H]];
        inversion H; reflexivity. }
    exists r. split; [exact Hcase |]. split; [exact Hpend |].
    split; [exact H0 |]. split; [exact Hp' |]. split; [exact Hrej |].
    split; [exact Hn1 |]. split; [exact Hfl |]. split; [exact Hfirst |].
    split; [| split; [| split]].
    + intros url ->. apply rpc_window_id_failure. exact Hk.
    + intros m p.
      destruct (rpc_after_failure i es k h e es' m p Hk)
        as (r2 & Hr2 & A & B).
      assert (r2 = r) as -> by congruence.
      split; [exact A | exact B].
    + intros j c Hj Hst. apply (rpc_wake_rejected s' j c r); assumption.
    + intros j c m Hj Hst. apply rpc_wake_thrown; assumption.
Qed.

(** A failed [getServerUrl] of the fetch module, and a failed
    [getWindowId] of a client: the call that was waiting fails, a later one
    posts with [id] null. *)
Lemma failed_resolution_is_kept_witness :
  let o := {| PyloidFetch.headers := None; PyloidFetch.others := ∅ |} in
  let s := PyloidFetch.run PyloidFetch.init [PyloidFetch.Fetch "/a" o] in
  let s' := PyloidFetch.run
              (PyloidFetch.answer 0 (Err "Error: no bridge") s)
              [PyloidFetch.Fetch "/b" o;
               PyloidFetch.Wake 1 PyloidFetch.ServerUrl] in
  let t := RpcClient.run (RpcClient.constructor None)
             [RpcClient.Call "a" None;
              RpcClient.Answer 0 (Ok "http://h/rpc")] in
  let t' := RpcClient.run (RpcClient.answer 0 (Err "boom") t)
              [RpcClient.Wake 0; RpcClient.Wake 0] in
  PyloidFetch.inflight s !! 0 = Some (PyloidFetch.ServerUrl, 0)
  /\ PyloidFetch.cached PyloidFetch.ServerUrl s' = None
  /\ PyloidFetch.stored PyloidFetch.ServerUrl s' = Some 0
  /\ PyloidFetch.host_calls PyloidFetch.ServerUrl s' = 1
  /\ (PyloidFetch.ensureServerUrl <$> PyloidFetch.calls s')
     = [Awaiting 0; Thrown "Failed to get server URL: Error: no bridge"]
  /\ RpcClient.inflight t !! 0
     = Some (RpcClient.AskWindowId 0 "http://h/rpc")
  /\ RpcClient.endpoint t' = Some "http://h/rpc"
  /\ RpcClient.windowId t' = None
  /\ RpcClient.getWindowId_calls t' = 1
  /\ (RpcClient.stage <$> RpcClient.calls t')
     = [RpcClient.Settled (inl "Failed to get RPC endpoint: boom")]
  /\ (RpcClient.posted <$>
        RpcClient.calls (RpcClient.wake 1 (RpcClient.call "b" None t')))
     = [None;
        Some {| RpcClient.target := "http://h/rpc";
                RpcClient.http_method := "POST";
                RpcClient.http_headers :=
                  {[ "Content-Type" := "application/json" ]};
                RpcClient.body :=
                  {| RpcClient.jsonrpc := "2.0"; RpcClient.method := "b";
                     RpcClient.params := JS.VObj ∅;
                     RpcClient.id := None |} |}].
Proof.
  intros o s s' t t'.
  assert (PyloidFetch.inflight s !! 0 = Some (PyloidFetch.ServerUrl, 0))
    as Hk by reflexivity.
  assert (RpcClient.inflight t !! 0
          = Some (RpcClient.AskWindowId 0 "http://h/rpc")) as Hk'
    by reflexivity.
  destruct failed_resolution_is_kept as (F & _ & R).
  destruct (F [PyloidFetch.Fetch "/a" o] 0 PyloidFetch.ServerUrl 0
              "Error: no bridge"
              [PyloidFetch.Fetch "/b" o;
               PyloidFetch.Wake 1 PyloidFetch.ServerUrl] Hk)
    as (_ & H1 & H2 & _ & H4 & _).
  destruct (R None [RpcClient.Call "a" None;
                    RpcClient.Answer 0 (Ok "http://h/rpc")]
              0 _ "boom" [RpcClient.Wake 0; RpcClient.Wake 0] Hk')
    as (r & Hcase & _ & _ & _ & _ & _ & _ & _ & Hid & Hlater & _).
  assert (r = 0) as ->
    by (destruct Hcase as [H | [u H]]; inversion H; reflexivity).
  destruct (Hid "http://h/rpc" eq_refl) as (He & Hw & Hn & _).
  assert ("http://h/rpc" <> "") as Hne by discriminate.
  destruct (Hlater "b" None) as [_ Hpost].
  specialize (Hpost "http://h/rpc" He Hne).
  split; [exact Hk |]. split; [exact H1 |]. split; [exact H2 |].
  split; [exact H4 |]. split; [vm_compute; reflexivity |].
  split; [exact Hk' |]. split; [exact He |]. split; [exact Hw |].
  split; [exact Hn |]. split; [vm_compute; reflexivity |].
  refine (eq_trans
            (f_equal (fun x => RpcClient.posted <$> RpcClient.calls x) Hpost)
            _).
  vm_compute. reflexivity.
Defined.

End FailedResolution.

(** ** The session header of the enhanced fetch *)

Section SessionHeader.
Import Async PyloidFetch Delivery.

(** C5, as stated, fails.  The headers are merged as properties of an
    object, whose names are compared exactly, while header names are
    case-insensitive: a caller's [x-pyloid-window-id] is another property
    than the injected [X-Pyloid-Window-Id], is not overwritten, and the
    object handed to the platform [fetch] names the session header twice,
    once with the caller's value. *)
Lemma caller_spelling_is_passed_on :
  let o := {| headers :=
                Some (HeadersRecord {[ "x-pyloid-window-id" := "spoofed" ]});
              others := ∅ |} in
  let s := run init [Fetch "/a" o; Answer 0 (Ok "http://x/");
                     Answer 0 (Ok "w-1"); Wake 0 ServerUrl; Wake 0 WindowId;
                     Continue 0] in
  outcome <$> calls s
  = [Some (inr {| completeUrl := "http://x/a";
                  enhancedOptions :=
                    {| enhanced_headers :=
                         {[ "x-pyloid-window-id" := Text "spoofed";
                            "X-Pyloid-Window-Id" := Text "w-1" ]};
                       enhanced_others := ∅ |} |})]
  /\ Http.same_header "x-pyloid-window-id" session_header = true
  /\ Http.carried session_header
       {[ "x-pyloid-window-id" := Text "spoofed";
          "X-Pyloid-Window-Id" := Text "w-1" ]}
     = {[ "x-pyloid-window-id" := Text "spoofed";
          "X-Pyloid-Window-Id" := Text "w-1" ]}.
Proof. vm_compute. repeat split. Qed.

(** C5, amended.  Whatever the caller passes as [headers] (a record, a
    [Headers] instance, an array of pairs, or nothing):
    - the headers object handed to the platform [fetch] has the property
      [X-Pyloid-Window-Id] with the cached window id as its value, also
      when the caller supplied a property of exactly that name; every other
      property of the caller's headers, and every other option, is passed
      on unchanged; the caller's headers are the properties of a record,
      nothing for a [Headers] instance, the indices for an array of pairs;
    - so what the request carries under the session header, names compared
      as HTTP compares them, is the injected value together with the
      caller's properties that spell the name otherwise; it is the injected
      value alone when the caller has no such property;
    - in every run, a call whose two resolutions have returned hands to the
      platform the URL built from the cached base and its own path, with
      that headers object and its own other options; the window id in it is
      the non-empty value the host answered with. *)
Theorem session_header_is_injected :
  (forall (s : State) (o : RequestInit) (w : string),
     windowId s = Some w ->
     enhanced_headers (enhance o s) !! session_header = Some (Text w))
  /\ (forall (s : State) (o : RequestInit) (k : string),
        k <> session_header ->
        enhanced_headers (enhance o s) !! k = spread (headers o) !! k)
  /\ (forall (s : State) (o : RequestInit),
        enhanced_others (enhance o s) = others o)
  /\ (forall (s : State) (w : string) (rest : gmap string JS.Val),
        windowId s = Some w ->
        enhanced_headers (enhance {| headers := None; others := rest |} s)
        = {[ session_header := Text w ]}
        /\ (forall r : gmap string string,
              enhanced_headers
                (enhance {| headers := Some (HeadersRecord r);
                            others := rest |} s)
              = <[session_header := Text w]> (Text <$> r))
        /\ (forall entries : list (string * string),
              enhanced_headers
                (enhance {| headers := Some (HeadersInstance entries);
                            others := rest |} s)
              = {[ session_header := Text w ]})
        /\ (forall pairs : list (list string),
              enhanced_headers
                (enhance {| headers := Some (HeadersPairs pairs);
                            others := rest |} s)
              = <[session_header := Text w]>
                  (list_to_map
                     (imap (fun i p => (pretty i, Pair p)) pairs))))
  /\ (forall (s : State) (o : RequestInit) (w : string),
        windowId s = Some w ->
        Http.carried session_header (enhanced_headers (enhance o s))
        = <[session_header := Text w]>
            (Http.carried session_header (spread (headers o))))
  /\ (forall (s : State) (o : RequestInit) (w : string),
        windowId s = Some w ->
        (forall k, k <> session_header ->
           Http.same_header k session_header = true ->
           spread (headers o) !! k = None) ->
        Http.carried session_header (enhanced_headers (enhance o s))
        = {[ session_header := Text w ]})
  /\ (forall (s : State) (u : string) (o : RequestInit),
        request u o s
        = let enhancedOptions :=
            {| enhanced_headers :=
                 <[session_header :=
                     match windowId s with
                     | Some w => Text w
                     | None => Null
                     end]> (spread (headers o));
               enhanced_others := others o |} in
          match serverUrl s with
          | Some base =>
              inr {| completeUrl := Url.buildUrl base u;
                     enhancedOptions := enhancedOptions |}
          | None =>
              if JS.startsWith u "http://" || JS.startsWith u "https://"
              then inr {| completeUrl := u;
                          enhancedOptions := enhancedOptions |}
              else inl "TypeError"
          end)
  /\ (forall (es : list Event) (fc : FetchCall) (q : Sent),
        let s := run init es in
        fc ∈ calls s -> outcome fc = Some (inr q) ->
        exists base w r,
          serverUrl s = Some base /\ windowId s = Some w /\ w <> ""
          /\ windowIdPromise s = Some r
          /\ promises s !! r = Some (Fulfilled w)
          /\ q = {| completeUrl := Url.buildUrl base (url fc);
                    enhancedOptions :=
                      {| enhanced_headers :=
                           <[session_header := Text w]>
                             (spread (headers (options fc)));
                         enhanced_others := others (options fc) |} |})
  /\ (forall (es : list Event) (i : nat) (fc : FetchCall),
        let s := run init es in
        calls s !! i = Some fc ->
        ensureServerUrl fc = Returned -> ensureWindowId fc = Returned ->
        outcome fc = None ->
        exists base w,
          serverUrl s = Some base /\ windowId s = Some w
          /\ continue i s
             = with_calls
                 (<[i := {| url := url fc; options := options fc;
                            ensureServerUrl := Returned;
                            ensureWindowId := Returned;
                            rejection := None;
                            outcome :=
                              Some (inr
                                {| completeUrl :=
                                     Url.buildUrl base (url fc);
                                   enhancedOptions :=
                                     {| enhanced_headers :=
                                          <[session_header := Text w]>
                                            (spread (headers (options fc)));
                                        enhanced_others :=
                                          others (options fc) |} |}) |}]>
                    (calls s)) s)
  /\ (forall (es : list Event) (k r : nat) (w : string)
             (es' : list Event),
        let s := run init es in
        inflight s !! k = Some (WindowId, r) ->
        windowId (run (answer k (Ok w) s) es') = Some w).
Proof.
  refine (conj _ (conj _ (conj _ (conj _ (conj _ (conj _ (conj _ (conj _
           (conj _ _))))))))).
  - intros s o w Hw. unfold enhance. simpl. rewrite Hw.
    apply lookup_insert_eq.
  - intros s o k Hk. unfold enhance. simpl.
    apply lookup_insert_ne. congruence.
  - reflexivity.
  - intros s w rest Hw. unfold enhance. simpl. rewrite Hw.
    split; [apply insert_empty |]. split; [reflexivity |].
    split; [intros _; apply insert_empty | reflexivity].
  - intros s o w Hw. unfold enhance, Http.carried. simpl. rewrite Hw.
    apply map_filter_insert_True. reflexivity.
  - intros s o w Hw Hnone. unfold enhance, Http.carried. simpl. rewrite Hw.
    rewrite map_filter_insert_True by reflexivity.
    rewrite <- insert_empty. apply map_eq. intros k.
    destruct (decide (k = session_header)) as [-> | Hk].
    + rewrite !lookup_insert_eq. reflexivity.
    + rewrite !lookup_insert_ne by congruence.
      rewrite lookup_empty. apply map_lookup_filter_None.
      destruct (Http.same_header k session_header) eqn:Hsame.
      * left. exact (Hnone k Hk Hsame).
      * right. intros x _. simpl. rewrite Hsame. discriminate.
  - intros s u o. unfold request, enhance, is_absolute.
    destruct (serverUrl s); reflexivity.
  - intros es fc q s Hfc Hq.
    pose proof (reachable_inv es) as [Hs Hcalls]. fold s in Hs, Hcalls.
    destruct (Hcalls fc Hfc) as [_ Ho]. unfold outcome_ok in Ho.
    rewrite Hq in Ho. destruct Ho as (base & w & Hb & Hw & Hf & ->).
    destruct (cache_ok_cached WindowId s w (proj1 Hs WindowId) Hw)
      as (r & Hr & Hp & _).
    exists base, w, r. split; [exact Hb |]. split; [exact Hw |].
    split; [simpl in Hf; apply String.eqb_neq, Hf |].
    split; [exact Hr |]. split; [exact Hp | reflexivity].
  - intros es i fc s Hi HS HW Hout.
    assert (fc ∈ calls s) as Hfc by (apply list_elem_of_lookup; eauto).
    pose proof (reachable_inv es) as [Hs Hcalls]. fold s in Hs, Hcalls.
    destruct (Hcalls fc Hfc) as [Hprog _].
    pose proof (Hprog ServerUrl) as H1. pose proof (Hprog WindowId) as H2.
    simpl in H1, H2. rewrite HS in H1. rewrite HW in H2.
    destruct H1 as (base & Hb & _). destruct H2 as (w & Hw & _).
    simpl in Hb, Hw.
    destruct (reachable_decided es fc Hfc) as [_ Hrej].
    assert (rejection fc = None) as Hnone.
    { unfold rejected_by in Hrej.
      destruct (rejection fc) as [m |]; [| reflexivity].
      destruct Hrej as [[|] Hc]; simpl in Hc; congruence. }
    exists base, w. split; [exact Hb |]. split; [exact Hw |].
    unfold continue. rewrite Hi, Hout, Hnone, HS, HW.
    unfold request, enhance, with_outcome. rewrite Hb, Hw, HS, HW, Hnone.
    reflexivity.
  - intros es k r w es' s Hk.
    pose proof (reachable_inv es) as Hinv. fold s in Hinv.
    destruct (answer_inv k (Ok w) s Hinv) as [Hinv0 _].
    destruct (run_inv (answer k (Ok w) s) es' Hinv0) as [_ (_ & Hkeep & _)].
    apply (Hkeep WindowId w).
    unfold answer. rewrite Hk. reflexivity.
Qed.

(** The caller tries to set the session header itself, spelled exactly. *)
Lemma session_header_is_injected_witness :
  let o := {| headers :=
                Some (HeadersRecord {[ "X-Pyloid-Window-Id" := "spoofed";
                                       "Accept" := "text/plain" ]});
              others := {[ "method" := JS.VStr "POST" ]} |} in
  let es := [Fetch "/a" o; Answer 0 (Ok "http://x/"); Answer 0 (Ok "w-1");
             Wake 0 ServerUrl; Wake 0 WindowId] in
  let s := run init es in
  let fc := {| url := "/a"; options := o; ensureServerUrl := Returned;
               ensureWindowId := Returned; rejection := None;
               outcome := None |} in
  calls s !! 0 = Some fc
  /\ windowId s = Some "w-1"
  /\ (outcome <$> calls (continue 0 s))
     = [Some (inr {| completeUrl := "http://x/a";
                     enhancedOptions :=
                       {| enhanced_headers :=
                            {[ "X-Pyloid-Window-Id" := Text "w-1";
                               "Accept" := Text "text/plain" ]};
                          enhanced_others :=
                            {[ "method" := JS.VStr "POST" ]} |} |})]
  /\ Http.carried session_header (enhanced_headers (enhance o s))
     = {[ session_header := Text "w-1" ]}.
Proof.
  intros o es s fc.
  assert (calls s !! 0 = Some fc) as Hi by reflexivity.
  assert (windowId s = Some "w-1") as Hw by reflexivity.
  destruct session_header_is_injected
    as (_ & _ & _ & _ & _ & H5 & _ & _ & H8 & _).
  split; [exact Hi |]. split; [exact Hw |]. split.
  - destruct (H8 es 0 fc Hi eq_refl eq_refl eq_refl)
      as (base & w & Hb & Hw' & Hc).
    assert (Some base = Some "http://x/") as Eb
      by (rewrite <- Hb; reflexivity).
    assert (Some w = Some "w-1") as Ew by (rewrite <- Hw'; reflexivity).
    inversion Eb; inversion Ew; subst base w.
    fold s in Hc. rewrite Hc. vm_compute. reflexivity.
  - apply (H5 s o "w-1" Hw).
    intros k Hk Hsame. unfold session_header in Hk.
    change (spread (headers o))
      with (Text <$> ({[ "X-Pyloid-Window-Id" := "spoofed";
                         "Accept" := "text/plain" ]} : gmap string string)).
    rewrite lookup_fmap.
    destruct (decide (k = "Accept")) as [-> | Hne];
      [vm_compute in Hsame; discriminate Hsame |].
    rewrite lookup_insert_ne by congruence.
    rewrite lookup_singleton_ne by congruence.
    reflexivity.
Defined.

End SessionHeader.

(** ** The contract of [RpcClient.call] *)

Section CallContract.
Import Async RpcClient Delivery.

(** C7, as stated, fails.  A call made between the host's two answers
    finds the endpoint, does not wait, and is sent with [id] null although
    the client gets its window id a moment later (the first call carries
    it).  Its response has an [error] member that is no object, a string:
    the call fails all the same, and the error exposes neither a code nor a
    message.  The response to the first call is the JSON text [null]: that
    call fails too, with the engine's TypeError. *)
Lemma envelope_without_session_id :
  let engine :=
    {| cannot_read_null := "Cannot read properties of null (reading 'error')";
       cannot_convert := "Cannot convert object to primitive value" |} in
  let s := run (constructor None)
             [Call "init" None; Answer 0 (Ok "http://h/rpc");
              Call "ping" None; Wake 1;
              Answer 0 (Ok "w-1"); Wake 0; Wake 0;
              Respond 1
                (Parsed engine (Json.Object {[ "error" := Json.Str "boom" ]}));
              Respond 0 (Parsed engine Json.Null)] in
  windowId s = Some "w-1"
  /\ sent s
     = [{| jsonrpc := "2.0"; method := "init"; params := JS.VObj ∅;
           id := Some "w-1" |};
        {| jsonrpc := "2.0"; method := "ping"; params := JS.VObj ∅;
           id := None |}]
  /\ stage <$> calls s
     = [Settled (inl "Cannot read properties of null (reading 'error')");
        Settled (inl "RPC Error: undefined (Code: undefined)")].
Proof. vm_compute. repeat split. Qed.

(** C7, amended.  In every run of a client, however it was built:
    - a request handed to the platform [fetch] is a POST to the client's
      endpoint with the header [Content-Type: application/json] and the
      envelope [{jsonrpc: "2.0", method, params, id}], with the call's own
      method, its own params or [{}] where they were omitted, and with [id]
      null or the client's window id;
    - the envelope is built by the continuation that follows
      [ensureEndpointInitialized], and its [id] is the [windowId] field of
      that moment;
    - so a call that found the endpoint missing and had to wait, and a call
      made once the window id is known, carry the window id; that window id
      is what the host answered to the one [getWindowId] call;
    - with the parsed response in hand, the call fails when the response is
      null (with the engine's TypeError) and when its [error] member is
      truthy, and only then: with "RPC Error: <message> (Code: <code>)",
      both members printed as a template literal prints them, or with a
      TypeError when one of them cannot be printed; otherwise it resolves
      with the [result] member.  An [error] member that is an object with a
      string [message] and a numeric [code] gives the message and the code
      as they are. *)
Theorem rpc_call_contract :
  (forall (i : option string) (es : list Event) (c : RpcCall) (q : Post),
     let s := run (constructor i) es in
     c ∈ calls s -> posted c = Some q ->
     exists url,
       endpoint s = Some url /\ url <> ""
       /\ q = {| target := url; http_method := "POST";
                 http_headers := {[ "Content-Type" := "application/json" ]};
                 body := {| jsonrpc := "2.0"; method := call_method c;
                            params := match call_params c with
                                      | None | Some JS.VUndefined => JS.VObj ∅
                                      | Some v => v
                                      end;
                            id := id (body q) |} |}
       /\ (id (body q) = None \/ id (body q) = windowId s))
  /\ (forall (i : option string) (es : list Event) (j : nat) (c : RpcCall),
        let s := run (constructor i) es in
        calls s !! j = Some c -> stage c = Ensuring Returned ->
        exists url,
          endpoint s = Some url
          /\ wake j s
             = with_calls
                 (<[j := {| call_method := call_method c;
                            call_params := call_params c;
                            waited := waited c; stage := Posting;
                            posted :=
                              Some {| target := url; http_method := "POST";
                                      http_headers :=
                                        {[ "Content-Type"
                                             := "application/json" ]};
                                      body :=
                                        {| jsonrpc := "2.0";
                                           method := call_method c;
                                           params :=
                                             match call_params c with
                                             | None | Some JS.VUndefined =>
                                                 JS.VObj ∅
                                             | Some v => v
                                             end;
                                           id := windowId s |} |} |}]>
                    (calls s)) s)
  /\ (forall (i : option string) (es1 : list Event) (m : string)
             (p : option JS.Val) (es2 : list Event),
        let s1 := run (constructor i) es1 in
        let s := run s1 (Call m p :: es2) in
        exists c,
          calls s !! length (calls s1) = Some c
          /\ call_method c = m /\ call_params c = p
          /\ (JS.falsy_str (endpoint s1) = true ->
              forall q, posted c = Some q ->
                exists wid,
                  windowId s = Some wid /\ id (body q) = Some wid)
          /\ (forall wid, windowId s1 = Some wid ->
              forall q, posted c = Some q -> id (body q) = Some wid))
  /\ (forall (i : option string) (es : list Event) (k r : nat)
             (url wid : string) (es' : list Event),
        let s := run (constructor i) es in
        inflight s !! k = Some (AskWindowId r url) ->
        let s' := run (answer k (Ok wid) s) es' in
        windowId s' = Some wid /\ getWindowId_calls s' = 1)
  /\ (forall engine : Engine,
        on_response engine Json.Null = inl (cannot_read_null engine))
  /\ (forall (engine : Engine) (d : Json.Value),
        d <> Json.Null ->
        Json.truthy (Json.member d "error") = false ->
        on_response engine d = inr (Json.member d "result"))
  /\ (forall (engine : Engine) (d e : Json.Value),
        d <> Json.Null ->
        Json.member d "error" = Some e -> Json.truthy (Some e) = true ->
        on_response engine d
        = match Json.interpolate (Json.member e "message"),
                Json.interpolate (Json.member e "code") with
          | Some message, Some code =>
              inl ("RPC Error: " +:+ message +:+ " (Code: " +:+ code +:+ ")")
          | _, _ => inl (cannot_convert engine)
          end)
  /\ (forall (engine : Engine) (d : Json.Value),
        (exists m, on_response engine d = inl m)
        <-> d = Json.Null \/ Json.truthy (Json.member d "error") = true)
  /\ (forall (engine : Engine) (ms em : gmap string Json.Value)
             (message code : string) (zero : bool),
        ms !! "error" = Some (Json.Object em) ->
        em !! "message" = Some (Json.Str message) ->
        em !! "code" = Some (Json.Number zero code) ->
        on_response engine (Json.Object ms)
        = inl ("RPC Error: " +:+ message +:+ " (Code: " +:+ code +:+ ")"))
  /\ (forall (s : State) (j : nat) (c : RpcCall) (t : Transport),
        calls s !! j = Some c -> stage c = Posting ->
        respond j t s
        = with_calls
            (<[j := {| call_method := call_method c;
                       call_params := call_params c; waited := waited c;
                       stage :=
                         Settled
                           match t with
                           | NetworkError reason | NotJson reason =>
                               inl reason
                           | Parsed engine d => on_response engine d
                           end;
                       posted := posted c |}]> (calls s)) s)
  /\ (forall engine : Engine,
        on_response engine
          (Json.Object
             {[ "jsonrpc" := Json.Str "2.0";
                "error" :=
                  Json.Object
                    {[ "code" := Json.Number false "-32601";
                       "message" := Json.Str "Method not found" ]};
                "id" := Json.Str "w-1" ]})
        = inl "RPC Error: Method not found (Code: -32601)").
Proof.
  refine (conj _ (conj _ (conj _ (conj _ (conj _ (conj _ (conj _
           (conj _ (conj _ (conj _ _)))))))))).
  - intros i es c q s Hc Hq.
    destruct (reachable_posts i es c q Hc Hq) as [s0 Hs0].
    assert (Some (target q) = endpoint s
            /\ (id (body q) = None \/ id (body q) = windowId s)) as [Ht Hid].
    { destruct (rpc_reachable i es) as [(_ & _ & Hcalls) | (e & He)];
        fold s in Hcalls || fold s in He.
      - destruct (Hcalls c Hc) as [_ Hp].
        destruct (Hp q Hq) as (_ & _ & _ & _ & Ht & Hid & _). auto.
      - destruct He as (_ & _ & _ & _ & _ & _ & Hcalls).
        destruct (Hcalls c Hc) as (_ & _ & _ & Hp).
        destruct (Hp q Hq) as (_ & _ & _ & _ & Ht & Hid & _). auto. }
    exists (target q). split; [auto |].
    split; [apply falsy_str_Some; exact (reachable_addressed i es c Hc q Hq) |].
    split; [| exact Hid].
    rewrite Hs0. reflexivity.
  - intros i es j c s Hj Hst.
    assert (c ∈ calls s) as Hc by (apply list_elem_of_lookup; eauto).
    assert (exists url, endpoint s = Some url) as [url Hu].
    { destruct (rpc_reachable i es) as [(_ & _ & Hcalls) | (e & He)];
        fold s in Hcalls || fold s in He.
      - destruct (Hcalls c Hc) as [Hs _]. unfold stage_ok in Hs.
        rewrite Hst in Hs. destruct Hs as (_ & Hf & _).
        destruct (endpoint s); [eauto | discriminate].
      - destruct He as (He & _). eauto. }
    exists url. split; [exact Hu |].
    unfold wake. rewrite Hj, Hst. unfold with_post, post, envelope.
    rewrite Hu. reflexivity.
  - intros i es1 m p es2 s1 s.
    set (c0 := {| call_method := m; call_params := p;
                  waited := JS.falsy_str (endpoint s1);
                  stage := Ensuring (ensureEndpointInitialized s1).1;
                  posted := None |}).
    assert (calls (call m p s1) !! length (calls s1) = Some c0) as H0.
    { rewrite call_calls, lookup_app_r, Nat.sub_diag by lia. reflexivity. }
    destruct (run_keeps_call es2 (call m p s1) _ c0 H0)
      as (c & Hj & Hm & Hp & Hw).
    exists c. split; [exact Hj |]. split; [exact Hm |]. split; [exact Hp |].
    assert (c ∈ calls s) as Hc by (apply list_elem_of_lookup; eauto).
    assert (s = run (constructor i) (es1 ++ Call m p :: es2)) as Hs
      by (rewrite rpc_run_app; reflexivity).
    split.
    + intros Hf q Hq. simpl in Hw. rewrite Hf in Hw.
      destruct (rpc_reachable i (es1 ++ Call m p :: es2))
        as [(_ & _ & Hcalls) | (e & He)];
        rewrite <- Hs in Hcalls || rewrite <- Hs in He.
      * destruct (Hcalls c Hc) as [_ Hpo].
        destruct (Hpo q Hq) as (_ & _ & _ & _ & _ & _ & Hid).
        destruct (Hid Hw) as [Hid' [wid Hwid]].
        exists wid. split; [exact Hwid | congruence].
      * destruct He as (_ & _ & _ & _ & _ & _ & Hcalls).
        destruct (Hcalls c Hc) as (Hwf & _). congruence.
    + intros wid Hwid q Hq.
      destruct (rpc_reachable i es1) as [Hinv | (e & He)];
        fold s1 in Hinv || fold s1 in He;
        [| destruct He as (_ & _ & Hnone & _); congruence].
      destruct (rpc_call_inv m p s1 Hinv) as [Hinv1 (_ & _ & Hkeep & _)].
      refine (run_carries wid (length (calls s1)) es2 (call m p s1) Hinv1
                (Hkeep wid Hwid) _ (length (calls s1)) c q (le_n _) Hj Hq).
      intros n c' q' Hn Hin Hq'. rewrite call_calls in Hin.
      apply lookup_app_Some in Hin as [Hin | [_ Hin]].
      * apply lookup_lt_Some in Hin. lia.
      * destruct (n - length (calls s1)); simpl in Hin; [| discriminate].
        inversion Hin; subst c'. discriminate.
  - intros i es k r url wid es' s Hk s'.
    assert (AskWindowId r url ∈ inflight s) as Hin
      by (apply list_elem_of_lookup; eauto).
    destruct (rpc_inflight_cases i es _ Hin)
      as (Hinv & r0 & _ & Hpend & _ & _
          & [(Hh & _) | (u & Hh & Hfl & _ & Hn)]);
      [discriminate |].
    fold s in Hinv, Hpend, Hfl, Hn. inversion Hh; subst r0 u. clear Hh.
    assert (k = 0) as ->
      by (rewrite Hfl in Hk; destruct k; [reflexivity | discriminate]).
    destruct (rpc_answer_inv 0 (Ok wid) s Hinv) as [Hinv0 _].
    destruct (rpc_run_inv (answer 0 (Ok wid) s) es' Hinv0)
      as [Hinv' (_ & _ & Hkeep & _)].
    fold s' in Hinv', Hkeep.
    assert (windowId (answer 0 (Ok wid) s) = Some wid) as Hw0
      by (unfold answer; rewrite Hfl; reflexivity).
    split; [exact (Hkeep wid Hw0) |].
    assert (getWindowId_calls (answer 0 (Ok wid) s) = 1) as Hn0
      by (unfold answer; rewrite Hfl; simpl; exact Hn).
    destruct Hinv' as (Hl & _). pose proof (Hkeep wid Hw0) as Hw'.
    unfold lazy_ok in Hl.
    destruct (endpointPromise s') as [r' |];
      [| destruct Hl as (_ & Hnone & _); congruence].
    destruct Hl as [_ Hl].
    destruct (promises s' !! r') as [[| v | x] |]; try contradiction.
    + destruct Hl as (Hnone & _). congruence.
    + destruct Hl as (_ & _ & Hn' & _). exact Hn'.
    + destruct Hl as (_ & Hnone & _). congruence.
  - reflexivity.
  - intros engine d Hd Hf. unfold on_response.
    destruct d; try contradiction; try reflexivity.
    unfold Json.member in *.
    destruct (members !! "error") as [e |]; [| reflexivity].
    rewrite Hf. reflexivity.
  - intros engine d e Hd He Ht. unfold on_response.
    destruct d; try contradiction; try discriminate.
    rewrite He, Ht. reflexivity.
  - intros engine d. unfold on_response. split.
    + intros [m Hm]. destruct d; try discriminate; [left; reflexivity |].
      right. unfold Json.member in *.
      destruct (members !! "error") as [e |] eqn:He; [| discriminate].
      destruct (Json.truthy (Some e)) eqn:Ht; [reflexivity | discriminate].
    + intros [-> | Ht]; [eauto |].
      destruct d; try discriminate. unfold Json.member in *.
      destruct (members !! "error") as [e |] eqn:He; [| discriminate].
      rewrite Ht.
      destruct (Json.interpolate _); [| eauto].
      destruct (Json.interpolate _); eauto.
  - intros engine ms em message code zero He Hm Hc.
    unfold on_response, Json.member. rewrite He.
    change (Json.truthy (Some (Json.Object em))) with true. cbv iota.
    rewrite Hm, Hc. reflexivity.
  - intros s j c t Hj Hst. unfold respond. rewrite Hj, Hst. reflexivity.
  - intros engine. vm_compute. reflexivity.
Qed.

(** "ping" without params, racing a first call on a client built without
    an endpoint; the response of the scenario. *)
Lemma rpc_call_contract_witness :
  let engine :=
    {| cannot_read_null := "Cannot read properties of null (reading 'error')";
       cannot_convert := "Cannot convert object to primitive value" |} in
  let d :=
    Json.Object
      {[ "jsonrpc" := Json.Str "2.0";
         "error" :=
           Json.Object {[ "code" := Json.Number false "-32601";
                          "message" := Json.Str "Method not found" ]};
         "id" := Json.Str "w-1" ]} in
  let es1 := [Call "init" None] in
  let es2 := [Answer 0 (Ok "http://h/rpc"); Answer 0 (Ok "w-1");
              Wake 1; Wake 1; Respond 1 (Parsed engine d)] in
  let s1 := run (constructor None) es1 in
  let s := run s1 (Call "ping" None :: es2) in
  JS.falsy_str (endpoint s1) = true
  /\ windowId s = Some "w-1"
  /\ calls s !! 1
     = Some {| call_method := "ping"; call_params := None; waited := true;
               stage :=
                 Settled (inl "RPC Error: Method not found (Code: -32601)");
               posted :=
                 Some {| target := "http://h/rpc"; http_method := "POST";
                         http_headers :=
                           {[ "Content-Type" := "application/json" ]};
                         body := {| jsonrpc := "2.0"; method := "ping";
                                    params := JS.VObj ∅;
                                    id := Some "w-1" |} |} |}
  /\ forall c q, calls s !! 1 = Some c -> posted c = Some q ->
       id (body q) = Some "w-1".
Proof.
  intros engine d es1 es2 s1 s.
  assert (JS.falsy_str (endpoint s1) = true) as Hf by reflexivity.
  split; [exact Hf |]. split; [reflexivity |].
  split; [vm_compute; reflexivity |].
  intros c q Hc Hq.
  destruct rpc_call_contract as (_ & _ & H & _).
  destruct (H None es1 "ping" None es2) as (c' & Hc' & _ & _ & Hid & _).
  change (calls (run (run (constructor None) es1) (Call "ping" None :: es2))
            !! length (calls (run (constructor None) es1)) = Some c')
    with (calls s !! 1 = Some c') in Hc'.
  rewrite Hc in Hc'. inversion Hc'; subst c'.
  destruct (Hid Hf q Hq) as (wid & Hw & Hq').
  assert (Some wid = Some "w-1") as E by (rewrite <- Hw; reflexivity).
  inversion E; subst wid. exact Hq'.
Defined.

End CallContract.
